(** * Pedigree schema layer and analysis engine: a shallow embedding

    Source files embedded here:
    - [src/pedigree_builder.py]  (normalisation, validation, ingestion,
                                  GEDCOM export)
    - [src/analysis_engine.py]   (graph, cycle heuristic, inheritance flags,
                                  risk bucket)
    - [src/data_extractor.py]    (payload in a text, pseudonymisation)
    - [src/llm_chat.py]          (prompt, offline answer, splitting of the
                                  answer)

    Python values that come out of [json.loads] are modelled by the type
    [json]; Python exceptions by the error monad [result].  Text is ASCII:
    [str.lower], [str.strip] and [str.splitlines] are modelled on code points
    below 128.  The one character of the sources above 127, the dash of the
    prompt template, is written as its UTF-8 bytes, which these functions
    leave alone. *)

From Stdlib Require Import ZArith String Ascii List Lia SpecFloat QArith Qminmax
  DecimalString Sorted.
From stdpp Require Import base list strings gmap relations.

Local Open Scope string_scope.
Local Open Scope Z_scope.

(** ** Python values *)

(** A value produced by [json.loads].  Dictionaries keep insertion order, so
    they are association lists; a float is its IEEE-754 datum. *)
#[warnings="-register-all"]
Inductive json : Type :=
| JNull
| JBool (b : bool)
| JInt (z : Z)
| JFloat (f : spec_float)
| JStr (s : string)
| JList (l : list json)
| JDict (d : list (string * json)).

(** Exceptions that the modelled code can raise.  The text of a
    [PedigreeValidationError] is kept structured: one constructor per message
    of [validate_pedigree], with the values its f-string interpolates. *)
Inductive reason : Type :=
| InvalidJSON (diagnostic : string)
| NotAnObject
| MissingTopLevelKeys
| PersonNotObject
| PersonMissingKeys (missing : list string)
| IdNotInteger
| UnsupportedGender (v : json)
| InvalidDob (v : json)
| ConditionsNotList
| UnknownPersonId
| UnsupportedRelationshipType (t : string)
| UnknownValidationError.

Inductive exn : Type :=
| AttributeError
| TypeError
| KeyError
| ValueError
| RecursionError
| NetworkXError
| PedigreeValidationError (r : reason).

(** [isinstance(e, ValueError)]: the source declares
    [class PedigreeValidationError(ValueError)], so an [except ValueError]
    catches both. *)
Definition is_ValueError (e : exn) : bool :=
  match e with
  | ValueError | PedigreeValidationError _ => true
  | _ => false
  end.

(** How [json.loads] fails: with [json.JSONDecodeError] and its diagnostic,
    or with another exception, such as the [ValueError] of an integer
    literal beyond the digit limit and the [RecursionError] of a text
    nested too deep. *)
Inductive loads_failure : Type :=
| JSONDecodeError (diagnostic : string)
| LoadsRaises (e : exn).

Inductive result (A : Type) : Type :=
| Ok (a : A)
| Raise (e : exn).
Arguments Ok {A} a.
Arguments Raise {A} e.

Definition bind {A B} (m : result A) (k : A -> result B) : result B :=
  match m with
  | Ok a => k a
  | Raise e => Raise e
  end.

Notation "x <- m ;; k" := (bind m (fun x => k))
  (at level 100, m at next level, right associativity).

(** [for x in xs: body], threading an accumulator and stopping at the first
    exception. *)
Fixpoint for_each {A S} (body : S -> A -> result S) (xs : list A) (s : S)
  : result S :=
  match xs with
  | [] => Ok s
  | x :: xs' => s' <- body s x ;; for_each body xs' s'
  end.

(** [[f(x) for x in xs]] for a fallible [f]. *)
Fixpoint map_result {A B} (f : A -> result B) (xs : list A) : result (list B) :=
  match xs with
  | [] => Ok []
  | x :: xs' => y <- f x ;; ys <- map_result f xs' ;; Ok (y :: ys)
  end.

(** The outcome of one check of the validator: continue with a state, or
    return [(False, reason)]. *)
Inductive verdict (S : Type) : Type :=
| Continue (s : S)
| Reject (r : reason).
Arguments Continue {S} s.
Arguments Reject {S} r.

(** A [for] loop whose body may [return] early. *)
Fixpoint check_each {A S} (body : S -> A -> result (verdict S))
    (xs : list A) (s : S) : result (verdict S) :=
  match xs with
  | [] => Ok (Continue s)
  | x :: xs' =>
      v <- body s x ;;
      match v with
      | Continue s' => check_each body xs' s'
      | Reject r => Ok (Reject r)
      end
  end.

(** ** Dictionaries with insertion order *)

Section Dict.
Context {K V : Type} `{EqDecision K}.

Fixpoint dict_get (k : K) (d : list (K * V)) : option V :=
  match d with
  | [] => None
  | (k', v) :: d' => if decide (k = k') then Some v else dict_get k d'
  end.

Definition dict_has (k : K) (d : list (K * V)) : bool :=
  match dict_get k d with Some _ => true | None => false end.

(** [d[k] = v]: overwrite in place, or append a new key. *)
Fixpoint dict_set (k : K) (v : V) (d : list (K * V)) : list (K * V) :=
  match d with
  | [] => [(k, v)]
  | (k', v') :: d' =>
      if decide (k = k') then (k', v) :: d' else (k', v') :: dict_set k v d'
  end.

(** [d.get(k, dflt)] *)
Definition dict_get_default (k : K) (dflt : V) (d : list (K * V)) : V :=
  match dict_get k d with Some v => v | None => dflt end.

Definition dict_keys (d : list (K * V)) : list K := map fst d.
End Dict.

(** ** Strings *)

Definition is_space (c : ascii) : bool :=
  let n := nat_of_ascii c in
  ((9 <=? n)%nat && (n <=? 13)%nat) || ((28 <=? n)%nat && (n <=? 32)%nat).

Definition lower_char (c : ascii) : ascii :=
  let n := nat_of_ascii c in
  if ((65 <=? n)%nat && (n <=? 90)%nat) then ascii_of_nat (n + 32) else c.

Fixpoint drop_spaces (l : list ascii) : list ascii :=
  match l with
  | [] => []
  | c :: l' => if is_space c then drop_spaces l' else l
  end.

(** [s.lower()] *)
Definition str_lower (s : string) : string :=
  string_of_list_ascii (map lower_char (list_ascii_of_string s)).

(** Leading, then trailing white space removed. *)
Definition strip_list (l : list ascii) : list ascii :=
  rev (drop_spaces (rev (drop_spaces l))).

(** [s.strip()] *)
Definition str_strip (s : string) : string :=
  string_of_list_ascii (strip_list (list_ascii_of_string s)).

(** Iterating over a string yields its one-character strings. *)
Definition str_chars (s : string) : list string :=
  map (fun c => String c EmptyString) (list_ascii_of_string s).

(** ** Dynamic operations *)

(** [iter(v)]: lists yield their items, strings their characters, dicts their
    keys; everything else is not iterable. *)
Definition py_iter (v : json) : result (list json) :=
  match v with
  | JList l => Ok l
  | JStr s => Ok (map JStr (str_chars s))
  | JDict d => Ok (map JStr (dict_keys d))
  | _ => Raise TypeError
  end.

(** The integer a float is equal to, if any ([1.0 == 1]). *)
Definition float_integer (f : spec_float) : option Z :=
  match f with
  | S754_zero _ => Some 0
  | S754_finite s m e =>
      let mag :=
        if (0 <=? e) then Some (Z.pos m * 2 ^ e)
        else if (Z.pos m mod 2 ^ (- e) =? 0) then Some (Z.pos m / 2 ^ (- e))
        else None in
      match mag with
      | Some n => Some (if s then - n else n)
      | None => None
      end
  | _ => None
  end.

(** The integer a value compares equal to under Python's [==]: [True == 1],
    [1.0 == 1]. *)
Definition as_integer (v : json) : option Z :=
  match v with
  | JInt z => Some z
  | JBool b => Some (if b then 1 else 0)
  | JFloat f => float_integer f
  | _ => None
  end.

(** [hash(v)] raises [TypeError] on lists and dicts. *)
Definition hashable (v : json) : bool :=
  match v with
  | JList _ | JDict _ => false
  | _ => true
  end.

(** [v in ids] for a set [ids] of integers. *)
Definition in_int_set (v : json) (ids : list Z) : result bool :=
  if hashable v then
    match as_integer v with
    | Some z => Ok (bool_decide (z ∈ ids))
    | None => Ok false
    end
  else Raise TypeError.

(** [v in names] for a set [names] of strings. *)
Definition in_str_set (v : json) (names : list string) : result bool :=
  if hashable v then
    match v with
    | JStr s => Ok (bool_decide (s ∈ names))
    | _ => Ok false
    end
  else Raise TypeError.

(** ** [src/pedigree_builder.py] *)

Definition ALLOWED_GENDERS : list string := ["M"; "F"; "O"].
Definition ALLOWED_RELATIONSHIP_TYPES : list string :=
  ["parent"; "child"; "sibling"; "spouse"; "adopted"; "uncle"; "aunt"; "cousin"].

Section Schema.
(** [datetime.strptime(value, "%Y-%m-%d")] belongs to the Python standard
    library: whether it accepts a string is a parameter. *)
Variable strptime_ymd : string -> bool.
(** [json.loads] likewise: it returns the parsed value or fails. *)
Variable json_loads : string -> loads_failure + json.

Definition _is_valid_dob (value : json) : result bool :=
  match value with
  | JStr s => if decide (s = "approx") then Ok true else Ok (strptime_ymd s)
  | _ => Raise TypeError
  end.

Definition _normalize_relationship (raw : json) : result json :=
  match raw with
  | JDict d =>
      let from := dict_get_default "from" (dict_get_default "from_id" JNull d) d in
      let to := dict_get_default "to" (dict_get_default "to_id" JNull d) d in
      match dict_get_default "type" (JStr "") d with
      | JStr t =>
          Ok (JDict [("from", from); ("to", to);
                     ("type", JStr (str_strip (str_lower t)))])
      | _ => Raise AttributeError
      end
  | _ => Raise AttributeError
  end.

Definition default_pedigree : list (string * json) :=
  [("people", JList []); ("relationships", JList [])].

(** [copy.deepcopy] of a value is the value, on a stack that allows its
    recursion; see [deepcopy_limited] for the limit. *)
Definition deepcopy (v : json) : json := v.

(** One turn of the loop of [ensure_unique_ids]. *)
Definition repair_person (index : Z) (person : json) : result json :=
  match deepcopy person with
  | JDict d => Ok (JDict (dict_set "id" (JInt index) d))
  | _ => Raise TypeError
  end.

Fixpoint ensure_unique_ids_from (index : Z) (people : list json)
  : result (list json) :=
  match people with
  | [] => Ok []
  | person :: rest =>
      person_copy <- repair_person index person ;;
      repaired <- ensure_unique_ids_from (index + 1) rest ;;
      Ok (person_copy :: repaired)
  end.

Definition ensure_unique_ids (people : json) : result (list json) :=
  items <- py_iter people ;;
  ensure_unique_ids_from 1 items.

Definition normalize_pedigree (pedigree : json) : result json :=
  match pedigree with
  | JDict d =>
      people <- ensure_unique_ids (dict_get_default "people" (JList []) d) ;;
      rels <- py_iter (dict_get_default "relationships" (JList []) d) ;;
      normalized_relationships <- map_result _normalize_relationship rels ;;
      Ok (JDict (dict_set "relationships" (JList normalized_relationships)
                   (dict_set "people" (JList people) default_pedigree)))
  | _ => Raise AttributeError
  end.

Definition required_keys : list string :=
  ["id"; "name"; "gender"; "dob"; "conditions"].

(** [isinstance(v, int)], with the integer ([bool] is a subclass of [int]). *)
Definition int_value (v : json) : option Z :=
  match v with
  | JInt z => Some z
  | JBool b => Some (if b then 1 else 0)
  | _ => None
  end.

Definition is_list (v : json) : bool :=
  match v with JList _ => true | _ => false end.

(** [v[k]] for a string key [k]. *)
Definition py_getitem (v : json) (k : string) : result json :=
  match v with
  | JDict d =>
      match dict_get k d with Some x => Ok x | None => Raise KeyError end
  | _ => Raise TypeError
  end.

(** Body of the loop over people; the state is [person_ids]. *)
Definition validate_person (person_ids : list Z) (person : json)
  : result (verdict (list Z)) :=
  match person with
  | JDict d =>
      let missing := filter (fun k => dict_has k d = false) required_keys in
      match missing with
      | _ :: _ => Ok (Reject (PersonMissingKeys missing))
      | [] =>
          id <- py_getitem person "id" ;;
          match int_value id with
          | None => Ok (Reject IdNotInteger)
          | Some z =>
              let person_ids := (person_ids ++ [z])%list in
              gender <- py_getitem person "gender" ;;
              known <- in_str_set gender ALLOWED_GENDERS ;;
              if negb known then Ok (Reject (UnsupportedGender gender)) else
              dob <- py_getitem person "dob" ;;
              dob_ok <- _is_valid_dob dob ;;
              if negb dob_ok then Ok (Reject (InvalidDob dob)) else
              conditions <- py_getitem person "conditions" ;;
              if negb (is_list conditions) then Ok (Reject ConditionsNotList)
              else Ok (Continue person_ids)
          end
      end
  | _ => Ok (Reject PersonNotObject)
  end.

(** Body of the loop over relationships. *)
Definition validate_relationship (person_ids : list Z) (rel : json)
  : result (verdict unit) :=
  normalized_rel <- _normalize_relationship rel ;;
  from <- py_getitem normalized_rel "from" ;;
  from_known <- in_int_set from person_ids ;;
  if negb from_known then Ok (Reject UnknownPersonId) else
  to <- py_getitem normalized_rel "to" ;;
  to_known <- in_int_set to person_ids ;;
  if negb to_known then Ok (Reject UnknownPersonId) else
  type <- py_getitem normalized_rel "type" ;;
  allowed <- in_str_set type ALLOWED_RELATIONSHIP_TYPES ;;
  if negb allowed then Ok (Reject (UnsupportedRelationshipType
                                     (match type with JStr t => t | _ => "" end)))
  else Ok (Continue tt).

Definition validate_pedigree (pedigree : json) : result (bool * option reason) :=
  match pedigree with
  | JDict d =>
      match dict_get "people" d, dict_get "relationships" d with
      | Some people, Some relationships =>
          persons <- py_iter people ;;
          v <- check_each validate_person persons [] ;;
          match v with
          | Reject r => Ok (false, Some r)
          | Continue person_ids =>
              rels <- py_iter relationships ;;
              w <- check_each (fun _ => validate_relationship person_ids)
                     rels tt ;;
              match w with
              | Reject r => Ok (false, Some r)
              | Continue _ => Ok (true, None)
              end
          end
      | _, _ => Ok (false, Some MissingTopLevelKeys)
      end
  | _ => Ok (false, Some NotAnObject)
  end.

Definition load_json_payload (payload : string) : result json :=
  match json_loads payload with
  | inl (JSONDecodeError diagnostic) =>
      Raise (PedigreeValidationError (InvalidJSON diagnostic))
  | inl (LoadsRaises e) => Raise e
  | inr parsed =>
      normalized <- normalize_pedigree parsed ;;
      checked <- validate_pedigree normalized ;;
      let (is_valid, error) := checked in
      if negb is_valid
      then Raise (PedigreeValidationError (default UnknownValidationError error))
      else Ok normalized
  end.
End Schema.

(** ** The recursion limit

    [copy.deepcopy] recurses on the nesting of its argument and raises
    [RecursionError] when the interpreter's stack does not allow the calls;
    the definitions above are the code on a stack that always does.  The
    definitions below are the same code with this limit: whether the stack
    allows the copy of a value is a parameter. *)

Section RecursionLimit.
Variable strptime_ymd : string -> bool.
Variable json_loads : string -> loads_failure + json.
Variable deepcopy_fits : json -> bool.

Definition deepcopy_limited (v : json) : result json :=
  if deepcopy_fits v then Ok (deepcopy v) else Raise RecursionError.

Definition repair_person_limited (index : Z) (person : json) : result json :=
  person_copy <- deepcopy_limited person ;;
  match person_copy with
  | JDict d => Ok (JDict (dict_set "id" (JInt index) d))
  | _ => Raise TypeError
  end.

Fixpoint ensure_unique_ids_from_limited (index : Z) (people : list json)
  : result (list json) :=
  match people with
  | [] => Ok []
  | person :: rest =>
      person_copy <- repair_person_limited index person ;;
      repaired <- ensure_unique_ids_from_limited (index + 1) rest ;;
      Ok (person_copy :: repaired)
  end.

Definition ensure_unique_ids_limited (people : json) : result (list json) :=
  items <- py_iter people ;;
  ensure_unique_ids_from_limited 1 items.

Definition normalize_pedigree_limited (pedigree : json) : result json :=
  match pedigree with
  | JDict d =>
      people <- ensure_unique_ids_limited
                  (dict_get_default "people" (JList []) d) ;;
      rels <- py_iter (dict_get_default "relationships" (JList []) d) ;;
      normalized_relationships <- map_result _normalize_relationship rels ;;
      Ok (JDict (dict_set "relationships" (JList normalized_relationships)
                   (dict_set "people" (JList people) default_pedigree)))
  | _ => Raise AttributeError
  end.

Definition load_json_payload_limited (payload : string) : result json :=
  match json_loads payload with
  | inl (JSONDecodeError diagnostic) =>
      Raise (PedigreeValidationError (InvalidJSON diagnostic))
  | inl (LoadsRaises e) => Raise e
  | inr parsed =>
      normalized <- normalize_pedigree_limited parsed ;;
      checked <- validate_pedigree strptime_ymd normalized ;;
      let (is_valid, error) := checked in
      if negb is_valid
      then Raise (PedigreeValidationError (default UnknownValidationError error))
      else Ok normalized
  end.
End RecursionLimit.

(** ** Shapes of parsed values *)

Definition is_dict (v : json) : bool :=
  match v with JDict _ => true | _ => false end.

(** A mapping whose [type] entry, when present, is a string. *)
Definition relationship_shaped (v : json) : bool :=
  match v with
  | JDict d =>
      match dict_get_default "type" (JStr "") d with
      | JStr _ => true
      | _ => false
      end
  | _ => false
  end.

(** A mapping whose [people] entry iterates over mappings and whose
    [relationships] entry iterates over [relationship_shaped] values; a
    missing entry counts as the empty list. *)
Definition normalizable (v : json) : bool :=
  match v with
  | JDict d =>
      match py_iter (dict_get_default "people" (JList []) d),
            py_iter (dict_get_default "relationships" (JList []) d) with
      | Ok persons, Ok rels =>
          forallb is_dict persons && forallb relationship_shaped rels
      | _, _ => false
      end
  | _ => false
  end.

(** The stack allows the copy of every person of the [people] entry. *)
Definition copyable (fits : json -> bool) (v : json) : bool :=
  match v with
  | JDict d =>
      match py_iter (dict_get_default "people" (JList []) d) with
      | Ok persons => forallb fits persons
      | Raise _ => true
      end
  | _ => true
  end.

(** An endpoint that is an integer of 1..n, and not only equal to one. *)
Definition integer_endpoint (n : nat) (v : json) : Prop :=
  exists k, v = JInt k /\ 1 <= k <= Z.of_nat n.

(** The canonical form of a relationship in a pedigree of [n] people. *)
Definition canonical_relationship (n : nat) (r : json) : Prop :=
  exists f t ty kf kt,
    r = JDict [("from", f); ("to", t); ("type", JStr ty)] /\
    as_integer f = Some kf /\ 1 <= kf <= Z.of_nat n /\
    as_integer t = Some kt /\ 1 <= kt <= Z.of_nat n /\
    ty ∈ ALLOWED_RELATIONSHIP_TYPES /\
    str_lower ty = ty /\ str_strip ty = ty.

(** The canonical form of a pedigree. *)
Definition canonical_pedigree (p : json) : Prop :=
  exists ps rs,
    p = JDict [("people", JList ps); ("relationships", JList rs)] /\
    (forall (i : nat) person, ps !! i = Some person ->
       exists d, person = JDict d /\
                 dict_get "id" d = Some (JInt (Z.of_nat i + 1))) /\
    Forall (canonical_relationship (length ps)) rs.

(** ** [src/analysis_engine.py]

    The analysis engine reads a canonical pedigree: the schema of the
    dataclasses [Person] and [Relationship].  A float is the rational that
    it denotes: the comparisons of [_risk_bucket] are exact on it, and the
    arithmetic of [estimate_inbreeding] rounds to 53 significant bits
    ([binary64]).

    The module imports [networkx] when it can: [build_graph] then returns an
    [nx.DiGraph], and a [_FallbackDiGraph] otherwise.  [_has_edge_with_type],
    [_successors] and [infer_inheritance_patterns] choose by the class of
    the graph they are given; they are embedded once for each class, under
    their own names for a [_FallbackDiGraph] and with the suffix [_nx] for an
    [nx.DiGraph]. *)

Record Person : Type := mkPerson {
  id : Z;
  name : string;
  gender : string;
  dob : string;
  conditions : list string
}.

Record Relationship : Type := mkRelationship {
  from_id : Z;
  to_id : Z;
  type : string
}.

Record Pedigree : Type := mkPedigree {
  people : list Person;
  relationships : list Relationship
}.

(** [nodes_data] maps a node to its attributes, [edge_data] maps a pair of
    endpoints to the value of its [type] attribute. *)
Record _FallbackDiGraph : Type := mkGraph {
  nodes_data : list (Z * Person);
  edge_data : list ((Z * Z) * string)
}.

Definition add_node (g : _FallbackDiGraph) (node : Z) (attrs : Person)
  : _FallbackDiGraph :=
  {| nodes_data := dict_set node attrs (nodes_data g);
     edge_data := edge_data g |}.

Definition add_edge (g : _FallbackDiGraph) (u v : Z) (t : string)
  : _FallbackDiGraph :=
  {| nodes_data := nodes_data g;
     edge_data := dict_set (u, v) t (edge_data g) |}.

Definition number_of_nodes (g : _FallbackDiGraph) : nat :=
  length (nodes_data g).

Definition successors (g : _FallbackDiGraph) (node : Z) : list Z :=
  map snd (filter (fun uv => fst uv = node) (dict_keys (edge_data g))).

(** *** The graph classes of [networkx]

    [networkx] is not part of the repository.  Its classes are embedded by
    their state and by the methods that the engine calls, as the library
    defines them; its function [cycle_basis] is a parameter of the engine. *)

Module nx.

(** [nx.DiGraph].  [_node] maps a node to its attributes: those of a person,
    or none for a node that [add_edge] made.  [_succ] maps a node to its
    successors, each with the value of the [type] attribute of the edge.
    The map of the predecessors, which no call of the engine reads, is left
    out. *)
Record DiGraph : Type := mkDiGraph {
  _node : list (Z * option Person);
  _succ : list (Z * list (Z * string))
}.

(** [nx.DiGraph()] *)
Definition DiGraph_new : DiGraph := mkDiGraph [] [].

(** [G.add_node(n, **attrs)]: a new node gets its entries, and the
    attributes are updated. *)
Definition add_node (G : DiGraph) (n : Z) (attrs : Person) : DiGraph :=
  mkDiGraph (dict_set n (Some attrs) (_node G))
            (if dict_has n (_succ G) then _succ G else dict_set n [] (_succ G)).

(** What [add_edge] does first for each endpoint: a node that is not in the
    graph is added without attributes. *)
Definition touch (G : DiGraph) (n : Z) : DiGraph :=
  if dict_has n (_succ G) then G
  else mkDiGraph (dict_set n None (_node G)) (dict_set n [] (_succ G)).

(** [G.add_edge(u, v, type=t)] *)
Definition add_edge (G : DiGraph) (u v : Z) (t : string) : DiGraph :=
  let G := touch (touch G u) v in
  mkDiGraph (_node G)
            (dict_set u (dict_set v t (dict_get_default u [] (_succ G))) (_succ G)).

(** [G.has_edge(u, v)] *)
Definition has_edge (G : DiGraph) (u v : Z) : bool :=
  match dict_get u (_succ G) with
  | Some nbrs => dict_has v nbrs
  | None => false
  end.

(** [G.edges[u, v].get("type")], for an edge of the graph. *)
Definition edge_type (G : DiGraph) (u v : Z) : option string :=
  match dict_get u (_succ G) with
  | Some nbrs => dict_get v nbrs
  | None => None
  end.

(** [G.successors(n)], which raises [NetworkXError] for a node that is not
    in the graph. *)
Definition successors (G : DiGraph) (n : Z) : result (list Z) :=
  match dict_get n (_succ G) with
  | Some nbrs => Ok (dict_keys nbrs)
  | None => Raise NetworkXError
  end.

Definition number_of_nodes (G : DiGraph) : nat := length (_node G).

(** [nx.Graph], the undirected class: [adj] maps a node to its neighbours. *)
Record Graph : Type := mkUndirected {
  node : list (Z * option Person);
  adj : list (Z * list (Z * string))
}.

(** What [Graph.add_edges_from] does for one edge [(u, v, {"type": t})]. *)
Definition graph_touch (H : Graph) (n : Z) : Graph :=
  if dict_has n (node H) then H
  else mkUndirected (dict_set n None (node H)) (dict_set n [] (adj H)).

Definition graph_add_edge (H : Graph) (e : Z * Z * string) : Graph :=
  let '(u, v, t) := e in
  let H := graph_touch (graph_touch H u) v in
  let adj1 := dict_set u (dict_set v t (dict_get_default u [] (adj H))) (adj H) in
  let adj2 := dict_set v (dict_set u t (dict_get_default v [] adj1)) adj1 in
  mkUndirected (node H) adj2.

(** The edges in the order of [for u, nbrs in G._adj.items() for v, d in
    nbrs.items()]. *)
Definition edges (G : DiGraph) : list (Z * Z * string) :=
  flat_map (fun unbrs => map (fun vt => (fst unbrs, fst vt, snd vt)) (snd unbrs))
    (_succ G).

(** [G.to_undirected()]: the nodes with a copy of their attributes, then
    the edges. *)
Definition to_undirected (G : DiGraph) : Graph :=
  fold_left graph_add_edge (edges G)
    (mkUndirected (_node G) (map (fun na => (fst na, [])) (_node G))).

End nx.

(** The object that [build_graph] returns. *)
Inductive graph_object : Type :=
| NxGraph (G : nx.DiGraph)
| FallbackGraph (g : _FallbackDiGraph).

(** [graph.add_node(node, **attrs)] and [graph.add_edge(u, v, type=t)], by
    the class of [graph]. *)
Definition graph_add_node (graph : graph_object) (node : Z) (attrs : Person)
  : graph_object :=
  match graph with
  | NxGraph G => NxGraph (nx.add_node G node attrs)
  | FallbackGraph g => FallbackGraph (add_node g node attrs)
  end.

Definition graph_add_edge (graph : graph_object) (u v : Z) (t : string)
  : graph_object :=
  match graph with
  | NxGraph G => NxGraph (nx.add_edge G u v t)
  | FallbackGraph g => FallbackGraph (add_edge g u v t)
  end.

(** [nx_imported] is [nx is not None]. *)
Definition build_graph (nx_imported : bool) (pedigree : Pedigree) : graph_object :=
  let graph :=
    if nx_imported then NxGraph nx.DiGraph_new
    else FallbackGraph (mkGraph [] []) in
  let graph :=
    fold_left (fun g person => graph_add_node g (id person) person)
      (people pedigree) graph in
  fold_left (fun g relationship =>
               graph_add_edge g (from_id relationship) (to_id relationship)
                 (type relationship))
    (relationships pedigree) graph.

(** [s.add(x)] on a set kept as a duplicate-free list. *)
Definition set_add (x : Z) (s : list Z) : list Z :=
  if decide (x ∈ s) then s else (s ++ [x])%list.

(** [adj.setdefault(u, set()).add(v)] *)
Definition adj_add (u v : Z) (adj : list (Z * list Z)) : list (Z * list Z) :=
  dict_set u (set_add v (dict_get_default u [] adj)) adj.

Definition build_adj (g : _FallbackDiGraph) : list (Z * list Z) :=
  fold_left (fun adj uv => adj_add (snd uv) (fst uv) (adj_add (fst uv) (snd uv) adj))
    (dict_keys (edge_data g))
    (map (fun k => (k, [])) (dict_keys (nodes_data g))).

(** *** Floats

    A finite float is the rational that it denotes.  [binary64 x] is the
    float nearest to [x], ties to the even significand: [x] rounded to 53
    significant bits.  The range of the exponent is not modelled: the
    numbers of [estimate_inbreeding] are quotients of lengths of Python
    lists, far from both ends of it. *)

(** The integer nearest to [x], ties to the even one. *)
Definition round_half_even (x : Q) : Z :=
  let n := Qnum x in
  let d := Z.pos (Qden x) in
  let lo := (n / d)%Z in
  let r := (n mod d)%Z in
  match (2 * r ?= d)%Z with
  | Lt => lo
  | Gt => (lo + 1)%Z
  | Eq => if Z.even lo then lo else (lo + 1)%Z
  end.

(** [2 ^ e] for an integer [e]. *)
Definition Qpow2 (e : Z) : Q :=
  if (0 <=? e)%Z then inject_Z (2 ^ e) else 1 # Z.to_pos (2 ^ (- e)).

Definition binary64 (x : Q) : Q :=
  if (Qnum x =? 0)%Z then 0%Q
  else
    let magnitude := Z.abs (Qnum x) # Qden x in
    let e0 := (Z.log2 (Z.abs (Qnum x)) - Z.log2 (Z.pos (Qden x)) - 52)%Z in
    let e :=
      if Qle_bool (inject_Z (2 ^ 52)) (magnitude / Qpow2 e0) then e0
      else (e0 - 1)%Z in
    Qred (inject_Z (round_half_even (x / Qpow2 e)) * Qpow2 e).

(** [a / b] for integers, [x * y] for floats. *)
Definition int_truediv (a b : Z) : Q := binary64 (inject_Z a / inject_Z b).
Definition float_mul (x y : Q) : Q := binary64 (x * y).

(** [round(x, 4)]: the float nearest to the multiple of 1/10000 nearest to
    [x], ties to the even multiple. *)
Definition round4 (x : Q) : Q :=
  binary64 (round_half_even (x * 10000) # 10000).

Section Analysis.
(** The order in which Python iterates over the set [adj[u]] is not fixed
    by its elements: [set_order u s] is that order. *)
Variable set_order : Z -> list Z -> list Z.
(** [nx.cycle_basis] belongs to [networkx]: the list of cycles that it
    returns for an undirected graph is a parameter. *)
Variable cycle_basis : nx.Graph -> list (list Z).

(** State of the inner [for nbr in adj[cur]] loop. *)
Definition nbr_state : Type :=
  gmap Z (option Z) * list (Z * option Z) * list (list Z).

Definition visit_neighbour (cur : Z) (par : option Z) (st : nbr_state)
    (nbr : Z) : nbr_state :=
  let '(parent, stack, cycles) := st in
  if decide (Some nbr = par) then st
  else if decide (is_Some (parent !! nbr))
       then (parent, stack, (cycles ++ [[cur; nbr]])%list)
       else (<[nbr := Some cur]> parent, (nbr, Some cur) :: stack, cycles).

(** The [while stack] loop.  The head of [stack] is the top of the Python
    list.  The result is [None] when the fuel runs out, and when [adj[cur]]
    has no such key (a [KeyError]). *)
Fixpoint dfs_loop (fuel : nat) (adj : list (Z * list Z))
    (stack : list (Z * option Z)) (parent : gmap Z (option Z))
    (visited : gset Z) (cycles : list (list Z))
  : option (gset Z * list (list Z)) :=
  match stack with
  | [] => Some (visited, cycles)
  | (cur, par) :: stack' =>
      match fuel with
      | O => None
      | S fuel' =>
          if decide (cur ∈ visited)
          then dfs_loop fuel' adj stack' parent visited cycles
          else
            let visited := {[cur]} ∪ visited in
            match dict_get cur adj with
            | None => None
            | Some nbrs =>
                let '(parent, stack'', cycles) :=
                  fold_left (visit_neighbour cur par) (set_order cur nbrs)
                    (parent, stack', cycles) in
                dfs_loop fuel' adj stack'' parent visited cycles
            end
      end
  end.

(** The [for node in adj] loop. *)
Fixpoint roots_loop (fuel : nat) (adj : list (Z * list Z)) (nodes : list Z)
    (visited : gset Z) (cycles : list (list Z)) : option (list (list Z)) :=
  match nodes with
  | [] => Some cycles
  | node :: rest =>
      if decide (node ∈ visited) then roots_loop fuel adj rest visited cycles
      else
        match dfs_loop fuel adj [(node, None)] {[node := None]} visited cycles with
        | Some (visited', cycles') => roots_loop fuel adj rest visited' cycles'
        | None => None
        end
  end.

(** The fuel is the number of nodes; the result is never [None]
    ([build_cycle_basis_total]). *)
Definition _build_cycle_basis_fallback (graph : _FallbackDiGraph)
  : option (list (list Z)) :=
  let adj := build_adj graph in
  roots_loop (length adj) adj (dict_keys adj) ∅ [].

Definition total_cycle_nodes (cycles : list (list Z)) : Z :=
  fold_right (fun cycle acc => (Z.of_nat (length cycle) + acc)%Z) 0%Z cycles.

(** The last two lines of [estimate_inbreeding]. *)
Definition inbreeding_score (total_cycle_nodes : Z) (nodes : nat) : Q :=
  let scaled :=
    Qmin (1 # 4)
      (float_mul (int_truediv total_cycle_nodes (Z.max 1 (Z.of_nat nodes)))
         (1 # 32)) in
  round4 scaled.

(** On a [_FallbackDiGraph] the traversal of the module runs; when it gives
    no result, which is the [KeyError] of [adj[cur]], so does this function
    (its fuel does not run out: [build_cycle_basis_total]). *)
Definition estimate_inbreeding (graph : graph_object) : result Q :=
  match graph with
  | NxGraph G =>
      let undirected := nx.to_undirected G in
      let cycles := cycle_basis undirected in
      let total := total_cycle_nodes cycles in
      match cycles with
      | [] => Ok 0%Q
      | _ :: _ => Ok (inbreeding_score total (nx.number_of_nodes G))
      end
  | FallbackGraph g =>
      match _build_cycle_basis_fallback g with
      | None => Raise KeyError
      | Some [] => Ok 0%Q
      | Some cycles =>
          Ok (inbreeding_score (total_cycle_nodes cycles) (number_of_nodes g))
      end
  end.

(** [mapping.setdefault(key, []).append(x)] *)
Definition dict_append (key : string) (x : Z) (mapping : list (string * list Z))
  : list (string * list Z) :=
  dict_set key (dict_get_default key [] mapping ++ [x])%list mapping.

Definition _condition_to_people (pedigree : Pedigree) : list (string * list Z) :=
  fold_left (fun mapping person =>
               fold_left (fun mapping condition =>
                            dict_append (str_lower condition) (id person) mapping)
                 (conditions person) mapping)
    (people pedigree) [].

Definition _has_edge_with_type (graph : _FallbackDiGraph) (u v : Z)
    (relationship_type : string) : bool :=
  match dict_get (u, v) (edge_data graph) with
  | Some t => bool_decide (t = relationship_type)
  | None => false
  end.

Definition _successors (graph : _FallbackDiGraph) (node : Z) : list Z :=
  successors graph node.

(** The counter [sibling_pairs] of one condition. *)
Definition sibling_pairs (graph : _FallbackDiGraph) (affected_ids : list Z) : nat :=
  length (filter (fun ij => fst ij < snd ij
                            ∧ _has_edge_with_type graph (fst ij) (snd ij) "sibling" = true)
            (i ← affected_ids; j ← affected_ids; [(i, j)])).

(** The counter [parent_child_hits] of one condition. *)
Definition parent_child_hits (graph : _FallbackDiGraph) (affected_ids : list Z) : nat :=
  length (filter (fun an => snd an ∈ affected_ids
                            ∧ (_has_edge_with_type graph (fst an) (snd an) "parent"
                               || _has_edge_with_type graph (fst an) (snd an) "child") = true)
            (a ← affected_ids; nbr ← _successors graph a; [(a, nbr)])).

Definition recessive_flag (condition : string) : string :=
  "Autosomal recessive pattern possible for " ++ condition.
Definition dominant_flag (condition : string) : string :=
  "Autosomal dominant transmission possible for " ++ condition.
Definition no_pattern_flag : string :=
  "No clear inheritance pattern detected from available data".

(** One turn of the loop over [condition_map.items()]. *)
Definition condition_flags (graph : _FallbackDiGraph) (flags : list string)
    (item : string * list Z) : list string :=
  let '(condition, affected_ids) := item in
  let flags :=
    if decide (2 <= length affected_ids)%nat then
      if decide (1 <= sibling_pairs graph affected_ids)%nat
      then (flags ++ [recessive_flag condition])%list else flags
    else flags in
  if decide (1 <= parent_child_hits graph affected_ids)%nat
  then (flags ++ [dominant_flag condition])%list else flags.

(** [sorted(set(flags))] by insertion into a strictly increasing list. *)
Fixpoint insert_sorted (x : string) (l : list string) : list string :=
  match l with
  | [] => [x]
  | y :: l' =>
      match String.compare x y with
      | Lt => x :: l
      | Eq => l
      | Gt => y :: insert_sorted x l'
      end
  end.

Definition sorted_set (l : list string) : list string :=
  fold_right insert_sorted [] l.

Definition infer_inheritance_patterns (graph : _FallbackDiGraph)
    (pedigree : Pedigree) : list string :=
  let condition_map := _condition_to_people pedigree in
  let flags := fold_left (condition_flags graph) condition_map [] in
  let flags := match flags with [] => [no_pattern_flag] | _ => flags end in
  sorted_set flags.

(** The same functions on an [nx.DiGraph]: the first branch of each test
    on the class of the graph. *)
Definition _has_edge_with_type_nx (graph : nx.DiGraph) (u v : Z)
    (relationship_type : string) : bool :=
  nx.has_edge graph u v
  && bool_decide (nx.edge_type graph u v = Some relationship_type).

Definition _successors_nx (graph : nx.DiGraph) (node : Z) : result (list Z) :=
  nx.successors graph node.

Definition sibling_pairs_nx (graph : nx.DiGraph) (affected_ids : list Z) : nat :=
  length (filter (fun ij => fst ij < snd ij
                            ∧ _has_edge_with_type_nx graph (fst ij) (snd ij) "sibling" = true)
            (i ← affected_ids; j ← affected_ids; [(i, j)])).

Definition parent_child_hits_nx (graph : nx.DiGraph) (affected_ids : list Z)
  : result nat :=
  pairs <- map_result
             (fun a => nbrs <- _successors_nx graph a ;;
                       Ok (map (fun nbr => (a, nbr)) nbrs))
             affected_ids ;;
  Ok (length (filter (fun an => snd an ∈ affected_ids
                                ∧ (_has_edge_with_type_nx graph (fst an) (snd an) "parent"
                                   || _has_edge_with_type_nx graph (fst an) (snd an) "child") = true)
                (concat pairs))).

Definition condition_flags_nx (graph : nx.DiGraph) (flags : list string)
    (item : string * list Z) : result (list string) :=
  let '(condition, affected_ids) := item in
  let flags :=
    if decide (2 <= length affected_ids)%nat then
      if decide (1 <= sibling_pairs_nx graph affected_ids)%nat
      then (flags ++ [recessive_flag condition])%list else flags
    else flags in
  hits <- parent_child_hits_nx graph affected_ids ;;
  Ok (if decide (1 <= hits)%nat
      then (flags ++ [dominant_flag condition])%list else flags).

Definition infer_inheritance_patterns_nx (graph : nx.DiGraph)
    (pedigree : Pedigree) : result (list string) :=
  let condition_map := _condition_to_people pedigree in
  flags <- for_each (condition_flags_nx graph) condition_map [] ;;
  let flags := match flags with [] => [no_pattern_flag] | _ => flags end in
  Ok (sorted_set flags).

(** [needle in hay] *)
Fixpoint str_contains (needle hay : string) : bool :=
  if String.prefix needle hay then true
  else match hay with
       | EmptyString => false
       | String _ hay' => str_contains needle hay'
       end.

(** [any(word in f.lower() for f in flags)] *)
Definition any_flag_contains (word : string) (flags : list string) : bool :=
  existsb (fun f => str_contains word (str_lower f)) flags.

(** [x > y] on scores. *)
Definition Qgtb (x y : Q) : bool := negb (Qle_bool x y).

Definition _risk_bucket (inbreeding : Q) (flags : list string) : string :=
  if Qgtb inbreeding (1 # 16) || any_flag_contains "dominant" flags then "High"
  else if Qgtb inbreeding (1 # 64) || any_flag_contains "recessive" flags
       then "Moderate"
       else "Low".

Record AnalysisResult : Type := mkAnalysisResult {
  inbreeding_coefficient : Q;
  inheritance_flags : list string;
  risk_level : string;
  recommendations : list string
}.

Definition analyze_pedigree (nx_imported : bool) (pedigree : Pedigree)
  : result AnalysisResult :=
  let graph := build_graph nx_imported pedigree in
  inbreeding <- estimate_inbreeding graph ;;
  flags <- match graph with
           | NxGraph G => infer_inheritance_patterns_nx G pedigree
           | FallbackGraph g => Ok (infer_inheritance_patterns g pedigree)
           end ;;
  let risk := _risk_bucket inbreeding flags in
  let recommendations :=
    ["This tool is not medical advice; review with a licensed genetic counselor.";
     "Consider confirmatory genetic testing if there are multiple affected relatives."] in
  let recommendations :=
    if decide (risk = "High") then
      (recommendations ++
         ["Recommend expedited specialist referral and targeted screening."])%list
    else if decide (risk = "Moderate") then
      (recommendations ++
         ["Recommend non-urgent genetics referral and family-wide history validation."])%list
    else recommendations in
  Ok {| inbreeding_coefficient := inbreeding;
        inheritance_flags := flags;
        risk_level := risk;
        recommendations := recommendations |}.
End Analysis.

(** ** [src/data_extractor.py]: pseudonymisation, over a store

    [pseudonymize_pedigree] copies its argument and then assigns into the
    copy.  Lists and dicts are therefore objects in a store, referred to by
    location; a [val] is an immutable scalar or a reference. *)

Inductive val : Type :=
| VNull
| VBool (b : bool)
| VInt (z : Z)
| VFloat (f : spec_float)
| VStr (s : string)
| VRef (l : nat).

Inductive obj : Type :=
| OList (items : list val)
| ODict (entries : list (string * val)).

(** The store; an allocation appends an object. *)
Abbreviation heap := (list obj).

Definition scalar_json (v : val) : option json :=
  match v with
  | VNull => Some JNull
  | VBool b => Some (JBool b)
  | VInt z => Some (JInt z)
  | VFloat f => Some (JFloat f)
  | VStr s => Some (JStr s)
  | VRef _ => None
  end.

(** [json.dumps(v)]: the text is represented by the JSON value it denotes.
    [depth] is the recursion limit of the encoder; a reference to no object
    does not occur. *)
Fixpoint json_dumps (depth : nat) (h : heap) (v : val) : result json :=
  match v with
  | VRef l =>
      match depth with
      | O => Raise RecursionError
      | S depth' =>
          match h !! l with
          | Some (OList items) =>
              js <- map_result (json_dumps depth' h) items ;; Ok (JList js)
          | Some (ODict entries) =>
              kjs <- map_result (fun kv => j <- json_dumps depth' h (snd kv) ;;
                                           Ok (fst kv, j)) entries ;;
              Ok (JDict kjs)
          | None => Raise ValueError
          end
      end
  | VNull => Ok JNull
  | VBool b => Ok (JBool b)
  | VInt z => Ok (JInt z)
  | VFloat f => Ok (JFloat f)
  | VStr s => Ok (JStr s)
  end.

Section LoadsInto.
Variable alloc : json -> heap -> heap * val.

Fixpoint alloc_list (js : list json) (h : heap) : heap * list val :=
  match js with
  | [] => (h, [])
  | j :: js' =>
      let (h1, v) := alloc j h in
      let (h2, vs) := alloc_list js' h1 in
      (h2, v :: vs)
  end.

Fixpoint alloc_entries (kjs : list (string * json)) (h : heap)
  : heap * list (string * val) :=
  match kjs with
  | [] => (h, [])
  | (k, j) :: kjs' =>
      let (h1, v) := alloc j h in
      let (h2, kvs) := alloc_entries kjs' h1 in
      (h2, (k, v) :: kvs)
  end.
End LoadsInto.

(** [json.loads(text)]: builds fresh objects, the parts before the whole. *)
Fixpoint json_loads_into (j : json) (h : heap) : heap * val :=
  match j with
  | JNull => (h, VNull)
  | JBool b => (h, VBool b)
  | JInt z => (h, VInt z)
  | JFloat f => (h, VFloat f)
  | JStr s => (h, VStr s)
  | JList js =>
      let (h', vs) := alloc_list json_loads_into js h in
      ((h' ++ [OList vs])%list, VRef (length h'))
  | JDict kjs =>
      let (h', kvs) := alloc_entries json_loads_into kjs h in
      ((h' ++ [ODict kvs])%list, VRef (length h'))
  end.

(** [v.get(k)] *)
Definition heap_get (h : heap) (v : val) (k : string) : result (option val) :=
  match v with
  | VRef l =>
      match h !! l with
      | Some (ODict entries) => Ok (dict_get k entries)
      | _ => Raise AttributeError
      end
  | _ => Raise AttributeError
  end.

(** [iter(v)] *)
Definition heap_iter (h : heap) (v : val) : result (list val) :=
  match v with
  | VRef l =>
      match h !! l with
      | Some (OList items) => Ok items
      | Some (ODict entries) => Ok (map VStr (dict_keys entries))
      | None => Raise ValueError
      end
  | VStr s => Ok (map VStr (str_chars s))
  | _ => Raise TypeError
  end.

(** [v[k]] *)
Definition heap_getitem (h : heap) (v : val) (k : string) : result val :=
  match v with
  | VRef l =>
      match h !! l with
      | Some (ODict entries) =>
          match dict_get k entries with Some x => Ok x | None => Raise KeyError end
      | _ => Raise TypeError
      end
  | _ => Raise TypeError
  end.

(** [v[k] = x] *)
Definition heap_setitem (h : heap) (v : val) (k : string) (x : val) : result heap :=
  match v with
  | VRef l =>
      match h !! l with
      | Some (ODict entries) => Ok (<[l := ODict (dict_set k x entries)]> h)
      | _ => Raise TypeError
      end
  | _ => Raise TypeError
  end.

(** [str(z)] for an integer. *)
Definition int_text (z : Z) : string := NilZero.string_of_int (Z.to_int z).

Section Pseudonymize.
(** The text that an f-string shows for a float, a list or a dict is not
    modelled: it is a parameter. *)
Variable repr_other : heap -> val -> string.

(** [f"{v}"] *)
Definition format_value (h : heap) (v : val) : string :=
  match v with
  | VInt z => int_text z
  | VBool b => if b then "True" else "False"
  | VStr s => s
  | VNull => "None"
  | _ => repr_other h v
  end.

(** Body of the loop: [person["name"] = f"Person-{person['id']}"]. *)
Definition pseudonymize_person (h : heap) (person : val) : result heap :=
  id <- heap_getitem h person "id" ;;
  heap_setitem h person "name" (VStr ("Person-" ++ format_value h id)).

(** The loop [for person in anonymized.get("people", []): ...]. *)
Definition assign_names (h : heap) (anonymized : val) : result heap :=
  people <- heap_get h anonymized "people" ;;
  persons <- match people with
             | Some p => heap_iter h p
             | None => Ok []
             end ;;
  for_each pseudonymize_person persons h.

Definition pseudonymize_pedigree (depth : nat) (h : heap) (pedigree : val)
  : result (heap * val) :=
  text <- json_dumps depth h pedigree ;;
  let (h1, anonymized) := json_loads_into text h in
  h2 <- assign_names h1 anonymized ;;
  Ok (h2, anonymized).
End Pseudonymize.

(** ** [to_gedcom] of [src/pedigree_builder.py] *)

(** The line feed. *)
Definition newline : string := String (ascii_of_nat 10) EmptyString.

(** [sep.join(lines)] *)
Fixpoint str_join (sep : string) (lines : list string) : string :=
  match lines with
  | [] => EmptyString
  | l :: rest =>
      match rest with
      | [] => l
      | _ :: _ => l +:+ sep +:+ str_join sep rest
      end
  end.

(** [v.get(k, dflt)] *)
Definition py_get (v : json) (k : string) (dflt : json) : result json :=
  match v with
  | JDict d => Ok (dict_get_default k dflt d)
  | _ => Raise AttributeError
  end.

Section Gedcom.
(** The text that an f-string shows for a float, a list or a dict is not
    modelled: it is a parameter. *)
Variable repr_json : json -> string.

(** [f"{v}"] *)
Definition format_json (v : json) : string :=
  match v with
  | JInt z => int_text z
  | JBool b => if b then "True" else "False"
  | JStr s => s
  | JNull => "None"
  | _ => repr_json v
  end.

(** One turn of the loop over the conditions of a person. *)
Definition gedcom_condition (lines : list string) (condition : json)
  : list string :=
  (lines ++ ["1 NOTE"; "2 CONT Condition: " +:+ format_json condition])%list.

(** One turn of the loop over people. *)
Definition gedcom_person (lines : list string) (person : json)
  : result (list string) :=
  id <- py_getitem person "id" ;;
  let lines := (lines ++ ["0 @I" +:+ format_json id +:+ "@ INDI"])%list in
  name <- py_getitem person "name" ;;
  let lines := (lines ++ ["1 NAME " +:+ format_json name])%list in
  sex <- py_get person "gender" (JStr "O") ;;
  known <- in_str_set sex ["M"; "F"] ;;
  let lines :=
    (lines ++ ["1 SEX " +:+ (if known then format_json sex else "U")])%list in
  let lines := (lines ++ ["1 BIRT"])%list in
  dob <- py_get person "dob" (JStr "approx") ;;
  let lines := (lines ++ ["2 DATE " +:+ format_json dob])%list in
  conditions <- py_get person "conditions" (JList []) ;;
  items <- py_iter conditions ;;
  Ok (fold_left gedcom_condition items lines).

(** One turn of the loop over relationships; the state is [lines] and
    [family_index]. *)
Definition gedcom_family (st : list string * Z) (rel : json)
  : result (list string * Z) :=
  let (lines, family_index) := st in
  rel_type <- py_get rel "type" (JStr "") ;;
  is_family <- in_str_set rel_type ["spouse"; "parent"; "child"] ;;
  if is_family then
    let lines :=
      (lines ++ ["0 @F" +:+ int_text family_index +:+ "@ FAM"])%list in
    let member (tag1 tag2 : string) : result (list string) :=
      from <- py_getitem rel "from" ;;
      let lines := (lines ++ [tag1 +:+ format_json from +:+ "@"])%list in
      to <- py_getitem rel "to" ;;
      Ok (lines ++ [tag2 +:+ format_json to +:+ "@"])%list in
    lines <-
      match rel_type with
      | JStr t =>
          if decide (t = "spouse") then member "1 HUSB @I" "1 WIFE @I"
          else if decide (t = "parent") then member "1 HUSB @I" "1 CHIL @I"
          else if decide (t = "child") then member "1 CHIL @I" "1 HUSB @I"
          else Ok lines
      | _ => Ok lines
      end ;;
    Ok (lines, family_index + 1)
  else Ok st.

(** The list [lines] at the [return]. *)
Definition to_gedcom_lines (pedigree : json) : result (list string) :=
  let lines := ["0 HEAD"; "1 GEDC"; "2 VERS 5.5"] in
  people <- py_get pedigree "people" (JList []) ;;
  persons <- py_iter people ;;
  lines <- for_each gedcom_person persons lines ;;
  relationships <- py_get pedigree "relationships" (JList []) ;;
  rels <- py_iter relationships ;;
  st <- for_each gedcom_family rels (lines, 1) ;;
  Ok (fst st ++ ["0 TRLR"])%list.

Definition to_gedcom (pedigree : json) : result string :=
  lines <- to_gedcom_lines pedigree ;;
  Ok (str_join newline lines).
End Gedcom.

(** ** [parse_payload_from_text] of [src/data_extractor.py] *)

(** [s.find(sub)]: the least index at which [sub] occurs in [s], or -1. *)
Fixpoint str_find (sub s : string) : Z :=
  if String.prefix sub s then 0
  else match s with
       | EmptyString => -1
       | String _ s' =>
           let i := str_find sub s' in
           if i =? -1 then -1 else i + 1
       end.

(** [s.rfind(sub)]: the greatest index at which [sub] occurs in [s], or -1. *)
Fixpoint str_rfind (sub s : string) : Z :=
  match s with
  | EmptyString => if String.prefix sub EmptyString then 0 else -1
  | String a s' =>
      let i := str_rfind sub s' in
      if i =? -1 then (if String.prefix sub (String a s') then 0 else -1)
      else i + 1
  end.

(** The position that a bound of a slice denotes in a string of length
    [len]: a negative bound counts from the end, and bounds are clipped. *)
Definition slice_index (len i : Z) : Z :=
  if i <? 0 then Z.max 0 (i + len) else Z.min i len.

(** [s[lo:hi]] *)
Definition str_slice (s : string) (lo hi : Z) : string :=
  let len := Z.of_nat (String.length s) in
  let lo := slice_index len lo in
  let hi := slice_index len hi in
  String.substring (Z.to_nat lo) (Z.to_nat (hi - lo)) s.

Section TextPayload.
Variable strptime_ymd : string -> bool.
Variable json_loads : string -> loads_failure + json.

Definition parse_payload_from_text (text : string) : result json :=
  let start := str_find "{" text in
  let stop := str_rfind "}" text in
  if (start =? -1) || (stop =? -1) || (stop <=? start) then Raise ValueError
  else
    let payload := str_slice text start (stop + 1) in
    load_json_payload strptime_ymd json_loads payload.
End TextPayload.

(** ** [src/llm_chat.py]

    The engine's methods, without the object: its only field, the name of the
    model, is read by the call to the model alone. *)

(** The double quote, and a text between double quotes. *)
Definition dquote : string := String (ascii_of_nat 34) EmptyString.
Definition quoted (s : string) : string := dquote +:+ s +:+ dquote.

(** The em dash, in UTF-8. *)
Definition em_dash : string :=
  String (ascii_of_nat 226) (String (ascii_of_nat 128)
    (String (ascii_of_nat 148) EmptyString)).

(** [PROMPT_TEMPLATE] as [str.format] reads it: the text before [{history}],
    the text between [{history}] and [{user_input}], and the text after
    [{user_input}], with doubled braces written once. *)
Definition PROMPT_HEAD : string :=
  "You are an empathetic genetic counselor building a family pedigree. "
  +:+ "Be kind, ask one question at a time if needed, handle sensitive "
  +:+ "topics gently (e.g., "
  +:+ quoted ("I'm sorry to hear that" +:+ em_dash
              +:+ "tell me more if comfortable")
  +:+ ")." +:+ newline +:+ "History: ".

Definition PROMPT_MIDDLE : string := newline +:+ "User: ".

Definition PROMPT_TAIL : string :=
  newline
  +:+ "Extract/update as strict JSON (no extra text): {"
  +:+ quoted "people" +:+ ": [{" +:+ quoted "id" +:+ ": int (sequential), "
  +:+ quoted "name" +:+ ": str, " +:+ quoted "gender" +:+ ": "
  +:+ quoted "M/F/O" +:+ ", " +:+ quoted "dob" +:+ ": "
  +:+ quoted "YYYY-MM-DD or approx" +:+ ", " +:+ quoted "conditions"
  +:+ ": [str]}]," +:+ newline
  +:+ quoted "relationships" +:+ ": [{" +:+ quoted "from" +:+ ": id, "
  +:+ quoted "to" +:+ ": id, " +:+ quoted "type" +:+ ": "
  +:+ quoted "parent/child/sibling/spouse/adopted" +:+ "}]}" +:+ newline
  +:+ "If incomplete, respond with JSON + follow-up question after. "
  +:+ "If done, just JSON." +:+ newline
  +:+ "Handle corrections: If user says " +:+ quoted "Fix: Bob is uncle"
  +:+ ", update graph." +:+ newline.

(** [s.split(sep)], as CPython computes it: cut at the next occurrence of
    [sep], then go on behind it.  The fuel is the length of [s]. *)
Fixpoint split_loop (fuel : nat) (sep s : string) : list string :=
  match fuel with
  | O => [s]
  | S fuel' =>
      let i := str_find sep s in
      if i =? -1 then [s]
      else str_slice s 0 i
             :: split_loop fuel' sep
                  (str_slice s (i + Z.of_nat (String.length sep))
                     (Z.of_nat (String.length s)))
  end.

Definition str_split (sep s : string) : list string :=
  split_loop (String.length s) sep s.

(** The characters at which [str.splitlines] breaks a line. *)
Definition is_linebreak (c : ascii) : bool :=
  let n := nat_of_ascii c in
  ((10 <=? n)%nat && (n <=? 13)%nat) || ((28 <=? n)%nat && (n <=? 30)%nat).

(** [s.splitlines()]: a carriage return with the line feed behind it is one
    break; there is no empty line after the last break.  [cur] is the
    current line, reversed. *)
Fixpoint splitlines_from (s : string) (cur : list ascii) : list string :=
  match s with
  | EmptyString =>
      match cur with
      | [] => []
      | _ :: _ => [string_of_list_ascii (rev cur)]
      end
  | String c s' =>
      if is_linebreak c then
        string_of_list_ascii (rev cur) ::
          match s' with
          | String c' s'' =>
              if ((nat_of_ascii c =? 13)%nat && (nat_of_ascii c' =? 10)%nat)%bool
              then splitlines_from s'' []
              else splitlines_from s' []
          | EmptyString => []
          end
      else splitlines_from s' (c :: cur)
  end.

Definition str_splitlines (s : string) : list string := splitlines_from s [].

Record LLMResponse : Type := mkLLMResponse {
  pedigree : json;
  follow_up_question : option string;
  raw_text : string
}.

(** A person that [_fallback_response] adds. *)
Definition fallback_person (id : Z) (name gender : string) : json :=
  JDict [("id", JInt id); ("name", JStr name); ("gender", JStr gender);
         ("dob", JStr "approx"); ("conditions", JList [])].

Section Chat.
Variable strptime_ymd : string -> bool.
Variable json_loads : string -> loads_failure + json.
(** The text of [json.dumps(v)], and the text that an f-string shows for a
    float, a list or a dict. *)
Variable json_dumps_text : json -> string.
Variable repr_json : json -> string.
(** The call to the model through LangChain: its answer, or [None] when the
    call raises. *)
Variable ollama : string -> option string.

Definition _format_history (history : list json) : result string :=
  match history with
  | [] => Ok "No prior history"
  | _ :: _ =>
      lines <- map_result
                 (fun m =>
                    role <- py_getitem m "role" ;;
                    content <- py_getitem m "content" ;;
                    Ok (format_json repr_json role +:+ ": "
                        +:+ format_json repr_json content))
                 history ;;
      Ok (str_join newline lines)
  end.

Definition build_prompt (history : list json) (user_input : string)
  : result string :=
  history_text <- _format_history history ;;
  Ok (PROMPT_HEAD +:+ history_text +:+ PROMPT_MIDDLE +:+ user_input
      +:+ PROMPT_TAIL).

(** The value of [base] when [_fallback_response] serialises it. *)
Definition _fallback_pedigree (prompt : string) : json :=
  let user_line :=
    str_lower (str_strip (default EmptyString (last (str_split "User:" prompt)))) in
  let people : list json := [] in
  let people :=
    if str_contains "mother" user_line
    then (people ++ [fallback_person 1 "Mother" "F"])%list else people in
  let people :=
    if str_contains "father" user_line
    then (people ++ [fallback_person (Z.of_nat (length people) + 1) "Father" "M"])%list
    else people in
  let people :=
    if str_contains "me" user_line || str_contains "i am" user_line
    then (people ++ [fallback_person (Z.of_nat (length people) + 1) "Proband" "O"])%list
    else people in
  let relationships :=
    if (2 <=? length people)%nat
    then [JDict [("from", JInt 1); ("to", JInt 2); ("type", JStr "spouse")]]
    else [] in
  JDict [("people", JList people); ("relationships", JList relationships)].

Definition _fallback_response (prompt : string) : string :=
  let follow_up := "Who else in your family should be included?" in
  json_dumps_text (_fallback_pedigree prompt) +:+ newline +:+ follow_up.

Definition _call_ollama_langchain (prompt : string) : string :=
  match ollama prompt with
  | Some response => response
  | None => _fallback_response prompt
  end.

Definition _split_json_and_question (text : string) : result LLMResponse :=
  let lines := str_splitlines (str_strip text) in
  let json_candidate :=
    match lines with
    | [] => EmptyString
    | first :: _ => str_strip first
    end in
  let follow_up :=
    match lines with
    | _ :: (_ :: _) as rest =>
        Some (str_join " "
                (filter (fun l => l <> EmptyString) (map str_strip rest)))
    | _ => None
    end in
  let '(json_candidate, follow_up) :=
    if String.prefix "{" json_candidate then (json_candidate, follow_up)
    else
      let start := str_find "{" text in
      let stop := str_rfind "}" text in
      if negb (start =? -1) && negb (stop =? -1) && (start <? stop) then
        let remaining :=
          str_strip (str_slice text 0 start
                     +:+ str_slice text (stop + 1)
                           (Z.of_nat (String.length text))) in
        (str_slice text start (stop + 1),
         if decide (remaining = EmptyString) then follow_up else Some remaining)
      else (json_candidate, follow_up) in
  pedigree <- load_json_payload strptime_ymd json_loads json_candidate ;;
  Ok {| pedigree := pedigree;
        follow_up_question := follow_up;
        raw_text := text |}.

Definition process_user_message (history : list json) (user_input : string)
  : result LLMResponse :=
  prompt <- build_prompt history user_input ;;
  let output := _call_ollama_langchain prompt in
  _split_json_and_question output.
End Chat.

(** ** Vocabulary of the properties *)

(** The order Low < Moderate < High on risk levels. *)
Definition risk_rank (r : string) : nat :=
  if decide (r = "High") then 2
  else if decide (r = "Moderate") then 1 else 0.

(** [flag] contains [word], case-insensitively. *)
Definition contains_ci (word flag : string) : Prop :=
  exists pre post, str_lower flag = pre ++ word ++ post.

(** The ids of the people who have [condition], in the order of
    [_condition_to_people]. *)
Definition affected (pedigree : Pedigree) (condition : string) : list Z :=
  dict_get_default condition [] (_condition_to_people pedigree).

(** The graph that [build_graph] makes, for each of the two classes. *)
Definition fallback_graph (pedigree : Pedigree) : _FallbackDiGraph :=
  let graph := mkGraph [] [] in
  let graph :=
    fold_left (fun g person => add_node g (id person) person)
      (people pedigree) graph in
  fold_left (fun g relationship =>
               add_edge g (from_id relationship) (to_id relationship)
                 (type relationship))
    (relationships pedigree) graph.

Definition nx_graph (pedigree : Pedigree) : nx.DiGraph :=
  let graph := nx.DiGraph_new in
  let graph :=
    fold_left (fun g person => nx.add_node g (id person) person)
      (people pedigree) graph in
  fold_left (fun g relationship =>
               nx.add_edge g (from_id relationship) (to_id relationship)
                 (type relationship))
    (relationships pedigree) graph.

(** The successors of a node of an [nx.DiGraph], none for another node. *)
Definition succ_keys (G : nx.DiGraph) (u : Z) : list Z :=
  match dict_get u (nx._succ G) with
  | Some nbrs => dict_keys nbrs
  | None => []
  end.

(** The maps of an [nx.DiGraph] have the same keys, each once. *)
Definition nx_consistent (G : nx.DiGraph) : Prop :=
  dict_keys (nx._node G) = dict_keys (nx._succ G) /\
  NoDup (dict_keys (nx._succ G)).

(** The two classes hold the same edges. *)
Definition same_edges (G : nx.DiGraph) (g : _FallbackDiGraph) : Prop :=
  (forall u v, nx.edge_type G u v = dict_get (u, v) (edge_data g)) /\
  (forall u, succ_keys G u = successors g u).

(** The undirected view of the graph: [to_undirected]. *)
Definition uedge (g : _FallbackDiGraph) (u v : Z) : Prop :=
  (u, v) ∈ dict_keys (edge_data g) \/ (v, u) ∈ dict_keys (edge_data g).

(** Adjacency in an undirected graph of [networkx]. *)
Definition nx_adjacent (U : nx.Graph) (u v : Z) : Prop :=
  v ∈ dict_keys (dict_get_default u [] (nx.adj U)).

(** Consecutive elements of [l] are related by [E]. *)
Fixpoint chain (E : Z -> Z -> Prop) (l : list Z) : Prop :=
  match l with
  | x :: l' => match l' with
               | y :: _ => E x y /\ chain E l'
               | [] => True
               end
  | [] => True
  end.

(** A cycle: at least three distinct vertices, each adjacent to the next and
    the last to the first. *)
Definition is_cycle (E : Z -> Z -> Prop) (c : list Z) : Prop :=
  (3 <= length c)%nat /\ NoDup c /\ chain E c /\
  exists x y, head c = Some x /\ last c = Some y /\ E y x.

(** The undirected graph has no self-loop and no cycle. *)
Definition acyclic (g : _FallbackDiGraph) : Prop :=
  (forall u, ~ uedge g u u) /\ forall c, ~ is_cycle (uedge g) c.

(** The same of the undirected graph of either class. *)
Definition acyclic_graph (graph : graph_object) : Prop :=
  match graph with
  | NxGraph G =>
      (forall u, ~ nx_adjacent (nx.to_undirected G) u u) /\
      forall c, ~ is_cycle (nx_adjacent (nx.to_undirected G)) c
  | FallbackGraph g => acyclic g
  end.

(** What the documentation of [nx.cycle_basis] promises of its result: each
    list is a cycle of the graph, a node with a self-loop being one. *)
Definition cycle_basis_sound (cycle_basis : nx.Graph -> list (list Z)) : Prop :=
  forall U c, c ∈ cycle_basis U ->
    (exists z, c = [z] /\ nx_adjacent U z z) \/ is_cycle (nx_adjacent U) c.

(** [nx.cycle_basis] reads the nodes and the adjacency of the graph, not
    the attributes of the nodes. *)
Definition cycle_basis_structural (cycle_basis : nx.Graph -> list (list Z))
  : Prop :=
  forall U U', dict_keys (nx.node U) = dict_keys (nx.node U') ->
               nx.adj U = nx.adj U' -> cycle_basis U = cycle_basis U'.

(** What the adjacency map satisfies with respect to a set [E] of edges. *)
Definition adj_ok (E : Z -> Z -> Prop) (adj : list (Z * list Z)) : Prop :=
  (forall u v, v ∈ dict_get_default u [] adj -> E u v) /\
  (forall u v, v ∈ dict_get_default u [] adj -> v ∈ dict_keys adj) /\
  (forall u, NoDup (dict_get_default u [] adj)).

(** The nodes of the adjacency map. *)
Definition node_set (adj : list (Z * list Z)) : gset Z :=
  list_to_set (dict_keys adj).

(** What bounds the number of turns of the [while] loop that remain. *)
Definition dfs_measure (adj : list (Z * list Z)) (stack : list (Z * option Z))
    (parent : gmap Z (option Z)) : nat :=
  length stack + size (node_set adj ∖ dom parent).

(** The edge from a discovered node to the node it was discovered from. *)
Definition tree_edge (parent : gmap Z (option Z)) (a b : Z) : Prop :=
  parent !! a = Some (Some b).

(** The edges of [E] other than the one between [u] and [v]. *)
Definition avoiding (E : Z -> Z -> Prop) (u v a b : Z) : Prop :=
  E a b /\ ~ (a = u /\ b = v) /\ ~ (a = v /\ b = u).

(** Every edge is a bridge: its ends are not connected without it. *)
Definition all_bridges (E : Z -> Z -> Prop) : Prop :=
  forall u v, E u v -> ~ rtsc (avoiding E u v) u v.

(** Invariant of the [while] loop of the traversal from [root]. *)
Record dfs_inv (E : Z -> Z -> Prop) (root : Z) (stack : list (Z * option Z))
    (parent : gmap Z (option Z)) (visited : gset Z) : Prop := mk_dfs_inv {
  inv_stack : forall x q, (x, q) ∈ stack -> parent !! x = Some q;
  inv_parent : forall x y, tree_edge parent x y -> y ∈ visited /\ E x y;
  inv_root : forall x, is_Some (parent !! x) -> rtc (tree_edge parent) x root
}.

(** Invariant of the [for] loop over the neighbours of [cur], of which
    [done] have been seen. *)
Record nbr_inv (E : Z -> Z -> Prop) (root cur : Z) (par : option Z)
    (done : list Z) (stack : list (Z * option Z))
    (parent : gmap Z (option Z)) (visited : gset Z) : Prop := mk_nbr_inv {
  ninv_stack : forall x q, (x, q) ∈ stack -> parent !! x = Some q;
  ninv_cur : parent !! cur = Some par;
  ninv_visited : cur ∈ visited;
  ninv_parent : forall x y, tree_edge parent x y ->
                  y ∈ visited /\ E x y /\ (y = cur -> x ∈ done);
  ninv_root : forall x, is_Some (parent !! x) -> rtc (tree_edge parent) x root
}.

(** Two pedigrees that differ at most in the [name], [gender] and [dob] of
    their people. *)
Definition same_analysis_input (p1 p2 : Pedigree) : Prop :=
  relationships p1 = relationships p2 /\
  Forall2 (fun a b => id a = id b /\ conditions a = conditions b)
    (people p1) (people p2).

(** *** Tree-shaped representation in the store

    [rep d h lo hi v j]: the value [v] denotes [j] in [h], through objects
    at locations in [lo, hi) only, each container after its parts and the
    parts of a container side by side, without sharing. *)

Section RepSeq.
Variable R : nat -> nat -> val -> json -> Prop.

Fixpoint rep_seq (lo hi : nat) (vs : list val) (js : list json) : Prop :=
  match vs, js with
  | [], [] => (lo <= hi)%nat
  | v :: vs', j :: js' =>
      exists mid, (lo <= mid)%nat /\ R lo mid v j /\ rep_seq mid hi vs' js'
  | _, _ => False
  end.
End RepSeq.

Fixpoint rep (d : nat) (h : heap) (lo hi : nat) (v : val) (j : json) : Prop :=
  match v with
  | VRef l =>
      match d with
      | O => False
      | S d' =>
          (lo <= l < hi)%nat /\
          match h !! l, j with
          | Some (OList vs), JList js => rep_seq (rep d' h) lo l vs js
          | Some (ODict kvs), JDict kjs =>
              map fst kvs = map fst kjs /\
              rep_seq (rep d' h) lo l (map snd kvs) (map snd kjs)
          | _, _ => False
          end
      end
  | _ => (lo <= hi)%nat /\ scalar_json v = Some j
  end.

(** [json_loads_into j] appends objects to any store and leaves in them a
    tree-shaped representation of [j]. *)
Definition loads_fresh (d : nat) (j : json) : Prop :=
  forall h0, exists ext a,
    json_loads_into j h0 = ((h0 ++ ext)%list, a) /\
    rep d (h0 ++ ext)%list (length h0) (length h0 + length ext) a j.

(** The text shown for a person id. *)
Definition id_text (v : json) : string :=
  match v with
  | JInt z => int_text z
  | JBool b => if b then "True" else "False"
  | _ => ""
  end.

(** What pseudonymisation makes of a person and of a pedigree, as values. *)
Definition pseudo_person (p : json) : json :=
  match p with
  | JDict e =>
      match dict_get "id" e with
      | Some idv => JDict (dict_set "name" (JStr ("Person-" ++ id_text idv)%string) e)
      | None => p
      end
  | _ => p
  end.

Definition pseudo_json (p : json) : json :=
  match p with
  | JDict d =>
      match dict_get "people" d with
      | Some (JList persons) =>
          JDict (dict_set "people" (JList (map pseudo_person persons)) d)
      | _ => p
      end
  | _ => p
  end.

(** A person that validation accepts has an integer id. *)
Definition has_int_id (p : json) : Prop :=
  exists e idv z, p = JDict e /\ dict_get "id" e = Some idv /\ int_value idv = Some z.

(** A person after pseudonymisation: the name is ["Person-{id}"], every other
    field -- [id], [gender], [dob], [conditions] -- is as it was. *)
Definition person_pseudonymized (p p' : json) : Prop :=
  exists e e' idv,
    p = JDict e /\ p' = JDict e' /\ dict_get "id" e = Some idv /\
    dict_get "name" e' = Some (JStr ("Person-" ++ id_text idv)%string) /\
    forall k, k <> "name" -> dict_get k e' = dict_get k e.

(** A pedigree after pseudonymisation: the same entries, [relationships]
    among them, except that each person is pseudonymised. *)
Definition pseudonymized (p p' : json) : Prop :=
  exists d d' people people' persons persons',
    p = JDict d /\ p' = JDict d' /\
    dict_get "relationships" d' = dict_get "relationships" d /\
    (forall k, k <> "people" -> dict_get k d' = dict_get k d) /\
    dict_get "people" d = Some people /\ dict_get "people" d' = Some people' /\
    py_iter people = Ok persons /\ py_iter people' = Ok persons' /\
    Forall2 person_pseudonymized persons persons'.

(** A person that carries the required fields with valid values; [z] is its
    id. *)
Definition well_formed_person (strptime : string -> bool) (p : json) (z : Z) : Prop :=
  exists d idv n g dob cs,
    p = JDict d /\
    dict_get "id" d = Some idv /\ int_value idv = Some z /\
    dict_get "name" d = Some n /\
    dict_get "gender" d = Some (JStr g) /\ g ∈ ALLOWED_GENDERS /\
    dict_get "dob" d = Some (JStr dob) /\ (dob = "approx" \/ strptime dob = true) /\
    dict_get "conditions" d = Some (JList cs).

(** A relationship whose endpoints, read from the canonical or the alternate
    keys, are among [ids] and whose type, lower-cased and trimmed, is
    allowed. *)
Definition well_formed_relationship (ids : list Z) (r : json) : Prop :=
  exists f t ty kf kt,
    _normalize_relationship r =
      Ok (JDict [("from", f); ("to", t); ("type", JStr ty)]) /\
    as_integer f = Some kf /\ kf ∈ ids /\
    as_integer t = Some kt /\ kt ∈ ids /\
    ty ∈ ALLOWED_RELATIONSHIP_TYPES.

(** ** Vocabulary of the further properties *)

(** The ids that [ensure_unique_ids] gives to [n] people: 1, ..., n. *)
Definition sequential_ids (n : nat) : list Z :=
  map (fun k : nat => Z.of_nat k + 1) (seq 0 n).

(** The endpoint [v] is (equal to) one of the ids 1, ..., n. *)
Definition endpoint_in_range (n : nat) (v : json) : bool :=
  match as_integer v with
  | Some k => (1 <=? k) && (k <=? Z.of_nat n)
  | None => false
  end.

(** Both endpoints of the relationship, read from the canonical or the
    alternate keys, are among the ids 1, ..., n. *)
Definition relationship_in_range (n : nat) (rel : json) : bool :=
  match rel with
  | JDict d =>
      endpoint_in_range n
        (dict_get_default "from" (dict_get_default "from_id" JNull d) d)
      && endpoint_in_range n
           (dict_get_default "to" (dict_get_default "to_id" JNull d) d)
  | _ => false
  end.

(** The number of lines that [to_gedcom] writes for a person: five, and two
    for each condition. *)
Definition person_line_count (person : json) : nat :=
  match person with
  | JDict d =>
      match py_iter (dict_get_default "conditions" (JList []) d) with
      | Ok cs => 5 + 2 * length cs
      | Raise _ => 0
      end
  | _ => 0
  end.

(** The relationship has a type that [to_gedcom] writes as a family. *)
Definition is_family_type (rel : json) : bool :=
  match rel with
  | JDict d =>
      match dict_get_default "type" (JStr "") d with
      | JStr t => bool_decide (t ∈ ["spouse"; "parent"; "child"])
      | _ => false
      end
  | _ => false
  end.

(** The header line of the family numbered [i]. *)
Definition family_header (i : Z) : string :=
  "0 @F" +:+ int_text i +:+ "@ FAM".

(** The line opens a family record. *)
Definition is_family_line (l : string) : bool := String.prefix "0 @F" l.

(** The line gives the sex of a person. *)
Definition is_sex_line (l : string) : bool := String.prefix "1 SEX " l.

(** The [SEX] line of a person: [M] and [F] are kept, every other gender, and
    a missing one, is written [U]. *)
Definition sex_line (person : json) : string :=
  match person with
  | JDict d =>
      match dict_get_default "gender" (JStr "O") d with
      | JStr g => if decide (g = "M") then "1 SEX M"
                  else if decide (g = "F") then "1 SEX F" else "1 SEX U"
      | _ => "1 SEX U"
      end
  | _ => "1 SEX U"
  end.

(** The last relationship of the pedigree that leads from [u] to [v]. *)
Definition last_relationship (ped : Pedigree) (u v : Z) : option Relationship :=
  last (filter (fun r => from_id r = u /\ to_id r = v) (relationships ped)).

(** The last person of the pedigree with the id [i]. *)
Definition last_person (ped : Pedigree) (i : Z) : option Person :=
  last (filter (fun p => id p = i) (people ped)).

(** The endpoints of the relationships of the pedigree. *)
Definition endpoints (ped : Pedigree) : list Z :=
  flat_map (fun r => [from_id r; to_id r]) (relationships ped).

(** A list of two nodes joined by an edge. *)
Definition edge_pair (E : Z -> Z -> Prop) (c : list Z) : Prop :=
  exists a b, c = [a; b] /\ E a b.

(** Every neighbour in [E] is listed in the adjacency map. *)
Definition adj_complete (E : Z -> Z -> Prop) (adj : list (Z * list Z)) : Prop :=
  forall u v, E u v -> v ∈ dict_get_default u [] adj.

(** The depth [d] of a node is one more than that of its parent. *)
Definition depth_ok (parent : gmap Z (option Z)) (d : Z -> nat) : Prop :=
  forall x y, parent !! x = Some (Some y) -> d x = S (d y).

(** What holds of the visited nodes [V] between two traversals that have
    reported nothing: no edge leaves [V], and every edge in [V] joins a node
    to its parent in [P]. *)
Record forest_inv (E : Z -> Z -> Prop) (V : gset Z) (P : gmap Z (option Z))
    (d : Z -> nat) : Prop := mk_forest_inv {
  fi_dom : forall x, x ∈ V <-> is_Some (P !! x);
  fi_closed : forall x y, x ∈ V -> E x y -> y ∈ V;
  fi_tree : forall x y, x ∈ V -> E x y ->
              P !! x = Some (Some y) \/ P !! y = Some (Some x);
  fi_parent : forall x y, P !! x = Some (Some y) -> y ∈ V;
  fi_depth : depth_ok P d
}.

(** Invariant of the [while] loop of a traversal that reports nothing, begun
    when the nodes of [V0] were visited. *)
Record run_inv (E : Z -> Z -> Prop) (V0 : gset Z) (stack : list (Z * option Z))
    (parent : gmap Z (option Z)) (visited : gset Z) (d : Z -> nat)
  : Prop := mk_run_inv {
  ri_stack : forall x q, (x, q) ∈ stack -> parent !! x = Some q;
  ri_fresh : forall x, is_Some (parent !! x) -> x ∉ V0;
  ri_old : forall x, x ∈ V0 -> x ∈ visited;
  ri_new : forall x, x ∈ visited -> x ∉ V0 -> is_Some (parent !! x);
  ri_pending : forall x, is_Some (parent !! x) ->
                 x ∈ visited \/ exists q, (x, q) ∈ stack;
  ri_tree : forall x y, x ∈ visited -> x ∉ V0 -> E x y ->
              parent !! x = Some (Some y) \/ parent !! y = Some (Some x);
  ri_parent : forall x y, parent !! x = Some (Some y) -> y ∈ visited /\ y ∉ V0;
  ri_depth : depth_ok parent d
}.


(** ** Reference instances of the library parameters

    They make the model runnable on concrete payloads. *)

Definition digit_value (c : ascii) : option Z :=
  let n := nat_of_ascii c in
  if ((48 <=? n)%nat && (n <=? 57)%nat) then Some (Z.of_nat (n - 48)) else None.

Definition is_leap (y : Z) : bool :=
  (y mod 4 =? 0) && (negb (y mod 100 =? 0) || (y mod 400 =? 0)).

Definition days_in_month (y m : Z) : Z :=
  if m =? 2 then (if is_leap y then 29 else 28)
  else if (m =? 4) || (m =? 6) || (m =? 9) || (m =? 11) then 30 else 31.

(** The token of [%m]: [1[0-2]|0[1-9]|[1-9]]. *)
Definition month_token (l : list ascii) : option Z :=
  match map digit_value l with
  | [Some a; Some b] =>
      if ((a =? 1) && (b <=? 2)) || ((a =? 0) && (1 <=? b)) then Some (10 * a + b)
      else None
  | [Some a] => if 1 <=? a then Some a else None
  | _ => None
  end.

(** The token of [%d]: [3[01]|[12]\d|0[1-9]|[1-9]| [1-9]]. *)
Definition day_token (l : list ascii) : option Z :=
  match l with
  | [a; b] =>
      match digit_value a, digit_value b with
      | Some x, Some y =>
          if ((x =? 3) && (y <=? 1)) || (x =? 1) || (x =? 2) || ((x =? 0) && (1 <=? y))
          then Some (10 * x + y) else None
      | None, Some y => if Ascii.eqb a " " && (1 <=? y) then Some y else None
      | _, _ => None
      end
  | [a] => match digit_value a with
           | Some x => if 1 <=? x then Some x else None
           | None => None
           end
  | _ => None
  end.

(** [datetime.strptime(s, "%Y-%m-%d")] succeeds, on ASCII text. *)
Definition strptime_ymd_ascii (s : string) : bool :=
  match list_ascii_of_string s with
  | y1 :: y2 :: y3 :: y4 :: dash :: rest =>
      match digit_value y1, digit_value y2, digit_value y3, digit_value y4 with
      | Some a, Some b, Some c, Some d =>
          let year := 1000 * a + 100 * b + 10 * c + d in
          let split :=
            match rest with
            | m1 :: dash2 :: day =>
                if Ascii.eqb dash2 "-" then Some ([m1], day)
                else match day with
                     | dash3 :: day' =>
                         if Ascii.eqb dash3 "-" then Some ([m1; dash2], day')
                         else None
                     | [] => None
                     end
            | _ => None
            end in
          match split with
          | Some (mtok, dtok) =>
              match month_token mtok, day_token dtok with
              | Some month, Some day =>
                  Ascii.eqb dash "-" && (1 <=? year) && (day <=? days_in_month year month)
              | _, _ => false
              end
          | None => false
          end
      | _, _, _, _ => false
      end
  | _ => false
  end.

(** A stand-in for [nx.cycle_basis] that knows one cycle: it lists the
    triangle on 1, 2, 3 when the graph has it, and nothing otherwise. *)
Definition triangle_basis (U : nx.Graph) : list (list Z) :=
  let neighbours u := dict_keys (dict_get_default u [] (nx.adj U)) in
  if bool_decide (2 ∈ neighbours 1 /\ 3 ∈ neighbours 2 /\ 1 ∈ neighbours 3)
  then [[1; 2; 3]] else [].

(** A parser given by a table of payloads; any other text is a parse
    error. *)
Definition loads_table (table : list (string * json)) (payload : string)
  : loads_failure + json :=
  match dict_get payload table with
  | Some v => inr v
  | None => inl (JSONDecodeError "Expecting value")
  end.

(** ** Sample data *)

(** The float [1.0]. *)
Definition float_one : spec_float := S754_finite false 4503599627370496 (-52).

(** A payload whose relationship names its endpoints by [true] and [1.0]. *)
Definition bool_endpoint_pedigree : json :=
  JDict [("people",
          JList [JDict [("id", JInt 1); ("name", JStr "A"); ("gender", JStr "F");
                        ("dob", JStr "approx"); ("conditions", JList [])]]);
         ("relationships",
          JList [JDict [("from", JBool true); ("to", JFloat float_one);
                        ("type", JStr "spouse")]])].

Definition sample_payload : json :=
  JDict [("people",
          JList [JDict [("id", JInt 1); ("name", JStr "A"); ("gender", JStr "F");
                        ("dob", JStr "approx"); ("conditions", JList [])];
                 JDict [("id", JInt 2); ("name", JStr "B"); ("gender", JStr "M");
                        ("dob", JStr "1980-01-01");
                        ("conditions", JList [JStr "x"])]]);
         ("relationships",
          JList [JDict [("from_id", JInt 1); ("to", JInt 2);
                        ("type", JStr " Spouse ")]])].



Definition ped_triangle : Pedigree :=
  {| people := [mkPerson 1 "P1" "F" "approx" []; mkPerson 2 "P2" "M" "approx" [];
                mkPerson 3 "P3" "O" "approx" []];
     relationships := [mkRelationship 1 2 "spouse"; mkRelationship 2 3 "parent";
                       mkRelationship 3 1 "child"] |}.

Definition ped_sibling : Pedigree :=
  {| people := [mkPerson 1 "Ada" "F" "1980-01-01" ["Diabetes"];
                mkPerson 2 "Bob" "M" "approx" [];
                mkPerson 3 "Cy" "O" "approx" ["diabetes"]];
     relationships := [mkRelationship 1 3 "sibling"] |}.

Definition ped_sibling_anonymous : Pedigree :=
  {| people := [mkPerson 1 "Person-1" "O" "approx" ["Diabetes"];
                mkPerson 2 "Person-2" "O" "approx" [];
                mkPerson 3 "Person-3" "F" "2001-02-03" ["diabetes"]];
     relationships := [mkRelationship 1 3 "sibling"] |}.

(** A store that holds [sample_payload], and the reference to it. *)
Definition sample_store : heap * val := json_loads_into sample_payload [].

(** People with the ids 7 and 9, and a relationship between them. *)
Definition sparse_people : list json :=
  [JDict [("id", JInt 7); ("name", JStr "A"); ("gender", JStr "F");
          ("dob", JStr "approx"); ("conditions", JList [])];
   JDict [("id", JInt 9); ("name", JStr "B"); ("gender", JStr "M");
          ("dob", JStr "approx"); ("conditions", JList [])]].

Definition sparse_relationships : list json :=
  [JDict [("from", JInt 7); ("to", JInt 9); ("type", JStr "spouse")]].

Definition sparse_ids_payload : json :=
  JDict [("people", JList sparse_people);
         ("relationships", JList sparse_relationships)].

(** The people of [sparse_people] with a relationship that names its
    endpoints under the alternate keys. *)
Definition alias_relationships : list json :=
  [JDict [("from_id", JInt 7); ("to_id", JInt 9); ("type", JStr "spouse")]].

Definition alias_keys_payload : json :=
  JDict [("people", JList sparse_people);
         ("relationships", JList alias_relationships)].

(** The pedigree of [test_analysis_returns_risk_bucket]. *)
Definition ped_test_analysis : Pedigree :=
  {| people := [mkPerson 1 "P1" "F" "approx" ["condition_a"];
                mkPerson 2 "P2" "M" "approx" [];
                mkPerson 3 "P3" "O" "approx" ["condition_a"]];
     relationships := [mkRelationship 1 2 "spouse"; mkRelationship 1 3 "parent";
                       mkRelationship 3 1 "child"] |}.

(** One person, and a relationship to an id that no person has. *)
Definition ped_stranger : Pedigree :=
  {| people := [mkPerson 1 "P1" "F" "approx" ["htn"]];
     relationships := [mkRelationship 1 5 "parent"] |}.

(** A couple without conditions. *)
Definition ped_couple : Pedigree :=
  {| people := [mkPerson 1 "P1" "F" "approx" []; mkPerson 2 "P2" "M" "approx" []];
     relationships := [mkRelationship 1 2 "spouse"] |}.

(** A store that holds a pedigree whose second person has no id. *)
Definition nameless_store : heap * val :=
  json_loads_into
    (JDict [("people", JList [JDict [("id", JInt 1)]; JDict [("name", JStr "B")]])])
    [].

(** What [json.dumps] writes between the braces for the pedigree of the
    proband alone. *)
Definition proband_only_body : string :=
  quoted "people" +:+ ": [{" +:+ quoted "id" +:+ ": 1, " +:+ quoted "name" +:+ ": "
  +:+ quoted "Proband" +:+ ", " +:+ quoted "gender" +:+ ": " +:+ quoted "O" +:+ ", "
  +:+ quoted "dob" +:+ ": " +:+ quoted "approx" +:+ ", " +:+ quoted "conditions"
  +:+ ": []}], " +:+ quoted "relationships" +:+ ": []".

Definition offline_dumps (v : json) : string := "{" +:+ proband_only_body +:+ "}".

Definition offline_loads : string -> loads_failure + json :=
  loads_table
    [("{" +:+ proband_only_body +:+ "}",
      JDict [("people", JList [fallback_person 1 "Proband" "O"]);
             ("relationships", JList [])])].

(** * Properties *)

(** ** The error monad *)

Lemma bind_Ok {A B} (m : result A) (k : A -> result B) (b : B) :
  bind m k = Ok b -> exists a, m = Ok a /\ k a = Ok b.
Proof. destruct m as [a|e]; simpl; [eauto | discriminate]. Qed.

Tactic Notation "inv_bind" hyp(H) "as" ident(a) ident(Ha) :=
  apply bind_Ok in H; destruct H as (a & Ha & H).

Lemma map_result_Ok {A B} (f : A -> result B) xs ys :
  map_result f xs = Ok ys -> Forall2 (fun x y => f x = Ok y) xs ys.
Proof.
  revert ys. induction xs as [|x xs IH]; intros ys H; simpl in H.
  - injection H as <-. constructor.
  - inv_bind H as y Hy. inv_bind H as ys' Hys. injection H as <-.
    constructor; auto.
Qed.

Lemma Forall2_map_result {A B} (f : A -> result B) xs ys :
  Forall2 (fun x y => f x = Ok y) xs ys -> map_result f xs = Ok ys.
Proof.
  induction 1 as [|x y xs ys Hxy _ IH]; simpl; [reflexivity|].
  rewrite Hxy. simpl. rewrite IH. reflexivity.
Qed.

(** ** Dictionaries *)

Lemma dict_get_set_eq {K V} `{EqDecision K} (k : K) (v : V) d :
  dict_get k (dict_set k v d) = Some v.
Proof.
  induction d as [|[k' v'] d IH]; simpl.
  - destruct (decide (k = k)); congruence.
  - destruct (decide (k = k')) as [->|Hne]; simpl.
    + destruct (decide (k' = k')); congruence.
    + destruct (decide (k = k')); congruence.
Qed.

Lemma dict_get_set_ne {K V} `{EqDecision K} (k k0 : K) (v : V) d :
  k0 <> k -> dict_get k0 (dict_set k v d) = dict_get k0 d.
Proof.
  intros Hne. induction d as [|[k' v'] d IH]; simpl.
  - destruct (decide (k0 = k)); congruence.
  - destruct (decide (k = k')) as [->|Hne']; simpl.
    + destruct (decide (k0 = k')); congruence.
    + destruct (decide (k0 = k')); congruence.
Qed.

Lemma dict_set_set {K V} `{EqDecision K} (k : K) (v w : V) d :
  dict_set k w (dict_set k v d) = dict_set k w d.
Proof.
  induction d as [|[k' v'] d IH]; simpl.
  - destruct (decide (k = k)); congruence.
  - destruct (decide (k = k')) as [->|Hne]; simpl.
    + destruct (decide (k' = k')); congruence.
    + destruct (decide (k = k')); congruence.
Qed.

(** ** Strings: [lower] and [strip] *)

Lemma is_space_lower c : is_space (lower_char c) = is_space c.
Proof. destruct c as [[] [] [] [] [] [] [] []]; reflexivity. Qed.

Lemma lower_char_idem c : lower_char (lower_char c) = lower_char c.
Proof. destruct c as [[] [] [] [] [] [] [] []]; reflexivity. Qed.

Lemma drop_spaces_lower l :
  drop_spaces (map lower_char l) = map lower_char (drop_spaces l).
Proof.
  induction l as [|c l IH]; simpl; [reflexivity|].
  rewrite is_space_lower. destruct (is_space c); auto.
Qed.

Lemma drop_spaces_idem l : drop_spaces (drop_spaces l) = drop_spaces l.
Proof.
  induction l as [|c l IH]; simpl; [reflexivity|].
  destruct (is_space c) eqn:E; [assumption|]. simpl. rewrite E. reflexivity.
Qed.

Lemma drop_spaces_snoc l c :
  is_space c = false -> exists y, drop_spaces (l ++ [c]) = (y ++ [c])%list.
Proof.
  intros Hc. induction l as [|a l IH]; simpl.
  - rewrite Hc. exists []. reflexivity.
  - destruct (is_space a); [assumption|]. exists (a :: l). reflexivity.
Qed.

Lemma strip_list_idem l : strip_list (strip_list l) = strip_list l.
Proof.
  unfold strip_list.
  destruct (drop_spaces l) as [|c m] eqn:E; [reflexivity|].
  assert (Hc : is_space c = false).
  { clear -E. induction l as [|a l IH]; simpl in E; [discriminate|].
    destruct (is_space a) eqn:Ea; [auto|]. injection E as -> _. exact Ea. }
  simpl rev at 2.
  destruct (drop_spaces_snoc (rev m) c Hc) as [y Hy]. rewrite Hy.
  rewrite rev_app_distr. simpl. rewrite Hc.
  change (c :: rev y) with (rev [c] ++ rev y)%list.
  rewrite <- rev_app_distr, rev_involutive, <- Hy.
  rewrite drop_spaces_idem. reflexivity.
Qed.

Lemma strip_list_lower l :
  strip_list (map lower_char l) = map lower_char (strip_list l).
Proof.
  unfold strip_list.
  rewrite drop_spaces_lower, <- map_rev, drop_spaces_lower, <- map_rev.
  reflexivity.
Qed.

Lemma strip_lower_idem (t : string) :
  str_strip (str_lower (str_strip (str_lower t))) = str_strip (str_lower t).
Proof.
  unfold str_strip, str_lower.
  rewrite !list_ascii_of_string_of_list_ascii.
  set (l := list_ascii_of_string t).
  f_equal.
  rewrite strip_list_lower, strip_list_idem.
  rewrite <- strip_list_lower. f_equal.
  rewrite map_map. apply map_ext. intros c. apply lower_char_idem.
Qed.

(** ** Normalisation *)

Lemma repair_person_Ok i p p' :
  repair_person i p = Ok p' ->
  exists d, p = JDict d /\ p' = JDict (dict_set "id" (JInt i) d).
Proof.
  unfold repair_person, deepcopy. destruct p; try discriminate.
  intros [= <-]. eauto.
Qed.

Lemma ensure_unique_ids_from_Ok items : forall i ps,
  ensure_unique_ids_from i items = Ok ps ->
  length ps = length items /\
  forall (k : nat) p, ps !! k = Some p ->
    exists d, items !! k = Some (JDict d) /\
              p = JDict (dict_set "id" (JInt (i + Z.of_nat k)) d).
Proof.
  induction items as [|x items IH]; intros i ps H; simpl in H.
  - injection H as <-. split; [reflexivity|]. intros k p Hk. destruct k; discriminate.
  - inv_bind H as q Hq. inv_bind H as qs Hqs. injection H as <-.
    apply repair_person_Ok in Hq as (d & -> & ->).
    destruct (IH _ _ Hqs) as [Hlen Hall]. split; [simpl; congruence|].
    intros [|k] p Hk; simpl in Hk.
    + injection Hk as <-. exists d. split; [reflexivity|].
      do 3 f_equal. lia.
    + destruct (Hall k p Hk) as (d' & Hd' & ->). exists d'. split; [exact Hd'|].
      do 3 f_equal. lia.
Qed.

Lemma ensure_unique_ids_from_idem items : forall i ps,
  ensure_unique_ids_from i items = Ok ps -> ensure_unique_ids_from i ps = Ok ps.
Proof.
  induction items as [|x items IH]; intros i ps H; simpl in H.
  - injection H as <-. reflexivity.
  - inv_bind H as q Hq. inv_bind H as qs Hqs. injection H as <-.
    apply repair_person_Ok in Hq as (d & -> & ->). simpl.
    rewrite dict_set_set, (IH _ _ Hqs). reflexivity.
Qed.

Lemma ensure_unique_ids_from_total items : forall i,
  Forall (fun p => exists d, p = JDict d) items ->
  exists ps, ensure_unique_ids_from i items = Ok ps.
Proof.
  induction items as [|x items IH]; intros i H; simpl; [eauto|].
  inversion H as [|? ? [d ->] Hrest]; subst. simpl.
  destruct (IH (i + 1) Hrest) as [ps ->]. simpl. eauto.
Qed.

Lemma normalize_relationship_Ok raw r :
  _normalize_relationship raw = Ok r ->
  exists f t ty, r = JDict [("from", f); ("to", t);
                            ("type", JStr (str_strip (str_lower ty)))].
Proof.
  unfold _normalize_relationship. destruct raw; try discriminate.
  destruct (dict_get_default "type" (JStr "") d); try discriminate.
  intros [= <-]. eauto.
Qed.

Lemma normalize_relationship_idem raw r :
  _normalize_relationship raw = Ok r -> _normalize_relationship r = Ok r.
Proof.
  intros H. apply normalize_relationship_Ok in H as (f & t & ty & ->).
  cbv [_normalize_relationship].
  change (dict_get_default "type" (JStr "") _)
    with (JStr (str_strip (str_lower ty))).
  change (dict_get_default "from" _ _) with f.
  change (dict_get_default "to" _ _) with t.
  cbv iota. rewrite strip_lower_idem. reflexivity.
Qed.

Lemma map_result_idem {A} (f : A -> result A) xs ys :
  (forall x y, f x = Ok y -> f y = Ok y) ->
  map_result f xs = Ok ys -> map_result f ys = Ok ys.
Proof.
  intros Hf H. apply map_result_Ok in H. apply Forall2_map_result.
  induction H; constructor; eauto.
Qed.

Lemma normalize_pedigree_Ok p n :
  normalize_pedigree p = Ok n ->
  exists d items ps rels rs,
    p = JDict d /\
    py_iter (dict_get_default "people" (JList []) d) = Ok items /\
    ensure_unique_ids_from 1 items = Ok ps /\
    py_iter (dict_get_default "relationships" (JList []) d) = Ok rels /\
    map_result _normalize_relationship rels = Ok rs /\
    n = JDict [("people", JList ps); ("relationships", JList rs)].
Proof.
  unfold normalize_pedigree. destruct p; try discriminate. intros H.
  inv_bind H as ps Hps. unfold ensure_unique_ids in Hps.
  inv_bind Hps as items Hitems.
  inv_bind H as rels Hrels. inv_bind H as rs Hrs. injection H as <-.
  exists d, items, ps, rels, rs. repeat split; assumption.
Qed.

Lemma normalize_pedigree_idem p n :
  normalize_pedigree p = Ok n -> normalize_pedigree n = Ok n.
Proof.
  intros H.
  apply normalize_pedigree_Ok in H
    as (d & items & ps & rels & rs & -> & _ & Hps & _ & Hrs & ->).
  unfold normalize_pedigree.
  change (dict_get_default "people" (JList []) _) with (JList ps).
  change (dict_get_default "relationships" (JList []) _) with (JList rs).
  unfold ensure_unique_ids. simpl py_iter. cbn [bind].
  rewrite (ensure_unique_ids_from_idem _ _ _ Hps). cbn [bind].
  rewrite (map_result_idem _ _ _ normalize_relationship_idem Hrs).
  reflexivity.
Qed.

(** ** Validation *)

Lemma check_each_Continue {A S} (body : S -> A -> result (verdict S))
    (P : A -> Prop) xs : forall s s',
  (forall s x s'', body s x = Ok (Continue s'') -> P x) ->
  check_each body xs s = Ok (Continue s') -> Forall P xs.
Proof.
  induction xs as [|x xs IH]; intros s s' HP H; [constructor|].
  simpl in H. inv_bind H as v Hv. destruct v as [s1|r]; [|discriminate].
  constructor; eauto.
Qed.

Lemma validate_person_Continue strptime ids p ids' :
  validate_person strptime ids p = Ok (Continue ids') ->
  exists d idv z, p = JDict d /\ dict_get "id" d = Some idv /\
                  int_value idv = Some z /\ ids' = (ids ++ [z])%list.
Proof.
  unfold validate_person. destruct p; try discriminate.
  destruct (filter _ required_keys); [|discriminate].
  intros H. inv_bind H as idv Hid.
  destruct (int_value idv) as [z|] eqn:Hz; [|discriminate].
  inv_bind H as g Hg. inv_bind H as known Hknown. destruct (negb known); [discriminate|].
  inv_bind H as dob Hdob. inv_bind H as ok Hok. destruct (negb ok); [discriminate|].
  inv_bind H as cs Hcs. destruct (negb (is_list cs)); [discriminate|].
  injection H as <-.
  unfold py_getitem in Hid. destruct (dict_get "id" d) eqn:E; [|discriminate].
  injection Hid as ->. eauto 10.
Qed.

Lemma validate_relationship_Continue ids rel u :
  validate_relationship ids rel = Ok (Continue u) ->
  exists f t ty,
    _normalize_relationship rel =
      Ok (JDict [("from", f); ("to", t); ("type", JStr ty)]) /\
    in_int_set f ids = Ok true /\ in_int_set t ids = Ok true /\
    ty ∈ ALLOWED_RELATIONSHIP_TYPES.
Proof.
  unfold validate_relationship. intros H. inv_bind H as nr Hnr.
  destruct (normalize_relationship_Ok _ _ Hnr) as (f & t & ty & ->).
  exists f, t, (str_strip (str_lower ty)). split; [exact Hnr|].
  cbn [py_getitem] in H.
  change (dict_get "from" _) with (Some f) in H.
  change (dict_get "to" _) with (Some t) in H.
  change (dict_get "type" _) with (Some (JStr (str_strip (str_lower ty)))) in H.
  cbn [bind] in H.
  inv_bind H as bf Hbf. destruct bf; [|discriminate]. cbn [negb] in H.
  inv_bind H as bt Hbt. destruct bt; [|discriminate]. cbn [negb] in H.
  inv_bind H as ba Hba. destruct ba; [|discriminate].
  repeat split; try assumption.
  unfold in_str_set in Hba. cbn [hashable] in Hba. injection Hba as Hba.
  apply bool_decide_eq_true in Hba. exact Hba.
Qed.

Lemma validate_pedigree_true strptime p err :
  validate_pedigree strptime p = Ok (true, err) ->
  exists d people relationships persons ids rels,
    p = JDict d /\ err = None /\
    dict_get "people" d = Some people /\
    dict_get "relationships" d = Some relationships /\
    py_iter people = Ok persons /\
    check_each (validate_person strptime) persons [] = Ok (Continue ids) /\
    py_iter relationships = Ok rels /\
    Forall (fun rel => exists u, validate_relationship ids rel = Ok (Continue u)) rels.
Proof.
  unfold validate_pedigree. destruct p; try discriminate.
  destruct (dict_get "people" d) as [people|] eqn:Hp; [|discriminate].
  destruct (dict_get "relationships" d) as [relationships|] eqn:Hr; [|discriminate].
  intros H. inv_bind H as persons Hpersons. inv_bind H as v Hv.
  destruct v as [ids|r]; [|discriminate].
  inv_bind H as rels Hrels. inv_bind H as w Hw. destruct w as [[]|r]; [|discriminate].
  injection H as <-.
  exists d, people, relationships, persons, ids, rels. repeat split; try assumption.
  eapply (check_each_Continue (fun _ => validate_relationship ids)); [|exact Hw].
  intros _ x s'' Hx. eauto.
Qed.

Lemma valid_normalizes strptime p err :
  validate_pedigree strptime p = Ok (true, err) ->
  exists n, normalize_pedigree p = Ok n.
Proof.
  intros H.
  apply validate_pedigree_true in H
    as (d & people & relationships & persons & ids & rels
        & -> & _ & Hp & Hr & Hpi & Hps & Hri & Hrs).
  unfold normalize_pedigree, ensure_unique_ids, dict_get_default.
  rewrite Hp, Hr, Hpi. cbn [bind].
  destruct (ensure_unique_ids_from_total persons 1) as [ps ->].
  { eapply check_each_Continue; [|exact Hps].
    intros s x s'' Hx. apply validate_person_Continue in Hx as (d' & _ & _ & -> & _).
    eauto. }
  cbn [bind]. rewrite Hri. cbn [bind].
  assert (exists rs, map_result _normalize_relationship rels = Ok rs) as [rs ->].
  { clear Hri. induction Hrs as [|rel rels [u Hu] _ [rs IH]]; simpl; [eauto|].
    apply validate_relationship_Continue in Hu as (f & t & ty & -> & _).
    simpl. rewrite IH. simpl. eauto. }
  cbn [bind]. eauto.
Qed.

(** ** Validation accepts what is well-formed *)

Lemma validate_person_accepts strptime ids p z :
  well_formed_person strptime p z ->
  validate_person strptime ids p = Ok (Continue (ids ++ [z])%list).
Proof.
  intros (d & idv & n & g & dob & cs & -> & Hid & Hz & Hn & Hg & Hgin & Hd & Hdok & Hc).
  unfold validate_person, required_keys. cbn [filter list_filter].
  unfold dict_has. rewrite Hid, Hn, Hg, Hd, Hc.
  repeat (rewrite decide_False by discriminate). cbn [py_getitem bind].
  rewrite Hid, Hg, Hd, Hc. cbn [bind]. rewrite Hz.
  unfold in_str_set. cbn [hashable bind].
  rewrite bool_decide_eq_true_2 by exact Hgin. cbn [negb].
  unfold _is_valid_dob. destruct Hdok as [->|Hok].
  - rewrite decide_True by reflexivity. reflexivity.
  - destruct (decide (dob = "approx")); [reflexivity|]. rewrite Hok. reflexivity.
Qed.

Lemma as_integer_hashable v z : as_integer v = Some z -> hashable v = true.
Proof. destruct v; try discriminate; reflexivity. Qed.

Lemma validate_relationship_accepts ids r :
  well_formed_relationship ids r ->
  validate_relationship ids r = Ok (Continue tt).
Proof.
  intros (f & t & ty & kf & kt & Hn & Hf & Hfin & Ht & Htin & Hty).
  unfold validate_relationship. rewrite Hn. cbn [bind py_getitem].
  change (dict_get "from" _) with (Some f).
  change (dict_get "to" _) with (Some t).
  change (dict_get "type" _) with (Some (JStr ty)).
  cbn [bind]. unfold in_int_set, in_str_set.
  rewrite (as_integer_hashable _ _ Hf), (as_integer_hashable _ _ Ht), Hf, Ht.
  cbn [hashable bind].
  rewrite !bool_decide_eq_true_2 by assumption. reflexivity.
Qed.

(** The second half of C5: a pedigree whose people and relationships are
    well-formed and consistent is accepted. *)
Lemma validate_accepts_well_formed strptime d persons rels ids :
  dict_get "people" d = Some (JList persons) ->
  dict_get "relationships" d = Some (JList rels) ->
  Forall2 (well_formed_person strptime) persons ids ->
  Forall (well_formed_relationship ids) rels ->
  validate_pedigree strptime (JDict d) = Ok (true, None).
Proof.
  intros Hp Hr Hpersons Hrels. unfold validate_pedigree. rewrite Hp, Hr.
  cbn [py_iter bind].
  assert (H1 : forall acc,
            check_each (validate_person strptime) persons acc
            = Ok (Continue (acc ++ ids)%list)).
  { clear Hp Hrels. induction Hpersons as [|p z ps zs Hpz _ IH]; intros acc; cbn [check_each].
    - rewrite app_nil_r. reflexivity.
    - rewrite (validate_person_accepts _ _ _ _ Hpz). cbn [bind].
      rewrite IH, <- app_assoc. reflexivity. }
  rewrite H1. cbn [bind app].
  assert (H2 : check_each (fun _ : unit => validate_relationship ids) rels tt
               = Ok (Continue tt)).
  { clear Hr. induction Hrels as [|r rs Hr0 _ IH]; cbn [check_each]; [reflexivity|].
    rewrite (validate_relationship_accepts _ _ Hr0). cbn [bind]. exact IH. }
  rewrite H2. reflexivity.
Qed.

(** ** Claims on the schema layer *)

(** C1 (defect).  [load_json_payload] is to fail with
    [PedigreeValidationError] or return; but a payload that parses to a JSON
    array reaches [normalize_pedigree] before any check, and the
    [AttributeError] of [pedigree.get] escapes. *)
Theorem C1_array_payload_raises_AttributeError
    (strptime : string -> bool) (loads : string -> loads_failure + json)
    (text : string) (items : list json) :
  loads text = inr (JList items) ->
  load_json_payload strptime loads text = Raise AttributeError.
Proof. intros H. unfold load_json_payload. rewrite H. reflexivity. Qed.

Lemma C1_array_payload_witness :
  loads_table [("[]", JList [])] "[]" = inr (JList []) /\
  load_json_payload strptime_ymd_ascii (loads_table [("[]", JList [])]) "[]"
    = Raise AttributeError.
Proof.
  split; [reflexivity|].
  apply (C1_array_payload_raises_AttributeError _ _ "[]" []). reflexivity.
Defined.

(** What does hold of the entry point: a parse error is reported as
    [InvalidJSON] with the diagnostic, and a returned pedigree is the
    normalised payload and passes validation. *)
Lemma load_json_payload_parse_error strptime loads text diagnostic :
  loads text = inl (JSONDecodeError diagnostic) ->
  load_json_payload strptime loads text
    = Raise (PedigreeValidationError (InvalidJSON diagnostic)).
Proof. intros H. unfold load_json_payload. rewrite H. reflexivity. Qed.

Lemma load_json_payload_Ok strptime loads text n :
  load_json_payload strptime loads text = Ok n ->
  exists parsed, loads text = inr parsed /\
                 normalize_pedigree parsed = Ok n /\
                 validate_pedigree strptime n = Ok (true, None).
Proof.
  unfold load_json_payload.
  destruct (loads text) as [[diag|e]|parsed]; [discriminate|discriminate|].
  intros H. inv_bind H as m Hm. inv_bind H as c Hc. destruct c as [ok err].
  destruct ok; [|discriminate]. injection H as <-.
  exists parsed. repeat split; try assumption.
  destruct (validate_pedigree_true _ _ _ Hc) as (? & ? & ? & ? & ? & ? & _ & -> & _).
  exact Hc.
Qed.

(** C3 as written fails: a mapping whose [people] entry is a number. *)
Lemma C3_counterexample :
  normalize_pedigree (JDict [("people", JInt 5)]) = Raise TypeError.
Proof. reflexivity. Qed.

Lemma forallb_is_dict persons :
  forallb is_dict persons = true <->
  Forall (fun p => exists d, p = JDict d) persons.
Proof.
  rewrite forallb_forall, List.Forall_forall. split; intros H x Hx.
  - specialize (H x Hx). destruct x; try discriminate. eauto.
  - destruct (H x Hx) as [d ->]. reflexivity.
Qed.

Lemma relationship_shaped_iff rel :
  relationship_shaped rel = true <-> exists r, _normalize_relationship rel = Ok r.
Proof.
  unfold relationship_shaped, _normalize_relationship.
  destruct rel; try (split; [discriminate | intros [? ?]; discriminate]).
  destruct (dict_get_default "type" (JStr "") d);
    try (split; [discriminate | intros [? ?]; discriminate]).
  split; eauto.
Qed.

Lemma map_normalize_total rels :
  forallb relationship_shaped rels = true <->
  exists rs, map_result _normalize_relationship rels = Ok rs.
Proof.
  induction rels as [|rel rels IH]; simpl.
  - split; eauto.
  - rewrite andb_true_iff, IH, relationship_shaped_iff. split.
    + intros [[r ->] [rs ->]]. simpl. eauto.
    + intros [rs H]. inv_bind H as r Hr. inv_bind H as rs' Hrs. eauto.
Qed.

(** On a stack that never runs out, [normalize_pedigree] returns exactly
    on the values of the shape [normalizable]. *)
Lemma normalize_returns_iff_shaped (v : json) :
  normalizable v = true <-> exists n, normalize_pedigree v = Ok n.
Proof.
  split.
  - unfold normalizable, normalize_pedigree, ensure_unique_ids.
    destruct v; try discriminate.
    destruct (py_iter (dict_get_default "people" _ d)) as [persons|]; [|discriminate].
    destruct (py_iter (dict_get_default "relationships" _ d)) as [rels|]; [|discriminate].
    rewrite andb_true_iff, forallb_is_dict, map_normalize_total.
    intros [Hp [rs Hrs]]. cbn [bind].
    destruct (ensure_unique_ids_from_total persons 1 Hp) as [ps ->].
    cbn [bind]. rewrite Hrs. cbn [bind]. eauto.
  - intros [n H].
    apply normalize_pedigree_Ok in H
      as (d & items & ps & rels & rs & -> & Hi & Hps & Hr & Hrs & _).
    unfold normalizable. rewrite Hi, Hr.
    rewrite andb_true_iff, forallb_is_dict, map_normalize_total. split; [|eauto].
    apply ensure_unique_ids_from_Ok in Hps as [Hlen Hall].
    apply List.Forall_forall. intros x Hx.
    apply list_elem_of_In, list_elem_of_lookup in Hx as [k Hk].
    destruct (lookup_lt_is_Some_2 ps k) as [p Hp].
    { rewrite Hlen. eapply lookup_lt_Some. exact Hk. }
    destruct (Hall k p Hp) as (d' & Hd' & _). rewrite Hk in Hd'.
    injection Hd' as ->. eauto.
Qed.

Lemma ensure_unique_ids_from_Raise items e : forall i,
  ensure_unique_ids_from i items = Raise e -> e = TypeError.
Proof.
  induction items as [|x items IH]; intros i H; simpl in H; [discriminate|].
  destruct (repair_person i x) as [q|e'] eqn:Hq.
  - cbn [bind] in H.
    destruct (ensure_unique_ids_from (i + 1) items) as [qs|e''] eqn:Hqs;
      [discriminate|].
    cbn [bind] in H. injection H as <-. exact (IH _ Hqs).
  - cbn [bind] in H. injection H as <-.
    unfold repair_person, deepcopy in Hq. destruct x; congruence.
Qed.

Lemma normalize_pedigree_Raise p e :
  normalize_pedigree p = Raise e -> e = AttributeError \/ e = TypeError.
Proof.
  unfold normalize_pedigree. destruct p; try (intros [= <-]; auto).
  unfold ensure_unique_ids.
  destruct (py_iter (dict_get_default "people" (JList []) d)) as [items|e1] eqn:Hi.
  2:{ cbn [bind]. intros [= <-]. right. destruct (dict_get_default _ _ d);
      simpl in Hi; congruence. }
  cbn [bind].
  destruct (ensure_unique_ids_from 1 items) as [ps|e1] eqn:Hps.
  2:{ cbn [bind]. intros [= <-]. right. exact (ensure_unique_ids_from_Raise _ _ _ Hps). }
  cbn [bind].
  destruct (py_iter (dict_get_default "relationships" (JList []) d)) as [rels|e1] eqn:Hr.
  2:{ cbn [bind]. intros [= <-]. right.
      destruct (dict_get_default "relationships" (JList []) d);
        simpl in Hr; congruence. }
  cbn [bind].
  destruct (map_result _normalize_relationship rels) as [rs|e1] eqn:Hrs;
    [discriminate|].
  cbn [bind]. intros [= <-]. left.
  clear -Hrs. revert Hrs. induction rels as [|x rels IH]; simpl; [discriminate|].
  destruct (_normalize_relationship x) as [r|e2] eqn:Hx.
  - cbn [bind]. destruct (map_result _normalize_relationship rels) as [rs|e3];
      [discriminate|].
    cbn [bind]. intros [= <-]. apply IH. reflexivity.
  - cbn [bind]. intros [= <-]. unfold _normalize_relationship in Hx.
    destruct x; try congruence.
    destruct (dict_get_default "type" (JStr "") d); congruence.
Qed.

(** With the limit, the repair of the ids is the one without it when the
    stack allows every copy, and raises otherwise. *)
Lemma ensure_unique_ids_from_limited_spec fits items : forall i,
  if forallb fits items
  then ensure_unique_ids_from_limited fits i items = ensure_unique_ids_from i items
  else exists e, ensure_unique_ids_from_limited fits i items = Raise e /\
                 (e = TypeError \/ e = RecursionError).
Proof.
  induction items as [|x items IH]; intros i; cbn [forallb]; [reflexivity|].
  cbn [ensure_unique_ids_from_limited ensure_unique_ids_from].
  unfold repair_person_limited, deepcopy_limited, repair_person.
  destruct (fits x); cbn [andb bind].
  - specialize (IH (i + 1)). destruct (forallb fits items).
    + rewrite IH. reflexivity.
    + destruct IH as (e & He & Hor).
      destruct (deepcopy x); try (eexists; split; [reflexivity|auto]).
      cbn [bind]. rewrite He. cbn [bind]. eauto.
  - eexists. split; [reflexivity|auto].
Qed.

Lemma normalize_pedigree_limited_spec fits v :
  if copyable fits v
  then normalize_pedigree_limited fits v = normalize_pedigree v
  else exists e, normalize_pedigree_limited fits v = Raise e /\
                 (e = TypeError \/ e = RecursionError).
Proof.
  unfold copyable, normalize_pedigree_limited, normalize_pedigree,
    ensure_unique_ids_limited, ensure_unique_ids.
  destruct v; try reflexivity.
  destruct (py_iter (dict_get_default "people" (JList []) d)) as [items|e];
    [|reflexivity].
  cbn [bind]. pose proof (ensure_unique_ids_from_limited_spec fits items 1) as H.
  destruct (forallb fits items).
  - rewrite H. reflexivity.
  - destruct H as (e & -> & Hor). cbn [bind]. eauto.
Qed.

(** C3 (as amended).  [normalize_pedigree] returns a result exactly on the
    mappings whose [people] entry (the empty list when missing) iterates over
    mappings, each of which [copy.deepcopy] copies within the recursion
    limit, and whose [relationships] entry (the empty list when missing)
    iterates over mappings whose [type] entry (the empty string when missing)
    is a string; the result is then the one that the code gives without the
    limit.  On every other parsed value it raises [AttributeError],
    [TypeError] or [RecursionError]. *)
Theorem C3_normalize_returns_iff_shaped (fits : json -> bool) (v : json) :
  if normalizable v && copyable fits v
  then exists n, normalize_pedigree_limited fits v = Ok n /\
                 normalize_pedigree v = Ok n
  else exists e, normalize_pedigree_limited fits v = Raise e /\
                 (e = AttributeError \/ e = TypeError \/ e = RecursionError).
Proof.
  pose proof (normalize_pedigree_limited_spec fits v) as Hl.
  pose proof (normalize_returns_iff_shaped v) as Hs.
  destruct (copyable fits v).
  - rewrite Hl, andb_true_r.
    destruct (normalizable v).
    + destruct (proj1 Hs eq_refl) as [n Hn]. eauto.
    + destruct (normalize_pedigree v) as [n|e] eqn:Hn.
      * destruct Hs as [_ Hs]. discriminate Hs. eauto.
      * exists e. split; [reflexivity|].
        destruct (normalize_pedigree_Raise _ _ Hn); auto.
  - rewrite andb_false_r. destruct Hl as (e & He & [->| ->]); eauto 6.
Qed.

(** C4.  Normalisation is idempotent: a pedigree that passes validation is
    normalised to a value that normalisation leaves as it is. *)
Theorem C4_normalize_idempotent (strptime : string -> bool) (p : json) :
  validate_pedigree strptime p = Ok (true, None) ->
  exists n, normalize_pedigree p = Ok n /\ normalize_pedigree n = Ok n.
Proof.
  intros H. destruct (valid_normalizes _ _ _ H) as [n Hn].
  exists n. split; [exact Hn|]. exact (normalize_pedigree_idem _ _ Hn).
Qed.

Lemma C4_normalize_idempotent_witness :
  validate_pedigree strptime_ymd_ascii sample_payload = Ok (true, None) /\
  exists n, normalize_pedigree sample_payload = Ok n /\
            normalize_pedigree n = Ok n.
Proof.
  split; [vm_compute; reflexivity|].
  apply (C4_normalize_idempotent strptime_ymd_ascii). vm_compute. reflexivity.
Defined.

(** C5 (defect).  The validator is to return [(False, reason)] for a
    relationship whose [from] is not a declared id; when that [from] is a JSON
    array, the membership test on the set of ids raises [TypeError]. *)
Theorem C5_unhashable_endpoint_raises_TypeError (strptime : string -> bool) :
  validate_pedigree strptime
    (JDict [("people", JList []);
            ("relationships",
             JList [JDict [("from", JList [JInt 1]); ("to", JInt 1);
                           ("type", JStr "parent")]])])
  = Raise TypeError.
Proof. reflexivity. Qed.

Lemma person_ids_range strptime ps : forall i ids0 ids',
  (forall (k : nat) p, ps !! k = Some p ->
     exists d, p = JDict d /\ dict_get "id" d = Some (JInt (i + Z.of_nat k))) ->
  check_each (validate_person strptime) ps ids0 = Ok (Continue ids') ->
  forall z, z ∈ ids' -> z ∈ ids0 \/ i <= z < i + Z.of_nat (length ps).
Proof.
  induction ps as [|p ps IH]; intros i ids0 ids' Hid H z Hz; simpl in H.
  - injection H as <-. auto.
  - inv_bind H as v Hv. destruct v as [ids1|r]; [|discriminate].
    apply validate_person_Continue in Hv as (d & idv & z0 & -> & Hget & Hint & ->).
    destruct (Hid 0%nat _ eq_refl) as (d' & [= <-] & Hd').
    rewrite Hd' in Hget. injection Hget as <-. injection Hint as <-.
    assert (Hid' : forall (k : nat) q, ps !! k = Some q ->
              exists d, q = JDict d /\
                        dict_get "id" d = Some (JInt (i + 1 + Z.of_nat k))).
    { intros k q Hq. destruct (Hid (S k) q Hq) as (d'' & -> & Hd'').
      exists d''. split; [reflexivity|]. rewrite Hd''. do 2 f_equal. lia. }
    destruct (IH (i + 1) _ _ Hid' H z Hz) as [Hin|Hr].
    + apply elem_of_app in Hin as [Hin|Hin]; [auto|].
      apply list_elem_of_singleton in Hin. subst z. right.
      rewrite length_cons. lia.
    + right. rewrite length_cons. lia.
Qed.

Lemma in_int_set_true v ids :
  in_int_set v ids = Ok true -> exists z, as_integer v = Some z /\ z ∈ ids.
Proof.
  unfold in_int_set. destruct (hashable v); [|discriminate].
  destruct (as_integer v) as [z|]; [|discriminate].
  intros [= H]. apply bool_decide_eq_true in H. eauto.
Qed.

Lemma allowed_type_lower_trimmed ty :
  ty ∈ ALLOWED_RELATIONSHIP_TYPES -> str_lower ty = ty /\ str_strip ty = ty.
Proof.
  intros H. apply list_elem_of_In in H. simpl in H.
  repeat (destruct H as [<-|H]; [split; reflexivity|]). contradiction.
Qed.

(** C9 as written fails: the endpoints of a returned relationship need not
    be integers.  The validator tests them with [in person_ids], which holds
    of [True] and of [1.0] when 1 is an id, and normalisation leaves them as
    they are; [to_gedcom] then writes [@ITrue@]. *)
Lemma C9_counterexample :
  load_json_payload strptime_ymd_ascii
    (loads_table [("payload", bool_endpoint_pedigree)]) "payload"
  = Ok bool_endpoint_pedigree /\
  ~ integer_endpoint 1 (JBool true) /\
  ~ integer_endpoint 1 (JFloat float_one) /\
  exists lines,
    to_gedcom_lines (fun _ => "1.0") bool_endpoint_pedigree = Ok lines /\
    "1 HUSB @ITrue@" ∈ lines.
Proof.
  split; [vm_compute; reflexivity|].
  split; [intros (k & H & _); discriminate|].
  split; [intros (k & H & _); discriminate|].
  eexists. split; [vm_compute; reflexivity|].
  repeat first [apply list_elem_of_here | apply list_elem_of_further].
Qed.

(** C9 (as amended).  A pedigree returned by [load_json_payload] is
    canonical: its people carry the ids 1..n in list order, and each
    relationship is a mapping with exactly the keys [from], [to], [type],
    whose endpoints are equal, in Python's sense of [==], to members of 1..n
    (so [True] and [1.0] pass for 1) and whose type is a lower-cased, trimmed
    member of the allowed set. *)
Theorem C9_loaded_pedigree_is_canonical
    (strptime : string -> bool) (loads : string -> loads_failure + json)
    (text : string) (n : json) :
  load_json_payload strptime loads text = Ok n -> canonical_pedigree n.
Proof.
  intros H. apply load_json_payload_Ok in H as (parsed & _ & Hnorm & Hval).
  pose proof (normalize_pedigree_idem _ _ Hnorm) as Hidem.
  apply normalize_pedigree_Ok in Hnorm
    as (d & items & ps & rels0 & rs & -> & _ & Hps & _ & _ & ->).
  apply normalize_pedigree_Ok in Hidem
    as (d1 & items1 & ps1 & rels1 & rs1 & [= <-] & [= <-] & _ & [= <-] & Hrs & Heq).
  injection Heq as <- <-.
  apply validate_pedigree_true in Hval
    as (d2 & people2 & relationships2 & persons & ids & rels2
        & [= <-] & _ & [= <-] & [= <-] & [= <-] & Hids & [= <-] & Hall).
  apply ensure_unique_ids_from_Ok in Hps as [Hlen Hps].
  assert (Hpeople : forall (i : nat) person, ps !! i = Some person ->
            exists d, person = JDict d /\
                      dict_get "id" d = Some (JInt (1 + Z.of_nat i))).
  { intros i person Hi. destruct (Hps i person Hi) as (d0 & _ & ->).
    exists (dict_set "id" (JInt (1 + Z.of_nat i)) d0).
    split; [reflexivity|]. apply dict_get_set_eq. }
  exists ps, rs. split; [reflexivity|]. split.
  - intros i person Hi. destruct (Hpeople i person Hi) as (d0 & -> & Hd0).
    exists d0. split; [reflexivity|]. rewrite Hd0. do 2 f_equal. lia.
  - apply map_result_Ok in Hrs.
    assert (Hself : Forall (fun r => _normalize_relationship r = Ok r) rs).
    { clear -Hrs. remember rs as rs2 eqn:E in Hrs at 2.
      assert (Hsub : Forall2 (fun x y => _normalize_relationship x = Ok y) rs rs)
        by (subst; exact Hrs).
      clear -Hsub. apply List.Forall_forall. intros r Hr.
      assert (Hdiag : forall (l : list json),
                Forall2 (fun x y => _normalize_relationship x = Ok y) l l ->
                forall r, In r l -> _normalize_relationship r = Ok r).
      { intros l. induction l as [|a l IHl]; intros HF r0 Hin; [destruct Hin|].
        inversion HF; subst. destruct Hin as [<-|Hin]; auto. }
      eauto. }
    apply List.Forall_forall. intros r Hr.
    rewrite List.Forall_forall in Hall, Hself.
    destruct (Hall r Hr) as [u Hu].
    apply validate_relationship_Continue in Hu as (f & t & ty & Hn & Hf & Ht & Hty).
    rewrite (Hself r Hr) in Hn. injection Hn as ->.
    apply in_int_set_true in Hf as (kf & Hkf & Hinf).
    apply in_int_set_true in Ht as (kt & Hkt & Hint).
    destruct (allowed_type_lower_trimmed ty Hty) as [Hlow Htrim].
    pose proof (person_ids_range strptime ps 1 [] ids Hpeople Hids) as Hrange.
    exists f, t, ty, kf, kt. repeat split; try assumption.
    + destruct (Hrange kf Hinf) as [Hno|?]; [inversion Hno|lia].
    + destruct (Hrange kf Hinf) as [Hno|?]; [inversion Hno|lia].
    + destruct (Hrange kt Hint) as [Hno|?]; [inversion Hno|lia].
    + destruct (Hrange kt Hint) as [Hno|?]; [inversion Hno|lia].
Qed.

Lemma C9_loaded_pedigree_is_canonical_witness :
  exists n,
    load_json_payload strptime_ymd_ascii
      (loads_table [("payload", sample_payload)]) "payload" = Ok n /\
    canonical_pedigree n.
Proof.
  eexists. split; [vm_compute; reflexivity|].
  apply (C9_loaded_pedigree_is_canonical strptime_ymd_ascii
           (loads_table [("payload", sample_payload)]) "payload").
  vm_compute. reflexivity.
Defined.

(** ** Risk bucket *)

Lemma string_app_cons c (a b : string) : String c a +:+ b = String c (a +:+ b).
Proof. reflexivity. Qed.
Lemma string_app_nil_l (b : string) : "" +:+ b = b.
Proof. reflexivity. Qed.

Lemma prefix_spec (n h : string) :
  String.prefix n h = true <-> exists post, h = n +:+ post.
Proof.
  revert h. induction n as [|c n IH]; intros h.
  - split; [intros _; exists h; reflexivity | intros _; destruct h; reflexivity].
  - destruct h as [|c' h].
    { split; [discriminate | intros [post H]; rewrite string_app_cons in H; discriminate]. }
    cbn [String.prefix]. destruct (ascii_dec c c') as [->|Hne].
    + rewrite IH. split; intros [post H]; exists post.
      * rewrite H. reflexivity.
      * rewrite string_app_cons in H. congruence.
    + split; [discriminate|]. intros [post H]. rewrite string_app_cons in H. congruence.
Qed.

Lemma str_contains_unfold n h :
  str_contains n h =
  if String.prefix n h then true
  else match h with "" => false | String _ h' => str_contains n h' end.
Proof. destruct h; reflexivity. Qed.

Lemma str_contains_spec (n h : string) :
  str_contains n h = true <-> exists pre post, h = pre +:+ n +:+ post.
Proof.
  induction h as [|c h IH]; rewrite str_contains_unfold;
    destruct (String.prefix n _) eqn:E.
  - split; [|reflexivity]. intros _. apply prefix_spec in E as [post E].
    exists "", post. exact E.
  - split; [discriminate|]. intros (pre & post & H).
    destruct pre; [|rewrite string_app_cons in H; discriminate].
    rewrite string_app_nil_l in H.
    assert (String.prefix n "" = true) by (apply prefix_spec; eauto). congruence.
  - split; [|reflexivity]. intros _. apply prefix_spec in E as [post E].
    exists "", post. exact E.
  - rewrite IH. split; intros (pre & post & H).
    + exists (String c pre), post. rewrite string_app_cons. congruence.
    + destruct pre as [|c' pre].
      * rewrite string_app_nil_l in H.
        assert (String.prefix n (String c h) = true)
          by (apply prefix_spec; eauto). congruence.
      * rewrite string_app_cons in H. injection H as _ H. eauto.
Qed.

Lemma any_flag_contains_spec word flags :
  any_flag_contains word flags = true <->
  exists f, In f flags /\ contains_ci word f.
Proof.
  unfold any_flag_contains, contains_ci. rewrite existsb_exists.
  split; intros (f & Hf & H); exists f; (split; [exact Hf|]);
    apply str_contains_spec; exact H.
Qed.

Lemma Qgtb_spec (x y : Q) : Qgtb x y = true <-> (y < x)%Q.
Proof.
  unfold Qgtb. rewrite negb_true_iff. split.
  - intros H. apply Qnot_le_lt. intros Hle. apply Qle_bool_iff in Hle. congruence.
  - intros H. destruct (Qle_bool x y) eqn:E; [|reflexivity].
    apply Qle_bool_iff in E. exfalso. exact (Qlt_not_le _ _ H E).
Qed.

Lemma Qgtb_mono (x y c : Q) : (x <= y)%Q -> Qgtb x c = true -> Qgtb y c = true.
Proof.
  rewrite !Qgtb_spec. intros Hxy H. eapply Qlt_le_trans; eassumption.
Qed.

(** C7.  The risk bucket is monotone in the score for a fixed list of flags,
    and it is High exactly when the score exceeds 0.0625 or a flag contains
    "dominant"; otherwise Moderate exactly when the score exceeds 0.015625 or
    a flag contains "recessive"; otherwise Low.  Both words are looked up in
    the lower-cased flag. *)
Theorem C7_risk_bucket_monotone (flags : list string) (s1 s2 : Q) :
  (s1 <= s2)%Q ->
  (risk_rank (_risk_bucket s1 flags) <= risk_rank (_risk_bucket s2 flags))%nat /\
  (forall s,
     let high := ((1 # 16) < s)%Q \/ exists f, In f flags /\ contains_ci "dominant" f in
     let moderate := ((1 # 64) < s)%Q \/ exists f, In f flags /\ contains_ci "recessive" f in
     (_risk_bucket s flags = "High" <-> high) /\
     (_risk_bucket s flags = "Moderate" <-> ~ high /\ moderate) /\
     (_risk_bucket s flags = "Low" <-> ~ high /\ ~ moderate)).
Proof.
  intros Hle. split.
  - unfold _risk_bucket.
    destruct (Qgtb s1 (1 # 16)) eqn:E1.
    { rewrite (Qgtb_mono _ _ _ Hle E1). reflexivity. }
    destruct (any_flag_contains "dominant" flags); cbn [orb].
    { rewrite orb_true_r. reflexivity. }
    destruct (Qgtb s2 (1 # 16)); cbn [orb].
    { destruct (Qgtb s1 (1 # 64) || _); cbv; lia. }
    destruct (Qgtb s1 (1 # 64)) eqn:E2.
    { rewrite (Qgtb_mono _ _ _ Hle E2). reflexivity. }
    destruct (any_flag_contains "recessive" flags); cbn [orb].
    { rewrite orb_true_r. reflexivity. }
    destruct (Qgtb s2 (1 # 64)); cbv; lia.
  - intros s high moderate. subst high moderate.
    rewrite <- !any_flag_contains_spec, <- !Qgtb_spec. unfold _risk_bucket.
    destruct (Qgtb s (1 # 16)), (any_flag_contains "dominant" flags),
      (Qgtb s (1 # 64)), (any_flag_contains "recessive" flags); cbn [orb];
      (repeat split; try discriminate; try reflexivity; intros;
       try tauto; try (intuition discriminate)).
Qed.

Lemma C7_risk_bucket_monotone_witness :
  ((1 # 100) <= (1 # 10))%Q /\
  (risk_rank (_risk_bucket (1 # 100) [no_pattern_flag])
   <= risk_rank (_risk_bucket (1 # 10) [no_pattern_flag]))%nat.
Proof.
  split; [discriminate|].
  apply (C7_risk_bucket_monotone [no_pattern_flag] (1 # 100) (1 # 10)).
  discriminate.
Defined.

(** ** Inheritance flags *)

Lemma string_compare_refl (x : string) : String.compare x x = Eq.
Proof.
  pose proof (String.compare_antisym x x) as H.
  destruct (String.compare x x); simpl in H; congruence.
Qed.

Lemma elem_of_insert_sorted x y l : x ∈ insert_sorted y l <-> x = y \/ x ∈ l.
Proof.
  induction l as [|z l IH]; simpl.
  - rewrite list_elem_of_singleton, elem_of_nil. tauto.
  - destruct (String.compare y z) eqn:E.
    + apply String.compare_eq_iff in E as ->. rewrite elem_of_cons. tauto.
    + rewrite !elem_of_cons. tauto.
    + rewrite !elem_of_cons, IH. tauto.
Qed.

Lemma elem_of_sorted_set x l : x ∈ sorted_set l <-> x ∈ l.
Proof.
  induction l as [|y l IH]; simpl; [reflexivity|].
  rewrite elem_of_insert_sorted, IH, elem_of_cons. tauto.
Qed.

Lemma condition_flags_app g acc item :
  condition_flags g acc item = (acc ++ condition_flags g [] item)%list.
Proof.
  destruct item as [c A]. unfold condition_flags.
  repeat case_decide; rewrite ?app_nil_r, <- ?app_assoc; reflexivity.
Qed.

Lemma elem_of_fold_condition_flags g f items : forall acc,
  f ∈ fold_left (condition_flags g) items acc <->
  f ∈ acc \/ exists item, item ∈ items /\ f ∈ condition_flags g [] item.
Proof.
  induction items as [|it items IH]; intros acc; simpl.
  - split; [auto|]. intros [H|(item & H & _)]; [exact H|]. inversion H.
  - rewrite IH, condition_flags_app, elem_of_app. split.
    + intros [[H|H]|(item & Hi & H)]; [auto| |].
      * right. exists it. split; [left|exact H].
      * right. exists item. split; [right; exact Hi|exact H].
    + intros [H|(item & Hi & H)]; [auto|].
      apply elem_of_cons in Hi as [->|Hi]; [auto|]. right. eauto.
Qed.

Lemma string_app_inv_head (s a b : string) : s +:+ a = s +:+ b -> a = b.
Proof.
  induction s as [|c s IH]; [auto|].
  rewrite !string_app_cons. intros [= H]. auto.
Qed.

Lemma dominant_flag_inj c c' : dominant_flag c = dominant_flag c' -> c = c'.
Proof. apply string_app_inv_head. Qed.


Lemma recessive_not_dominant c c' : recessive_flag c <> dominant_flag c'.
Proof. unfold recessive_flag, dominant_flag. cbn. discriminate. Qed.

Lemma dominant_not_sentinel c : dominant_flag c <> no_pattern_flag.
Proof. unfold no_pattern_flag, dominant_flag. cbn. discriminate. Qed.


Lemma condition_flags_nil g c A :
  condition_flags g [] (c, A) =
  ((if decide ((2 <= length A)%nat /\ (1 <= sibling_pairs g A)%nat)
    then [recessive_flag c] else []) ++
   (if decide (1 <= parent_child_hits g A)%nat then [dominant_flag c] else []))%list.
Proof.
  unfold condition_flags. repeat case_decide; try reflexivity; tauto.
Qed.

Lemma dominant_in_condition_flags g c c' A :
  dominant_flag c ∈ condition_flags g [] (c', A) <->
  c = c' /\ (1 <= parent_child_hits g A)%nat.
Proof.
  rewrite condition_flags_nil, elem_of_app. split.
  - intros [H|H].
    + case_decide; [|inversion H]. apply list_elem_of_singleton in H.
      symmetry in H. destruct (recessive_not_dominant _ _ H).
    + case_decide; [|inversion H]. apply list_elem_of_singleton in H.
      apply dominant_flag_inj in H. auto.
  - intros [-> H]. right. rewrite decide_True by exact H. left.
Qed.


(** Keys of the condition map are unique. *)
Lemma dict_keys_set {K V} `{EqDecision K} (k : K) (v : V) d :
  dict_keys (dict_set k v d) =
  if decide (k ∈ dict_keys d) then dict_keys d else (dict_keys d ++ [k])%list.
Proof.
  induction d as [|[k' v'] d IH]; simpl; [reflexivity|].
  destruct (decide (k = k')) as [->|Hne]; simpl.
  - rewrite decide_True by left. reflexivity.
  - fold (dict_keys (dict_set k v d)). rewrite IH. fold (dict_keys d).
    destruct (decide (k ∈ dict_keys d)).
    + rewrite decide_True by (right; assumption). reflexivity.
    + rewrite decide_False; [reflexivity|].
      intros Hin. apply elem_of_cons in Hin as [?|?]; congruence.
Qed.

Lemma dict_set_NoDup {K V} `{EqDecision K} (k : K) (v : V) d :
  NoDup (dict_keys d) -> NoDup (dict_keys (dict_set k v d)).
Proof.
  intros H. rewrite dict_keys_set. case_decide; [exact H|].
  apply NoDup_app. repeat split; [exact H| |apply NoDup_singleton].
  intros x Hx Hx'. apply list_elem_of_singleton in Hx'. congruence.
Qed.

Lemma dict_get_elem_of {K V} `{EqDecision K} (k : K) (v : V) d :
  NoDup (dict_keys d) -> (k, v) ∈ d <-> dict_get k d = Some v.
Proof.
  induction d as [|[k' v'] d IH]; simpl; intros Hnd.
  - rewrite elem_of_nil. split; [tauto|discriminate].
  - apply NoDup_cons in Hnd as [Hk' Hnd]. rewrite elem_of_cons, (IH Hnd).
    destruct (decide (k = k')) as [->|Hne].
    + split; [intros [[= ->]|H]; [reflexivity|] | intros [= ->]; auto].
      exfalso. apply Hk'. apply IH in H; [|exact Hnd].
      apply list_elem_of_fmap. exists (k', v). auto.
    + split; [intros [[= ? ?]|H]; [congruence|exact H] | auto].
Qed.

Lemma condition_map_NoDup ped : NoDup (dict_keys (_condition_to_people ped)).
Proof.
  unfold _condition_to_people.
  assert (H : NoDup (dict_keys ([] : list (string * list Z)))) by constructor.
  revert H. generalize ([] : list (string * list Z)).
  induction (people ped) as [|p ps IH]; intros m Hm; simpl; [exact Hm|].
  apply IH. clear IH. revert m Hm.
  induction (conditions p) as [|c cs IHc]; intros m Hm; simpl; [exact Hm|].
  apply IHc. unfold dict_append. apply dict_set_NoDup. exact Hm.
Qed.

Lemma exists_condition_item ped c (P : list Z -> Prop) :
  ~ P [] ->
  (exists item, item ∈ _condition_to_people ped /\ c = item.1 /\ P item.2) <->
  P (affected ped c).
Proof.
  intros Hnil. unfold affected, dict_get_default. split.
  - intros ([c' A] & Hin & -> & HP). simpl in *.
    apply dict_get_elem_of in Hin; [|apply condition_map_NoDup].
    rewrite Hin. exact HP.
  - destruct (dict_get c (_condition_to_people ped)) as [A|] eqn:E; [|tauto].
    intros HP. exists (c, A). repeat split; [|exact HP].
    apply dict_get_elem_of; [apply condition_map_NoDup|exact E].
Qed.

Lemma filter_nonempty {A} (P : A -> Prop) `{forall x, Decision (P x)} (l : list A) :
  (1 <= length (filter P l))%nat <-> exists x, x ∈ l /\ P x.
Proof.
  split.
  - intros Hlen. destruct (filter P l) as [|x l'] eqn:E; [simpl in Hlen; lia|].
    assert (Hx : x ∈ filter P l) by (rewrite E; left).
    apply list_elem_of_filter in Hx. exists x. tauto.
  - intros (x & Hx & HP).
    assert (Hin : x ∈ filter P l) by (apply list_elem_of_filter; auto).
    destruct (filter P l); [inversion Hin|simpl; lia].
Qed.

Lemma has_edge_successor g a b t :
  _has_edge_with_type g a b t = true -> b ∈ _successors g a.
Proof.
  unfold _has_edge_with_type, _successors, successors.
  destruct (dict_get (a, b) (edge_data g)) as [t'|] eqn:E; [|discriminate].
  intros _. apply list_elem_of_fmap. exists (a, b). split; [reflexivity|].
  apply list_elem_of_filter. split; [reflexivity|].
  clear -E. induction (edge_data g) as [|[k v] d IH]; simpl in *; [discriminate|].
  destruct (decide ((a, b) = k)) as [->|Hne]; [left|right; auto].
Qed.

Lemma parent_child_hits_spec g A :
  (1 <= parent_child_hits g A)%nat <->
  exists a b, a ∈ A /\ b ∈ A /\
    (_has_edge_with_type g a b "parent" = true \/
     _has_edge_with_type g a b "child" = true).
Proof.
  unfold parent_child_hits. rewrite filter_nonempty. split.
  - intros ([a b] & Hin & Hb & He). simpl in *.
    apply list_elem_of_bind in Hin as (a' & Hin & Ha).
    apply list_elem_of_bind in Hin as (b' & Hin & _).
    apply list_elem_of_singleton in Hin as [= -> ->].
    apply orb_true_iff in He. eauto.
  - intros (a & b & Ha & Hb & He). exists (a, b). simpl.
    split; [|split; [exact Hb|apply orb_true_iff; exact He]].
    apply list_elem_of_bind. exists a. split; [|exact Ha].
    apply list_elem_of_bind. exists b. split; [left|].
    destruct He as [He|He]; eapply has_edge_successor; exact He.
Qed.


Lemma elem_of_infer g ped f :
  f <> no_pattern_flag ->
  f ∈ infer_inheritance_patterns g ped <->
  exists item, item ∈ _condition_to_people ped /\ f ∈ condition_flags g [] item.
Proof.
  intros Hf. unfold infer_inheritance_patterns.
  rewrite elem_of_sorted_set.
  pose proof (elem_of_fold_condition_flags g f (_condition_to_people ped) []) as H.
  destruct (fold_left _ _ _) as [|x l].
  - rewrite list_elem_of_singleton. rewrite elem_of_nil in H. tauto.
  - rewrite H, elem_of_nil. tauto.
Qed.

Lemma dominant_flag_emitted g ped c :
  dominant_flag c ∈ infer_inheritance_patterns g ped <->
  (1 <= parent_child_hits g (affected ped c))%nat.
Proof.
  rewrite elem_of_infer by apply dominant_not_sentinel.
  rewrite <- (exists_condition_item ped c (fun A => (1 <= parent_child_hits g A)%nat)).
  - split; intros ([c' A] & Hin & H); exists (c', A); (split; [exact Hin|]).
    + apply dominant_in_condition_flags in H. exact H.
    + apply dominant_in_condition_flags. exact H.
  - cbv. lia.
Qed.





(** ** Adjacency *)

Lemma dict_get_default_set {K V} `{EqDecision K} (k k0 : K) (v dflt : V) d :
  dict_get_default k0 dflt (dict_set k v d) =
  if decide (k0 = k) then v else dict_get_default k0 dflt d.
Proof.
  unfold dict_get_default. case_decide as E.
  - subst. rewrite dict_get_set_eq. reflexivity.
  - rewrite dict_get_set_ne by exact E. reflexivity.
Qed.

Lemma dict_keys_set_elem {K V} `{EqDecision K} (k k0 : K) (v : V) d :
  k0 ∈ dict_keys (dict_set k v d) <-> k0 = k \/ k0 ∈ dict_keys d.
Proof.
  rewrite dict_keys_set. case_decide.
  - split; [auto|]. intros [->|?]; assumption.
  - rewrite elem_of_app, list_elem_of_singleton. tauto.
Qed.

Lemma elem_of_set_add x y s : x ∈ set_add y s <-> x = y \/ x ∈ s.
Proof.
  unfold set_add. case_decide.
  - split; [auto|]. intros [->|?]; assumption.
  - rewrite elem_of_app, list_elem_of_singleton. tauto.
Qed.

Lemma NoDup_set_add y s : NoDup s -> NoDup (set_add y s).
Proof.
  intros H. unfold set_add. case_decide; [exact H|].
  apply NoDup_app. repeat split; [exact H| |apply NoDup_singleton].
  intros x Hx Hx'. apply list_elem_of_singleton in Hx'. congruence.
Qed.

Lemma adj_add_keys a b adj k :
  k ∈ dict_keys (adj_add a b adj) <-> k = a \/ k ∈ dict_keys adj.
Proof. unfold adj_add. apply dict_keys_set_elem. Qed.

Lemma adj_add_get a b adj u :
  dict_get_default u [] (adj_add a b adj) =
  if decide (u = a) then set_add b (dict_get_default a [] adj)
  else dict_get_default u [] adj.
Proof. unfold adj_add. apply dict_get_default_set. Qed.

Lemma adj_ok_step E adj a b :
  adj_ok E adj ->
  adj_ok (fun u v => E u v \/ (u = a /\ v = b) \/ (u = b /\ v = a))
    (adj_add b a (adj_add a b adj)).
Proof.
  intros (H1 & H2 & H3). repeat split.
  - intros u v. rewrite !adj_add_get.
    repeat case_decide; subst; rewrite ?elem_of_set_add;
      intuition (subst; eauto).
  - intros u v. rewrite !adj_add_get, !adj_add_keys.
    repeat case_decide; subst; rewrite ?elem_of_set_add;
      intuition (subst; eauto).
  - intros u. rewrite !adj_add_get.
    repeat case_decide; subst; repeat apply NoDup_set_add; auto.
Qed.

Lemma adj_ok_weaken (E E' : Z -> Z -> Prop) adj :
  (forall u v, E u v -> E' u v) -> adj_ok E adj -> adj_ok E' adj.
Proof. intros HE (H1 & H2 & H3). repeat split; eauto. Qed.

Lemma adj_ok_fold es : forall E adj,
  adj_ok E adj ->
  adj_ok (fun u v => E u v \/ (u, v) ∈ es \/ (v, u) ∈ es)
    (fold_left (fun adj uv => adj_add (snd uv) (fst uv)
                                (adj_add (fst uv) (snd uv) adj)) es adj).
Proof.
  induction es as [|[a b] es IH]; intros E adj H; simpl.
  - eapply adj_ok_weaken; [|exact H]. auto.
  - eapply adj_ok_weaken; [|apply IH, adj_ok_step, H].
    simpl. intros u v. rewrite !elem_of_cons.
    intuition (subst; auto); match goal with H : _ = _ |- _ => injection H as -> -> end; auto.
Qed.

Lemma adj_ok_init (ks : list Z) :
  adj_ok (fun _ _ => False) (map (fun k => (k, [])) ks).
Proof.
  assert (H : forall u, dict_get_default u [] (map (fun k : Z => (k, @nil Z)) ks) = []).
  { intros u. unfold dict_get_default. induction ks as [|k ks IH]; simpl; [reflexivity|].
    case_decide; [reflexivity|exact IH]. }
  repeat split; intros u; try intros v; rewrite H;
    try (intros Hv; inversion Hv). constructor.
Qed.

Lemma build_adj_ok g : adj_ok (uedge g) (build_adj g).
Proof.
  unfold build_adj. eapply adj_ok_weaken; [|apply adj_ok_fold, adj_ok_init].
  unfold uedge. simpl. tauto.
Qed.

(** ** The traversal terminates within its fuel *)

Lemma size_remove_one (X : gset Z) (x : Z) :
  x ∈ X -> S (size (X ∖ {[x]})) = size X.
Proof.
  intros Hx.
  assert (Heq : X = {[x]} ∪ X ∖ {[x]}).
  { apply set_eq. intros y. rewrite elem_of_union, elem_of_difference,
      elem_of_singleton.
    destruct (decide (y = x)) as [->|]; tauto. }
  rewrite Heq at 2.
  rewrite (size_union ({[x]} : gset Z)) by set_solver.
  rewrite size_singleton. reflexivity.
Qed.

Lemma size_discover (X : gset Z) (parent : gmap Z (option Z)) nbr (q : option Z) :
  nbr ∈ X -> parent !! nbr = None ->
  S (size (X ∖ dom (<[nbr := q]> parent))) = size (X ∖ dom parent).
Proof.
  intros Hk Hnone. apply not_elem_of_dom in Hnone.
  rewrite dom_insert_L, <- (size_remove_one (X ∖ dom parent) nbr) by set_solver.
  do 2 f_equal. set_solver.
Qed.

Lemma visit_neighbour_measure adj cur par nbr parent stack cycles :
  nbr ∈ node_set adj ->
  match visit_neighbour cur par (parent, stack, cycles) nbr with
  | (parent', stack', _) =>
      (dfs_measure adj stack' parent' <= dfs_measure adj stack parent)%nat
  end.
Proof.
  intros Hk. unfold visit_neighbour.
  destruct (decide (Some nbr = par)); [lia|].
  destruct (decide (is_Some (parent !! nbr))) as [|Hnone]; [lia|].
  unfold dfs_measure. simpl.
  rewrite <- (size_discover (node_set adj) parent nbr (Some cur) Hk); [lia|].
  destruct (parent !! nbr) eqn:Ep; [|reflexivity].
  exfalso. apply Hnone. eauto.
Qed.

Lemma visit_neighbour_stack cur par nbr parent stack cycles :
  forall e, e ∈ (visit_neighbour cur par (parent, stack, cycles) nbr).1.2 ->
            e ∈ stack \/ e.1 = nbr.
Proof.
  intros e. unfold visit_neighbour.
  destruct (decide (Some nbr = par)); [auto|].
  destruct (decide (is_Some (parent !! nbr))); [auto|]. simpl.
  intros He. apply elem_of_cons in He as [-> | He]; auto.
Qed.

Lemma fold_visit_measure adj cur par ns : forall parent stack cycles,
  (forall n, n ∈ ns -> n ∈ node_set adj) ->
  match fold_left (visit_neighbour cur par) ns (parent, stack, cycles) with
  | (parent', stack', _) =>
      (dfs_measure adj stack' parent' <= dfs_measure adj stack parent)%nat /\
      forall e, e ∈ stack' -> e ∈ stack \/ e.1 ∈ ns
  end.
Proof.
  induction ns as [|n ns IH]; intros parent stack cycles Hns; cbn [fold_left];
    [split; [lia|auto]|].
  pose proof (visit_neighbour_measure adj cur par n parent stack cycles
                (Hns n (list_elem_of_here _ _))) as H1.
  pose proof (visit_neighbour_stack cur par n parent stack cycles) as H2.
  destruct (visit_neighbour cur par (parent, stack, cycles) n)
    as [[parent1 stack1] cycles1].
  specialize (IH parent1 stack1 cycles1
                (fun m Hm => Hns m (list_elem_of_further _ _ _ Hm))).
  destruct (fold_left _ ns _) as [[parent2 stack2] cycles2].
  cbv beta iota in *. destruct IH as [IH1 IH2]. split; [lia|].
  intros e He. destruct (IH2 e He) as [Hin|Hin].
  - destruct (H2 e Hin) as [? | ->]; [auto|right; left].
  - right. right. exact Hin.
Qed.

Lemma dict_get_keys {K V} `{EqDecision K} (k : K) (d : list (K * V)) :
  k ∈ dict_keys d -> exists v, dict_get k d = Some v.
Proof.
  induction d as [|[k' v'] d IH]; simpl; intros H; [inversion H|].
  destruct (decide (k = k')); [eauto|].
  apply elem_of_cons in H as [?|H]; [contradiction|auto].
Qed.

Lemma size_node_set adj : (size (node_set adj) <= length adj)%nat.
Proof.
  unfold node_set, dict_keys. rewrite <- (length_map fst adj).
  induction (map fst adj) as [|k ks IH]; cbn [list_to_set length foldr].
  - rewrite size_empty. lia.
  - pose proof (size_union_alt {[k]} (list_to_set ks : gset Z)) as H.
    rewrite H, size_singleton.
    assert (size (list_to_set ks ∖ {[k]} : gset Z) <= size (list_to_set ks : gset Z))%nat
      by (apply subseteq_size; set_solver).
    lia.
Qed.

Section Termination.
Variable order : Z -> list Z -> list Z.
Hypothesis order_perm : forall u l, order u l ≡ₚ l.
Variable adj : list (Z * list Z).
Variable E : Z -> Z -> Prop.
Hypothesis Hadj : adj_ok E adj.

Lemma neighbours_are_nodes cur nbrs n :
  dict_get cur adj = Some nbrs -> n ∈ order cur nbrs -> n ∈ node_set adj.
Proof using order_perm Hadj.
  intros Hget. rewrite order_perm. intros H. apply elem_of_list_to_set.
  destruct Hadj as (_ & H2 & _). apply (H2 cur).
  unfold dict_get_default. rewrite Hget. exact H.
Qed.

Lemma dfs_loop_total fuel : forall stack parent visited cycles,
  (dfs_measure adj stack parent <= fuel)%nat ->
  (forall e, e ∈ stack -> e.1 ∈ node_set adj) ->
  exists r, dfs_loop order fuel adj stack parent visited cycles = Some r.
Proof using order_perm Hadj.
  induction fuel as [|fuel IH]; intros stack parent visited cycles Hm Hst.
  - destruct stack as [|[cur par] stack]; [simpl; eauto|].
    unfold dfs_measure in Hm. simpl in Hm. lia.
  - destruct stack as [|[cur par] stack]; [simpl; eauto|]. cbn [dfs_loop].
    assert (Hrest : forall e, e ∈ stack -> e.1 ∈ node_set adj)
      by (intros e He; apply Hst; right; exact He).
    destruct (decide (cur ∈ visited)).
    + apply IH; [|exact Hrest]. unfold dfs_measure in *. simpl in Hm. lia.
    + destruct (dict_get_keys cur adj) as [nbrs Hget].
      { pose proof (Hst (cur, par) (list_elem_of_here _ _)) as Hk.
        apply elem_of_list_to_set in Hk. exact Hk. }
      rewrite Hget.
      pose proof (fold_visit_measure adj cur par (order cur nbrs)
                    parent stack cycles
                    (fun n => neighbours_are_nodes cur nbrs n Hget)) as H1.
      destruct (fold_left _ _ _) as [[parent1 stack1] cycles1].
      cbv beta iota in H1. destruct H1 as [H1 H2].
      apply IH; [unfold dfs_measure in *; simpl in Hm; lia|].
      intros e He. destruct (H2 e He) as [?|Hn]; [auto|].
      eapply neighbours_are_nodes; eassumption.
Qed.

Lemma roots_loop_total nodes : forall visited cycles,
  (forall n, n ∈ nodes -> n ∈ node_set adj) ->
  exists r, roots_loop order (length adj) adj nodes visited cycles = Some r.
Proof using order_perm Hadj.
  induction nodes as [|node nodes IH]; intros visited cycles Hn; simpl; [eauto|].
  assert (Hrest : forall n, n ∈ nodes -> n ∈ node_set adj)
    by (intros n H; apply Hn; right; exact H).
  destruct (decide (node ∈ visited)); [apply IH; exact Hrest|].
  assert (Hin : node ∈ node_set adj) by (apply Hn; left).
  destruct (dfs_loop_total (length adj) [(node, None)] {[node := None]}
              visited cycles) as [[visited' cycles'] ->]; [| |apply IH; exact Hrest].
  - unfold dfs_measure. simpl. rewrite dom_singleton_L.
    pose proof (size_node_set adj) as Hs.
    pose proof (size_remove_one _ _ Hin). lia.
  - intros e He. apply list_elem_of_singleton in He as ->. exact Hin.
Qed.
End Termination.

Lemma build_cycle_basis_total order g :
  (forall u l, order u l ≡ₚ l) ->
  exists cycles, _build_cycle_basis_fallback order g = Some cycles.
Proof.
  intros Hp. unfold _build_cycle_basis_fallback.
  apply (roots_loop_total order Hp (build_adj g) (uedge g) (build_adj_ok g)).
  intros n Hn. apply elem_of_list_to_set. exact Hn.
Qed.

(** ** No cycle is reported on a forest *)

Section Forest.
Variable E : Z -> Z -> Prop.
Hypothesis E_sym : forall a b, E a b -> E b a.
Hypothesis E_bridges : all_bridges E.

Lemma visit_neighbour_inv root cur par done stack parent visited cycles nbr :
  nbr_inv E root cur par done stack parent visited ->
  E cur nbr -> nbr ∉ done ->
  exists stack' parent',
    visit_neighbour cur par (parent, stack, cycles) nbr = (parent', stack', cycles) /\
    nbr_inv E root cur par (done ++ [nbr]) stack' parent' visited.
Proof using E_sym E_bridges.
  intros [Hs Hc Hv Hp Hr] Hedge Hnew. unfold visit_neighbour.
  destruct (decide (Some nbr = par)) as [Hpar|Hpar].
  { exists stack, parent. split; [reflexivity|]. constructor; auto.
    intros x y Hxy. destruct (Hp x y Hxy) as (? & ? & Hd).
    repeat split; auto. intros ->. apply elem_of_app. left. auto. }
  destruct (decide (is_Some (parent !! nbr))) as [Hsome|Hnone].
  { exfalso. apply (E_bridges cur nbr Hedge).
    assert (Hsub : forall a b, tree_edge parent a b -> avoiding E cur nbr a b).
    { intros a b Hab. destruct (Hp a b Hab) as (_ & Hab' & Hd).
      repeat split; [exact Hab'| |].
      - intros [-> ->]. unfold tree_edge in Hab. congruence.
      - intros [-> ->]. apply Hnew. auto. }
    transitivity root.
    - apply rtc_rtsc_rl. eapply rtc_subrel; [exact Hsub|]. apply Hr. eauto.
    - apply rtc_rtsc_lr. eapply rtc_subrel; [exact Hsub|]. apply Hr. exact Hsome. }
  assert (Hfresh : parent !! nbr = None).
  { destruct (parent !! nbr) eqn:Ep; [|reflexivity]. exfalso. apply Hnone. eauto. }
  assert (Hmono : forall a b, tree_edge parent a b ->
                              tree_edge (<[nbr := Some cur]> parent) a b).
  { intros a b Hab. unfold tree_edge in *.
    rewrite lookup_insert_ne; [exact Hab|]. congruence. }
  exists ((nbr, Some cur) :: stack), (<[nbr := Some cur]> parent).
  split; [reflexivity|]. constructor.
  - intros x q Hin. apply elem_of_cons in Hin as [[= -> ->]|Hin].
    + apply lookup_insert_eq.
    + rewrite lookup_insert_ne; [auto|]. intros <-. rewrite (Hs _ _ Hin) in Hfresh.
      discriminate.
  - rewrite lookup_insert_ne; [exact Hc|]. congruence.
  - exact Hv.
  - intros x y Hxy. unfold tree_edge in Hxy.
    destruct (decide (nbr = x)) as [->|Hne].
    + rewrite lookup_insert_eq in Hxy. injection Hxy as <-.
      repeat split; auto. intros _. apply elem_of_app. right. left.
    + rewrite lookup_insert_ne in Hxy by exact Hne.
      destruct (Hp x y Hxy) as (? & ? & Hd). repeat split; auto.
      intros ->. apply elem_of_app. left. auto.
  - intros x Hx. destruct (decide (nbr = x)) as [<-|Hne].
    + eapply rtc_l; [unfold tree_edge; apply lookup_insert_eq|].
      eapply rtc_subrel; [exact Hmono|]. apply Hr. eauto.
    + rewrite lookup_insert_ne in Hx by exact Hne.
      eapply rtc_subrel; [exact Hmono|]. apply Hr. exact Hx.
Qed.

Lemma fold_visit_inv root cur par visited cycles ns :
  forall done stack parent,
  nbr_inv E root cur par done stack parent visited ->
  (forall n, n ∈ ns -> E cur n) -> NoDup ns ->
  (forall n, n ∈ ns -> n ∉ done) ->
  exists stack' parent',
    fold_left (visit_neighbour cur par) ns (parent, stack, cycles)
      = (parent', stack', cycles) /\
    nbr_inv E root cur par (done ++ ns) stack' parent' visited.
Proof using E_sym E_bridges.
  induction ns as [|n ns IH]; intros done stack parent Hinv HE Hnd Hnew.
  - exists stack, parent. rewrite app_nil_r. auto.
  - apply NoDup_cons in Hnd as [Hn Hnd]. cbn [fold_left].
    destruct (visit_neighbour_inv root cur par done stack parent visited cycles n
                Hinv (HE n (list_elem_of_here _ _)) (Hnew n (list_elem_of_here _ _)))
      as (stack1 & parent1 & -> & Hinv1).
    destruct (IH (done ++ [n])%list stack1 parent1 Hinv1) as (stack2 & parent2 & Hf & Hinv2).
    + intros m Hm. apply HE. right. exact Hm.
    + exact Hnd.
    + intros m Hm Hin. apply elem_of_app in Hin as [Hin|Hin].
      * apply (Hnew m); [right; exact Hm|exact Hin].
      * apply list_elem_of_singleton in Hin. subst. contradiction.
    + exists stack2, parent2. rewrite <- app_assoc in Hinv2. auto.
Qed.

Variable order : Z -> list Z -> list Z.
Hypothesis order_perm : forall u l, order u l ≡ₚ l.
Variable adj : list (Z * list Z).
Hypothesis Hadj : adj_ok E adj.

Lemma dfs_loop_no_cycle root fuel : forall stack parent visited r,
  dfs_inv E root stack parent visited ->
  dfs_loop order fuel adj stack parent visited [] = Some r -> r.2 = [].
Proof using E_sym E_bridges order_perm Hadj.
  induction fuel as [|fuel IH]; intros stack parent visited r Hinv H.
  - destruct stack as [|[cur par] stack]; [|discriminate].
    injection H as <-. reflexivity.
  - destruct stack as [|[cur par] stack]; [injection H as <-; reflexivity|].
    cbn [dfs_loop] in H. destruct Hinv as [Hs Hp Hr].
    destruct (decide (cur ∈ visited)) as [Hv|Hv].
    + apply (IH _ _ _ _ (mk_dfs_inv _ _ _ _ _
                           (fun x q Hin => Hs x q (list_elem_of_further _ _ _ Hin))
                           Hp Hr) H).
    + destruct (dict_get cur adj) as [nbrs|] eqn:Hget; [|discriminate].
      set (ns := order cur nbrs) in H.
      assert (Hnbrs : dict_get_default cur [] adj = nbrs)
        by (unfold dict_get_default; rewrite Hget; reflexivity).
      destruct Hadj as (HadjE & _ & HadjND).
      destruct (fold_visit_inv root cur par ({[cur]} ∪ visited) [] ns
                  [] stack parent) as (stack1 & parent1 & Hf & Hinv1).
      * constructor.
        -- intros x q Hin. apply Hs. right. exact Hin.
        -- apply Hs. left.
        -- set_solver.
        -- intros x y Hxy. destruct (Hp x y Hxy) as [Hy Hxy'].
           repeat split; [set_solver|exact Hxy'|]. intros ->. contradiction.
        -- exact Hr.
      * intros n Hn. apply HadjE. unfold ns in Hn. rewrite order_perm in Hn.
        rewrite Hnbrs. exact Hn.
      * unfold ns. rewrite order_perm, <- Hnbrs. apply HadjND.
      * intros n _ Hin. inversion Hin.
      * rewrite Hf in H. destruct Hinv1 as [Hs1 _ _ Hp1 Hr1].
        apply (IH _ _ _ _ (mk_dfs_inv _ _ _ _ _ Hs1
                             (fun x y Hxy => conj (proj1 (Hp1 x y Hxy))
                                                  (proj1 (proj2 (Hp1 x y Hxy))))
                             Hr1) H).
Qed.

Lemma roots_loop_no_cycle fuel nodes : forall visited cycles,
  roots_loop order fuel adj nodes visited [] = Some cycles -> cycles = [].
Proof using E_sym E_bridges order_perm Hadj.
  induction nodes as [|node nodes IH]; intros visited cycles H; cbn [roots_loop] in H.
  - injection H as <-. reflexivity.
  - destruct (decide (node ∈ visited)); [eauto|].
    destruct (dfs_loop order fuel adj [(node, None)] {[node := None]} visited [])
      as [[visited' cycles']|] eqn:Hd; [|discriminate].
    apply (dfs_loop_no_cycle node) in Hd; simpl in Hd.
    + subst cycles'. eauto.
    + constructor.
      * intros x q Hin. apply list_elem_of_singleton in Hin as [= -> ->].
        apply lookup_singleton_eq.
      * intros x y Hxy. unfold tree_edge in Hxy.
        apply lookup_singleton_Some in Hxy as [_ [=]].
      * intros x Hx. destruct Hx as [q Hq].
        apply lookup_singleton_Some in Hq as [<- _]. constructor.
Qed.
End Forest.

(** ** A forest has only bridges *)

Lemma chain_cons (R : Z -> Z -> Prop) x y l :
  chain R (x :: y :: l) <-> R x y /\ chain R (y :: l).
Proof. reflexivity. Qed.

Lemma chain_mono (R R' : Z -> Z -> Prop) l :
  (forall a b, R a b -> R' a b) -> chain R l -> chain R' l.
Proof.
  intros HR. induction l as [|x [|y l] IH]; try (intros _; exact I).
  rewrite !chain_cons. intros [H1 H2]. auto.
Qed.

Lemma chain_suffix (R : Z -> Z -> Prop) l1 l2 : chain R (l1 ++ l2) -> chain R l2.
Proof.
  induction l1 as [|x l1 IH]; [exact (fun H => H)|].
  destruct l1 as [|y l1]; simpl app in *.
  - destruct l2; [intros _; exact I|]. rewrite chain_cons. tauto.
  - rewrite chain_cons. intros [_ H]. auto.
Qed.

(** Two connected vertices are joined by a path without repetition. *)
Lemma simple_path (R : Z -> Z -> Prop) x y :
  rtc R x y ->
  exists l, NoDup (x :: l) /\ chain R (x :: l) /\ last (x :: l) = Some y.
Proof.
  induction 1 as [x|x y z Hxy _ (l & Hnd & Hch & Hlast)].
  - exists []. split; [apply NoDup_singleton|split; [exact I|reflexivity]].
  - destruct (decide (x ∈ y :: l)) as [Hin|Hnin].
    + apply list_elem_of_split in Hin as (l1 & l2 & Heq).
      exists l2. rewrite Heq in Hnd, Hch, Hlast. split; [|split].
      * apply NoDup_app in Hnd as (_ & _ & Hnd). exact Hnd.
      * eapply chain_suffix. exact Hch.
      * rewrite last_app_cons in Hlast. exact Hlast.
    + exists (y :: l). split; [|split].
      * apply NoDup_cons. auto.
      * rewrite chain_cons. auto.
      * rewrite last_cons_cons. exact Hlast.
Qed.

Lemma uedge_sym g a b : uedge g a b -> uedge g b a.
Proof. unfold uedge. tauto. Qed.

Lemma acyclic_all_bridges g : acyclic g -> all_bridges (uedge g).
Proof.
  intros [Hloop Hcyc] u v Huv Hconn.
  assert (Hne : u <> v) by (intros ->; exact (Hloop v Huv)).
  apply simple_path in Hconn as (l & Hnd & Hch & Hlast).
  assert (Hsub : forall a b, sc (avoiding (uedge g) u v) a b -> uedge g a b).
  { intros a b [[H _]|[H _]]; [exact H|apply uedge_sym; exact H]. }
  destruct l as [|w [|w' l]].
  - injection Hlast as ->. congruence.
  - injection Hlast as ->. destruct Hch as [[(_ & H & _)|(_ & _ & H)] _]; tauto.
  - apply (Hcyc (u :: w :: w' :: l)). split; [|split; [|split]].
    + simpl. lia.
    + exact Hnd.
    + eapply chain_mono; [exact Hsub|exact Hch].
    + exists u, v. repeat split; [exact Hlast|apply uedge_sym; exact Huv].
Qed.

(** ** The score *)

Lemma round_half_even_nonneg (x : Q) : (0 <= x)%Q -> (0 <= round_half_even x)%Z.
Proof.
  destruct x as [n d]. unfold Qle, round_half_even. cbn [Qnum Qden].
  rewrite Z.mul_1_r, Z.mul_0_l. intros Hn.
  assert (Hlo : (0 <= n / Z.pos d)%Z) by (apply Z.div_pos; lia).
  destruct (2 * (n mod Z.pos d) ?= Z.pos d)%Z; [|lia|lia].
  destruct (Z.even (n / Z.pos d)); lia.
Qed.

Lemma round_half_even_hundredths (x : Q) :
  (0 <= x)%Q -> (x <= 1 # 4)%Q ->
  (0 <= round_half_even (x * 10000) <= 2500)%Z.
Proof.
  intros H0 H4. split.
  { apply round_half_even_nonneg. apply Qmult_le_0_compat; [exact H0|discriminate]. }
  destruct x as [n d]. unfold Qle in H0, H4. unfold round_half_even.
  cbn [Qnum Qden Qmult] in *. rewrite Z.mul_1_r in H0.
  rewrite Pos.mul_1_r.
  set (N := (n * 10000)%Z). set (D := Z.pos d).
  assert (HD : (0 < D)%Z) by (unfold D; lia).
  pose proof (Z.div_mod N D ltac:(lia)) as Hdm.
  pose proof (Z.mod_pos_bound N D HD) as Hmod.
  assert (Hhi : (N <= 2500 * D)%Z) by (unfold N, D; lia).
  destruct (Z.compare_spec (2 * (N mod D)) D) as [He|Hlt|Hgt].
  - destruct (Z.even (N / D)); nia.
  - nia.
  - nia.
Qed.

Lemma Qpow2_pos (e : Z) : (0 < Qpow2 e)%Q.
Proof.
  unfold Qpow2. destruct (Z.leb_spec 0 e).
  - unfold Qlt, inject_Z. cbn [Qnum Qden].
    pose proof (Z.pow_pos_nonneg 2 e ltac:(lia) ltac:(lia)). lia.
  - reflexivity.
Qed.

Lemma binary64_nonneg (x : Q) : (0 <= x)%Q -> (0 <= binary64 x)%Q.
Proof.
  intros Hx. unfold binary64. destruct (Qnum x =? 0)%Z; [discriminate|].
  cbv zeta. rewrite Qred_correct.
  apply Qmult_le_0_compat; [|apply Qlt_le_weak, Qpow2_pos].
  change 0%Q with (inject_Z 0). rewrite <- Zle_Qle.
  apply round_half_even_nonneg.
  apply Qle_shift_div_l; [apply Qpow2_pos|]. rewrite Qmult_0_l. exact Hx.
Qed.

(** The floats nearest to the multiples of 1/10000 up to 0.25 are at most
    0.25. *)
Lemma binary64_hundredths (k : Z) :
  (0 <= k <= 2500)%Z -> (binary64 (k # 10000) <= 1 # 4)%Q.
Proof.
  intros Hk.
  assert (Hall : forallb (fun i => Qle_bool (binary64 (Z.of_nat i # 10000)) (1 # 4))
                   (seq 0 2501) = true) by (vm_compute; reflexivity).
  rewrite forallb_forall in Hall.
  specialize (Hall (Z.to_nat k)). rewrite Z2Nat.id in Hall by lia.
  apply Qle_bool_iff, Hall, in_seq. lia.
Qed.

Lemma round4_bounds (x : Q) :
  (0 <= x)%Q -> (x <= 1 # 4)%Q -> (0 <= round4 x)%Q /\ (round4 x <= 1 # 4)%Q.
Proof.
  intros H0 H4. destruct (round_half_even_hundredths x H0 H4) as [Hk0 Hk].
  unfold round4. split.
  - apply binary64_nonneg. unfold Qle. cbn [Qnum Qden]. lia.
  - apply binary64_hundredths. lia.
Qed.

Lemma total_cycle_nodes_nonneg cycles : (0 <= total_cycle_nodes cycles)%Z.
Proof. induction cycles as [|c cs IH]; simpl; lia. Qed.

Lemma inbreeding_score_bounds (total : Z) (n : nat) :
  (0 <= total)%Z ->
  (0 <= inbreeding_score total n)%Q /\ (inbreeding_score total n <= 1 # 4)%Q.
Proof.
  intros Ht. unfold inbreeding_score. apply round4_bounds.
  - apply Q.min_glb; [discriminate|].
    apply binary64_nonneg. apply Qmult_le_0_compat; [|discriminate].
    apply binary64_nonneg.
    apply Qle_shift_div_l.
    + unfold Qlt. simpl. lia.
    + rewrite Qmult_0_l. unfold Qle, inject_Z. cbn [Qnum Qden]. lia.
  - apply Q.le_min_l.
Qed.

(** The rounding is that of the floats: 2 cycle nodes over 10 nodes give the
    float nearest to 0.0063, as [round(2 / 10 * 0.03125, 4)] does, where the
    exact quotient 0.00625 would round to 0.0062. *)
Example score_of_2_over_10 :
  inbreeding_score 2 10 = binary64 (63 # 10000) /\
  inbreeding_score 2 10 = 226981421219473 # 36028797018963968.
Proof. split; vm_compute; reflexivity. Qed.

Lemma estimate_inbreeding_fallback order basis g cycles :
  _build_cycle_basis_fallback order g = Some cycles ->
  exists s, estimate_inbreeding order basis (FallbackGraph g) = Ok s /\
            (0 <= s)%Q /\ (s <= 1 # 4)%Q /\ (cycles = [] -> s = 0%Q).
Proof.
  intros Hc. unfold estimate_inbreeding. rewrite Hc.
  destruct cycles as [|c cs].
  - exists 0%Q. repeat split; discriminate.
  - eexists. split; [reflexivity|].
    destruct (inbreeding_score_bounds (total_cycle_nodes (c :: cs)) (number_of_nodes g)
                (total_cycle_nodes_nonneg _)) as [H0 H4].
    repeat split; [exact H0|exact H4|discriminate].
Qed.

Lemma estimate_inbreeding_nx order basis G :
  exists s, estimate_inbreeding order basis (NxGraph G) = Ok s /\
            (0 <= s)%Q /\ (s <= 1 # 4)%Q /\
            (basis (nx.to_undirected G) = [] -> s = 0%Q).
Proof.
  unfold estimate_inbreeding.
  destruct (basis (nx.to_undirected G)) as [|c cs].
  - exists 0%Q. repeat split; discriminate.
  - eexists. split; [reflexivity|].
    destruct (inbreeding_score_bounds (total_cycle_nodes (c :: cs))
                (nx.number_of_nodes G) (total_cycle_nodes_nonneg _)) as [H0 H4].
    repeat split; [exact H0|exact H4|discriminate].
Qed.

(** On a graph without self-loop and cycle, a sound [cycle_basis] lists
    nothing. *)
Lemma sound_basis_of_forest basis G :
  cycle_basis_sound basis -> acyclic_graph (NxGraph G) ->
  basis (nx.to_undirected G) = [].
Proof.
  intros Hsound [Hloop Hcyc].
  destruct (basis (nx.to_undirected G)) as [|c cs] eqn:E; [reflexivity|].
  exfalso. destruct (Hsound (nx.to_undirected G) c) as [(z & -> & Hz)|Hc].
  - rewrite E. left.
  - exact (Hloop z Hz).
  - exact (Hcyc c Hc).
Qed.

(** C6.  Whichever class the graph is of, and whatever the order in which
    Python enumerates the adjacency sets and whatever lists [nx.cycle_basis]
    returns: [estimate_inbreeding] returns a score, the score lies in
    [0, 0.25], and it is exactly 0 when the undirected graph has no self-loop
    and no cycle -- in particular on the graph without nodes -- provided, on
    an [nx.DiGraph], that [nx.cycle_basis] lists cycles of the graph only. *)
Theorem C6_inbreeding_bounds (order : Z -> list Z -> list Z)
    (basis : nx.Graph -> list (list Z)) (g : graph_object) :
  (forall u l, order u l ≡ₚ l) ->
  exists s, estimate_inbreeding order basis g = Ok s /\
            (0 <= s)%Q /\ (s <= 1 # 4)%Q /\
            (cycle_basis_sound basis -> acyclic_graph g -> s = 0%Q).
Proof.
  intros Hp. destruct g as [G|g].
  - destruct (estimate_inbreeding_nx order basis G) as (s & Hs & H0 & H4 & Hz).
    exists s. repeat split; try assumption.
    intros Hsound Hacyc. apply Hz. exact (sound_basis_of_forest _ _ Hsound Hacyc).
  - destruct (build_cycle_basis_total order g Hp) as [cycles Hc].
    destruct (estimate_inbreeding_fallback order basis g cycles Hc)
      as (s & Hs & H0 & H4 & Hz).
    exists s. repeat split; try assumption.
    intros _ Hacyc. apply Hz. unfold _build_cycle_basis_fallback in Hc.
    exact (roots_loop_no_cycle (uedge g) (uedge_sym g) (acyclic_all_bridges g Hacyc)
             order Hp (build_adj g) (build_adj_ok g) _ _ _ _ Hc).
Qed.

Lemma empty_graph_acyclic : acyclic (fallback_graph (mkPedigree [] [])).
Proof.
  split.
  - intros u [H|H]; inversion H.
  - intros c (_ & _ & _ & x & y & _ & _ & [H|H]); inversion H.
Qed.

Lemma triangle_basis_sound : cycle_basis_sound triangle_basis.
Proof.
  intros U c Hc. unfold triangle_basis in Hc. cbv zeta in Hc.
  destruct (bool_decide_reflect
              (2 ∈ dict_keys (dict_get_default 1 [] (nx.adj U)) /\
               3 ∈ dict_keys (dict_get_default 2 [] (nx.adj U)) /\
               1 ∈ dict_keys (dict_get_default 3 [] (nx.adj U))))
    as [(H12 & H23 & H31)|]; [|inversion Hc].
  apply list_elem_of_singleton in Hc as ->. right.
  split; [simpl; lia|]. split.
  - apply (bool_decide_unpack _). vm_compute. exact I.
  - split; [cbn; tauto|]. exists 1, 3. repeat split. exact H31.
Qed.

Lemma triangle_basis_structural : cycle_basis_structural triangle_basis.
Proof.
  intros U U' _ Hadj. unfold triangle_basis. rewrite Hadj. reflexivity.
Qed.

Lemma C6_inbreeding_bounds_witness :
  (forall (u : Z) (l : list Z), l ≡ₚ l) /\
  exists s, estimate_inbreeding (fun _ l => l) triangle_basis
              (build_graph true ped_triangle) = Ok s /\
            (0 <= s)%Q /\ (s <= 1 # 4)%Q /\
            (cycle_basis_sound triangle_basis ->
             acyclic_graph (build_graph true ped_triangle) -> s = 0%Q).
Proof.
  split; [reflexivity|].
  apply (C6_inbreeding_bounds (fun _ l => l) triangle_basis
           (build_graph true ped_triangle)).
  reflexivity.
Defined.

(** The triangle: three cycle nodes over three nodes with [networkx], which
    [round] brings from 0.03125 to the float nearest to 0.0312; two pairs,
    so four cycle nodes, without it. *)
Example triangle_score :
  estimate_inbreeding (fun _ l => l) triangle_basis (build_graph true ped_triangle)
    = Ok (binary64 (312 # 10000)) /\
  estimate_inbreeding (fun _ l => l) triangle_basis (build_graph false ped_triangle)
    = Ok (binary64 (417 # 10000)).
Proof. split; vm_compute; reflexivity. Qed.

(** ** The graph of the built-in class, unfolded *)

Lemma fold_add_node ps : forall g,
  fold_left (fun g person => add_node g (id person) person) ps g =
  {| nodes_data := fold_left (fun n person => dict_set (id person) person n)
                     ps (nodes_data g);
     edge_data := edge_data g |}.
Proof.
  induction ps as [|p ps IH]; intros g; simpl; [destruct g; reflexivity|].
  rewrite IH. reflexivity.
Qed.

Lemma fold_add_edge rs : forall g,
  fold_left (fun g r => add_edge g (from_id r) (to_id r) (type r)) rs g =
  {| nodes_data := nodes_data g;
     edge_data := fold_left (fun e r => dict_set (from_id r, to_id r) (type r) e)
                    rs (edge_data g) |}.
Proof.
  induction rs as [|r rs IH]; intros g; simpl; [destruct g; reflexivity|].
  rewrite IH. reflexivity.
Qed.

Lemma fallback_graph_unfold ped :
  fallback_graph ped =
  {| nodes_data := fold_left (fun n person => dict_set (id person) person n)
                     (people ped) [];
     edge_data := fold_left (fun e r => dict_set (from_id r, to_id r) (type r) e)
                    (relationships ped) [] |}.
Proof. unfold fallback_graph. rewrite fold_add_edge, fold_add_node. reflexivity. Qed.

Lemma node_keys_same ps1 ps2 : forall n1 n2,
  Forall2 (fun a b => id a = id b /\ conditions a = conditions b) ps1 ps2 ->
  dict_keys n1 = dict_keys n2 ->
  dict_keys (fold_left (fun n person => dict_set (id person) person n) ps1 n1) =
  dict_keys (fold_left (fun n person => dict_set (id person) person n) ps2 n2).
Proof.
  intros n1 n2 H. revert n1 n2.
  induction H as [|a b ps1 ps2 [Hid _] _ IH]; intros n1 n2 Hk; simpl; [exact Hk|].
  apply IH. rewrite !dict_keys_set, Hid, Hk. reflexivity.
Qed.

Lemma condition_map_same ps1 ps2 : forall m,
  Forall2 (fun a b => id a = id b /\ conditions a = conditions b) ps1 ps2 ->
  fold_left (fun mapping person =>
               fold_left (fun mapping condition =>
                            dict_append (str_lower condition) (id person) mapping)
                 (conditions person) mapping) ps1 m =
  fold_left (fun mapping person =>
               fold_left (fun mapping condition =>
                            dict_append (str_lower condition) (id person) mapping)
                 (conditions person) mapping) ps2 m.
Proof.
  intros m H. revert m.
  induction H as [|a b ps1 ps2 [Hid Hc] _ IH]; intros m; simpl; [reflexivity|].
  rewrite Hid, Hc. apply IH.
Qed.

(** ** The copy made by [json.loads(json.dumps(_))] *)

Local Open Scope list_scope.

Lemma rep_seq_le R lo hi vs : forall js lo',
  lo' = lo -> rep_seq R lo hi vs js -> (lo <= hi)%nat.
Proof.
  revert lo. induction vs as [|v vs IH]; intros lo js lo' ->; destruct js as [|j js];
    simpl; try tauto.
  intros (mid & Hle & _ & Hrest). specialize (IH mid js mid eq_refl Hrest). lia.
Qed.

Lemma rep_seq_impl (R R' : nat -> nat -> val -> json -> Prop) hi vs :
  forall lo js,
  (forall lo' hi' v j, (lo <= lo')%nat -> (hi' <= hi)%nat ->
                       R lo' hi' v j -> R' lo' hi' v j) ->
  rep_seq R lo hi vs js -> rep_seq R' lo hi vs js.
Proof.
  induction vs as [|v vs IH]; intros lo js HR; destruct js as [|j js];
    simpl; try tauto.
  intros (mid & Hle & Hv & Hrest). exists mid.
  pose proof (rep_seq_le R mid hi vs js mid eq_refl Hrest) as Hmid.
  split; [exact Hle|]. split; [apply HR; auto; lia|].
  apply IH; [|exact Hrest]. intros lo' hi' v' j' H1 H2. apply HR; lia.
Qed.

Lemma rep_le d h lo hi v j : rep d h lo hi v j -> (lo <= hi)%nat.
Proof. destruct v, d; simpl; try tauto; lia. Qed.

Lemma rep_frame d : forall h h' lo hi v j,
  (forall l, (lo <= l < hi)%nat -> h' !! l = h !! l) ->
  rep d h lo hi v j -> rep d h' lo hi v j.
Proof.
  induction d as [|d IH]; intros h h' lo hi v j Hagree; destruct v; simpl; try tauto.
  intros [Hl H]. split; [exact Hl|]. rewrite (Hagree l Hl).
  destruct (h !! l) as [[vs|kvs]|]; [| |tauto].
  - destruct j; try tauto. eapply rep_seq_impl; [|exact H].
    intros lo' hi' v' j' H1 H2. apply IH. intros l' Hl'. apply Hagree. lia.
  - destruct j; try tauto. destruct H as [Hk H]. split; [exact Hk|].
    eapply rep_seq_impl; [|exact H].
    intros lo' hi' v' j' H1 H2. apply IH. intros l' Hl'. apply Hagree. lia.
Qed.

Lemma rep_seq_map_result (f : val -> result json) lo hi vs : forall js lo',
  lo' = lo ->
  rep_seq (fun _ _ v j => f v = Ok j) lo hi vs js -> map_result f vs = Ok js.
Proof.
  revert lo. induction vs as [|v vs IH]; intros lo js lo' ->; destruct js as [|j js];
    simpl; try tauto.
  intros (mid & _ & -> & Hrest). simpl. rewrite (IH mid js mid eq_refl Hrest).
  reflexivity.
Qed.

Lemma map_result_entries (f : val -> result json) (kvs : list (string * val)) :
  forall kjs : list (string * json),
  map fst kvs = map fst kjs ->
  map_result f (map snd kvs) = Ok (map snd kjs) ->
  map_result (fun kv => j <- f (snd kv) ;; Ok (fst kv, j)) kvs = Ok kjs.
Proof.
  induction kvs as [|[k v] kvs IH]; intros [|[k' j] kjs]; simpl; try discriminate.
  - reflexivity.
  - intros [= -> Hk] H. inv_bind H as j' Hj. inv_bind H as js' Hjs.
    injection H as -> ->. rewrite Hj. simpl. rewrite (IH kjs Hk Hjs). reflexivity.
Qed.

Lemma rep_dumps d : forall h lo hi v j,
  rep d h lo hi v j -> json_dumps d h v = Ok j.
Proof.
  induction d as [|d IH]; intros h lo hi v j; destruct v; simpl;
    try (intros [_ [= <-]]; reflexivity); try tauto.
  intros [_ H]. destruct (h !! l) as [[vs|kvs]|]; [| |tauto].
  - destruct j; try tauto.
    rewrite (rep_seq_map_result (json_dumps d h) lo l vs l0 lo eq_refl); [reflexivity|].
    eapply rep_seq_impl; [|exact H]. intros lo' hi' v' j' _ _. apply IH.
  - destruct j; try tauto. destruct H as [Hk H].
    rewrite (map_result_entries (json_dumps d h) kvs d0 Hk); [reflexivity|].
    apply (rep_seq_map_result (json_dumps d h) lo l _ _ lo eq_refl).
    eapply rep_seq_impl; [|exact H]. intros lo' hi' v' j' _ _. apply IH.
Qed.

Lemma rep_extend d h ext lo hi v j :
  (hi <= length h)%nat -> rep d h lo hi v j -> rep d (h ++ ext) lo hi v j.
Proof.
  intros Hhi. apply rep_frame. intros l Hl. apply lookup_app_l. lia.
Qed.

Lemma alloc_list_rep d js :
  Forall (loads_fresh d) js ->
  forall h0, exists ext vs,
    alloc_list json_loads_into js h0 = ((h0 ++ ext)%list, vs) /\
    rep_seq (rep d (h0 ++ ext)) (length h0) (length h0 + length ext) vs js.
Proof.
  induction 1 as [|j js Hj _ IH]; intros h0.
  - exists [], []. rewrite app_nil_r. simpl. split; [reflexivity|lia].
  - destruct (Hj h0) as (e1 & a & Ha & Hrep).
    destruct (IH (h0 ++ e1)%list) as (e2 & vs & Hvs & Hseq).
    exists (e1 ++ e2)%list, (a :: vs). cbn [alloc_list].
    rewrite Ha, Hvs, app_assoc. split; [reflexivity|].
    exists (length h0 + length e1)%nat. split; [lia|]. split.
    + apply rep_extend; [rewrite length_app; lia|exact Hrep].
    + rewrite !length_app in *. rewrite Nat.add_assoc. exact Hseq.
Qed.

Lemma alloc_entries_rep d (kjs : list (string * json)) :
  Forall (loads_fresh d) (map snd kjs) ->
  forall h0, exists ext kvs,
    alloc_entries json_loads_into kjs h0 = ((h0 ++ ext)%list, kvs) /\
    map fst kvs = map fst kjs /\
    rep_seq (rep d (h0 ++ ext)) (length h0) (length h0 + length ext)
      (map snd kvs) (map snd kjs).
Proof.
  induction kjs as [|[k j] kjs IH]; intros HF h0.
  - exists [], []. rewrite app_nil_r. simpl. repeat split; lia.
  - cbn [map snd] in HF. apply Forall_cons in HF as [Hj HF].
    destruct (Hj h0) as (e1 & a & Ha & Hrep).
    destruct (IH HF (h0 ++ e1)%list) as (e2 & kvs & Hkvs & Hk & Hseq).
    exists (e1 ++ e2)%list, ((k, a) :: kvs). cbn [alloc_entries].
    rewrite Ha, Hkvs, app_assoc. split; [reflexivity|].
    split; [simpl; congruence|].
    exists (length h0 + length e1)%nat. split; [lia|]. split.
    + apply rep_extend; [rewrite length_app; lia|exact Hrep].
    + rewrite !length_app in *. rewrite Nat.add_assoc. exact Hseq.
Qed.

Lemma rep_seq_extend d h ext lo hi vs js :
  (hi <= length h)%nat ->
  rep_seq (rep d h) lo hi vs js -> rep_seq (rep d (h ++ ext)) lo hi vs js.
Proof.
  intros Hhi. apply rep_seq_impl. intros lo' hi' v j _ Hle.
  apply rep_extend. lia.
Qed.

Lemma scalar_loads_fresh d v j : scalar_json v = Some j -> loads_fresh d j.
Proof.
  intros H h0. exists [], v. rewrite app_nil_r.
  destruct v; try discriminate; injection H as <-;
    (split; [reflexivity|]); destruct d; simpl; (split; [lia|reflexivity]).
Qed.

Lemma dumps_loads_fresh d : forall h v j,
  json_dumps d h v = Ok j -> loads_fresh d j.
Proof.
  assert (Hscalar : forall d h v j, scalar_json v <> None ->
            json_dumps d h v = Ok j -> loads_fresh d j).
  { intros d' h v j Hv H. apply (scalar_loads_fresh d' v).
    destruct v, d'; try (injection H as <-; reflexivity); contradiction. }
  induction d as [|d IH]; intros h v j H.
  - destruct v; try discriminate; (eapply Hscalar; [|exact H]; discriminate).
  - destruct v; try (eapply Hscalar; [|exact H]; discriminate).
    intros h0.
    cbn [json_dumps] in H. destruct (h !! l) as [[items|entries]|]; [| |discriminate].
    + inv_bind H as js Hjs. injection H as <-.
      assert (HF : Forall (loads_fresh d) js).
      { apply map_result_Ok in Hjs. clear -Hjs IH.
        induction Hjs; constructor; eauto. }
      destruct (alloc_list_rep d js HF h0) as (ext & vs & Hvs & Hseq).
      exists (ext ++ [OList vs])%list, (VRef (length (h0 ++ ext))).
      cbn [json_loads_into]. rewrite Hvs, app_assoc. split; [reflexivity|].
      cbn [rep]. rewrite !length_app. simpl length. split; [lia|].
      assert (Hl : ((h0 ++ ext) ++ [OList vs]) !! (length h0 + length ext)%nat
                   = Some (OList vs)).
      { rewrite <- length_app. apply list_lookup_middle. reflexivity. }
      rewrite Hl.
      apply rep_seq_extend; [rewrite length_app; lia|exact Hseq].
    + inv_bind H as kjs Hkjs. injection H as <-.
      assert (HF : Forall (loads_fresh d) (map snd kjs)).
      { apply map_result_Ok in Hkjs. clear -Hkjs IH.
        induction Hkjs as [|[k v] kj ? ? Hx _ IH']; simpl; constructor; [|exact IH'].
        simpl in Hx. inv_bind Hx as j Hj. injection Hx as <-. simpl. eauto. }
      destruct (alloc_entries_rep d kjs HF h0) as (ext & kvs & Hkvs & Hk & Hseq).
      exists (ext ++ [ODict kvs])%list, (VRef (length (h0 ++ ext))).
      cbn [json_loads_into]. rewrite Hkvs, app_assoc. split; [reflexivity|].
      cbn [rep]. rewrite !length_app. simpl length. split; [lia|].
      assert (Hl : ((h0 ++ ext) ++ [ODict kvs]) !! (length h0 + length ext)%nat
                   = Some (ODict kvs)).
      { rewrite <- length_app. apply list_lookup_middle. reflexivity. }
      rewrite Hl. split; [exact Hk|].
      apply rep_seq_extend; [rewrite length_app; lia|exact Hseq].
Qed.

(** ** Assignment into the copy *)

Lemma rep_seq_frame d h h' lo hi vs js :
  (forall l, (lo <= l < hi)%nat -> h' !! l = h !! l) ->
  rep_seq (rep d h) lo hi vs js -> rep_seq (rep d h') lo hi vs js.
Proof.
  intros Hagree. apply rep_seq_impl. intros lo' hi' v j H1 H2.
  apply rep_frame. intros l Hl. apply Hagree. lia.
Qed.

Lemma rep_scalar_inv d h lo hi v j :
  scalar_json v <> None -> rep d h lo hi v j -> scalar_json v = Some j.
Proof. destruct v, d; simpl; tauto. Qed.

Lemma rep_ref_inv d h lo hi l j :
  rep d h lo hi (VRef l) j ->
  exists d', d = S d' /\ (lo <= l < hi)%nat /\
    match h !! l, j with
    | Some (OList vs), JList js => rep_seq (rep d' h) lo l vs js
    | Some (ODict kvs), JDict kjs =>
        map fst kvs = map fst kjs /\
        rep_seq (rep d' h) lo l (map snd kvs) (map snd kjs)
    | _, _ => False
    end.
Proof. destruct d as [|d']; simpl; [tauto|]. intros [H1 H2]. eauto. Qed.

Lemma rep_str_inv d h lo hi v s : rep d h lo hi v (JStr s) -> v = VStr s.
Proof.
  destruct v; intros H;
    try (apply rep_scalar_inv in H; [|discriminate]; simpl in H; congruence).
  apply rep_ref_inv in H as (d' & _ & _ & H).
  destruct (h !! l) as [[?|?]|]; tauto.
Qed.

Lemma rep_list_inv d h lo hi v js :
  rep d h lo hi v (JList js) ->
  exists d' l vs, d = S d' /\ v = VRef l /\ (lo <= l < hi)%nat /\
    h !! l = Some (OList vs) /\ rep_seq (rep d' h) lo l vs js.
Proof.
  destruct v; intros H;
    try (apply rep_scalar_inv in H; [|discriminate]; simpl in H; congruence).
  apply rep_ref_inv in H as (d' & -> & Hl & H).
  destruct (h !! l) as [[vs|?]|] eqn:E; try tauto. eauto 10.
Qed.

Lemma rep_dict_inv d h lo hi v kjs :
  rep d h lo hi v (JDict kjs) ->
  exists d' l kvs, d = S d' /\ v = VRef l /\ (lo <= l < hi)%nat /\
    h !! l = Some (ODict kvs) /\ map fst kvs = map fst kjs /\
    rep_seq (rep d' h) lo l (map snd kvs) (map snd kjs).
Proof.
  destruct v; intros H;
    try (apply rep_scalar_inv in H; [|discriminate]; simpl in H; congruence).
  apply rep_ref_inv in H as (d' & -> & Hl & H).
  destruct (h !! l) as [[?|kvs]|] eqn:E; try tauto. destruct H. eauto 10.
Qed.

(** Reading an entry of a represented dict, and what may replace it. *)
Lemma entries_replace d h k j (kvs : list (string * val)) :
  forall (e : list (string * json)) lo hi,
  map fst kvs = map fst e ->
  rep_seq (rep d h) lo hi (map snd kvs) (map snd e) ->
  dict_get k e = Some j ->
  exists v lo' hi',
    dict_get k kvs = Some v /\ (lo <= lo')%nat /\ (hi' <= hi)%nat /\
    rep d h lo' hi' v j /\
    forall h' j',
      (forall l, (lo <= l < hi)%nat -> ~ (lo' <= l < hi')%nat -> h' !! l = h !! l) ->
      rep d h' lo' hi' v j' ->
      rep_seq (rep d h') lo hi (map snd kvs) (map snd (dict_set k j' e)).
Proof.
  induction kvs as [|[k1 v1] kvs IH]; intros [|[k2 j2] e] lo hi Hk Hseq Hget;
    try discriminate.
  injection Hk as <- Hk. cbn [map snd rep_seq] in Hseq.
  destruct Hseq as (mid & Hmid & Hv1 & Hrest).
  pose proof (rep_seq_le _ _ _ _ _ _ eq_refl Hrest) as Hmh.
  cbn [dict_get] in *. destruct (decide (k = k1)) as [->|Hne].
  - injection Hget as ->. exists v1, lo, mid. repeat split; try lia; [exact Hv1|].
    intros h' j' Hagree Hnew. cbn [dict_set]. rewrite decide_True by reflexivity.
    cbn [map snd rep_seq]. exists mid. repeat split; [lia|exact Hnew|].
    eapply rep_seq_frame; [|exact Hrest]. intros l Hl. apply Hagree; lia.
  - destruct (IH e mid hi Hk Hrest Hget) as (v & lo' & hi' & Hg & H1 & H2 & Hrep & Hupd).
    exists v, lo', hi'. repeat split; try lia; [exact Hg|exact Hrep|].
    intros h' j' Hagree Hnew. cbn [dict_set]. rewrite decide_False by exact Hne.
    cbn [map snd rep_seq]. exists mid. repeat split; [lia| |].
    + eapply rep_frame; [|exact Hv1]. intros l Hl. apply Hagree; lia.
    + apply Hupd; [|exact Hnew]. intros l Hl Hout. apply Hagree; [lia|exact Hout].
Qed.

(** Setting a key of a represented dict to a scalar. *)
Lemma entries_set (R : nat -> nat -> val -> json -> Prop) k v j
    (kvs : list (string * val)) :
  forall (e : list (string * json)) lo hi,
  (forall lo' hi', (lo' <= hi')%nat -> R lo' hi' v j) ->
  map fst kvs = map fst e ->
  rep_seq R lo hi (map snd kvs) (map snd e) ->
  map fst (dict_set k v kvs) = map fst (dict_set k j e) /\
  rep_seq R lo hi (map snd (dict_set k v kvs)) (map snd (dict_set k j e)).
Proof.
  induction kvs as [|[k1 v1] kvs IH]; intros [|[k2 j2] e] lo hi HR Hk Hseq;
    try discriminate.
  - simpl in *. split; [reflexivity|]. exists lo. repeat split; [lia|apply HR; lia|exact Hseq].
  - injection Hk as <- Hk. cbn [map snd rep_seq] in Hseq.
    destruct Hseq as (mid & Hmid & Hv1 & Hrest). cbn [dict_set].
    destruct (decide (k = k1)) as [->|Hne].
    + cbn [map fst snd rep_seq]. split; [congruence|].
      exists mid. repeat split; [lia|apply HR; lia|exact Hrest].
    + destruct (IH e mid hi HR Hk Hrest) as [Hk' Hseq'].
      cbn [map fst snd rep_seq]. split; [congruence|].
      exists mid. repeat split; [lia|exact Hv1|exact Hseq'].
Qed.

Lemma rep_int_value d h lo hi v idv z :
  int_value idv = Some z -> rep d h lo hi v idv ->
  scalar_json v = Some idv.
Proof.
  intros Hz H. destruct v; try (destruct d; simpl in H; tauto).
  destruct d; simpl in H; [tauto|]. destruct H as [_ H].
  destruct (h !! l) as [[?|?]|], idv; try tauto; discriminate.
Qed.

Lemma format_int_value repr h v idv z :
  int_value idv = Some z -> scalar_json v = Some idv ->
  format_value repr h v = id_text idv.
Proof.
  intros Hz Hv. destruct v; try discriminate; injection Hv as <-;
    try discriminate; reflexivity.
Qed.

Lemma person_step repr d h lo hi v p :
  rep d h lo hi v p -> has_int_id p ->
  exists h',
    pseudonymize_person repr h v = Ok h' /\
    rep d h' lo hi v (pseudo_person p) /\
    (forall l, ~ (lo <= l < hi)%nat -> h' !! l = h !! l) /\
    length h' = length h.
Proof.
  intros Hrep (e & idv & z & -> & Hid & Hz).
  apply rep_dict_inv in Hrep as (d' & l & kvs & -> & -> & Hl & Hcell & Hk & Hseq).
  rename d' into d.
  destruct (entries_replace d h "id" idv kvs e lo l Hk Hseq Hid)
    as (iv & lo' & hi' & Hgi & _ & _ & Hrepi & _).
  pose proof (rep_int_value _ _ _ _ _ _ _ Hz Hrepi) as Hiv.
  unfold pseudonymize_person, heap_getitem, heap_setitem.
  rewrite Hcell, Hgi. cbn [bind].
  rewrite (format_int_value repr h iv idv z Hz Hiv).
  eexists. split; [reflexivity|].
  assert (Hlt : (l < length h)%nat) by (eapply lookup_lt_Some; exact Hcell).
  split; [|split].
  - unfold pseudo_person. rewrite Hid. cbn [rep]. split; [exact Hl|].
    rewrite list_lookup_insert_eq by exact Hlt.
    apply entries_set; [| exact Hk |].
    + intros lo1 hi1 Hle. destruct d; simpl; auto.
    + eapply rep_seq_frame; [|exact Hseq]. intros l' Hl'.
      apply list_lookup_insert_ne. lia.
  - intros l' Hl'. apply list_lookup_insert_ne. lia.
  - apply length_insert.
Qed.

Lemma persons_loop repr d vs : forall js lo hi h,
  rep_seq (rep d h) lo hi vs js -> Forall has_int_id js ->
  exists h',
    for_each (pseudonymize_person repr) vs h = Ok h' /\
    rep_seq (rep d h') lo hi vs (map pseudo_person js) /\
    (forall l, ~ (lo <= l < hi)%nat -> h' !! l = h !! l) /\
    length h' = length h.
Proof.
  induction vs as [|v vs IH]; intros [|j js] lo hi h Hseq HF; try (destruct Hseq; fail).
  - exists h. repeat split; auto.
  - apply Forall_cons in HF as [Hj HF]. destruct Hseq as (mid & Hmid & Hv & Hrest).
    pose proof (rep_seq_le _ _ _ _ _ _ eq_refl Hrest) as Hmh.
    destruct (person_step repr d h lo mid v j Hv Hj) as (h1 & Hstep & Hv1 & Hout1 & Hlen1).
    destruct (IH js mid hi h1) as (h2 & Hloop & Hrest2 & Hout2 & Hlen2); [|exact HF|].
    { eapply rep_seq_frame; [|exact Hrest]. intros l Hl. apply Hout1. lia. }
    exists h2. cbn [for_each]. rewrite Hstep. cbn [bind]. rewrite Hloop.
    split; [reflexivity|]. split; [|split].
    + cbn [map rep_seq]. exists mid. repeat split; [lia| |exact Hrest2].
      eapply rep_frame; [|exact Hv1]. intros l Hl. apply Hout2. lia.
    + intros l Hl. rewrite Hout2 by lia. apply Hout1. lia.
    + congruence.
Qed.

Lemma dict_set_keys_present {V} (k : string) (v w : V) (e : list (string * V)) :
  dict_get k e = Some w -> map fst (dict_set k v e) = map fst e.
Proof.
  induction e as [|[k1 v1] e IH]; simpl; [discriminate|].
  destruct (decide (k = k1)); simpl; [reflexivity|]. intros H. rewrite IH; auto.
Qed.

Lemma assign_names_rep repr depth h lo hi a dtop people persons :
  rep depth h lo hi a (JDict dtop) ->
  dict_get "people" dtop = Some people ->
  py_iter people = Ok persons ->
  Forall has_int_id persons ->
  exists h2,
    assign_names repr h a = Ok h2 /\
    rep depth h2 lo hi a (pseudo_json (JDict dtop)) /\
    (forall l, ~ (lo <= l < hi)%nat -> h2 !! l = h !! l).
Proof.
  intros Hrep Hpeople Hiter Hvalid.
  apply rep_dict_inv in Hrep as (d & l & kvs & -> & -> & Hl & Hcell & Hk & Hseq).
  destruct (entries_replace d h "people" people kvs dtop lo l Hk Hseq Hpeople)
    as (pv & lo' & hi' & Hgp & Hlo' & Hhi' & Hrepp & Hupd).
  unfold assign_names, heap_get. rewrite Hcell, Hgp. cbn [bind].
  assert (Hnolist : (forall ps, people <> JList ps) -> persons = [] ->
            heap_iter h pv = Ok [] ->
            exists h2, (persons0 <- heap_iter h pv ;;
                        for_each (pseudonymize_person repr) persons0 h) = Ok h2 /\
              rep (S d) h2 lo hi (VRef l) (pseudo_json (JDict dtop)) /\
              (forall l0, ~ (lo <= l0 < hi)%nat -> h2 !! l0 = h !! l0)).
  { intros Hnl _ ->. exists h. split; [reflexivity|]. split; [|auto].
    unfold pseudo_json. rewrite Hpeople.
    assert (Hsame : match people with
                    | JList persons0 =>
                        JDict (dict_set "people" (JList (map pseudo_person persons0)) dtop)
                    | _ => JDict dtop
                    end = JDict dtop).
    { destruct people; try reflexivity. destruct (Hnl l0 eq_refl). }
    rewrite Hsame. cbn [rep]. rewrite Hcell. auto. }
  assert (Hempty : forall (A : Type) (f : A -> json) (xs : list A),
            (forall x, ~ has_int_id (f x)) -> Forall has_int_id (map f xs) -> xs = []).
  { intros A f [|x xs] Hf HF; [reflexivity|]. simpl in HF.
    apply Forall_cons in HF as [Hx _]. destruct (Hf x Hx). }
  destruct people as [| | | |s|ps|ed]; try discriminate.
  - (* a string: it has no characters *)
    injection Hiter as <-.
    pose proof (Hempty _ JStr (str_chars s)
                  ltac:(intros x (? & ? & ? & [=] & _)) Hvalid) as Hs.
    apply Hnolist; [discriminate|rewrite Hs; reflexivity|].
    apply rep_str_inv in Hrepp as ->. simpl. rewrite Hs. reflexivity.
  - (* a list of persons *)
    injection Hiter as <-.
    apply rep_list_inv in Hrepp as (d' & l0 & pvs & -> & -> & Hlp & Hpcell & Hrepp).
    rename d' into d.
    destruct (persons_loop repr d pvs ps lo' l0 h Hrepp Hvalid)
      as (h2 & Hloop & Hseq2 & Hout2 & Hlen2).
    exists h2. unfold heap_iter. rewrite Hpcell. cbn [bind].
    split; [exact Hloop|]. split.
    + unfold pseudo_json. rewrite Hpeople. cbn [rep]. split; [exact Hl|].
      rewrite Hout2 by lia. rewrite Hcell.
      split; [rewrite (dict_set_keys_present _ _ _ _ Hpeople); exact Hk|].
      apply Hupd.
      * intros l' Hl' Hout. apply Hout2. lia.
      * cbn [rep]. split; [exact Hlp|]. rewrite Hout2 by lia. rewrite Hpcell.
        exact Hseq2.
    + intros l' Hl'. apply Hout2. lia.
  - (* a dict: it has no keys *)
    injection Hiter as <-.
    pose proof (Hempty _ JStr (dict_keys ed)
                  ltac:(intros x (? & ? & ? & [=] & _)) Hvalid) as Hs.
    apply Hnolist; [discriminate|rewrite Hs; reflexivity|].
    apply rep_dict_inv in Hrepp as (d' & l0 & kvp & -> & -> & _ & Hpcell & Hkp & _).
    unfold heap_iter. rewrite Hpcell. unfold dict_keys in *. rewrite Hkp, Hs.
    reflexivity.
Qed.

(** ** Pseudonymisation *)

Lemma map_result_ext {A B} (f g : A -> result B) xs ys :
  (forall x y, f x = Ok y -> g x = Ok y) ->
  map_result f xs = Ok ys -> map_result g xs = Ok ys.
Proof.
  intros Hfg H. apply map_result_Ok in H. apply Forall2_map_result.
  induction H; constructor; auto.
Qed.

Lemma dumps_agree d : forall h h' v j,
  (forall l o, h !! l = Some o -> h' !! l = Some o) ->
  json_dumps d h v = Ok j -> json_dumps d h' v = Ok j.
Proof.
  induction d as [|d IH]; intros h h' v j Hsub H; destruct v; try exact H.
  cbn [json_dumps] in *.
  destruct (h !! l) as [[items|entries]|] eqn:E; [| |discriminate];
    rewrite (Hsub _ _ E).
  - inv_bind H as js Hjs. injection H as <-.
    rewrite (map_result_ext _ (json_dumps d h') _ _ (fun x y => IH h h' x y Hsub) Hjs).
    reflexivity.
  - inv_bind H as kjs Hkjs. injection H as <-.
    erewrite map_result_ext; [reflexivity| |exact Hkjs].
    intros [k x] y Hy. simpl in *. inv_bind Hy as j Hj. injection Hy as <-.
    rewrite (IH h h' x j Hsub Hj). reflexivity.
Qed.

Lemma valid_people strptime p :
  validate_pedigree strptime p = Ok (true, None) ->
  exists dtop people persons,
    p = JDict dtop /\ dict_get "people" dtop = Some people /\
    py_iter people = Ok persons /\ Forall has_int_id persons.
Proof.
  intros H. apply validate_pedigree_true in H
    as (d & people & rels & persons & ids & rs & -> & _ & Hp & _ & Hi & Hc & _).
  exists d, people, persons. repeat split; try assumption.
  eapply check_each_Continue; [|exact Hc].
  intros s x s' Hx. apply validate_person_Continue in Hx
    as (e & idv & z & -> & Hid & Hz & _).
  exists e, idv, z. auto.
Qed.

Lemma pseudo_person_spec p : has_int_id p -> person_pseudonymized p (pseudo_person p).
Proof.
  intros (e & idv & z & -> & Hid & Hz). unfold pseudo_person. rewrite Hid.
  exists e, (dict_set "name" (JStr ("Person-" ++ id_text idv)%string) e), idv.
  repeat split; [exact Hid|apply dict_get_set_eq|].
  intros k Hk. apply dict_get_set_ne. exact Hk.
Qed.

Lemma pseudo_json_spec dtop people persons :
  dict_get "people" dtop = Some people ->
  py_iter people = Ok persons -> Forall has_int_id persons ->
  pseudonymized (JDict dtop) (pseudo_json (JDict dtop)).
Proof.
  intros Hp Hi Hv. unfold pseudo_json. rewrite Hp.
  assert (Hsame : (forall ps, people <> JList ps) ->
            pseudonymized (JDict dtop) (JDict dtop)).
  { intros Hnl. exists dtop, dtop, people, people, persons, persons.
    repeat split; try assumption.
    destruct people; try discriminate; try (destruct (Hnl l eq_refl));
      injection Hi as <-.
    - destruct (str_chars s) as [|c cs]; [constructor|].
      simpl in Hv. apply Forall_cons in Hv as [(? & ? & ? & [=] & _) _].
    - destruct (dict_keys d) as [|c cs]; [constructor|].
      simpl in Hv. apply Forall_cons in Hv as [(? & ? & ? & [=] & _) _]. }
  destruct people; try (apply Hsame; discriminate).
  injection Hi as <-.
  exists dtop, (dict_set "people" (JList (map pseudo_person l)) dtop),
    (JList l), (JList (map pseudo_person l)), l, (map pseudo_person l).
  repeat split; try assumption; try reflexivity.
  - apply dict_get_set_ne. discriminate.
  - intros k Hk. apply dict_get_set_ne. exact Hk.
  - apply dict_get_set_eq.
  - clear Hp Hsame. induction Hv; simpl; constructor; auto using pseudo_person_spec.
Qed.

(** C8.  On a validated pedigree held in the store, [pseudonymize_pedigree]
    returns a pedigree whose people are named ["Person-{id}"] while the
    relationships and the other fields of each person are those of the
    input; the objects of the input are left as they were, and the result is
    a deep copy: it is made of objects allocated by the call only. *)
Theorem C8_pseudonymize_deep_copy
    (repr : heap -> val -> string) (strptime : string -> bool)
    (depth : nat) (h : heap) (pedigree : val) (p : json) :
  json_dumps depth h pedigree = Ok p ->
  validate_pedigree strptime p = Ok (true, None) ->
  exists h' anonymized p',
    pseudonymize_pedigree repr depth h pedigree = Ok (h', anonymized) /\
    json_dumps depth h' anonymized = Ok p' /\
    pseudonymized p p' /\
    (forall l o, h !! l = Some o -> h' !! l = Some o) /\
    json_dumps depth h' pedigree = Ok p /\
    (forall h0, length h0 = length h ->
       json_dumps depth (h0 ++ drop (length h) h') anonymized = Ok p').
Proof.
  intros Hdump Hvalid.
  destruct (valid_people _ _ Hvalid) as (dtop & people & persons & -> & Hp & Hi & Hv).
  destruct (dumps_loads_fresh _ _ _ _ Hdump h) as (ext & a & Hload & Hrep).
  destruct (assign_names_rep repr depth (h ++ ext) (length h) (length h + length ext)
              a dtop people persons Hrep Hp Hi Hv) as (h2 & Hassign & Hrep2 & Hout).
  assert (Hkeep : forall l o, h !! l = Some o -> h2 !! l = Some o).
  { intros l o Hl. pose proof (lookup_lt_Some _ _ _ Hl) as Hlt.
    rewrite Hout by lia. rewrite lookup_app_l by exact Hlt. exact Hl. }
  exists h2, a, (pseudo_json (JDict dtop)).
  split; [|split; [|split; [|split; [|split]]]].
  - unfold pseudonymize_pedigree. rewrite Hdump. cbn [bind].
    rewrite Hload, Hassign. reflexivity.
  - eapply rep_dumps. exact Hrep2.
  - eapply pseudo_json_spec; eassumption.
  - exact Hkeep.
  - eapply dumps_agree; [exact Hkeep|exact Hdump].
  - intros h0 Hlen. eapply rep_dumps. eapply rep_frame; [|exact Hrep2].
    intros l Hl. rewrite lookup_app_r by lia. rewrite lookup_drop.
    f_equal. lia.
Qed.

Lemma C8_pseudonymize_deep_copy_witness :
  json_dumps 4 (fst sample_store) (snd sample_store) = Ok sample_payload /\
  validate_pedigree strptime_ymd_ascii sample_payload = Ok (true, None) /\
  exists h' anonymized p',
    pseudonymize_pedigree (fun _ _ => "") 4 (fst sample_store) (snd sample_store)
      = Ok (h', anonymized) /\
    json_dumps 4 h' anonymized = Ok p' /\
    pseudonymized sample_payload p' /\
    (forall l o, fst sample_store !! l = Some o -> h' !! l = Some o) /\
    json_dumps 4 h' (snd sample_store) = Ok sample_payload /\
    (forall h0, length h0 = length (fst sample_store) ->
       json_dumps 4 (h0 ++ drop (length (fst sample_store)) h') anonymized = Ok p').
Proof.
  split; [vm_compute; reflexivity|]. split; [vm_compute; reflexivity|].
  apply (C8_pseudonymize_deep_copy (fun _ _ => "") strptime_ymd_ascii 4
           (fst sample_store) (snd sample_store) sample_payload);
    vm_compute; reflexivity.
Defined.



(** ** The validator accepts exactly the well-formed pedigrees *)

Lemma validate_person_Continue_wf strptime ids p ids' :
  validate_person strptime ids p = Ok (Continue ids') ->
  exists z, well_formed_person strptime p z /\ ids' = ids ++ [z].
Proof.
  unfold validate_person. destruct p; try discriminate.
  destruct (filter _ required_keys) eqn:Hreq; [|discriminate].
  intros H. inv_bind H as idv Hid.
  destruct (int_value idv) as [z|] eqn:Hz; [|discriminate].
  inv_bind H as g Hg. inv_bind H as known Hknown.
  destruct known; [|discriminate]. cbn [negb] in H.
  inv_bind H as dob Hdob. inv_bind H as ok Hok.
  destruct ok; [|discriminate]. cbn [negb] in H.
  inv_bind H as cs Hcs. destruct cs; try discriminate.
  injection H as <-.
  unfold py_getitem in *.
  destruct (dict_get "id" d) eqn:E1; [|discriminate]. injection Hid as ->.
  destruct (dict_get "gender" d) eqn:E2; [|discriminate]. injection Hg as ->.
  destruct (dict_get "dob" d) eqn:E3; [|discriminate]. injection Hdob as ->.
  destruct (dict_get "conditions" d) eqn:E4; [|discriminate]. injection Hcs as ->.
  assert (Hname : exists n, dict_get "name" d = Some n).
  { destruct (dict_get "name" d) eqn:E5; [eauto|].
    exfalso. unfold required_keys in Hreq. cbn [filter list_filter] in Hreq.
    unfold dict_has in Hreq. rewrite E1, E2, E3, E4, E5 in Hreq.
    vm_compute in Hreq. discriminate. }
  destruct Hname as [n Hn].
  unfold in_str_set in Hknown. destruct g; try discriminate.
  cbn [hashable] in Hknown. injection Hknown as Hknown.
  apply bool_decide_eq_true in Hknown.
  unfold _is_valid_dob in Hok. destruct dob; try discriminate.
  exists z. split; [|reflexivity].
  exists d, idv, n, s, s0, l. repeat split; try assumption.
  destruct (decide (s0 = "approx")); [left; assumption|right].
  injection Hok as ->. reflexivity.
Qed.

Lemma check_each_persons_wf strptime persons : forall ids0 ids',
  check_each (validate_person strptime) persons ids0 = Ok (Continue ids') ->
  exists ids, Forall2 (well_formed_person strptime) persons ids /\
              ids' = ids0 ++ ids.
Proof.
  induction persons as [|p ps IH]; intros ids0 ids' H; simpl in H.
  - injection H as <-. exists []. split; [constructor|]. rewrite app_nil_r. reflexivity.
  - inv_bind H as v Hv. destruct v as [ids1|r]; [|discriminate].
    apply validate_person_Continue_wf in Hv as (z & Hwf & ->).
    destruct (IH _ _ H) as (ids & Hall & ->).
    exists (z :: ids). split; [constructor; assumption|].
    rewrite <- app_assoc. reflexivity.
Qed.

Lemma check_each_persons_accepts strptime persons ids : forall acc,
  Forall2 (well_formed_person strptime) persons ids ->
  check_each (validate_person strptime) persons acc = Ok (Continue (acc ++ ids)).
Proof.
  intros acc H. revert acc.
  induction H as [|p z ps zs Hpz _ IH]; intros acc; cbn [check_each].
  - rewrite app_nil_r. reflexivity.
  - rewrite (validate_person_accepts _ _ _ _ Hpz). cbn [bind].
    rewrite IH, <- app_assoc. reflexivity.
Qed.

Lemma validate_relationship_Continue_wf ids rel u :
  validate_relationship ids rel = Ok (Continue u) ->
  well_formed_relationship ids rel.
Proof.
  intros H. apply validate_relationship_Continue in H
    as (f & t & ty & Hn & Hf & Ht & Hty).
  apply in_int_set_true in Hf as (kf & Hkf & Hinf).
  apply in_int_set_true in Ht as (kt & Hkt & Hint).
  exists f, t, ty, kf, kt. repeat split; assumption.
Qed.

(** X1.  [validate_pedigree] returns [(True, None)] exactly for a mapping
    whose [people] entry iterates over people that carry the five required
    keys with an integer id, an allowed gender, a valid date of birth and a
    list of conditions, and whose [relationships] entry iterates over
    relationships whose endpoints are ids of these people and whose type,
    lower-cased and trimmed, is allowed. *)
Theorem X1_validate_accepts_iff_well_formed (strptime : string -> bool) (p : json) :
  validate_pedigree strptime p = Ok (true, None) <->
  exists d people relationships persons rels ids,
    p = JDict d /\
    dict_get "people" d = Some people /\
    dict_get "relationships" d = Some relationships /\
    py_iter people = Ok persons /\ py_iter relationships = Ok rels /\
    Forall2 (well_formed_person strptime) persons ids /\
    Forall (well_formed_relationship ids) rels.
Proof.
  split.
  - intros H. apply validate_pedigree_true in H
      as (d & people & relationships & persons & ids & rels
          & -> & _ & Hp & Hr & Hpi & Hps & Hri & Hrs).
    apply check_each_persons_wf in Hps as (ids' & Hall & ->). simpl.
    exists d, people, relationships, persons, rels, ids'.
    repeat split; try assumption.
    eapply Forall_impl; [exact Hrs|]. intros rel [u Hu].
    eapply validate_relationship_Continue_wf. exact Hu.
  - intros (d & people & relationships & persons & rels & ids
            & -> & Hp & Hr & Hpi & Hri & Hps & Hrs).
    unfold validate_pedigree. rewrite Hp, Hr, Hpi. cbn [bind].
    rewrite (check_each_persons_accepts _ _ _ [] Hps). cbn [bind app].
    rewrite Hri. cbn [bind].
    assert (H2 : check_each (fun _ : unit => validate_relationship ids) rels tt
                 = Ok (Continue tt)).
    { clear Hri. induction Hrs as [|r rs Hr0 _ IH]; cbn [check_each]; [reflexivity|].
      rewrite (validate_relationship_accepts _ _ Hr0). cbn [bind]. exact IH. }
    rewrite H2. reflexivity.
Qed.

(** ** Which exceptions escape *)

Lemma bind_Raise {A B} (m : result A) (k : A -> result B) (e : exn) :
  bind m k = Raise e -> m = Raise e \/ exists a, m = Ok a /\ k a = Raise e.
Proof. destruct m as [a|e']; simpl; [eauto|]. intros [= ->]. auto. Qed.

Lemma check_each_Raise {A S} (body : S -> A -> result (verdict S)) xs e : forall s,
  check_each body xs s = Raise e -> exists s' x, x ∈ xs /\ body s' x = Raise e.
Proof.
  induction xs as [|x xs IH]; intros s H; simpl in H; [discriminate|].
  apply bind_Raise in H as [H|(v & Hv & H)].
  - exists s, x. split; [left|exact H].
  - destruct v as [s1|r]; [|discriminate].
    destruct (IH _ H) as (s' & y & Hy & He). exists s', y. split; [right|]; assumption.
Qed.

Lemma check_each_Reject {A S} (body : S -> A -> result (verdict S)) xs r : forall s,
  check_each body xs s = Ok (Reject r) ->
  exists s' x, x ∈ xs /\ body s' x = Ok (Reject r).
Proof.
  induction xs as [|x xs IH]; intros s H; simpl in H; [discriminate|].
  inv_bind H as v Hv. destruct v as [s1|r1].
  - destruct (IH _ H) as (s' & y & Hy & He). exists s', y. split; [right|]; assumption.
  - injection H as <-. exists s, x. split; [left|exact Hv].
Qed.

Lemma map_result_Raise {A B} (f : A -> result B) xs e :
  map_result f xs = Raise e -> exists x, x ∈ xs /\ f x = Raise e.
Proof.
  induction xs as [|x xs IH]; simpl; [discriminate|]. intros H.
  apply bind_Raise in H as [H|(y & Hy & H)].
  - exists x. split; [left|exact H].
  - apply bind_Raise in H as [H|(ys & Hys & H)]; [|discriminate].
    destruct (IH H) as (x' & Hx' & He). exists x'. split; [right|]; assumption.
Qed.

Lemma py_iter_Raise v e : py_iter v = Raise e -> e = TypeError.
Proof. destruct v; simpl; intros [= <-] || discriminate; reflexivity. Qed.

Lemma in_str_set_Raise v names e : in_str_set v names = Raise e -> e = TypeError.
Proof.
  unfold in_str_set. destruct (hashable v); [destruct v; discriminate|].
  intros [= <-]. reflexivity.
Qed.

Lemma in_int_set_Raise v ids e : in_int_set v ids = Raise e -> e = TypeError.
Proof.
  unfold in_int_set. destruct (hashable v); [destruct (as_integer v); discriminate|].
  intros [= <-]. reflexivity.
Qed.

Lemma required_keys_present (d : list (string * json)) :
  filter (fun k => dict_has k d = false) required_keys = [] ->
  forall k, k ∈ required_keys -> exists v, dict_get k d = Some v.
Proof.
  intros H k Hk.
  destruct (dict_get k d) as [v|] eqn:E; [eauto|]. exfalso.
  assert (Hin : k ∈ filter (fun k => dict_has k d = false) required_keys).
  { apply list_elem_of_filter. split; [|exact Hk]. unfold dict_has. rewrite E. reflexivity. }
  rewrite H in Hin. inversion Hin.
Qed.

Lemma validate_person_Raise strptime ids p e :
  validate_person strptime ids p = Raise e -> e = TypeError.
Proof.
  unfold validate_person. destruct p; try discriminate.
  destruct (filter _ required_keys) eqn:Hreq; [|discriminate].
  pose proof (required_keys_present d Hreq) as Hk.
  destruct (Hk "id") as [idv Hid]; [repeat constructor|].
  destruct (Hk "gender") as [g Hg]; [repeat constructor|].
  destruct (Hk "dob") as [dob Hdob]; [repeat constructor|].
  destruct (Hk "conditions") as [cs Hcs]; [repeat constructor|].
  unfold py_getitem. rewrite Hid, Hg, Hdob, Hcs. cbn [bind].
  destruct (int_value idv); [|discriminate].
  intros H. apply bind_Raise in H as [H|(known & _ & H)].
  { eapply in_str_set_Raise. exact H. }
  destruct (negb known); [discriminate|].
  apply bind_Raise in H as [H|(ok & _ & H)].
  { unfold _is_valid_dob in H. destruct dob; try (injection H as <-; reflexivity).
    destruct (decide (s = "approx")); discriminate. }
  destruct (negb ok); [discriminate|].
  destruct (negb (is_list cs)); discriminate.
Qed.

Lemma normalize_relationship_Raise raw e :
  _normalize_relationship raw = Raise e -> e = AttributeError.
Proof.
  unfold _normalize_relationship. destruct raw; try (intros [= <-]; reflexivity).
  destruct (dict_get_default "type" (JStr "") d); try (intros [= <-]; reflexivity).
Qed.

Lemma validate_relationship_Raise ids rel e :
  validate_relationship ids rel = Raise e -> e = TypeError \/ e = AttributeError.
Proof.
  unfold validate_relationship. intros H.
  apply bind_Raise in H as [H|(nr & Hnr & H)].
  { right. eapply normalize_relationship_Raise. exact H. }
  destruct (normalize_relationship_Ok _ _ Hnr) as (f & t & ty & ->).
  cbn [py_getitem] in H.
  change (dict_get "from" _) with (Some f) in H.
  change (dict_get "to" _) with (Some t) in H.
  change (dict_get "type" _) with (Some (JStr (str_strip (str_lower ty)))) in H.
  cbn [bind] in H. left.
  apply bind_Raise in H as [H|(bf & _ & H)]; [eapply in_int_set_Raise; exact H|].
  destruct (negb bf); [discriminate|].
  apply bind_Raise in H as [H|(bt & _ & H)]; [eapply in_int_set_Raise; exact H|].
  destruct (negb bt); [discriminate|].
  apply bind_Raise in H as [H|(ba & _ & H)]; [eapply in_str_set_Raise; exact H|].
  destruct (negb ba); discriminate.
Qed.

Lemma validate_person_Reject strptime ids p r :
  validate_person strptime ids p = Ok (Reject r) -> r <> UnknownValidationError.
Proof.
  unfold validate_person. destruct p; try (intros [= <-]; discriminate).
  destruct (filter _ required_keys); [|intros [= <-]; discriminate].
  intros H. inv_bind H as idv Hid.
  destruct (int_value idv); [|injection H as <-; discriminate].
  inv_bind H as g Hg. inv_bind H as known Hknown.
  destruct (negb known); [injection H as <-; discriminate|].
  inv_bind H as dob Hdob. inv_bind H as ok Hok.
  destruct (negb ok); [injection H as <-; discriminate|].
  inv_bind H as cs Hcs.
  destruct (negb (is_list cs)); [injection H as <-; discriminate|discriminate].
Qed.

Lemma validate_relationship_Reject ids rel r :
  validate_relationship ids rel = Ok (Reject r) ->
  r = UnknownPersonId \/ exists t, r = UnsupportedRelationshipType t.
Proof.
  unfold validate_relationship. intros H. inv_bind H as nr Hnr.
  inv_bind H as f Hf. inv_bind H as bf Hbf.
  destruct (negb bf); [injection H as <-; auto|].
  inv_bind H as t Ht. inv_bind H as bt Hbt.
  destruct (negb bt); [injection H as <-; auto|].
  inv_bind H as ty Hty. inv_bind H as ba Hba.
  destruct (negb ba); [injection H as <-; eauto|discriminate].
Qed.

Lemma validate_pedigree_outcome strptime p :
  match validate_pedigree strptime p with
  | Ok (ok, err) =>
      (ok = true /\ err = None) \/
      (ok = false /\ exists r, err = Some r /\ r <> UnknownValidationError)
  | Raise e => e = TypeError \/ e = AttributeError
  end.
Proof.
  destruct (validate_pedigree strptime p) as [[ok err]|e] eqn:H.
  - assert (Hno : forall r, r <> UnknownValidationError ->
              (false = true /\ Some r = None) \/
              (false = false /\ exists r0, Some r = Some r0 /\ r0 <> UnknownValidationError))
      by (intros r Hr; right; eauto).
    unfold validate_pedigree in H.
    destruct p; try (injection H as <- <-; apply Hno; discriminate).
    destruct (dict_get "people" d), (dict_get "relationships" d);
      try (injection H as <- <-; apply Hno; discriminate).
    inv_bind H as persons Hp. inv_bind H as v Hv.
    destruct v as [ids|r].
    + inv_bind H as rels Hr. inv_bind H as w Hw.
      destruct w as [u|r]; injection H as <- <-; [auto|].
      apply Hno. apply check_each_Reject in Hw as (s & x & _ & Hx).
      apply validate_relationship_Reject in Hx as [->|[t ->]]; discriminate.
    + injection H as <- <-. apply Hno.
      apply check_each_Reject in Hv as (s & x & _ & Hx).
      eapply validate_person_Reject. exact Hx.
  - unfold validate_pedigree in H. destruct p; try discriminate.
    destruct (dict_get "people" d), (dict_get "relationships" d); try discriminate.
    apply bind_Raise in H as [H|(persons & _ & H)].
    { left. eapply py_iter_Raise. exact H. }
    apply bind_Raise in H as [H|(v & _ & H)].
    { left. apply check_each_Raise in H as (s & x & _ & H).
      eapply validate_person_Raise. exact H. }
    destruct v as [ids|r]; [|discriminate].
    apply bind_Raise in H as [H|(rels & _ & H)].
    { left. eapply py_iter_Raise. exact H. }
    apply bind_Raise in H as [H|(w & _ & H)].
    { apply check_each_Raise in H as (s & x & _ & H).
      eapply validate_relationship_Raise. exact H. }
    destruct w; discriminate.
Qed.

(** X2.  [validate_pedigree] returns [(True, None)] or [(False, message)],
    never a verdict without its message or a message with [True]; when it
    raises instead of returning, the exception is a [TypeError] or an
    [AttributeError], never a [KeyError]: every subscript it evaluates is
    guarded by a test on the keys. *)
Theorem X2_validate_verdict_and_exceptions (strptime : string -> bool) (p : json) :
  match validate_pedigree strptime p with
  | Ok (ok, err) =>
      (ok = true /\ err = None) \/ (ok = false /\ exists r, err = Some r)
  | Raise e => e = TypeError \/ e = AttributeError
  end.
Proof.
  pose proof (validate_pedigree_outcome strptime p) as H.
  destruct (validate_pedigree strptime p) as [[ok err]|e]; [|exact H].
  destruct H as [H|[Hok (r & Hr & _)]]; [left; exact H|right; eauto].
Qed.

(** With the limit and every copy allowed, the entry point is the one
    without the limit. *)
Lemma load_json_payload_limited_agrees strptime loads fits text parsed :
  loads text = inr parsed -> copyable fits parsed = true ->
  load_json_payload_limited strptime loads fits text
  = load_json_payload strptime loads text.
Proof.
  intros Hl Hc. unfold load_json_payload_limited, load_json_payload. rewrite Hl.
  pose proof (normalize_pedigree_limited_spec fits parsed) as H.
  rewrite Hc in H. rewrite H. reflexivity.
Qed.

(** X3.  What [load_json_payload] returns has passed validation; when it
    raises, the exception is a [PedigreeValidationError] with one of the
    validator's messages or the parser's diagnostic (the fallback text
    "Unknown validation error" never occurs), an [AttributeError], a
    [TypeError], the [RecursionError] of [copy.deepcopy], or what
    [json.loads] raised other than [JSONDecodeError]. *)
Theorem X3_load_json_payload_outcomes
    (strptime : string -> bool) (loads : string -> loads_failure + json)
    (fits : json -> bool) (text : string) :
  match load_json_payload_limited strptime loads fits text with
  | Ok n => validate_pedigree strptime n = Ok (true, None)
  | Raise e =>
      (exists r, e = PedigreeValidationError r /\ r <> UnknownValidationError)
      \/ e = AttributeError \/ e = TypeError \/ e = RecursionError
      \/ loads text = inl (LoadsRaises e)
  end.
Proof.
  unfold load_json_payload_limited.
  destruct (loads text) as [[diag|e]|parsed] eqn:Hl.
  { left. eexists. split; [reflexivity|discriminate]. }
  { do 4 right. reflexivity. }
  pose proof (normalize_pedigree_limited_spec fits parsed) as Hn.
  destruct (copyable fits parsed).
  2:{ destruct Hn as (e & -> & [->| ->]); cbn [bind]; auto. }
  rewrite Hn.
  destruct (normalize_pedigree parsed) as [m|e] eqn:Hm; cbn [bind].
  2:{ destruct (normalize_pedigree_Raise _ _ Hm) as [->| ->]; auto. }
  pose proof (validate_pedigree_outcome strptime m) as Hv.
  destruct (validate_pedigree strptime m) as [[ok err]|e'] eqn:Hval; cbn [bind].
  - destruct Hv as [[-> ->]|[-> (r & -> & Hr)]]; cbn [negb default].
    + exact Hval.
    + left. exists r. split; [reflexivity|exact Hr].
  - destruct Hv as [->| ->]; auto.
Qed.

(** ** Repairing the ids *)

Lemma forallb_is_dict_false items :
  forallb is_dict items = false -> forall i, ensure_unique_ids_from i items = Raise TypeError.
Proof.
  intros H i. destruct (ensure_unique_ids_from i items) as [ps|e] eqn:E.
  - exfalso. apply ensure_unique_ids_from_Ok in E as [Hlen Hall].
    assert (Ht : forallb is_dict items = true); [|congruence].
    apply forallb_is_dict, List.Forall_forall. intros x Hx.
    apply list_elem_of_In, list_elem_of_lookup in Hx as [k Hk].
    destruct (lookup_lt_is_Some_2 ps k) as [p Hp].
    { rewrite Hlen. eapply lookup_lt_Some. exact Hk. }
    destruct (Hall k p Hp) as (d' & Hd' & _). rewrite Hk in Hd'.
    injection Hd' as ->. eauto.
  - f_equal. eapply ensure_unique_ids_from_Raise. exact E.
Qed.

(** X4.  [ensure_unique_ids] on a list of mappings returns as many mappings:
    the one at position i (from 0) has the id i + 1, every other key keeps its
    value, and the keys keep their order, [id] coming last when it was
    missing.  On a list with an element that is not a mapping it raises
    [TypeError]. *)
Theorem X4_ensure_unique_ids_repairs_ids_only (people : list json) :
  if forallb is_dict people
  then exists repaired,
      ensure_unique_ids (JList people) = Ok repaired /\
      length repaired = length people /\
      forall (i : nat) d, people !! i = Some (JDict d) ->
        exists d', repaired !! i = Some (JDict d') /\
          dict_get "id" d' = Some (JInt (Z.of_nat i + 1)) /\
          (forall k, k <> "id" -> dict_get k d' = dict_get k d) /\
          dict_keys d' = if decide ("id" ∈ dict_keys d) then dict_keys d
                         else dict_keys d ++ ["id"]
  else ensure_unique_ids (JList people) = Raise TypeError.
Proof.
  destruct (forallb is_dict people) eqn:E.
  - apply forallb_is_dict in E.
    destruct (ensure_unique_ids_from_total people 1 E) as [ps Hps].
    exists ps. split; [exact Hps|].
    apply ensure_unique_ids_from_Ok in Hps as [Hlen Hall].
    split; [exact Hlen|]. intros i d Hi.
    destruct (lookup_lt_is_Some_2 ps i) as [p Hp].
    { rewrite Hlen. eapply lookup_lt_Some. exact Hi. }
    destruct (Hall i p Hp) as (d0 & Hd0 & ->). rewrite Hi in Hd0.
    injection Hd0 as <-. eexists. split; [exact Hp|].
    split; [|split].
    + rewrite dict_get_set_eq. do 2 f_equal. lia.
    + intros k Hk. apply dict_get_set_ne. exact Hk.
    + apply dict_keys_set.
  - unfold ensure_unique_ids. cbn [py_iter bind]. apply forallb_is_dict_false. exact E.
Qed.

(** ** Payloads without the top-level keys *)

(** X5.  A JSON object with neither [people] nor [relationships] is accepted
    by [load_json_payload], which returns the empty pedigree for it, although
    [validate_pedigree] itself rejects that object for its missing keys:
    normalisation runs first and supplies them. *)
Theorem X5_object_without_keys_loads_as_empty
    (strptime : string -> bool) (loads : string -> loads_failure + json)
    (text : string) (d : list (string * json)) :
  loads text = inr (JDict d) ->
  dict_get "people" d = None -> dict_get "relationships" d = None ->
  load_json_payload strptime loads text = Ok (JDict default_pedigree) /\
  validate_pedigree strptime (JDict d) = Ok (false, Some MissingTopLevelKeys).
Proof.
  intros Hl Hp Hr. split.
  - unfold load_json_payload, normalize_pedigree, ensure_unique_ids, dict_get_default.
    rewrite Hl, Hp, Hr. reflexivity.
  - unfold validate_pedigree. rewrite Hp. reflexivity.
Qed.

Lemma X5_object_without_keys_witness :
  load_json_payload strptime_ymd_ascii
    (loads_table [("{}", JDict [])]) "{}" = Ok (JDict default_pedigree) /\
  validate_pedigree strptime_ymd_ascii (JDict []) = Ok (false, Some MissingTopLevelKeys).
Proof.
  apply (X5_object_without_keys_loads_as_empty strptime_ymd_ascii
           (loads_table [("{}", JDict [])]) "{}" []); reflexivity.
Defined.

(** ** Renumbered people, relationships as they were *)

Lemma elem_of_sequential_ids (n : nat) (k : Z) :
  k ∈ sequential_ids n <-> 1 <= k <= Z.of_nat n.
Proof.
  unfold sequential_ids. rewrite list_elem_of_fmap. split.
  - intros (i & -> & Hi). apply list_elem_of_In, in_seq in Hi. lia.
  - intros Hk. exists (Z.to_nat (k - 1)). split; [lia|].
    apply list_elem_of_In, in_seq. lia.
Qed.

Lemma in_int_set_sequential n v k :
  as_integer v = Some k ->
  in_int_set v (sequential_ids n) = Ok (endpoint_in_range n v).
Proof.
  intros Hk. unfold in_int_set, endpoint_in_range.
  rewrite (as_integer_hashable _ _ Hk), Hk. f_equal.
  destruct (bool_decide (k ∈ sequential_ids n)) eqn:E.
  - apply bool_decide_eq_true, elem_of_sequential_ids in E.
    symmetry. apply andb_true_iff. split; apply Z.leb_le; lia.
  - apply bool_decide_eq_false in E. rewrite elem_of_sequential_ids in E.
    symmetry. apply andb_false_iff.
    destruct (Z.leb_spec 1 k); [right|left; reflexivity].
    apply Z.leb_gt. lia.
Qed.

Lemma well_formed_person_repaired strptime p z d i :
  well_formed_person strptime p z -> p = JDict d ->
  well_formed_person strptime (JDict (dict_set "id" (JInt i) d)) i.
Proof.
  intros (d0 & idv & n & g & dob & cs & -> & Hid & Hz & Hn & Hg & Hgin & Hd & Hdok & Hc)
         [= <-].
  exists (dict_set "id" (JInt i) d0), (JInt i), n, g, dob, cs.
  rewrite dict_get_set_eq, !dict_get_set_ne by discriminate.
  repeat split; assumption.
Qed.

Lemma repaired_people_well_formed strptime persons : forall ids i ps,
  Forall2 (well_formed_person strptime) persons ids ->
  ensure_unique_ids_from i persons = Ok ps ->
  Forall2 (well_formed_person strptime) ps
    (map (fun k : nat => i + Z.of_nat k) (seq 0 (length persons))).
Proof.
  induction persons as [|p persons IH]; intros ids i ps Hwf H; simpl in H.
  - injection H as <-. constructor.
  - inv_bind H as q Hq. inv_bind H as qs Hqs. injection H as <-.
    inversion Hwf as [|? z ? zs Hp Hrest]; subst.
    apply repair_person_Ok in Hq as (d & -> & ->).
    cbn [length seq map]. constructor.
    + rewrite Z.add_0_r. eapply well_formed_person_repaired; [exact Hp|reflexivity].
    + rewrite <- seq_shift, map_map.
      erewrite map_ext; [eapply IH; eassumption|].
      intros k. cbn beta. lia.
Qed.

Lemma validate_normalized_relationship n ids0 rel r :
  well_formed_relationship ids0 rel ->
  _normalize_relationship rel = Ok r ->
  validate_relationship (sequential_ids n) r =
    Ok (if relationship_in_range n rel then Continue tt else Reject UnknownPersonId).
Proof.
  intros (f & t & ty & kf & kt & Hn & Hf & _ & Ht & _ & Hty) Hr.
  rewrite Hn in Hr. injection Hr as <-.
  assert (Hrange : relationship_in_range n rel
                   = endpoint_in_range n f && endpoint_in_range n t).
  { unfold _normalize_relationship in Hn. destruct rel; try discriminate.
    destruct (dict_get_default "type" (JStr "") d); try discriminate.
    injection Hn as <- <- _. reflexivity. }
  rewrite Hrange.
  unfold validate_relationship.
  rewrite (normalize_relationship_idem _ _ Hn). cbn [bind py_getitem].
  change (dict_get "from" _) with (Some f).
  change (dict_get "to" _) with (Some t).
  change (dict_get "type" _) with (Some (JStr ty)).
  cbn [bind].
  rewrite (in_int_set_sequential n f kf Hf). cbn [bind].
  destruct (endpoint_in_range n f); cbn [negb andb]; [|reflexivity].
  rewrite (in_int_set_sequential n t kt Ht). cbn [bind].
  destruct (endpoint_in_range n t); cbn [negb]; [|reflexivity].
  unfold in_str_set. cbn [hashable bind].
  rewrite bool_decide_eq_true_2 by exact Hty. reflexivity.
Qed.

Lemma validate_normalized_relationships n ids0 rels : forall rs,
  Forall (well_formed_relationship ids0) rels ->
  map_result _normalize_relationship rels = Ok rs ->
  check_each (fun _ : unit => validate_relationship (sequential_ids n)) rs tt =
    Ok (if forallb (relationship_in_range n) rels
        then Continue tt else Reject UnknownPersonId).
Proof.
  induction rels as [|rel rels IH]; intros rs Hwf H; simpl in H.
  - injection H as <-. reflexivity.
  - inv_bind H as r Hr. inv_bind H as rs' Hrs. injection H as <-.
    apply Forall_cons in Hwf as [Hrel Hwf].
    cbn [check_each forallb].
    rewrite (validate_normalized_relationship n ids0 rel r Hrel Hr). cbn [bind].
    destruct (relationship_in_range n rel); cbn [andb]; [|reflexivity].
    apply IH; assumption.
Qed.

(** X6.  Normalisation renumbers the people 1..n but leaves the endpoints of
    the relationships as they are.  So for a payload whose parsed value passes
    validation, [load_json_payload] returns exactly when every relationship
    endpoint is among 1..n; otherwise it raises [PedigreeValidationError]
    with "Relationship references unknown person id". *)
Theorem X6_load_keeps_relationship_endpoints
    (strptime : string -> bool) (loads : string -> loads_failure + json)
    (text : string) (d : list (string * json)) (persons rels : list json) :
  loads text = inr (JDict d) ->
  validate_pedigree strptime (JDict d) = Ok (true, None) ->
  py_iter (dict_get_default "people" (JList []) d) = Ok persons ->
  py_iter (dict_get_default "relationships" (JList []) d) = Ok rels ->
  if forallb (relationship_in_range (length persons)) rels
  then exists n, load_json_payload strptime loads text = Ok n
  else load_json_payload strptime loads text
       = Raise (PedigreeValidationError UnknownPersonId).
Proof.
  intros Hl Hv Hpi Hri.
  destruct (valid_normalizes _ _ _ Hv) as [m Hm].
  apply validate_pedigree_true in Hv
    as (d0 & people & relationships & persons0 & ids & rels0
        & [= <-] & _ & Hp & Hr & Hpi0 & Hps & Hri0 & Hrs).
  unfold dict_get_default in Hpi, Hri. rewrite Hp in Hpi. rewrite Hr in Hri.
  rewrite Hpi in Hpi0. injection Hpi0 as <-.
  rewrite Hri in Hri0. injection Hri0 as <-.
  apply check_each_persons_wf in Hps as (ids' & Hwf & ->). simpl in Hrs.
  assert (Hrels : Forall (well_formed_relationship ids') rels).
  { eapply Forall_impl; [exact Hrs|]. intros rel [u Hu].
    eapply validate_relationship_Continue_wf. exact Hu. }
  pose proof Hm as Hm'.
  apply normalize_pedigree_Ok in Hm'
    as (d1 & items & ps & rels1 & rs & [= <-] & Hi1 & Hps1 & Hr1 & Hrs1 & ->).
  unfold dict_get_default in Hi1, Hr1. rewrite Hp in Hi1. rewrite Hr in Hr1.
  rewrite Hpi in Hi1. injection Hi1 as <-.
  rewrite Hri in Hr1. injection Hr1 as <-.
  pose proof (repaired_people_well_formed _ _ _ _ _ Hwf Hps1) as Hwf1.
  assert (Hseq : map (fun k : nat => 1 + Z.of_nat k) (seq 0 (length persons))
                 = sequential_ids (length persons)).
  { unfold sequential_ids. apply map_ext. intros k. lia. }
  rewrite Hseq in Hwf1.
  pose proof (check_each_persons_accepts strptime _ _ [] Hwf1) as Hloop.
  cbn [app] in Hloop.
  pose proof (validate_normalized_relationships (length persons) _ _ _ Hrels Hrs1)
    as Hloop2.
  unfold load_json_payload. rewrite Hl, Hm. cbn [bind].
  unfold validate_pedigree.
  change (dict_get "people" _) with (Some (JList ps)).
  change (dict_get "relationships" _) with (Some (JList rs)).
  cbn [py_iter bind]. rewrite Hloop. cbn [bind]. rewrite Hloop2. cbn [bind].
  destruct (forallb (relationship_in_range (length persons)) rels); cbn; eauto.
Qed.

(** X6 at work: the people carry the ids 7 and 9, which validation accepts;
    after renumbering the relationship from 7 to 9 refers to nobody. *)
Lemma X6_load_keeps_relationship_endpoints_witness :
  validate_pedigree strptime_ymd_ascii sparse_ids_payload = Ok (true, None) /\
  load_json_payload strptime_ymd_ascii
    (loads_table [("payload", sparse_ids_payload)]) "payload"
  = Raise (PedigreeValidationError UnknownPersonId).
Proof.
  split; [vm_compute; reflexivity|].
  refine (X6_load_keeps_relationship_endpoints strptime_ymd_ascii
            (loads_table [("payload", sparse_ids_payload)]) "payload"
            [("people", JList sparse_people);
             ("relationships", JList sparse_relationships)]
            sparse_people sparse_relationships _ _ _ _);
    vm_compute; reflexivity.
Defined.

(** ** Normalising a relationship *)

Lemma str_lower_strip_lower (t : string) :
  str_lower (str_strip (str_lower t)) = str_strip (str_lower t).
Proof.
  unfold str_strip, str_lower.
  rewrite !list_ascii_of_string_of_list_ascii. f_equal.
  rewrite strip_list_lower, map_map.
  apply map_ext. intros c. apply lower_char_idem.
Qed.

Lemma str_strip_idem (t : string) : str_strip (str_strip t) = str_strip t.
Proof.
  unfold str_strip. rewrite list_ascii_of_string_of_list_ascii, strip_list_idem.
  reflexivity.
Qed.

(** X7.  What [_normalize_relationship] returns is a mapping with exactly the
    keys [from], [to] and [type], in this order, whose type is a string with
    no upper-case ASCII letter and no white space at either end; normalising
    it again returns it unchanged. *)
Theorem X7_normalize_relationship_fixed_point (raw r : json) :
  _normalize_relationship raw = Ok r ->
  exists f t ty,
    r = JDict [("from", f); ("to", t); ("type", JStr ty)] /\
    str_lower ty = ty /\ str_strip ty = ty /\
    _normalize_relationship r = Ok r.
Proof.
  intros H. pose proof (normalize_relationship_idem _ _ H) as Hidem.
  apply normalize_relationship_Ok in H as (f & t & ty & ->).
  exists f, t, (str_strip (str_lower ty)).
  split; [reflexivity|]. split; [apply str_lower_strip_lower|].
  split; [apply str_strip_idem|exact Hidem].
Qed.

Lemma X7_normalize_relationship_fixed_point_witness :
  exists f t ty,
    JDict [("from", JInt 1); ("to", JInt 2); ("type", JStr "spouse")]
      = JDict [("from", f); ("to", t); ("type", JStr ty)] /\
    str_lower ty = ty /\ str_strip ty = ty /\
    _normalize_relationship
      (JDict [("from", JInt 1); ("to", JInt 2); ("type", JStr "spouse")])
    = Ok (JDict [("from", JInt 1); ("to", JInt 2); ("type", JStr "spouse")]).
Proof.
  apply (X7_normalize_relationship_fixed_point
           (JDict [("from_id", JInt 1); ("to", JInt 2); ("type", JStr " Spouse ")])).
  vm_compute. reflexivity.
Defined.



(** ** GEDCOM export *)

Section GedcomFacts.
Variable repr : json -> string.

Lemma fold_gedcom_condition items : forall lines,
  fold_left (gedcom_condition repr) items lines =
  lines ++ flat_map (fun c => ["1 NOTE"; "2 CONT Condition: " +:+ format_json repr c]) items.
Proof.
  induction items as [|c items IH]; intros lines; simpl.
  - rewrite app_nil_r. reflexivity.
  - rewrite IH. unfold gedcom_condition. rewrite <- app_assoc. reflexivity.
Qed.

Lemma in_str_set_Ok v names b :
  in_str_set v names = Ok b ->
  b = match v with JStr s => bool_decide (s ∈ names) | _ => false end.
Proof.
  unfold in_str_set. destruct v; cbn [hashable]; try discriminate; congruence.
Qed.

Lemma py_getitem_Ok v k x :
  py_getitem v k = Ok x -> exists d, v = JDict d /\ dict_get k d = Some x.
Proof.
  unfold py_getitem. destruct v; try discriminate.
  destruct (dict_get k d) eqn:E; [|discriminate]. intros [= <-]. eauto.
Qed.

Lemma sex_text_line (sex : json) (known : bool) d :
  dict_get_default "gender" (JStr "O") d = sex ->
  known = match sex with JStr s => bool_decide (s ∈ ["M"; "F"]) | _ => false end ->
  "1 SEX " +:+ (if known then format_json repr sex else "U") = sex_line (JDict d).
Proof.
  intros Hs ->. unfold sex_line. rewrite Hs. destruct sex; try reflexivity.
  destruct (decide (s = "M")) as [->|HM]; [reflexivity|].
  destruct (decide (s = "F")) as [->|HF]; [reflexivity|].
  rewrite bool_decide_eq_false_2; [reflexivity|].
  intros Hin. apply list_elem_of_In in Hin. simpl in Hin. intuition congruence.
Qed.

Lemma gedcom_person_Ok lines person lines' :
  gedcom_person repr lines person = Ok lines' ->
  exists d id name cs,
    person = JDict d /\ dict_get "id" d = Some id /\ dict_get "name" d = Some name /\
    py_iter (dict_get_default "conditions" (JList []) d) = Ok cs /\
    lines' = lines ++
      ["0 @I" +:+ format_json repr id +:+ "@ INDI";
       "1 NAME " +:+ format_json repr name;
       sex_line person;
       "1 BIRT";
       "2 DATE " +:+ format_json repr (dict_get_default "dob" (JStr "approx") d)]
      ++ flat_map (fun c => ["1 NOTE"; "2 CONT Condition: " +:+ format_json repr c]) cs.
Proof.
  unfold gedcom_person. intros H.
  inv_bind H as id Hid. apply py_getitem_Ok in Hid as (d & -> & Hid).
  inv_bind H as name Hname. apply py_getitem_Ok in Hname as (d' & [= <-] & Hname).
  cbn [py_get bind] in H.
  inv_bind H as known Hknown. apply in_str_set_Ok in Hknown.
  inv_bind H as cs Hcs. injection H as <-.
  exists d, id, name, cs. repeat split; try assumption.
  rewrite fold_gedcom_condition.
  rewrite (sex_text_line _ known d eq_refl Hknown).
  rewrite <- !app_assoc. reflexivity.
Qed.

Lemma gedcom_person_total strptime lines person z :
  well_formed_person strptime person z ->
  exists lines', gedcom_person repr lines person = Ok lines'.
Proof.
  intros (d & idv & n & g & dob & cs & -> & Hid & Hz & Hn & Hg & Hgin & Hd & Hdok & Hc).
  unfold gedcom_person, py_getitem, py_get, dict_get_default.
  rewrite Hid, Hn, Hg, Hd, Hc. cbn [bind in_str_set hashable py_iter]. eauto.
Qed.

Lemma sex_line_is_sex_line person : is_sex_line (sex_line person) = true.
Proof.
  unfold sex_line. destruct person; try reflexivity.
  destruct (dict_get_default "gender" (JStr "O") d); try reflexivity.
  repeat case_decide; reflexivity.
Qed.

Lemma sex_line_not_family person : is_family_line (sex_line person) = false.
Proof.
  unfold sex_line. destruct person; try reflexivity.
  destruct (dict_get_default "gender" (JStr "O") d); try reflexivity.
  repeat case_decide; reflexivity.
Qed.

Lemma filter_conditions (f : string -> bool) cs :
  f "1 NOTE" = false ->
  (forall c, f ("2 CONT Condition: " +:+ c) = false) ->
  List.filter f
    (flat_map (fun c => ["1 NOTE"; "2 CONT Condition: " +:+ format_json repr c]) cs)
  = [].
Proof.
  intros H1 H2. induction cs as [|c cs IH]; [reflexivity|].
  cbn [flat_map app List.filter]. rewrite H1, H2. exact IH.
Qed.

Lemma length_conditions cs :
  length (flat_map (fun c => ["1 NOTE"; "2 CONT Condition: " +:+ format_json repr c]) cs)
  = (2 * length cs)%nat.
Proof. induction cs as [|c cs IH]; simpl in *; lia. Qed.

Lemma people_lines persons : forall lines lines',
  for_each (gedcom_person repr) persons lines = Ok lines' ->
  exists ext,
    lines' = lines ++ ext /\
    length ext = sum_list (map person_line_count persons) /\
    List.filter is_family_line ext = [] /\
    List.filter is_sex_line ext = map sex_line persons.
Proof.
  induction persons as [|p persons IH]; intros lines lines' H; simpl in H.
  - injection H as <-. exists []. rewrite app_nil_r. repeat split.
  - inv_bind H as lines1 H1.
    apply gedcom_person_Ok in H1 as (d & id & name & cs & -> & Hid & Hname & Hcs & ->).
    destruct (IH _ _ H) as (ext & -> & Hlen & HF & HS).
    eexists. split; [rewrite <- !app_assoc; reflexivity|].
    split; [|split].
    + rewrite !length_app, length_conditions, Hlen. cbn [map sum_list_with sum_list].
      assert (Hcount : person_line_count (JDict d) = (5 + 2 * length cs)%nat)
        by (unfold person_line_count; rewrite Hcs; reflexivity).
      unfold Datatypes.id. rewrite Hcount. simpl. lia.
    + rewrite !List.filter_app, HF, filter_conditions by reflexivity.
      cbn [List.filter]. rewrite sex_line_not_family. reflexivity.
    + rewrite !List.filter_app, HS, filter_conditions by reflexivity.
      cbn [List.filter]. rewrite sex_line_is_sex_line. reflexivity.
Qed.

Lemma gedcom_family_Ok lines i rel lines' i' :
  gedcom_family repr (lines, i) rel = Ok (lines', i') ->
  exists block,
    lines' = lines ++ block /\
    List.filter is_sex_line block = [] /\
    if is_family_type rel
    then List.filter is_family_line block = [family_header i] /\
         length block = 3%nat /\ i' = i + 1
    else block = [] /\ i' = i.
Proof.
  unfold gedcom_family. intros H.
  inv_bind H as ty Hty. unfold py_get in Hty. destruct rel; try discriminate.
  injection Hty as <-.
  inv_bind H as fam Hfam. apply in_str_set_Ok in Hfam.
  unfold is_family_type. destruct (dict_get_default "type" (JStr "") d) as [| | | |t| |];
    try (subst fam; injection H as <- <-; exists []; rewrite app_nil_r; auto).
  rewrite <- Hfam. destruct fam.
  - symmetry in Hfam. apply bool_decide_eq_true in Hfam.
    inv_bind H as lines2 H2. injection H as <- <-.
    assert (Hblock : forall tag1 tag2 from to,
              is_sex_line (tag1 +:+ format_json repr from +:+ "@") = false ->
              is_family_line (tag1 +:+ format_json repr from +:+ "@") = false ->
              is_sex_line (tag2 +:+ format_json repr to +:+ "@") = false ->
              is_family_line (tag2 +:+ format_json repr to +:+ "@") = false ->
              exists block,
                ((lines ++ [family_header i])
                   ++ [tag1 +:+ format_json repr from +:+ "@"])
                  ++ [tag2 +:+ format_json repr to +:+ "@"] = lines ++ block /\
                List.filter is_sex_line block = [] /\
                List.filter is_family_line block = [family_header i] /\
                length block = 3%nat /\ i + 1 = i + 1).
    { intros tag1 tag2 from to Hs1 Hf1 Hs2 Hf2.
      eexists. split; [rewrite <- !app_assoc; reflexivity|].
      cbn [app List.filter length]. rewrite Hs1, Hf1, Hs2, Hf2.
      change (is_sex_line (family_header i)) with false.
      assert (Hh : is_family_line (family_header i) = true)
        by (apply prefix_spec; eexists; reflexivity).
      rewrite Hh. repeat split. }
    apply list_elem_of_In in Hfam. simpl in Hfam.
    destruct Hfam as [<-|[<-|[<-|[]]]]; cbn [decide] in H2;
      (repeat (rewrite decide_False in H2 by discriminate));
      rewrite decide_True in H2 by reflexivity;
      inv_bind H2 as from Hfrom; inv_bind H2 as to Hto; injection H2 as <-;
      apply Hblock; reflexivity.
  - injection H as <- <-. exists []. rewrite app_nil_r. auto.
Qed.

Lemma gedcom_family_total st f t ty :
  exists st',
    gedcom_family repr st (JDict [("from", f); ("to", t); ("type", JStr ty)]) = Ok st'.
Proof.
  destruct st as [lines i]. unfold gedcom_family, py_get.
  change (dict_get_default "type" (JStr "") _) with (JStr ty).
  cbn [bind in_str_set hashable].
  destruct (bool_decide (ty ∈ ["spouse"; "parent"; "child"])); [|eauto].
  cbn [py_getitem].
  change (dict_get "from" _) with (Some f). change (dict_get "to" _) with (Some t).
  repeat case_decide; cbn [bind]; eauto.
Qed.

Lemma family_lines rels : forall lines i lines' i',
  for_each (gedcom_family repr) rels (lines, i) = Ok (lines', i') ->
  exists ext,
    lines' = lines ++ ext /\
    length ext = (3 * length (List.filter is_family_type rels))%nat /\
    List.filter is_sex_line ext = [] /\
    List.filter is_family_line ext =
      map (fun k : nat => family_header (i + Z.of_nat k))
        (seq 0 (length (List.filter is_family_type rels))).
Proof.
  induction rels as [|rel rels IH]; intros lines i lines' i' H; simpl in H.
  - injection H as <- <-. exists []. rewrite app_nil_r. repeat split.
  - inv_bind H as st1 H1. destruct st1 as [lines1 i1].
    apply gedcom_family_Ok in H1 as (block & -> & HS & Hfam).
    destruct (IH _ _ _ _ H) as (ext & -> & Hlen & HS' & HF').
    exists (block ++ ext). split; [rewrite app_assoc; reflexivity|].
    cbn [List.filter]. destruct (is_family_type rel).
    + destruct Hfam as (HF & Hb & ->).
      rewrite !List.filter_app, HS, HS', HF, HF', length_app, Hb, Hlen.
      cbn [length seq map app]. repeat split; [lia|].
      rewrite Z.add_0_r. f_equal. rewrite <- seq_shift, map_map.
      apply map_ext. intros k. f_equal. lia.
    + destruct Hfam as (-> & ->). cbn [app]. auto.
Qed.

Lemma to_gedcom_lines_Ok p lines :
  to_gedcom_lines repr p = Ok lines ->
  exists d persons rels body,
    p = JDict d /\
    py_iter (dict_get_default "people" (JList []) d) = Ok persons /\
    py_iter (dict_get_default "relationships" (JList []) d) = Ok rels /\
    lines = ["0 HEAD"; "1 GEDC"; "2 VERS 5.5"] ++ body ++ ["0 TRLR"] /\
    length body = (sum_list (map person_line_count persons)
                   + 3 * length (List.filter is_family_type rels))%nat /\
    List.filter is_sex_line body = map sex_line persons /\
    List.filter is_family_line body =
      map (fun k : nat => family_header (1 + Z.of_nat k))
        (seq 0 (length (List.filter is_family_type rels))).
Proof.
  unfold to_gedcom_lines. intros H.
  inv_bind H as people Hp. unfold py_get in Hp. destruct p; try discriminate.
  injection Hp as <-.
  inv_bind H as persons Hpersons. inv_bind H as lines1 H1.
  cbn [py_get bind] in H. inv_bind H as rels Hrels. inv_bind H as st Hst.
  injection H as <-. destruct st as [lines2 i2].
  apply people_lines in H1 as (ext1 & -> & Hlen1 & HF1 & HS1).
  apply family_lines in Hst as (ext2 & -> & Hlen2 & HS2 & HF2).
  exists d, persons, rels, (ext1 ++ ext2). cbn [fst].
  split; [reflexivity|]. split; [exact Hpersons|]. split; [exact Hrels|].
  split; [rewrite <- !app_assoc; reflexivity|].
  rewrite length_app, !List.filter_app, Hlen1, Hlen2, HF1, HS1, HS2, HF2, app_nil_r.
  repeat split.
Qed.

Lemma people_total strptime persons ids : forall lines,
  Forall2 (well_formed_person strptime) persons ids ->
  exists lines', for_each (gedcom_person repr) persons lines = Ok lines'.
Proof.
  intros lines H. revert lines.
  induction H as [|p z ps zs Hp _ IH]; intros lines; simpl; [eauto|].
  destruct (gedcom_person_total strptime lines p z Hp) as [lines1 ->]. cbn [bind].
  apply IH.
Qed.

Lemma families_total rels : forall st,
  Forall (fun r => exists f t ty,
            r = JDict [("from", f); ("to", t); ("type", JStr ty)]) rels ->
  exists st', for_each (gedcom_family repr) rels st = Ok st'.
Proof.
  induction rels as [|r rels IH]; intros st H; simpl; [eauto|].
  apply Forall_cons in H as [(f & t & ty & ->) H].
  destruct (gedcom_family_total st f t ty) as [st1 ->]. cbn [bind]. auto.
Qed.

Lemma valid_people_well_formed strptime d people persons :
  validate_pedigree strptime (JDict d) = Ok (true, None) ->
  dict_get "people" d = Some people -> py_iter people = Ok persons ->
  exists ids, Forall2 (well_formed_person strptime) persons ids.
Proof.
  intros Hv Hp Hi. apply validate_pedigree_true in Hv
    as (d0 & people0 & relationships & persons0 & ids & rels
        & [= <-] & _ & Hp0 & _ & Hpi & Hps & _).
  rewrite Hp in Hp0. injection Hp0 as <-. rewrite Hi in Hpi. injection Hpi as <-.
  apply check_each_persons_wf in Hps as (ids' & Hall & _). eauto.
Qed.
End GedcomFacts.

(** X11.  [to_gedcom] reads the endpoints of a relationship under the keys
    [from] and [to] only.  On a pedigree that [validate_pedigree] accepts but
    whose first relationship is of type spouse, parent or child and names its
    source under [from_id], it raises [KeyError]. *)
Theorem X11_to_gedcom_alias_keys_KeyError
    (strptime : string -> bool) (repr : json -> string)
    (d r : list (string * json)) (rels : list json) :
  validate_pedigree strptime (JDict d) = Ok (true, None) ->
  py_iter (dict_get_default "relationships" (JList []) d) = Ok (JDict r :: rels) ->
  is_family_type (JDict r) = true ->
  dict_get "from" r = None ->
  to_gedcom repr (JDict d) = Raise KeyError.
Proof.
  intros Hv Hrels Hfam Hfrom.
  pose proof Hv as Hv'. apply validate_pedigree_true in Hv'
    as (d0 & people & relationships & persons & ids & rels0
        & [= <-] & _ & Hp & _ & Hpi & _).
  destruct (valid_people_well_formed strptime d people persons Hv Hp Hpi) as [ids' Hwf].
  destruct (people_total repr strptime persons ids' ["0 HEAD"; "1 GEDC"; "2 VERS 5.5"] Hwf)
    as [lines1 H1].
  assert (Hpd : dict_get_default "people" (JList []) d = people)
    by (unfold dict_get_default; rewrite Hp; reflexivity).
  unfold to_gedcom, to_gedcom_lines, py_get. cbn [bind].
  rewrite Hpd, Hpi. cbn [bind]. rewrite H1. cbn [bind].
  rewrite Hrels. cbn [bind for_each gedcom_family py_get].
  unfold is_family_type in Hfam.
  destruct (dict_get_default "type" (JStr "") r) as [| | | |t| |]; try discriminate.
  cbn [bind in_str_set hashable]. rewrite Hfam.
  apply bool_decide_eq_true, list_elem_of_In in Hfam. simpl in Hfam.
  unfold py_getitem. rewrite Hfrom.
  destruct Hfam as [<-|[<-|[<-|[]]]]; reflexivity.
Qed.

Lemma X11_to_gedcom_alias_keys_KeyError_witness :
  validate_pedigree strptime_ymd_ascii alias_keys_payload = Ok (true, None) /\
  to_gedcom (fun _ => "") alias_keys_payload = Raise KeyError.
Proof.
  split; [vm_compute; reflexivity|].
  refine (X11_to_gedcom_alias_keys_KeyError strptime_ymd_ascii (fun _ => "")
            [("people", JList sparse_people);
             ("relationships", JList alias_relationships)]
            [("from_id", JInt 7); ("to_id", JInt 9); ("type", JStr "spouse")] []
            _ _ _ _); vm_compute; reflexivity.
Defined.



(** ** The map from conditions to people *)

Lemma dict_append_get key x mapping c :
  dict_get_default c [] (dict_append key x mapping) =
  dict_get_default c [] mapping ++ (if decide (key = c) then [x] else []).
Proof.
  unfold dict_append. rewrite dict_get_default_set.
  destruct (decide (c = key)) as [->|Hne].
  - rewrite decide_True by reflexivity. reflexivity.
  - rewrite decide_False by congruence. rewrite app_nil_r. reflexivity.
Qed.

Lemma fold_conditions_get (i : Z) c conds : forall mapping,
  dict_get_default c []
    (fold_left (fun mapping condition => dict_append (str_lower condition) i mapping)
       conds mapping) =
  dict_get_default c [] mapping ++
  flat_map (fun cond => if decide (str_lower cond = c) then [i] else []) conds.
Proof.
  induction conds as [|cond conds IH]; intros mapping; simpl.
  - rewrite app_nil_r. reflexivity.
  - rewrite IH, dict_append_get, <- app_assoc. reflexivity.
Qed.

(** X12.  [_condition_to_people] groups the people by the lower-cased text of
    their conditions: the list for a condition holds, in the order of the
    people, the id of a person once for each of its conditions that equals
    the condition up to case. *)
Theorem X12_condition_map_groups_by_lowercase (ped : Pedigree) (c : string) :
  affected ped c =
  flat_map (fun p =>
              flat_map (fun cond => if decide (str_lower cond = c) then [id p] else [])
                (conditions p))
    (people ped).
Proof.
  unfold affected, _condition_to_people.
  change (flat_map _ (people ped)) with
    (dict_get_default c [] ([] : list (string * list Z)) ++
     flat_map (fun p => flat_map (fun cond => if decide (str_lower cond = c)
                                             then [id p] else []) (conditions p))
       (people ped)).
  generalize ([] : list (string * list Z)).
  induction (people ped) as [|p ps IH]; intros mapping; simpl.
  - rewrite app_nil_r. reflexivity.
  - rewrite IH, fold_conditions_get, <- app_assoc. reflexivity.
Qed.

(** ** The flags are sorted *)








(** ** Dictionaries filled in a loop *)

Lemma last_cons_filter {A} (x : A) (l : list A) :
  last (x :: l) = match last l with Some y => Some y | None => Some x end.
Proof. destruct l as [|y l]; [reflexivity|]. rewrite last_cons. reflexivity. Qed.

Lemma fold_dict_set_get {A K V} `{EqDecision K} (key : A -> K) (val : A -> V)
    (xs : list A) (k : K) : forall d,
  dict_get k (fold_left (fun d x => dict_set (key x) (val x) d) xs d) =
  match last (filter (fun x => key x = k) xs) with
  | Some x => Some (val x)
  | None => dict_get k d
  end.
Proof.
  induction xs as [|x xs IH]; intros d; simpl; [reflexivity|].
  rewrite IH. rewrite filter_cons. case_decide as E.
  - rewrite last_cons_filter.
    destruct (last (filter _ xs)); [reflexivity|].
    rewrite <- E, dict_get_set_eq. reflexivity.
  - destruct (last (filter _ xs)); [reflexivity|].
    apply dict_get_set_ne. congruence.
Qed.

Lemma fold_dict_set_keys {A K V} `{EqDecision K} (key : A -> K) (val : A -> V)
    (xs : list A) : forall d,
  NoDup (dict_keys d) ->
  NoDup (dict_keys (fold_left (fun d x => dict_set (key x) (val x) d) xs d)) /\
  forall k, k ∈ dict_keys (fold_left (fun d x => dict_set (key x) (val x) d) xs d)
            <-> k ∈ dict_keys d \/ k ∈ map key xs.
Proof.
  induction xs as [|x xs IH]; intros d Hd; simpl.
  - split; [exact Hd|]. intros k. rewrite elem_of_nil. tauto.
  - destruct (IH (dict_set (key x) (val x) d) (dict_set_NoDup _ _ _ Hd)) as [H1 H2].
    split; [exact H1|]. intros k. rewrite H2, dict_keys_set_elem, elem_of_cons. tauto.
Qed.

Lemma dict_get_is_Some {K V} `{EqDecision K} (k : K) (d : list (K * V)) :
  is_Some (dict_get k d) <-> k ∈ dict_keys d.
Proof.
  split.
  - intros [v Hv]. induction d as [|[k' v'] d IH]; simpl in *; [discriminate|].
    destruct (decide (k = k')) as [->|]; [left|right; auto].
  - intros H. destruct (dict_get_keys k d H) as [v Hv]. eauto.
Qed.

(** ** What the built-in traversal reports *)

Section Pairs.
Variable order : Z -> list Z -> list Z.
Hypothesis order_perm : forall u l, order u l ≡ₚ l.
Variable adj : list (Z * list Z).
Variable E : Z -> Z -> Prop.
Hypothesis Hadj : adj_ok E adj.

Lemma visit_neighbour_pairs cur par parent stack cycles nbr :
  E cur nbr -> Forall (edge_pair E) cycles ->
  Forall (edge_pair E) (visit_neighbour cur par (parent, stack, cycles) nbr).2.
Proof using Type.
  intros He Hc. unfold visit_neighbour.
  destruct (decide (Some nbr = par)); [exact Hc|].
  destruct (decide (is_Some (parent !! nbr))); [|exact Hc]. simpl.
  apply Forall_app. split; [exact Hc|]. repeat constructor. exists cur, nbr. auto.
Qed.

Lemma fold_visit_pairs cur par ns : forall parent stack cycles,
  (forall n, n ∈ ns -> E cur n) -> Forall (edge_pair E) cycles ->
  Forall (edge_pair E)
    (fold_left (visit_neighbour cur par) ns (parent, stack, cycles)).2.
Proof using Type.
  induction ns as [|n ns IH]; intros parent stack cycles Hns Hc; cbn [fold_left];
    [exact Hc|].
  pose proof (visit_neighbour_pairs cur par parent stack cycles n
                (Hns n (list_elem_of_here _ _)) Hc) as H1.
  destruct (visit_neighbour cur par (parent, stack, cycles) n)
    as [[parent1 stack1] cycles1].
  apply IH; [|exact H1]. intros m Hm. apply Hns. right. exact Hm.
Qed.

Lemma dfs_loop_pairs fuel : forall stack parent visited cycles r,
  Forall (edge_pair E) cycles ->
  dfs_loop order fuel adj stack parent visited cycles = Some r ->
  Forall (edge_pair E) r.2.
Proof using order_perm Hadj.
  induction fuel as [|fuel IH]; intros stack parent visited cycles r Hc H.
  - destruct stack as [|[cur par] stack]; [|discriminate].
    injection H as <-. exact Hc.
  - destruct stack as [|[cur par] stack]; [injection H as <-; exact Hc|].
    cbn [dfs_loop] in H. destruct (decide (cur ∈ visited)); [eauto|].
    destruct (dict_get cur adj) as [nbrs|] eqn:Hget; [|discriminate].
    pose proof (fold_visit_pairs cur par (order cur nbrs) parent stack cycles) as H1.
    destruct (fold_left _ _ _) as [[parent1 stack1] cycles1].
    eapply IH; [|exact H]. apply H1; [|exact Hc].
    intros m Hm. rewrite order_perm in Hm. destruct Hadj as (Hedge & _).
    apply Hedge. unfold dict_get_default. rewrite Hget. exact Hm.
Qed.

Lemma roots_loop_pairs fuel nodes : forall visited cycles r,
  Forall (edge_pair E) cycles ->
  roots_loop order fuel adj nodes visited cycles = Some r ->
  Forall (edge_pair E) r.
Proof using order_perm Hadj.
  induction nodes as [|node nodes IH]; intros visited cycles r Hc H;
    cbn [roots_loop] in H.
  - injection H as <-. exact Hc.
  - destruct (decide (node ∈ visited)); [eauto|].
    destruct (dfs_loop order fuel adj [(node, None)] {[node := None]} visited cycles)
      as [[visited' cycles']|] eqn:Hd; [|discriminate].
    apply dfs_loop_pairs in Hd; [|exact Hc]. eauto.
Qed.
End Pairs.

Lemma total_cycle_nodes_pairs E cycles :
  Forall (edge_pair E) cycles ->
  total_cycle_nodes cycles = 2 * Z.of_nat (length cycles).
Proof.
  induction 1 as [|c cs (a & b & -> & _) _ IH]; [reflexivity|].
  cbn [total_cycle_nodes fold_right length] in *.
  change (fold_right _ 0 cs) with (total_cycle_nodes cs). lia.
Qed.

(** X16.  What [_build_cycle_basis_fallback] returns are not cycles: whatever
    the order in which the adjacency sets are enumerated, each item of the
    result is a list of two nodes that are joined by an edge.  The number
    that [estimate_inbreeding] then takes for the total of the cycle lengths
    is therefore twice the number of items. *)
Theorem X16_fallback_reports_edges (order : Z -> list Z -> list Z)
    (g : _FallbackDiGraph) :
  (forall u l, order u l ≡ₚ l) ->
  exists cycles,
    _build_cycle_basis_fallback order g = Some cycles /\
    Forall (edge_pair (uedge g)) cycles /\
    total_cycle_nodes cycles = 2 * Z.of_nat (length cycles).
Proof.
  intros Hp. destruct (build_cycle_basis_total order g Hp) as [cycles Hc].
  exists cycles. split; [exact Hc|].
  assert (Hpairs : Forall (edge_pair (uedge g)) cycles).
  { unfold _build_cycle_basis_fallback in Hc.
    eapply (roots_loop_pairs order Hp (build_adj g) (uedge g) (build_adj_ok g));
      [|exact Hc]. constructor. }
  split; [exact Hpairs|]. eapply total_cycle_nodes_pairs. exact Hpairs.
Qed.

Lemma X16_fallback_reports_edges_witness :
  (forall (u : Z) (l : list Z), l ≡ₚ l) /\
  exists cycles,
    _build_cycle_basis_fallback (fun _ l => l) (fallback_graph ped_triangle)
      = Some cycles /\
    Forall (edge_pair (uedge (fallback_graph ped_triangle))) cycles /\
    total_cycle_nodes cycles = 2 * Z.of_nat (length cycles).
Proof.
  split; [reflexivity|].
  apply (X16_fallback_reports_edges (fun _ l => l) (fallback_graph ped_triangle)).
  reflexivity.
Defined.

(** ** The texts of the flags *)

Lemma str_lower_app (a b : string) : str_lower (a +:+ b) = str_lower a +:+ str_lower b.
Proof.
  unfold str_lower. induction a as [|c a IH]; simpl.
  - reflexivity.
  - rewrite IH. reflexivity.
Qed.

Lemma dominant_flag_contains c : contains_ci "dominant" (dominant_flag c).
Proof.
  exists "autosomal ", (" transmission possible for " +:+ str_lower c).
  unfold dominant_flag. rewrite str_lower_app. reflexivity.
Qed.

Lemma recessive_flag_contains c : contains_ci "recessive" (recessive_flag c).
Proof.
  exists "autosomal ", (" pattern possible for " +:+ str_lower c).
  unfold recessive_flag. rewrite str_lower_app. reflexivity.
Qed.

Lemma no_conditions_map ps : forall mapping,
  (forall p, p ∈ ps -> conditions p = []) ->
  fold_left (fun mapping person =>
               fold_left (fun mapping condition =>
                            dict_append (str_lower condition) (id person) mapping)
                 (conditions person) mapping) ps mapping = mapping.
Proof.
  induction ps as [|p ps IH]; intros mapping H; simpl; [reflexivity|].
  rewrite (H p) by left. simpl. apply IH. intros q Hq. apply H. right. exact Hq.
Qed.

Lemma ped_couple_acyclic : acyclic (fallback_graph ped_couple).
Proof.
  assert (Hedge : forall x y, uedge (fallback_graph ped_couple) x y ->
            (x = 1 /\ y = 2) \/ (x = 2 /\ y = 1)).
  { intros x y [H|H]; apply list_elem_of_singleton in H; injection H as -> ->; auto. }
  split.
  - intros u Hu. destruct (Hedge _ _ Hu) as [[-> [=]]|[-> [=]]].
  - intros c (Hlen & Hnd & Hch & _).
    destruct c as [|x [|y [|z c]]]; simpl in Hlen; try lia.
    destruct Hch as (Hxy & Hyz & _).
    apply NoDup_cons in Hnd as [Hx _].
    assert (Hzx : z = x).
    { destruct (Hedge _ _ Hxy) as [[-> ->]|[-> ->]],
               (Hedge _ _ Hyz) as [[? ->]|[? ->]]; congruence. }
    subst z. apply Hx. right. left.
Qed.

(** ** The traversal reports nothing only on a forest *)

Lemma adj_complete_step E adj a b :
  adj_complete E adj ->
  adj_complete (fun u v => E u v \/ (u = a /\ v = b) \/ (u = b /\ v = a))
    (adj_add b a (adj_add a b adj)).
Proof.
  intros H u v. rewrite !adj_add_get.
  intros [Huv|[[-> ->]|[-> ->]]];
    repeat case_decide; subst; rewrite ?elem_of_set_add; auto; try congruence.
Qed.

Lemma adj_complete_weaken (E E' : Z -> Z -> Prop) adj :
  (forall u v, E' u v -> E u v) -> adj_complete E adj -> adj_complete E' adj.
Proof. intros HE H u v Huv. apply H, HE, Huv. Qed.

Lemma adj_complete_fold es : forall E adj,
  adj_complete E adj ->
  adj_complete (fun u v => E u v \/ (u, v) ∈ es \/ (v, u) ∈ es)
    (fold_left (fun adj uv => adj_add (snd uv) (fst uv)
                                (adj_add (fst uv) (snd uv) adj)) es adj).
Proof.
  induction es as [|[a b] es IH]; intros E adj H; simpl.
  - eapply adj_complete_weaken; [|exact H].
    intros u v [?|[Hin|Hin]]; [assumption|inversion Hin|inversion Hin].
  - eapply adj_complete_weaken; [|apply IH, adj_complete_step, H].
    simpl. intros u v. rewrite !elem_of_cons.
    intros [?|[[[= -> ->]|?]|[[= -> ->]|?]]]; auto.
Qed.

Lemma build_adj_complete g : adj_complete (uedge g) (build_adj g).
Proof.
  unfold build_adj.
  eapply adj_complete_weaken;
    [|apply (adj_complete_fold _ (fun _ _ => False)); intros u v []].
  unfold uedge. intros u v H. right. exact H.
Qed.

Lemma visit_neighbour_cycles cur par st nbr :
  exists ext, (visit_neighbour cur par st nbr).2 = st.2 ++ ext.
Proof.
  destruct st as [[parent stack] cycles]. unfold visit_neighbour.
  destruct (decide (Some nbr = par)); [exists []; simpl; rewrite app_nil_r; reflexivity|].
  destruct (decide (is_Some (parent !! nbr))); simpl; [eauto|].
  exists []. rewrite app_nil_r. reflexivity.
Qed.

Lemma fold_visit_cycles cur par ns : forall st,
  exists ext, (fold_left (visit_neighbour cur par) ns st).2 = st.2 ++ ext.
Proof.
  induction ns as [|n ns IH]; intros st; simpl.
  - exists []. rewrite app_nil_r. reflexivity.
  - destruct (IH (visit_neighbour cur par st n)) as [ext1 ->].
    destruct (visit_neighbour_cycles cur par st n) as [ext2 ->].
    exists (ext2 ++ ext1). rewrite app_assoc. reflexivity.
Qed.

Lemma dfs_loop_cycles order adj fuel : forall stack parent visited cycles r,
  dfs_loop order fuel adj stack parent visited cycles = Some r ->
  exists ext, r.2 = cycles ++ ext.
Proof.
  induction fuel as [|fuel IH]; intros stack parent visited cycles r H.
  - destruct stack as [|[cur par] stack]; [|discriminate].
    injection H as <-. exists []. simpl. rewrite app_nil_r. reflexivity.
  - destruct stack as [|[cur par] stack].
    { injection H as <-. exists []. simpl. rewrite app_nil_r. reflexivity. }
    cbn [dfs_loop] in H. destruct (decide (cur ∈ visited)); [eauto|].
    destruct (dict_get cur adj) as [nbrs|]; [|discriminate].
    destruct (fold_visit_cycles cur par (order cur nbrs) (parent, stack, cycles))
      as [ext1 Hext1].
    destruct (fold_left _ _ _) as [[parent1 stack1] cycles1]. simpl in Hext1.
    destruct (IH _ _ _ _ _ H) as [ext2 ->]. subst cycles1.
    exists (ext1 ++ ext2). rewrite app_assoc. reflexivity.
Qed.

Lemma roots_loop_cycles order adj fuel nodes : forall visited cycles r,
  roots_loop order fuel adj nodes visited cycles = Some r ->
  exists ext, r = cycles ++ ext.
Proof.
  induction nodes as [|node nodes IH]; intros visited cycles r H; cbn [roots_loop] in H.
  - injection H as <-. exists []. rewrite app_nil_r. reflexivity.
  - destruct (decide (node ∈ visited)); [eauto|].
    destruct (dfs_loop order fuel adj [(node, None)] {[node := None]} visited cycles)
      as [[visited' cycles']|] eqn:Hd; [|discriminate].
    apply dfs_loop_cycles in Hd as [ext1 Hd]. simpl in Hd. subst cycles'.
    destruct (IH _ _ _ H) as [ext2 ->].
    exists (ext1 ++ ext2). rewrite app_assoc. reflexivity.
Qed.

Lemma visit_neighbour_quiet cur par parent stack nbr parent1 stack1 :
  visit_neighbour cur par (parent, stack, []) nbr = (parent1, stack1, []) ->
  (Some nbr = par /\ parent1 = parent /\ stack1 = stack) \/
  (parent !! nbr = None /\ parent1 = <[nbr := Some cur]> parent /\
   stack1 = (nbr, Some cur) :: stack).
Proof.
  unfold visit_neighbour.
  destruct (decide (Some nbr = par)); [intros [= <- <-]; auto|].
  destruct (decide (is_Some (parent !! nbr))) as [|Hnone]; [discriminate|].
  intros [= <- <-]. right. split; [|auto].
  destruct (parent !! nbr) eqn:Ep; [|reflexivity]. exfalso. apply Hnone. eauto.
Qed.

Lemma fold_visit_quiet cur par ns : forall parent stack parent1 stack1,
  fold_left (visit_neighbour cur par) ns (parent, stack, []) = (parent1, stack1, []) ->
  (forall x q, parent !! x = Some q -> parent1 !! x = Some q) /\
  (forall n, n ∈ ns -> Some n = par \/ parent1 !! n = Some (Some cur)) /\
  (forall x q, parent1 !! x = Some q ->
     parent !! x = Some q \/
     (parent !! x = None /\ q = Some cur /\ x ∈ ns /\ (x, q) ∈ stack1)) /\
  (forall e, e ∈ stack -> e ∈ stack1) /\
  (forall x q, (x, q) ∈ stack1 ->
     (x, q) ∈ stack \/ (parent !! x = None /\ parent1 !! x = Some q)).
Proof.
  induction ns as [|n ns IH]; intros parent stack parent1 stack1 H; cbn [fold_left] in H.
  - injection H as <- <-. repeat split; auto.
    intros n Hn. inversion Hn.
  - destruct (visit_neighbour cur par (parent, stack, []) n)
      as [[parent' stack'] cycles'] eqn:Hv.
    assert (cycles' = []) as ->.
    { destruct (fold_visit_cycles cur par ns (parent', stack', cycles')) as [ext Hext].
      rewrite H in Hext. simpl in Hext. symmetry in Hext.
      apply app_eq_nil in Hext as [? _]. assumption. }
    destruct (IH _ _ _ _ H) as (I1 & I2 & I3 & I4 & I5).
    apply visit_neighbour_quiet in Hv as [(Hpar & -> & ->)|(Hfresh & -> & ->)].
    + split; [auto|]. split; [|split; [|auto]].
      * intros m Hm. apply elem_of_cons in Hm as [->|Hm]; auto.
      * intros x q Hx. destruct (I3 x q Hx) as [?|(? & ? & ? & ?)]; [auto|].
        right. repeat split; auto. right. assumption.
    + assert (Hmono : forall x q, parent !! x = Some q ->
                <[n := Some cur]> parent !! x = Some q).
      { intros x q Hx. rewrite lookup_insert_ne; [exact Hx|]. congruence. }
      split; [auto|]. split; [|split; [|split]].
      * intros m Hm. apply elem_of_cons in Hm as [->|Hm]; [|auto].
        right. apply I1. apply lookup_insert_eq.
      * intros x q Hx. destruct (I3 x q Hx) as [Hold|(Hnone & -> & Hns & Hin)].
        -- destruct (decide (n = x)) as [<-|Hne].
           ++ rewrite lookup_insert_eq in Hold. injection Hold as <-.
              right. repeat split; [exact Hfresh|left|]. apply I4. left.
           ++ rewrite lookup_insert_ne in Hold by exact Hne. auto.
        -- right. split; [apply lookup_insert_None in Hnone; tauto|].
           split; [reflexivity|]. split; [right; exact Hns|exact Hin].
      * intros e He. apply I4. right. exact He.
      * intros x q Hin. destruct (I5 x q Hin) as [Hold|[Hnone Hnew]].
        -- apply elem_of_cons in Hold as [[= -> ->]|Hold]; [|auto].
           right. split; [exact Hfresh|]. apply I1. apply lookup_insert_eq.
        -- right. split; [|exact Hnew]. apply lookup_insert_None in Hnone. tauto.
Qed.

Section Quiet.
Variable order : Z -> list Z -> list Z.
Hypothesis order_perm : forall u l, order u l ≡ₚ l.
Variable adj : list (Z * list Z).
Variable E : Z -> Z -> Prop.
Hypothesis E_sym : forall a b, E a b -> E b a.
Hypothesis Hadj : adj_ok E adj.
Hypothesis Hcomplete : adj_complete E adj.

Lemma run_end V0 P0 d0 parent visited d :
  forest_inv E V0 P0 d0 ->
  run_inv E V0 [] parent visited d ->
  exists P1 d1, forest_inv E visited P1 d1.
Proof using Type.
  intros [G1 G2 G3 G4 G5] [J1 J2 J3 J4 J5 J6 J7 J8].
  assert (Hvis : forall x, is_Some (parent !! x) -> x ∈ visited).
  { intros x Hx. destruct (J5 x Hx) as [?|[q Hq]]; [assumption|inversion Hq]. }
  assert (Hl : forall x o, parent !! x = Some o -> (parent ∪ P0) !! x = Some o).
  { intros x o Hx. apply lookup_union_Some_l. exact Hx. }
  assert (Hr : forall x, x ∈ V0 -> (parent ∪ P0) !! x = P0 !! x).
  { intros x Hx. apply lookup_union_r.
    destruct (parent !! x) eqn:Ep; [|reflexivity].
    exfalso. apply (J2 x); eauto. }
  exists (parent ∪ P0),
    (fun x => if decide (is_Some (parent !! x)) then d x else d0 x).
  constructor.
  - intros x. rewrite lookup_union_is_Some. split.
    + intros Hx. destruct (decide (x ∈ V0)) as [Hin|Hnin].
      * right. apply G1. exact Hin.
      * left. apply J4; assumption.
    + intros [Hx|Hx]; [apply Hvis; exact Hx|apply J3, G1; exact Hx].
  - intros x y Hx Hxy. destruct (decide (x ∈ V0)) as [Hin|Hnin].
    + apply J3. eapply G2; eassumption.
    + destruct (J6 x y Hx Hnin Hxy) as [H|H].
      * apply J7 in H. tauto.
      * apply Hvis. eauto.
  - intros x y Hx Hxy. destruct (decide (x ∈ V0)) as [Hin|Hnin].
    + pose proof (G2 x y Hin Hxy) as Hy.
      rewrite (Hr x Hin), (Hr y Hy). apply G3; assumption.
    + destruct (J6 x y Hx Hnin Hxy) as [H|H]; [left|right]; apply Hl; exact H.
  - intros x y Hxy. apply lookup_union_Some_raw in Hxy as [H|[_ H]].
    + apply J7 in H. tauto.
    + apply J3. eapply G4. exact H.
  - intros x y Hxy. apply lookup_union_Some_raw in Hxy as [H|[Hnone H]].
    + rewrite decide_True by eauto.
      rewrite decide_True; [apply J8; exact H|].
      apply J7 in H as [Hy Hy0]. apply J4; assumption.
    + rewrite decide_False by (rewrite Hnone; apply is_Some_None).
      rewrite decide_False; [apply G5; exact H|].
      intros Hy. apply (J2 y Hy). eapply G4. exact H.
Qed.

Lemma dfs_loop_quiet V0 P0 d0 fuel : forall stack parent visited d visited',
  forest_inv E V0 P0 d0 ->
  run_inv E V0 stack parent visited d ->
  dfs_loop order fuel adj stack parent visited [] = Some (visited', []) ->
  (exists P1 d1, forest_inv E visited' P1 d1) /\
  (forall x, x ∈ visited -> x ∈ visited') /\
  (forall x, is_Some (parent !! x) -> x ∈ visited').
Proof using order_perm E_sym Hadj Hcomplete.
  induction fuel as [|fuel IH]; intros stack parent visited d visited' HG HJ H.
  - destruct stack as [|[cur par] stack]; [|discriminate].
    injection H as <-. split; [eapply run_end; eassumption|]. split; [auto|].
    intros x Hx. destruct (ri_pending _ _ _ _ _ _ HJ x Hx) as [?|[q Hq]];
      [assumption|inversion Hq].
  - destruct stack as [|[cur par] stack].
    { injection H as <-. split; [eapply run_end; eassumption|]. split; [auto|].
      intros x Hx. destruct (ri_pending _ _ _ _ _ _ HJ x Hx) as [?|[q Hq]];
        [assumption|inversion Hq]. }
    cbn [dfs_loop] in H. destruct HJ as [J1 J2 J3 J4 J5 J6 J7 J8].
    destruct (decide (cur ∈ visited)) as [Hcur|Hcur].
    + apply (IH stack parent visited d visited' HG); [|exact H]. constructor; auto.
      * intros x q Hin. apply J1. right. exact Hin.
      * intros x Hx. destruct (J5 x Hx) as [?|[q Hq]]; [auto|].
        apply elem_of_cons in Hq as [[= -> ->]|Hq]; eauto.
    + destruct (dict_get cur adj) as [nbrs|] eqn:Hget; [|discriminate].
      destruct (fold_left (visit_neighbour cur par) (order cur nbrs)
                  (parent, stack, [])) as [[parent1 stack1] cycles1] eqn:Hfold.
      assert (cycles1 = []) as ->.
      { apply dfs_loop_cycles in H as [ext Hext]. simpl in Hext. symmetry in Hext.
        apply app_eq_nil in Hext as [? _]. assumption. }
      apply fold_visit_quiet in Hfold as (I1 & I2 & I3 & I4 & I5).
      assert (Hpcur : parent !! cur = Some par) by (apply J1; left).
      assert (Hcur0 : cur ∉ V0) by (intros Hin; apply Hcur, J3, Hin).
      assert (Hnbrs : forall y, E cur y -> y ∈ order cur nbrs).
      { intros y Hy. rewrite order_perm. apply Hcomplete in Hy.
        unfold dict_get_default in Hy. rewrite Hget in Hy. exact Hy. }
      assert (Hfresh0 : forall x, parent !! x = None -> is_Some (parent1 !! x) ->
                E cur x /\ parent1 !! x = Some (Some cur) /\ x ∉ V0).
      { intros x Hnone [q Hq]. destruct (I3 x q Hq) as [Hold|(_ & -> & Hns & Hin)];
          [congruence|].
        assert (Hx : E cur x).
        { destruct Hadj as (Hsound & _). apply Hsound.
          unfold dict_get_default. rewrite Hget. rewrite <- (order_perm cur nbrs).
          exact Hns. }
        repeat split; [exact Hx|exact Hq|].
        intros Hx0. apply Hcur0. destruct HG as [_ G2 _ _ _].
        eapply G2; [exact Hx0|]. apply E_sym. exact Hx. }
      eapply (IH stack1 parent1 ({[cur]} ∪ visited)
                (fun x => if decide (parent !! x = None /\ is_Some (parent1 !! x))
                          then S (d cur) else d x)) in H; [|exact HG|].
      * destruct H as (H1 & H2 & H3). split; [exact H1|]. split.
        -- intros x Hx. apply H2. set_solver.
        -- intros x [q Hx]. apply H3. exists q. apply I1. exact Hx.
      * constructor.
        -- intros x q Hin. destruct (I5 x q Hin) as [Hold|[_ Hnew]]; [|exact Hnew].
           apply I1, J1. right. exact Hold.
        -- intros x Hx. destruct (parent !! x) eqn:Ep.
           ++ apply J2. rewrite Ep. eauto.
           ++ apply (Hfresh0 x Ep Hx).
        -- intros x Hx. apply elem_of_union. right. apply J3. exact Hx.
        -- intros x Hx Hx0. apply elem_of_union in Hx as [Hx|Hx].
           ++ apply elem_of_singleton in Hx as ->. exists par. apply I1. exact Hpcur.
           ++ destruct (J4 x Hx Hx0) as [q Hq]. exists q. apply I1. exact Hq.
        -- intros x [q Hq].
           destruct (I3 x q Hq) as [Hold|(_ & _ & _ & Hin)]; [|right; eauto].
           destruct (J5 x) as [Hv|[q' Hq']]; [eauto|left; set_solver|].
           apply elem_of_cons in Hq' as [[= -> ->]|Hq']; [left; set_solver|].
           right. exists q'. apply I4. exact Hq'.
        -- intros x y Hx Hx0 Hxy. apply elem_of_union in Hx as [Hx|Hx].
           ++ apply elem_of_singleton in Hx as ->.
              destruct (I2 y (Hnbrs y Hxy)) as [Hpar|Hnew]; [left|right; exact Hnew].
              apply I1. rewrite Hpcur, <- Hpar. reflexivity.
           ++ destruct (J6 x y Hx Hx0 Hxy) as [H'|H']; [left|right]; apply I1; exact H'.
        -- intros x y Hxy.
           destruct (I3 x _ Hxy) as [Hold|(_ & [= ->] & _)].
           ++ destruct (J7 x y Hold) as [Hy Hy0]. split; [set_solver|exact Hy0].
           ++ split; [set_solver|exact Hcur0].
        -- intros x y Hxy.
           destruct (I3 x _ Hxy) as [Hold|(Hnone & [= ->] & _)].
           ++ rewrite decide_False by (rewrite Hold; intros [[=] _]).
              destruct (J7 x y Hold) as [Hy Hy0]. destruct (J4 y Hy Hy0) as [q Hq].
              rewrite decide_False by (rewrite Hq; intros [[=] _]).
              apply J8. exact Hold.
           ++ rewrite decide_True by (split; [exact Hnone|eauto]).
              rewrite decide_False by (rewrite Hpcur; intros [[=] _]).
              reflexivity.
Qed.

Lemma roots_loop_quiet fuel nodes : forall V P d,
  forest_inv E V P d ->
  roots_loop order fuel adj nodes V [] = Some [] ->
  exists V' P' d',
    forest_inv E V' P' d' /\ (forall x, x ∈ V -> x ∈ V') /\
    (forall n, n ∈ nodes -> n ∈ V').
Proof using order_perm E_sym Hadj Hcomplete.
  induction nodes as [|node nodes IH]; intros V P d HG H; cbn [roots_loop] in H.
  - exists V, P, d. split; [exact HG|]. split; [auto|]. intros n Hn. inversion Hn.
  - destruct (decide (node ∈ V)) as [Hin|Hnin].
    + destruct (IH V P d HG H) as (V' & P' & d' & HG' & Hsub & Hall).
      exists V', P', d'. split; [exact HG'|]. split; [exact Hsub|].
      intros n Hn. apply elem_of_cons in Hn as [->|Hn]; auto.
    + destruct (dfs_loop order fuel adj [(node, None)] {[node := None]} V [])
        as [[visited' cycles']|] eqn:Hd; [|discriminate].
      assert (cycles' = []) as ->.
      { apply roots_loop_cycles in H as [ext Hext]. symmetry in Hext.
        apply app_eq_nil in Hext as [? _]. assumption. }
      apply (dfs_loop_quiet V P d fuel _ _ _ (fun _ => O)) in Hd
        as ((P1 & d1 & HG1) & Hsub1 & Hdom1); [|exact HG|].
      * destruct (IH visited' P1 d1 HG1 H) as (V' & P' & d' & HG' & Hsub & Hall).
        exists V', P', d'. split; [exact HG'|]. split; [auto|].
        intros n Hn. apply elem_of_cons in Hn as [->|Hn]; [|auto].
        apply Hsub, Hdom1. rewrite lookup_singleton_eq. eauto.
      * constructor.
        -- intros x q Hx. apply list_elem_of_singleton in Hx as [= -> ->].
           apply lookup_singleton_eq.
        -- intros x [q Hq]. apply lookup_singleton_Some in Hq as [<- _]. exact Hnin.
        -- auto.
        -- intros x Hx Hx0. contradiction.
        -- intros x [q Hq]. apply lookup_singleton_Some in Hq as [<- <-].
           right. exists None. left.
        -- intros x y Hx Hx0. contradiction.
        -- intros x y Hxy. apply lookup_singleton_Some in Hxy as [_ [=]].
        -- intros x y Hxy. apply lookup_singleton_Some in Hxy as [_ [=]].
Qed.
End Quiet.

Lemma max_depth (d : Z -> nat) (c : list Z) :
  c <> [] -> exists x, x ∈ c /\ forall y, y ∈ c -> (d y <= d x)%nat.
Proof.
  induction c as [|a c IH]; [congruence|]. intros _.
  destruct c as [|b c].
  - exists a. split; [left|]. intros y Hy. apply list_elem_of_singleton in Hy as ->. lia.
  - destruct IH as (x & Hx & Hmax); [discriminate|].
    destruct (le_lt_dec (d a) (d x)).
    + exists x. split; [right; exact Hx|]. intros y Hy.
      apply elem_of_cons in Hy as [->|Hy]; auto.
    + exists a. split; [left|]. intros y Hy.
      apply elem_of_cons in Hy as [->|Hy]; [lia|]. specialize (Hmax y Hy). lia.
Qed.

Lemma chain_app_inv (R : Z -> Z -> Prop) l1 x l2 :
  chain R (l1 ++ x :: l2) ->
  (forall y, last l1 = Some y -> R y x) /\ (forall z, head l2 = Some z -> R x z).
Proof.
  intros H. split.
  - intros y Hy. induction l1 as [|a l1 IH]; [discriminate|].
    destruct l1 as [|b l1].
    + injection Hy as <-. simpl in H. tauto.
    + rewrite last_cons_cons in Hy. simpl app in H. rewrite chain_cons in H.
      apply IH; tauto.
  - intros z Hz. apply chain_suffix in H. destruct l2 as [|z' l2]; [discriminate|].
    injection Hz as <-. rewrite chain_cons in H. tauto.
Qed.

(** In a cycle every vertex has two distinct neighbours on the cycle. *)
Lemma cycle_neighbours (R : Z -> Z -> Prop) (c : list Z) (x : Z) :
  (forall a b, R a b -> R b a) ->
  is_cycle R c -> x ∈ c ->
  exists y z, y ∈ c /\ z ∈ c /\ y <> z /\ R x y /\ R x z.
Proof.
  intros Hsym (Hlen & Hnd & Hch & h & t & Hh & Ht & Hth) Hx.
  assert (Hhc : h ∈ c) by (destruct c; [discriminate|injection Hh as <-; left]).
  assert (Htc : t ∈ c).
  { apply list_elem_of_lookup. rewrite last_lookup in Ht. eauto. }
  apply list_elem_of_split in Hx as (l1 & l2 & ->).
  destruct (chain_app_inv R l1 x l2 Hch) as [Hprev Hnext].
  destruct l1 as [|a l1 _] using rev_ind; destruct l2 as [|b l2].
  - simpl in Hlen. lia.
  - (* x is the first vertex *)
    simpl in Hh. injection Hh as <-.
    exists b, t. split; [right; left|]. split; [exact Htc|].
    split; [|split; [apply Hnext; reflexivity|apply Hsym; exact Hth]].
    intros <-. simpl app in *. destruct l2 as [|b' l2]; [simpl in Hlen; lia|].
    change (x :: b :: b' :: l2) with ([x; b] ++ b' :: l2) in Ht.
    rewrite last_app_cons in Ht.
    assert (Hin : b ∈ b' :: l2).
    { apply list_elem_of_lookup. rewrite last_lookup in Ht. eauto. }
    apply NoDup_cons in Hnd as [_ Hnd]. apply NoDup_cons in Hnd as [Hb _]. auto.
  - (* x is the last vertex *)
    rewrite last_snoc in Hprev. rewrite last_snoc in Ht. injection Ht as <-.
    exists a, h. split; [set_solver|]. split; [exact Hhc|].
    split; [|split; [apply Hsym, Hprev; reflexivity|exact Hth]].
    intros <-. rewrite <- app_assoc in Hnd, Hh, Hlen. simpl app in *.
    destruct l1 as [|a' l1].
    + simpl in Hlen. lia.
    + simpl in Hh. injection Hh as ->.
      apply NoDup_cons in Hnd as [Ha _]. apply Ha.
      apply elem_of_app. right. left.
  - rewrite last_snoc in Hprev.
    exists a, b. split; [set_solver|]. split; [set_solver|].
    split; [|split; [apply Hsym, Hprev; reflexivity|apply Hnext; reflexivity]].
    intros <-. rewrite <- app_assoc in Hnd. simpl app in Hnd.
    apply NoDup_app in Hnd as (_ & _ & Hnd).
    apply NoDup_cons in Hnd as [Ha _]. apply Ha. right. left.
Qed.

Lemma forest_inv_acyclic (E : Z -> Z -> Prop) V P d :
  (forall a b, E a b -> E b a) ->
  forest_inv E V P d ->
  (forall x y, E x y -> x ∈ V) ->
  (forall u, ~ E u u) /\ forall c, ~ is_cycle E c.
Proof.
  intros Hsym [G1 G2 G3 G4 G5] Hall.
  assert (Hdir : forall x y, E x y -> (d y <= d x)%nat -> P !! x = Some (Some y)).
  { intros x y Hxy Hle. destruct (G3 x y (Hall x y Hxy) Hxy) as [H|H]; [exact H|].
    apply G5 in H. lia. }
  split.
  - intros u Hu. pose proof (Hdir u u Hu (le_n _)) as H. apply G5 in H. lia.
  - intros c Hc.
    destruct (max_depth d c) as (x & Hx & Hmax).
    { destruct Hc as (Hlen & _). destruct c; [simpl in Hlen; lia|discriminate]. }
    destruct (cycle_neighbours E c x Hsym Hc Hx) as (y & z & Hy & Hz & Hne & Hxy & Hxz).
    pose proof (Hdir x y Hxy (Hmax y Hy)) as H1.
    pose proof (Hdir x z Hxz (Hmax z Hz)) as H2.
    congruence.
Qed.

(** X19.  Whatever the order in which the adjacency sets are enumerated,
    [_build_cycle_basis_fallback] returns the empty list exactly when the
    undirected graph has no self-loop and no cycle: on a forest it reports
    nothing, and on every other graph it reports at least one item. *)
Theorem X19_fallback_reports_nothing_iff_forest
    (order : Z -> list Z -> list Z) (g : _FallbackDiGraph) :
  (forall u l, order u l ≡ₚ l) ->
  (_build_cycle_basis_fallback order g = Some [] <-> acyclic g).
Proof.
  intros Hp. split.
  - intros H. unfold _build_cycle_basis_fallback in H.
    destruct (roots_loop_quiet order Hp (build_adj g) (uedge g) (uedge_sym g)
                (build_adj_ok g) (build_adj_complete g)
                (length (build_adj g)) (dict_keys (build_adj g)) ∅ ∅ (fun _ => O))
      as (V & P & d & HG & _ & Hall); [|exact H|].
    + constructor.
      * intros x. rewrite lookup_empty. split; [set_solver|intros [? [=]]].
      * set_solver.
      * set_solver.
      * intros x y Hxy. rewrite lookup_empty in Hxy. discriminate.
      * intros x y Hxy. rewrite lookup_empty in Hxy. discriminate.
    + apply (forest_inv_acyclic (uedge g) V P d (uedge_sym g) HG).
      intros x y Hxy. apply Hall. apply build_adj_complete in Hxy.
      unfold dict_get_default in Hxy.
      destruct (dict_get x (build_adj g)) eqn:Eg; [|inversion Hxy].
      apply dict_get_is_Some. rewrite Eg. eauto.
  - intros Hacyc.
    destruct (build_cycle_basis_total order g Hp) as [cycles Hc].
    rewrite Hc. f_equal. unfold _build_cycle_basis_fallback in Hc.
    apply (roots_loop_no_cycle (uedge g) (uedge_sym g) (acyclic_all_bridges g Hacyc)
             order Hp (build_adj g) (build_adj_ok g)) in Hc.
    exact Hc.
Qed.

Lemma X19_fallback_reports_nothing_iff_forest_witness :
  (forall (u : Z) (l : list Z), l ≡ₚ l) /\
  (_build_cycle_basis_fallback (fun _ l => l) (fallback_graph ped_couple) = Some []
   <-> acyclic (fallback_graph ped_couple)).
Proof.
  split; [reflexivity|].
  apply (X19_fallback_reports_nothing_iff_forest (fun _ l => l) (fallback_graph ped_couple)).
  reflexivity.
Defined.



(** ** Finding the braces in a text *)

Lemma string_app_assoc (a b c : string) : (a +:+ b) +:+ c = a +:+ b +:+ c.
Proof.
  induction a as [|x a IH]; [reflexivity|].
  rewrite !string_app_cons. f_equal. exact IH.
Qed.

Lemma string_app_length (a b : string) :
  String.length (a +:+ b) = (String.length a + String.length b)%nat.
Proof. induction a as [|x a IH]; simpl; [reflexivity|]. rewrite IH. reflexivity. Qed.

Lemma prefix_char (c : ascii) (s : string) :
  String.prefix (String c "") s = true <-> exists r, s = String c r.
Proof.
  rewrite prefix_spec. split; intros [r ->]; exists r; reflexivity.
Qed.

Lemma prefix_char_cons (c a : ascii) (s : string) :
  String.prefix (String c "") (String a s) = bool_decide (c = a).
Proof.
  destruct (decide (c = a)) as [->|Hne].
  - rewrite bool_decide_eq_true_2 by reflexivity. apply prefix_char. eauto.
  - rewrite bool_decide_eq_false_2 by exact Hne.
    destruct (String.prefix _ _) eqn:E; [|reflexivity].
    apply prefix_char in E as [r [= -> _]]. contradiction.
Qed.

Lemma str_find_cons (c a : ascii) (s : string) :
  str_find (String c "") (String a s) =
  if bool_decide (c = a) then 0
  else if str_find (String c "") s =? -1 then -1 else str_find (String c "") s + 1.
Proof. cbn [str_find]. rewrite prefix_char_cons. reflexivity. Qed.

Lemma str_rfind_cons (c a : ascii) (s : string) :
  str_rfind (String c "") (String a s) =
  if str_rfind (String c "") s =? -1 then (if bool_decide (c = a) then 0 else -1)
  else str_rfind (String c "") s + 1.
Proof. cbn [str_rfind]. rewrite prefix_char_cons. reflexivity. Qed.

Lemma str_contains_cons (c a : ascii) (s : string) :
  str_contains (String c "") (String a s) =
  bool_decide (c = a) || str_contains (String c "") s.
Proof.
  rewrite str_contains_unfold, prefix_char_cons.
  destruct (bool_decide (c = a)); reflexivity.
Qed.

Lemma str_find_range (c : ascii) (s : string) :
  str_find (String c "") s = -1 \/
  0 <= str_find (String c "") s < Z.of_nat (String.length s).
Proof.
  induction s as [|a s IH]; [left; reflexivity|].
  rewrite str_find_cons. cbn [String.length].
  destruct (bool_decide (c = a)); [right; lia|].
  destruct (Z.eqb_spec (str_find (String c "") s) (-1)); [left; reflexivity|right; lia].
Qed.

Lemma str_rfind_range (c : ascii) (s : string) :
  str_rfind (String c "") s = -1 \/
  0 <= str_rfind (String c "") s < Z.of_nat (String.length s).
Proof.
  induction s as [|a s IH]; [left; reflexivity|].
  rewrite str_rfind_cons. cbn [String.length].
  destruct (Z.eqb_spec (str_rfind (String c "") s) (-1)).
  - destruct (bool_decide (c = a)); [right; lia|left; reflexivity].
  - right. lia.
Qed.

(** The first occurrence. *)
Lemma str_find_spec (c : ascii) (s : string) :
  str_find (String c "") s <> -1 ->
  exists pre rest,
    s = pre +:+ String c rest /\
    str_find (String c "") s = Z.of_nat (String.length pre).
Proof.
  induction s as [|a s IH]; [intros H; exfalso; apply H; reflexivity|].
  rewrite str_find_cons.
  destruct (decide (c = a)) as [->|Hne].
  - rewrite bool_decide_eq_true_2 by reflexivity. intros _. exists "", s. split; reflexivity.
  - rewrite bool_decide_eq_false_2 by exact Hne.
    destruct (Z.eqb_spec (str_find (String c "") s) (-1)) as [|Hs]; [congruence|].
    intros _. destruct (IH Hs) as (pre & rest & -> & Hlen).
    exists (String a pre), rest. split; [reflexivity|].
    rewrite Hlen. cbn [String.length]. lia.
Qed.

(** The last occurrence. *)
Lemma str_rfind_spec (c : ascii) (s : string) :
  str_rfind (String c "") s <> -1 ->
  exists pre rest,
    s = pre +:+ String c rest /\
    str_rfind (String c "") s = Z.of_nat (String.length pre).
Proof.
  induction s as [|a s IH]; [intros H; exfalso; apply H; reflexivity|].
  rewrite str_rfind_cons.
  destruct (Z.eqb_spec (str_rfind (String c "") s) (-1)) as [Hs|Hs].
  - destruct (decide (c = a)) as [->|Hne].
    + rewrite bool_decide_eq_true_2 by reflexivity. intros _.
      exists "", s. split; reflexivity.
    + rewrite bool_decide_eq_false_2 by exact Hne. congruence.
  - intros _. destruct (IH Hs) as (pre & rest & -> & Hlen).
    exists (String a pre), rest. split; [reflexivity|].
    rewrite Hlen. cbn [String.length]. lia.
Qed.

(** No occurrence comes before the first, none after the last. *)
Lemma str_find_le (c : ascii) (pre rest : string) :
  0 <= str_find (String c "") (pre +:+ String c rest) <= Z.of_nat (String.length pre).
Proof.
  induction pre as [|a pre IH].
  - rewrite string_app_nil_l, str_find_cons, bool_decide_eq_true_2 by reflexivity.
    simpl. lia.
  - rewrite string_app_cons, str_find_cons. cbn [String.length].
    destruct (bool_decide (c = a)); [lia|].
    destruct (Z.eqb_spec (str_find (String c "") (pre +:+ String c rest)) (-1)); lia.
Qed.

Lemma str_rfind_ge (c : ascii) (pre rest : string) :
  Z.of_nat (String.length pre) <= str_rfind (String c "") (pre +:+ String c rest).
Proof.
  induction pre as [|a pre IH].
  - rewrite string_app_nil_l, str_rfind_cons. cbn [String.length].
    destruct (str_rfind_range c rest) as [->|Hr].
    + rewrite bool_decide_eq_true_2 by reflexivity. simpl. lia.
    + destruct (Z.eqb_spec (str_rfind (String c "") rest) (-1)); lia.
  - rewrite string_app_cons, str_rfind_cons. cbn [String.length].
    destruct (Z.eqb_spec (str_rfind (String c "") (pre +:+ String c rest)) (-1)); lia.
Qed.

Lemma str_find_first (c : ascii) (pre rest : string) :
  str_contains (String c "") pre = false ->
  str_find (String c "") (pre +:+ String c rest) = Z.of_nat (String.length pre).
Proof.
  induction pre as [|a pre IH]; intros H.
  - rewrite string_app_nil_l, str_find_cons, bool_decide_eq_true_2 by reflexivity.
    reflexivity.
  - rewrite str_contains_cons in H. apply orb_false_iff in H as [Ha H].
    rewrite string_app_cons, str_find_cons, Ha, (IH H). cbn [String.length].
    destruct (Z.eqb_spec (Z.of_nat (String.length pre)) (-1)); lia.
Qed.

Lemma str_rfind_none (c : ascii) (s : string) :
  str_contains (String c "") s = false -> str_rfind (String c "") s = -1.
Proof.
  induction s as [|a s IH]; intros H; [reflexivity|].
  rewrite str_contains_cons in H. apply orb_false_iff in H as [Ha H].
  rewrite str_rfind_cons, (IH H), Ha. reflexivity.
Qed.

Lemma str_rfind_last (c : ascii) (pre post : string) :
  str_contains (String c "") post = false ->
  str_rfind (String c "") (pre +:+ String c post) = Z.of_nat (String.length pre).
Proof.
  intros H. induction pre as [|a pre IH].
  - rewrite string_app_nil_l, str_rfind_cons, (str_rfind_none c post H).
    rewrite bool_decide_eq_true_2 by reflexivity. reflexivity.
  - rewrite string_app_cons, str_rfind_cons, IH. cbn [String.length].
    destruct (Z.eqb_spec (Z.of_nat (String.length pre)) (-1)); lia.
Qed.

Lemma substring_app (pre x post : string) :
  String.substring (String.length pre) (String.length x) (pre +:+ x +:+ post) = x.
Proof.
  induction pre as [|a pre IH].
  - rewrite string_app_nil_l. cbn [String.length].
    induction x as [|b x IHx].
    + rewrite string_app_nil_l. destruct post; reflexivity.
    + rewrite string_app_cons. cbn [String.length String.substring].
      rewrite IHx. reflexivity.
  - rewrite string_app_cons. cbn [String.length String.substring]. exact IH.
Qed.

Lemma str_slice_app (pre x post : string) :
  str_slice (pre +:+ x +:+ post)
    (Z.of_nat (String.length pre))
    (Z.of_nat (String.length pre) + Z.of_nat (String.length x)) = x.
Proof.
  unfold str_slice, slice_index. rewrite !string_app_length.
  repeat match goal with |- context [?a <? ?b] =>
    destruct (Z.ltb_spec a b); [lia|] end.
  rewrite !Z.min_l by lia.
  replace (Z.to_nat (Z.of_nat (String.length pre))) with (String.length pre) by lia.
  replace (Z.to_nat _) with (String.length x) by lia.
  apply substring_app.
Qed.

Lemma string_app_split (p1 : string) : forall p2 a b : string,
  p1 +:+ a = p2 +:+ b -> (String.length p1 <= String.length p2)%nat ->
  exists m, p2 = p1 +:+ m /\ a = m +:+ b.
Proof.
  induction p1 as [|x p1 IH]; intros p2 a b H Hlen.
  - exists p2. split; [reflexivity|exact H].
  - destruct p2 as [|y p2]; [simpl in Hlen; lia|].
    rewrite !string_app_cons in H. injection H as <- H.
    destruct (IH p2 a b H) as (m & -> & ->); [simpl in Hlen; lia|].
    exists m. split; reflexivity.
Qed.

(** The text before the first occurrence has none, nor has the text after
    the last. *)
Lemma str_find_first_spec (c : ascii) (s : string) :
  str_find (String c "") s <> -1 ->
  exists pre rest,
    s = pre +:+ String c rest /\ str_contains (String c "") pre = false.
Proof.
  induction s as [|a s IH]; [intros H; exfalso; apply H; reflexivity|].
  rewrite str_find_cons.
  destruct (decide (c = a)) as [->|Hne].
  - intros _. exists "", s. split; reflexivity.
  - rewrite bool_decide_eq_false_2 by exact Hne.
    destruct (Z.eqb_spec (str_find (String c "") s) (-1)) as [|Hs]; [congruence|].
    intros _. destruct (IH Hs) as (pre & rest & -> & Hpre).
    exists (String a pre), rest. split; [reflexivity|].
    rewrite str_contains_cons, Hpre, bool_decide_eq_false_2 by exact Hne.
    reflexivity.
Qed.

Lemma str_rfind_last_spec (c : ascii) (s : string) :
  str_rfind (String c "") s <> -1 ->
  exists pre rest,
    s = pre +:+ String c rest /\ str_contains (String c "") rest = false.
Proof.
  induction s as [|a s IH]; [intros H; exfalso; apply H; reflexivity|].
  rewrite str_rfind_cons.
  destruct (Z.eqb_spec (str_rfind (String c "") s) (-1)) as [Hs|Hs].
  - destruct (decide (c = a)) as [->|Hne].
    + intros _. exists "", s. split; [reflexivity|].
      destruct (str_contains (String a "") s) eqn:E; [|reflexivity].
      exfalso. apply str_contains_spec in E as (p & q & ->).
      pose proof (str_rfind_ge a p q) as Hge.
      change (String a "" +:+ q) with (String a q) in Hs. lia.
    + rewrite bool_decide_eq_false_2 by exact Hne. congruence.
  - intros _. destruct (IH Hs) as (pre & rest & -> & Hrest).
    exists (String a pre), rest. split; [reflexivity|exact Hrest].
Qed.

Lemma outer_braces_payload
    (strptime : string -> bool) (loads : string -> loads_failure + json)
    (pre mid post : string) :
  str_contains "{" pre = false -> str_contains "}" post = false ->
  parse_payload_from_text strptime loads (pre +:+ "{" +:+ mid +:+ "}" +:+ post)
  = load_json_payload strptime loads ("{" +:+ mid +:+ "}").
Proof.
  intros Hpre Hpost. unfold parse_payload_from_text.
  assert (Hstart : str_find "{" (pre +:+ "{" +:+ mid +:+ "}" +:+ post)
                   = Z.of_nat (String.length pre))
    by (apply (str_find_first "{"%char); exact Hpre).
  assert (Hstop : str_rfind "}" (pre +:+ "{" +:+ mid +:+ "}" +:+ post)
                  = Z.of_nat (String.length (pre +:+ "{" +:+ mid))).
  { rewrite <- (str_rfind_last "}"%char (pre +:+ "{" +:+ mid) post Hpost).
    rewrite !string_app_assoc. reflexivity. }
  rewrite Hstart, Hstop.
  assert (HL : Z.of_nat (String.length (pre +:+ "{" +:+ mid))
               = Z.of_nat (String.length pre) + 1 + Z.of_nat (String.length mid))
    by (rewrite !string_app_length; cbn [String.length]; lia).
  rewrite HL.
  assert (Hguard : (Z.of_nat (String.length pre) =? -1)
                   || (Z.of_nat (String.length pre) + 1
                       + Z.of_nat (String.length mid) =? -1)
                   || (Z.of_nat (String.length pre) + 1
                       + Z.of_nat (String.length mid) <=? Z.of_nat (String.length pre))
                   = false).
  { apply orb_false_iff. split; [apply orb_false_iff; split|].
    - apply Z.eqb_neq. lia.
    - apply Z.eqb_neq. lia.
    - apply Z.leb_gt. lia. }
  rewrite Hguard. f_equal.
  replace (pre +:+ "{" +:+ mid +:+ "}" +:+ post)
    with (pre +:+ ("{" +:+ mid +:+ "}") +:+ post)
    by (rewrite !string_app_assoc; reflexivity).
  replace (Z.of_nat (String.length pre) + 1 + Z.of_nat (String.length mid) + 1)
    with (Z.of_nat (String.length pre)
          + Z.of_nat (String.length ("{" +:+ mid +:+ "}")))
    by (rewrite !string_app_length; cbn [String.length]; lia).
  apply str_slice_app.
Qed.

(** X20.  [parse_payload_from_text] passes to [load_json_payload] the part of
    the text from its first opening brace to its last closing brace: what
    precedes the first and what follows the last is dropped, so a text that
    opens with a brace and closes with one is passed whole. *)
Theorem X20_parse_payload_takes_outer_braces
    (strptime : string -> bool) (loads : string -> loads_failure + json)
    (pre mid post : string) :
  str_contains "{" pre = false -> str_contains "}" post = false ->
  parse_payload_from_text strptime loads (pre +:+ "{" +:+ mid +:+ "}" +:+ post)
  = load_json_payload strptime loads ("{" +:+ mid +:+ "}").
Proof. apply outer_braces_payload. Qed.

Lemma X20_parse_payload_takes_outer_braces_witness :
  parse_payload_from_text strptime_ymd_ascii (loads_table [("{}", JDict [])])
    "Here it is: {} (sent today)"
  = load_json_payload strptime_ymd_ascii (loads_table [("{}", JDict [])]) "{}".
Proof.
  apply (X20_parse_payload_takes_outer_braces strptime_ymd_ascii
           (loads_table [("{}", JDict [])]) "Here it is: " "" " (sent today)");
    reflexivity.
Defined.

(** X21.  [parse_payload_from_text] raises its own [ValueError], whatever
    [json.loads] would do, for every text in which no opening brace is
    followed, at some distance, by a closing brace.  For every other text its
    outcome is that of [load_json_payload] on the part from the first opening
    brace to the last closing brace; this may be a [ValueError] too
    ([PedigreeValidationError] is one, and [json.loads] raises one on an
    integer literal beyond the digit limit). *)
Theorem X21_parse_payload_guard
    (strptime : string -> bool) (loads : string -> loads_failure + json) (text : string) :
  (~ (exists pre mid post, text = pre +:+ "{" +:+ mid +:+ "}" +:+ post) ->
   parse_payload_from_text strptime loads text = Raise ValueError) /\
  ((exists pre mid post, text = pre +:+ "{" +:+ mid +:+ "}" +:+ post) ->
   exists pre mid post,
     text = pre +:+ "{" +:+ mid +:+ "}" +:+ post /\
     str_contains "{" pre = false /\ str_contains "}" post = false /\
     parse_payload_from_text strptime loads text
     = load_json_payload strptime loads ("{" +:+ mid +:+ "}")).
Proof.
  assert (Hcanon : str_find "{" text <> -1 -> str_rfind "}" text <> -1 ->
                   str_find "{" text < str_rfind "}" text ->
                   exists pre mid post,
                     text = pre +:+ "{" +:+ mid +:+ "}" +:+ post /\
                     str_contains "{" pre = false /\
                     str_contains "}" post = false).
  { intros Hs He Hlt.
    destruct (str_find_first_spec "{"%char text Hs) as (p1 & r1 & Ht1 & Hp1).
    destruct (str_rfind_last_spec "}"%char text He) as (p2 & r2 & Ht2 & Hr2).
    change (String "{"%char "") with "{" in *. change (String "}"%char "") with "}" in *.
    assert (Hl1 : str_find "{" text = Z.of_nat (String.length p1)).
    { rewrite Ht1. apply (str_find_first "{"%char). exact Hp1. }
    assert (Hl2 : str_rfind "}" text = Z.of_nat (String.length p2)).
    { rewrite Ht2. apply (str_rfind_last "}"%char). exact Hr2. }
    rewrite Hl1, Hl2 in Hlt.
    destruct (string_app_split p1 p2 (String "{" r1) (String "}" r2)) as (m & -> & Hm);
      [congruence|lia|].
    destruct m as [|x m].
    { rewrite string_app_length in Hlt. simpl in Hlt. lia. }
    rewrite string_app_cons in Hm. injection Hm as <- Hm.
    exists p1, m, r2. split; [|split; assumption].
    rewrite Ht2, string_app_assoc. reflexivity. }
  split.
  - intros Hno. unfold parse_payload_from_text.
    destruct (Z.eqb_spec (str_find "{" text) (-1)) as [|Hs]; [reflexivity|].
    destruct (Z.eqb_spec (str_rfind "}" text) (-1)) as [|He]; [reflexivity|].
    destruct (Z.leb_spec (str_rfind "}" text) (str_find "{" text)) as [|Hlt];
      [reflexivity|].
    exfalso. apply Hno. destruct (Hcanon Hs He Hlt) as (pre & mid & post & H & _).
    eauto.
  - intros (pre & mid & post & ->).
    pose proof (str_find_le "{"%char pre (mid +:+ "}" +:+ post)) as Hs.
    pose proof (str_rfind_ge "}"%char (pre +:+ "{" +:+ mid) post) as He.
    rewrite !string_app_assoc in He.
    rewrite !string_app_length in He. cbn [String.length] in He.
    change (String "{" (mid +:+ "}" +:+ post)) with ("{" +:+ mid +:+ "}" +:+ post) in Hs.
    change (String "}" post) with ("}" +:+ post) in He.
    change (String "{"%char "") with "{" in *. change (String "}"%char "") with "}" in *.
    destruct (Hcanon ltac:(lia) ltac:(lia) ltac:(lia))
      as (pre' & mid' & post' & Heq & Hpre & Hpost).
    exists pre', mid', post'. split; [exact Heq|]. split; [exact Hpre|].
    split; [exact Hpost|]. rewrite Heq.
    apply outer_braces_payload; assumption.
Qed.

Lemma X21_parse_payload_guard_witness :
  parse_payload_from_text strptime_ymd_ascii (loads_table []) "} no object {"
  = Raise ValueError.
Proof.
  apply (X21_parse_payload_guard strptime_ymd_ascii (loads_table []) "} no object {").
  intros (pre & mid & post & H).
  assert (Hf : str_find "{" ("} no object {") <= Z.of_nat (String.length pre)).
  { rewrite H. apply (str_find_le "{"%char). }
  assert (Hr : Z.of_nat (String.length (pre +:+ "{" +:+ mid))
               <= str_rfind "}" ("} no object {")).
  { rewrite H. pose proof (str_rfind_ge "}"%char (pre +:+ "{" +:+ mid) post) as Hge.
    rewrite !string_app_assoc in Hge. exact Hge. }
  rewrite !string_app_length in Hr.
  change (str_find "{" "} no object {") with 12 in Hf.
  change (str_rfind "}" "} no object {") with 0 in Hr.
  lia.
Defined.

(** With braces around a text that is not JSON the exception is the one of
    the schema layer, which [except ValueError] catches as well. *)
Example braces_around_invalid_json :
  parse_payload_from_text strptime_ymd_ascii (loads_table []) "see {x} here"
  = Raise (PedigreeValidationError (InvalidJSON "Expecting value")) /\
  is_ValueError (PedigreeValidationError (InvalidJSON "Expecting value")) = true /\
  is_ValueError ValueError = true /\
  is_ValueError TypeError = false.
Proof. repeat split. Qed.

(** ** Pseudonymising twice, and what is not a pedigree *)

Lemma pseudonymize_value repr depth h v dtop people persons :
  json_dumps depth h v = Ok (JDict dtop) ->
  dict_get "people" dtop = Some people -> py_iter people = Ok persons ->
  Forall has_int_id persons ->
  exists h' a,
    pseudonymize_pedigree repr depth h v = Ok (h', a) /\
    json_dumps depth h' a = Ok (pseudo_json (JDict dtop)).
Proof.
  intros Hdump Hp Hi Hv.
  destruct (dumps_loads_fresh _ _ _ _ Hdump h) as (ext & a & Hload & Hrep).
  destruct (assign_names_rep repr depth (h ++ ext) (length h) (length h + length ext)
              a dtop people persons Hrep Hp Hi Hv) as (h2 & Hassign & Hrep2 & _).
  exists h2, a. split.
  - unfold pseudonymize_pedigree. rewrite Hdump. cbn [bind].
    rewrite Hload, Hassign. reflexivity.
  - eapply rep_dumps. exact Hrep2.
Qed.

Lemma pseudo_person_idem q : pseudo_person (pseudo_person q) = pseudo_person q.
Proof.
  destruct q; try reflexivity. cbn [pseudo_person].
  destruct (dict_get "id" d) as [idv|] eqn:E; cbn [pseudo_person]; rewrite ?E; [|reflexivity].
  rewrite dict_get_set_ne by discriminate. rewrite E, dict_set_set. reflexivity.
Qed.

Lemma pseudo_json_idem p : pseudo_json (pseudo_json p) = pseudo_json p.
Proof.
  destruct p; try reflexivity. cbn [pseudo_json].
  destruct (dict_get "people" d) as [people|] eqn:E; cbn [pseudo_json]; rewrite ?E;
    [|reflexivity].
  destruct people; cbn [pseudo_json]; rewrite ?E; try reflexivity.
  rewrite dict_get_set_eq, dict_set_set, map_map. do 3 f_equal.
  apply map_ext. intros q. apply pseudo_person_idem.
Qed.

Lemma pseudo_person_well_formed strptime p z :
  well_formed_person strptime p z -> well_formed_person strptime (pseudo_person p) z.
Proof.
  intros (d & idv & n & g & dob & cs & -> & Hid & Hz & Hn & Hg & Hgin & Hd & Hdok & Hc).
  unfold pseudo_person. rewrite Hid.
  eexists _, idv, _, g, dob, cs. split; [reflexivity|].
  rewrite dict_get_set_eq, !dict_get_set_ne by discriminate.
  repeat split; try assumption; reflexivity.
Qed.

Lemma validate_accepts strptime d people relationships persons rels ids :
  dict_get "people" d = Some people ->
  dict_get "relationships" d = Some relationships ->
  py_iter people = Ok persons -> py_iter relationships = Ok rels ->
  Forall2 (well_formed_person strptime) persons ids ->
  Forall (well_formed_relationship ids) rels ->
  validate_pedigree strptime (JDict d) = Ok (true, None).
Proof.
  intros Hp Hr Hpi Hri Hps Hrs.
  unfold validate_pedigree. rewrite Hp, Hr, Hpi. cbn [bind].
  rewrite (check_each_persons_accepts _ _ _ [] Hps). cbn [bind app].
  rewrite Hri. cbn [bind].
  assert (H2 : check_each (fun _ : unit => validate_relationship ids) rels tt
               = Ok (Continue tt)).
  { clear Hri. induction Hrs as [|r rs Hr0 _ IH]; cbn [check_each]; [reflexivity|].
    rewrite (validate_relationship_accepts _ _ Hr0). cbn [bind]. exact IH. }
  rewrite H2. reflexivity.
Qed.

Lemma pseudo_json_valid strptime p :
  validate_pedigree strptime p = Ok (true, None) ->
  validate_pedigree strptime (pseudo_json p) = Ok (true, None).
Proof.
  intros Hv. pose proof Hv as Hv'.
  apply validate_pedigree_true in Hv'
    as (d & people & relationships & persons & ids & rels
        & -> & _ & Hp & Hr & Hpi & Hps & Hri & Hrs).
  apply check_each_persons_wf in Hps as (ids' & Hwf & ->). simpl in Hrs.
  unfold pseudo_json. rewrite Hp. destruct people; try exact Hv.
  injection Hpi as <-.
  eapply (validate_accepts strptime _ _ relationships (map pseudo_person l) rels ids').
  - apply dict_get_set_eq.
  - rewrite dict_get_set_ne by discriminate. exact Hr.
  - reflexivity.
  - exact Hri.
  - clear -Hwf. induction Hwf; simpl; constructor;
      auto using pseudo_person_well_formed.
  - eapply Forall_impl; [exact Hrs|]. intros rel [u Hu].
    eapply validate_relationship_Continue_wf. exact Hu.
Qed.

(** X22.  What [pseudonymize_pedigree] returns for a validated pedigree is
    again accepted by [validate_pedigree], and pseudonymising it a second
    time returns a pedigree with the same value: the operation is
    idempotent. *)
Theorem X22_pseudonymize_valid_and_idempotent
    (repr : heap -> val -> string) (strptime : string -> bool)
    (depth : nat) (h : heap) (pedigree : val) (p : json) :
  json_dumps depth h pedigree = Ok p ->
  validate_pedigree strptime p = Ok (true, None) ->
  exists h1 a1 p1 h2 a2,
    pseudonymize_pedigree repr depth h pedigree = Ok (h1, a1) /\
    json_dumps depth h1 a1 = Ok p1 /\
    validate_pedigree strptime p1 = Ok (true, None) /\
    pseudonymize_pedigree repr depth h1 a1 = Ok (h2, a2) /\
    json_dumps depth h2 a2 = Ok p1.
Proof.
  intros Hdump Hvalid.
  pose proof (pseudo_json_valid strptime p Hvalid) as Hvalid1.
  destruct (valid_people _ _ Hvalid) as (dtop & people & persons & -> & Hp & Hi & Hv).
  destruct (pseudonymize_value repr depth h pedigree dtop people persons
              Hdump Hp Hi Hv) as (h1 & a1 & Hrun1 & Hdump1).
  destruct (valid_people _ _ Hvalid1) as (dtop1 & people1 & persons1 & Heq & Hp1 & Hi1 & Hv1).
  rewrite Heq in Hdump1.
  destruct (pseudonymize_value repr depth h1 a1 dtop1 people1 persons1
              Hdump1 Hp1 Hi1 Hv1) as (h2 & a2 & Hrun2 & Hdump2).
  rewrite <- Heq in Hdump1, Hdump2. rewrite pseudo_json_idem in Hdump2.
  exists h1, a1, (pseudo_json (JDict dtop)), h2, a2. auto.
Qed.

Lemma X22_pseudonymize_valid_and_idempotent_witness :
  json_dumps 4 (fst sample_store) (snd sample_store) = Ok sample_payload /\
  validate_pedigree strptime_ymd_ascii sample_payload = Ok (true, None) /\
  exists h1 a1 p1 h2 a2,
    pseudonymize_pedigree (fun _ _ => "") 4 (fst sample_store) (snd sample_store)
      = Ok (h1, a1) /\
    json_dumps 4 h1 a1 = Ok p1 /\
    validate_pedigree strptime_ymd_ascii p1 = Ok (true, None) /\
    pseudonymize_pedigree (fun _ _ => "") 4 h1 a1 = Ok (h2, a2) /\
    json_dumps 4 h2 a2 = Ok p1.
Proof.
  split; [vm_compute; reflexivity|]. split; [vm_compute; reflexivity|].
  apply (X22_pseudonymize_valid_and_idempotent (fun _ _ => "") strptime_ymd_ascii 4
           (fst sample_store) (snd sample_store) sample_payload);
    vm_compute; reflexivity.
Defined.

Lemma dict_get_same_keys {A B} (k : string) (kvs : list (string * A))
    (e : list (string * B)) :
  map fst kvs = map fst e -> dict_get k e = None -> dict_get k kvs = None.
Proof.
  revert e. induction kvs as [|[k1 v1] kvs IH]; intros [|[k2 j2] e] Hk H;
    try discriminate; [reflexivity|].
  injection Hk as <- Hk. cbn [dict_get] in *.
  destruct (decide (k = k1)); [discriminate|eauto].
Qed.

Lemma for_each_app {A S} (body : S -> A -> result S) xs ys s :
  for_each body (xs ++ ys) s = (s' <- for_each body xs s ;; for_each body ys s').
Proof.
  revert s. induction xs as [|x xs IH]; intros s; cbn [app for_each bind]; [reflexivity|].
  destruct (body s x) as [s1|e]; cbn [bind]; [apply IH|reflexivity].
Qed.

Lemma rep_seq_app_inv (R : nat -> nat -> val -> json -> Prop) js1 js2 : forall vs lo hi,
  rep_seq R lo hi vs (js1 ++ js2) ->
  exists vs1 vs2 mid,
    vs = vs1 ++ vs2 /\ rep_seq R lo mid vs1 js1 /\ rep_seq R mid hi vs2 js2.
Proof.
  induction js1 as [|j js1 IH]; intros vs lo hi H.
  - exists [], vs, lo. repeat split; [|exact H]. simpl. lia.
  - destruct vs as [|v vs]; [destruct H|]. cbn [app rep_seq] in H.
    destruct H as (mid & Hmid & Hv & Hrest).
    destruct (IH vs mid hi Hrest) as (vs1 & vs2 & mid' & -> & H1 & H2).
    exists (v :: vs1), vs2, mid'. repeat split; [|exact H2].
    cbn [rep_seq]. exists mid. auto.
Qed.

Lemma person_without_id repr d h lo hi v e :
  rep d h lo hi v (JDict e) -> dict_get "id" e = None ->
  pseudonymize_person repr h v = Raise KeyError.
Proof.
  intros Hrep Hid.
  apply rep_dict_inv in Hrep as (d' & l & kvs & -> & -> & Hl & Hcell & Hk & Hseq).
  unfold pseudonymize_person, heap_getitem. rewrite Hcell.
  rewrite (dict_get_same_keys "id" kvs e Hk Hid). reflexivity.
Qed.

(** X23.  [pseudonymize_pedigree] reads the id of each person with a
    subscript: on a pedigree whose list of people holds a mapping without
    [id], after people with integer ids, it raises [KeyError]. *)
Theorem X23_pseudonymize_person_without_id_KeyError
    (repr : heap -> val -> string) (depth : nat) (h : heap) (pedigree : val)
    (dtop e : list (string * json)) (good rest : list json) :
  json_dumps depth h pedigree = Ok (JDict dtop) ->
  dict_get "people" dtop = Some (JList (good ++ JDict e :: rest)) ->
  Forall has_int_id good ->
  dict_get "id" e = None ->
  pseudonymize_pedigree repr depth h pedigree = Raise KeyError.
Proof.
  intros Hdump Hp Hgood Hid.
  destruct (dumps_loads_fresh _ _ _ _ Hdump h) as (ext & a & Hload & Hrep).
  unfold pseudonymize_pedigree. rewrite Hdump. cbn [bind]. rewrite Hload.
  apply rep_dict_inv in Hrep as (d & l & kvs & -> & -> & Hl & Hcell & Hk & Hseq).
  destruct (entries_replace d (h ++ ext) "people" _ kvs dtop _ l Hk Hseq Hp)
    as (pv & lo' & hi' & Hgp & _ & _ & Hrepp & _).
  apply rep_list_inv in Hrepp as (d' & l0 & pvs & -> & -> & Hlp & Hpcell & Hrepp).
  apply rep_seq_app_inv in Hrepp as (vs1 & vs2 & mid & -> & Hrep1 & Hrep2).
  destruct vs2 as [|bad vs2]; [destruct Hrep2|].
  destruct Hrep2 as (mid' & Hmid' & Hbad & _).
  destruct (persons_loop repr d' vs1 good lo' mid (h ++ ext) Hrep1 Hgood)
    as (h1 & Hloop & _ & Hout & _).
  unfold assign_names, heap_get. rewrite Hcell, Hgp. cbn [bind].
  unfold heap_iter. rewrite Hpcell. cbn [bind].
  rewrite for_each_app, Hloop. cbn [bind for_each].
  rewrite (person_without_id repr d' h1 mid mid' bad e); [reflexivity| |exact Hid].
  eapply rep_frame; [|exact Hbad]. intros l1 Hl1. apply Hout. lia.
Qed.

Lemma X23_pseudonymize_person_without_id_witness :
  pseudonymize_pedigree (fun _ _ => "") 4 (fst nameless_store) (snd nameless_store)
  = Raise KeyError.
Proof.
  refine (X23_pseudonymize_person_without_id_KeyError (fun _ _ => "") 4
            (fst nameless_store) (snd nameless_store)
            [("people", JList [JDict [("id", JInt 1)]; JDict [("name", JStr "B")]])]
            [("name", JStr "B")] [JDict [("id", JInt 1)]] [] _ _ _ _).
  - vm_compute. reflexivity.
  - reflexivity.
  - repeat constructor. exists [("id", JInt 1)], (JInt 1), 1. repeat split.
  - reflexivity.
Defined.

(** X24.  [pseudonymize_pedigree] on a value that is not a mapping raises
    [AttributeError]; on a mapping without [people] it returns a copy with the
    same value. *)
Theorem X24_pseudonymize_without_people
    (repr : heap -> val -> string) (depth : nat) (h : heap) (pedigree : val)
    (p : json) :
  json_dumps depth h pedigree = Ok p ->
  match p with
  | JDict d =>
      dict_get "people" d = None ->
      exists h' a, pseudonymize_pedigree repr depth h pedigree = Ok (h', a) /\
                   json_dumps depth h' a = Ok p
  | _ => pseudonymize_pedigree repr depth h pedigree = Raise AttributeError
  end.
Proof.
  intros Hdump.
  destruct (dumps_loads_fresh _ _ _ _ Hdump h) as (ext & a & Hload & Hrep).
  unfold pseudonymize_pedigree. rewrite Hdump. cbn [bind]. rewrite Hload.
  destruct p as [| | | | |js|d];
    try (destruct a; try reflexivity;
         apply rep_ref_inv in Hrep as (d' & _ & _ & Hrep);
         destruct (_ !! _) as [[?|?]|]; tauto).
  - apply rep_list_inv in Hrep as (d' & l & vs & -> & -> & _ & Hcell & _).
    unfold assign_names, heap_get. rewrite Hcell. reflexivity.
  - intros Hnone. pose proof Hrep as Hrep'.
    apply rep_dict_inv in Hrep' as (d' & l & kvs & -> & -> & _ & Hcell & Hk & _).
    exists (h ++ ext), (VRef l). split.
    + unfold assign_names, heap_get. rewrite Hcell.
      rewrite (dict_get_same_keys "people" kvs d Hk Hnone). reflexivity.
    + eapply rep_dumps. exact Hrep.
Qed.

Lemma X24_pseudonymize_without_people_witness :
  exists h' a,
    pseudonymize_pedigree (fun _ _ => "") 4 [ODict [("relationships", VRef 1)]; OList []]
      (VRef 0) = Ok (h', a) /\
    json_dumps 4 h' a = Ok (JDict [("relationships", JList [])]).
Proof.
  apply (X24_pseudonymize_without_people (fun _ _ => "") 4
           [ODict [("relationships", VRef 1)]; OList []] (VRef 0)
           (JDict [("relationships", JList [])])); reflexivity.
Defined.


(** ** The offline answer of the chat engine *)

Lemma fallback_people_valid strptime (prompt : string) :
  validate_pedigree strptime (_fallback_pedigree prompt) = Ok (true, None) /\
  normalize_pedigree (_fallback_pedigree prompt) = Ok (_fallback_pedigree prompt).
Proof.
  unfold _fallback_pedigree.
  set (user_line := str_lower _).
  destruct (str_contains "mother" user_line), (str_contains "father" user_line),
    (str_contains "me" user_line), (str_contains "i am" user_line);
    split; reflexivity.
Qed.

(** X25.  Whatever the prompt, the pedigree that the offline
    [_fallback_response] serialises is accepted by [validate_pedigree] and is
    left unchanged by [normalize_pedigree]: its people are numbered from 1 in
    order, and its one relationship, between 1 and 2, is there only when
    there are two people.  So [load_json_payload] returns it as it is from
    any text that parses to it. *)
Theorem X25_fallback_pedigree_is_valid (strptime : string -> bool) (prompt : string) :
  validate_pedigree strptime (_fallback_pedigree prompt) = Ok (true, None) /\
  normalize_pedigree (_fallback_pedigree prompt) = Ok (_fallback_pedigree prompt) /\
  forall (loads : string -> loads_failure + json) (text : string),
    loads text = inr (_fallback_pedigree prompt) ->
    load_json_payload strptime loads text = Ok (_fallback_pedigree prompt).
Proof.
  destruct (fallback_people_valid strptime prompt) as [Hvalid Hnorm].
  split; [exact Hvalid|]. split; [exact Hnorm|].
  intros loads text Hloads. unfold load_json_payload.
  rewrite Hloads, Hnorm. cbn [bind]. rewrite Hvalid. reflexivity.
Qed.

Lemma list_ascii_app (a b : string) :
  list_ascii_of_string (a +:+ b) = list_ascii_of_string a ++ list_ascii_of_string b.
Proof.
  induction a as [|c a IH]; [reflexivity|].
  rewrite string_app_cons. cbn [list_ascii_of_string app]. rewrite IH. reflexivity.
Qed.

Lemma string_of_list_app (l1 l2 : list ascii) :
  string_of_list_ascii (l1 ++ l2) = string_of_list_ascii l1 +:+ string_of_list_ascii l2.
Proof.
  induction l1 as [|c l1 IH]; [reflexivity|].
  cbn [app string_of_list_ascii]. rewrite IH. reflexivity.
Qed.

Lemma drop_spaces_inner (a w b : list ascii) (c : ascii) :
  is_space c = false ->
  exists a', drop_spaces (a ++ c :: w ++ b) = a' ++ c :: w ++ b.
Proof.
  intros Hc. induction a as [|x a IH]; cbn [app drop_spaces].
  - rewrite Hc. exists []. reflexivity.
  - destruct (is_space x); [exact IH|]. exists (x :: a). reflexivity.
Qed.

(** Stripping keeps a word whose first and last characters are not white
    space, wherever it stands. *)
Lemma strip_list_inner (a w b : list ascii) (c c' : ascii) :
  is_space c = false -> is_space c' = false ->
  exists a' b', strip_list (a ++ (c :: w ++ [c']) ++ b) = a' ++ (c :: w ++ [c']) ++ b'.
Proof.
  intros Hc Hc'. unfold strip_list.
  destruct (drop_spaces_inner a (w ++ [c']) b c Hc) as [a' Ha].
  replace (a ++ (c :: w ++ [c']) ++ b) with (a ++ c :: (w ++ [c']) ++ b)
    by (cbn [app]; rewrite <- !app_assoc; reflexivity).
  rewrite Ha.
  replace (rev (a' ++ c :: (w ++ [c']) ++ b))
    with (rev b ++ c' :: rev w ++ rev (a' ++ [c])).
  2:{ rewrite !rev_app_distr. cbn [rev app]. rewrite !rev_app_distr.
      cbn [rev app]. rewrite <- !app_assoc. reflexivity. }
  destruct (drop_spaces_inner (rev b) (rev w) (rev (a' ++ [c])) c' Hc') as [b' Hb].
  rewrite Hb. exists a', (rev b').
  rewrite rev_app_distr. cbn [rev]. rewrite !rev_app_distr, !rev_involutive.
  cbn [rev app]. rewrite <- !app_assoc. reflexivity.
Qed.

Lemma str_strip_inner (a b : string) (w : list ascii) (c c' : ascii) :
  is_space c = false -> is_space c' = false ->
  exists a' b',
    str_strip (a +:+ string_of_list_ascii (c :: w ++ [c']) +:+ b)
    = a' +:+ string_of_list_ascii (c :: w ++ [c']) +:+ b'.
Proof.
  intros Hc Hc'. unfold str_strip.
  rewrite !list_ascii_app, list_ascii_of_string_of_list_ascii.
  destruct (strip_list_inner (list_ascii_of_string a) w (list_ascii_of_string b)
              c c' Hc Hc') as (a' & b' & ->).
  exists (string_of_list_ascii a'), (string_of_list_ascii b').
  rewrite !string_of_list_app. reflexivity.
Qed.

(** The first occurrence of a text in a text. *)
Lemma str_find_sub_spec (sub s : string) :
  str_find sub s <> -1 ->
  exists pre rest,
    s = pre +:+ sub +:+ rest /\ str_find sub s = Z.of_nat (String.length pre).
Proof.
  induction s as [|a s IH]; cbn [str_find].
  - destruct (String.prefix sub "") eqn:E; [|congruence]. intros _.
    apply prefix_spec in E as [rest E]. exists "", rest. split; [exact E|reflexivity].
  - destruct (String.prefix sub (String a s)) eqn:E.
    + intros _. apply prefix_spec in E as [rest E].
      exists "", rest. split; [exact E|reflexivity].
    + destruct (Z.eqb_spec (str_find sub s) (-1)) as [|Hs]; [congruence|].
      intros _. destruct (IH Hs) as (pre & rest & -> & Hlen).
      exists (String a pre), rest. split; [reflexivity|].
      rewrite Hlen. cbn [String.length]. lia.
Qed.

Lemma string_app_nil_r (a : string) : a +:+ "" = a.
Proof. induction a as [|c a IH]; [reflexivity|]. rewrite string_app_cons, IH. reflexivity. Qed.

Lemma string_cut (y : string) : forall k : nat,
  (k <= String.length y)%nat ->
  exists y1 y2, y = y1 +:+ y2 /\ String.length y1 = k.
Proof.
  induction y as [|c y IH]; intros k Hk.
  - exists "", "". split; [reflexivity|]. simpl in *. lia.
  - destruct k as [|k]; [exists "", (String c y); split; reflexivity|].
    destruct (IH k) as (y1 & y2 & -> & Hlen); [simpl in Hk; lia|].
    exists (String c y1), y2. split; [reflexivity|]. simpl. lia.
Qed.

Section LastPiece.
Variables (sep tail : string) (c0 : ascii) (tail' : string).
Hypothesis tail_head : tail = String c0 tail'.
Hypothesis head_not_in_sep : str_contains (String c0 "") sep = false.
Hypothesis sep_not_in_tail : str_contains sep tail = false.

(** An occurrence of [sep] in a text that ends with [tail] lies before
    [tail]. *)
Lemma occurrence_before_tail (y : string) :
  str_find sep (y +:+ tail) <> -1 ->
  (Z.to_nat (str_find sep (y +:+ tail)) + String.length sep <= String.length y)%nat.
Proof using tail_head head_not_in_sep sep_not_in_tail.
  intros H. destruct (str_find_sub_spec sep (y +:+ tail) H) as (pre & rest & Heq & ->).
  rewrite Nat2Z.id.
  destruct (le_lt_dec (String.length pre + String.length sep) (String.length y))
    as [|Hover]; [assumption|exfalso].
  destruct (le_lt_dec (String.length y) (String.length pre)) as [Hle|Hlt].
  - (* the occurrence lies in [tail] *)
    destruct (string_app_split y pre tail (sep +:+ rest) Heq Hle) as (m & _ & Ht).
    assert (Hc : str_contains sep tail = true)
      by (apply str_contains_spec; eauto).
    congruence.
  - (* the occurrence straddles the start of [tail] *)
    symmetry in Heq.
    destruct (string_app_split pre y (sep +:+ rest) tail Heq) as (m & Hy & Hm); [lia|].
    assert (Hlen : (String.length m < String.length sep)%nat).
    { rewrite Hy, string_app_length in Hover. lia. }
    symmetry in Hm.
    destruct (string_app_split m sep tail rest Hm) as (v & Hsep & Htail); [lia|].
    destruct v as [|c v].
    { rewrite Hsep, string_app_length in Hlen. simpl in Hlen. lia. }
    rewrite tail_head, string_app_cons in Htail. injection Htail as <- _.
    assert (Hc : str_contains (String c0 "") sep = true).
    { apply str_contains_spec. exists m, v. rewrite Hsep. reflexivity. }
    congruence.
Qed.

Lemma split_loop_nonempty fuel s : split_loop fuel sep s <> [].
Proof using Type.
  destruct fuel; cbn [split_loop]; [discriminate|].
  destruct (str_find sep s =? -1); discriminate.
Qed.

(** The last piece of a text that ends with [tail] ends with [tail]. *)
Lemma last_piece_keeps_tail fuel : forall y,
  exists x, default "" (last (split_loop fuel sep (y +:+ tail))) = x +:+ tail.
Proof using tail_head head_not_in_sep sep_not_in_tail.
  induction fuel as [|fuel IH]; intros y; cbn [split_loop].
  - exists y. reflexivity.
  - destruct (Z.eqb_spec (str_find sep (y +:+ tail)) (-1)) as [|Hfound].
    + exists y. reflexivity.
    + pose proof (occurrence_before_tail y Hfound) as Hle.
      assert (Hnonneg : 0 <= str_find sep (y +:+ tail)).
      { destruct (str_find_sub_spec sep _ Hfound) as (? & ? & _ & ->). lia. }
      destruct (string_cut y (Z.to_nat (str_find sep (y +:+ tail)) + String.length sep))
        as (y1 & y2 & -> & Hy1); [exact Hle|].
      assert (Hrest : str_slice ((y1 +:+ y2) +:+ tail)
                        (str_find sep ((y1 +:+ y2) +:+ tail)
                         + Z.of_nat (String.length sep))
                        (Z.of_nat (String.length ((y1 +:+ y2) +:+ tail)))
                      = y2 +:+ tail).
      { replace (str_find sep ((y1 +:+ y2) +:+ tail) + Z.of_nat (String.length sep))
          with (Z.of_nat (String.length y1)) by lia.
        replace ((y1 +:+ y2) +:+ tail) with (y1 +:+ (y2 +:+ tail) +:+ "")
          by (rewrite string_app_nil_r, string_app_assoc; reflexivity).
        replace (Z.of_nat (String.length (y1 +:+ (y2 +:+ tail) +:+ "")))
          with (Z.of_nat (String.length y1) + Z.of_nat (String.length (y2 +:+ tail)))
          by (rewrite !string_app_length; simpl; lia).
        apply str_slice_app. }
      rewrite Hrest. destruct (IH y2) as [x Hx]. exists x.
      rewrite <- Hx.
      destruct (split_loop fuel sep (y2 +:+ tail)) as [|p ps] eqn:E.
      { destruct (split_loop_nonempty fuel _ E). }
      rewrite last_cons_cons. reflexivity.
Qed.
End LastPiece.

Lemma prompt_tail_name :
  exists t1 t2, PROMPT_TAIL = t1 +:+ "name" +:+ t2.
Proof.
  exists (newline +:+ "Extract/update as strict JSON (no extra text): {"
          +:+ quoted "people" +:+ ": [{" +:+ quoted "id" +:+ ": int (sequential), "
          +:+ dquote).
  eexists. vm_compute. reflexivity.
Qed.

Lemma user_line_has_me (y : string) :
  str_contains "me"
    (str_lower (str_strip (default "" (last (str_split "User:" (y +:+ PROMPT_TAIL))))))
  = true.
Proof.
  destruct (last_piece_keeps_tail "User:" PROMPT_TAIL (ascii_of_nat 10)
              (String.substring 1 (String.length PROMPT_TAIL) PROMPT_TAIL)
              eq_refl eq_refl eq_refl
              (String.length (y +:+ PROMPT_TAIL)) y) as [x Hx].
  unfold str_split. rewrite Hx.
  destruct prompt_tail_name as (t1 & t2 & ->).
  destruct (str_strip_inner (x +:+ t1) t2 ["a"%char; "m"%char] "n"%char "e"%char
              eq_refl eq_refl) as (a' & b' & Hs).
  change (string_of_list_ascii ("n"%char :: ["a"%char; "m"%char] ++ ["e"%char]))
    with "name" in Hs.
  rewrite string_app_assoc in Hs. rewrite Hs.
  apply str_contains_spec.
  exists (str_lower a' +:+ "na"), (str_lower b').
  rewrite !str_lower_app, !string_app_assoc. reflexivity.
Qed.

(** X26.  For a prompt made by [build_prompt], the offline
    [_fallback_response] always adds the person named Proband, whatever the
    message says: the test for "me" reads the text after the last "User:",
    which includes the end of the template, and that end contains "name". *)
Theorem X26_fallback_always_adds_proband
    (repr : json -> string) (history : list json) (user_input prompt : string) :
  build_prompt repr history user_input = Ok prompt ->
  exists others k rels,
    _fallback_pedigree prompt =
      JDict [("people", JList (others ++ [fallback_person k "Proband" "O"]));
             ("relationships", JList rels)].
Proof.
  unfold build_prompt. intros H. inv_bind H as h Hh. injection H as <-.
  unfold _fallback_pedigree.
  rewrite <- !string_app_assoc. rewrite (user_line_has_me _). cbn [orb].
  eexists _, _, _. reflexivity.
Qed.

Lemma X26_fallback_always_adds_proband_witness :
  exists others k rels,
    _fallback_pedigree
      (PROMPT_HEAD +:+ "No prior history" +:+ PROMPT_MIDDLE
       +:+ "My aunt has asthma" +:+ PROMPT_TAIL) =
      JDict [("people", JList (others ++ [fallback_person k "Proband" "O"]));
             ("relationships", JList rels)].
Proof.
  apply (X26_fallback_always_adds_proband (fun _ => "") [] "My aunt has asthma").
  reflexivity.
Defined.

(** ** Splitting the answer of the model *)

Lemma strip_list_fixed (c c' : ascii) (w : list ascii) :
  is_space c = false -> is_space c' = false ->
  strip_list (c :: w ++ [c']) = c :: w ++ [c'].
Proof.
  intros Hc Hc'. unfold strip_list.
  assert (Hrev : rev (c :: w ++ [c']) = c' :: rev (c :: w)).
  { change (c :: w ++ [c']) with ((c :: w) ++ [c']). apply rev_app_distr. }
  assert (Hdrop : drop_spaces (c :: w ++ [c']) = c :: w ++ [c'])
    by (cbn [drop_spaces]; rewrite Hc; reflexivity).
  rewrite Hdrop, Hrev. cbn [drop_spaces]. rewrite Hc', <- Hrev.
  apply rev_involutive.
Qed.

Lemma str_strip_fixed (c c' : ascii) (w : string) :
  is_space c = false -> is_space c' = false ->
  str_strip (String c (w +:+ String c' "")) = String c (w +:+ String c' "").
Proof.
  intros Hc Hc'. unfold str_strip. cbn [list_ascii_of_string].
  rewrite list_ascii_app. cbn [list_ascii_of_string].
  rewrite strip_list_fixed by assumption.
  cbn [string_of_list_ascii]. rewrite string_of_list_app.
  rewrite string_of_list_ascii_of_string. reflexivity.
Qed.

(** A text without line breaks goes into the current line. *)
Lemma splitlines_from_app (a rest : string) : forall cur,
  forallb (fun c => negb (is_linebreak c)) (list_ascii_of_string a) = true ->
  splitlines_from (a +:+ rest) cur
  = splitlines_from rest (rev (list_ascii_of_string a) ++ cur).
Proof.
  induction a as [|c a IH]; intros cur H; [reflexivity|].
  cbn [list_ascii_of_string forallb] in H. apply andb_true_iff in H as [Hc H].
  rewrite string_app_cons. cbn [splitlines_from].
  destruct (is_linebreak c); [discriminate|].
  rewrite IH by exact H. cbn [list_ascii_of_string rev].
  rewrite <- app_assoc. reflexivity.
Qed.

(** X27.  Without a model ([ollama] gives nothing), [process_user_message]
    returns the pedigree of [_fallback_response] itself, with the fixed
    follow-up question; this needs of [json.dumps] and [json.loads] only
    that the text written for that pedigree is one line between braces and
    is read back as the same value. *)
Theorem X27_offline_message_returns_fallback
    (strptime : string -> bool) (loads : string -> loads_failure + json)
    (dumps repr : json -> string) (ollama : string -> option string)
    (history : list json) (user_input prompt body : string) :
  build_prompt repr history user_input = Ok prompt ->
  ollama prompt = None ->
  dumps (_fallback_pedigree prompt) = "{" +:+ body +:+ "}" ->
  forallb (fun c => negb (is_linebreak c)) (list_ascii_of_string body) = true ->
  loads ("{" +:+ body +:+ "}") = inr (_fallback_pedigree prompt) ->
  process_user_message strptime loads dumps repr ollama history user_input =
    Ok {| pedigree := _fallback_pedigree prompt;
          follow_up_question := Some "Who else in your family should be included?";
          raw_text := "{" +:+ body +:+ "}" +:+ newline
                      +:+ "Who else in your family should be included?" |}.
Proof.
  intros Hprompt Hnone Hdumps Hline Hloads.
  unfold process_user_message. rewrite Hprompt. cbn [bind].
  unfold _call_ollama_langchain. rewrite Hnone.
  unfold _fallback_response. rewrite Hdumps.
  set (F := "Who else in your family should be included?").
  assert (Hassoc : ("{" +:+ body +:+ "}") +:+ newline +:+ F
                   = "{" +:+ body +:+ "}" +:+ newline +:+ F).
  { rewrite !string_app_cons, string_app_nil_l, string_app_assoc. reflexivity. }
  rewrite Hassoc. unfold _split_json_and_question.
  assert (Hstrip : str_strip ("{" +:+ body +:+ "}" +:+ newline +:+ F)
                   = ("{" +:+ body +:+ "}") +:+ newline +:+ F).
  { rewrite Hassoc.
    replace ("{" +:+ body +:+ "}" +:+ newline +:+ F)
      with (String "{" ((body +:+ "}" +:+ newline
                         +:+ "Who else in your family should be included")
                        +:+ String "?" "")).
    2:{ rewrite !string_app_cons, string_app_nil_l, string_app_assoc.
        do 2 f_equal. }
    apply str_strip_fixed; reflexivity. }
  rewrite Hstrip.
  assert (Hlines : str_splitlines (("{" +:+ body +:+ "}") +:+ newline +:+ F)
                   = ["{" +:+ body +:+ "}"; F]).
  { unfold str_splitlines. rewrite splitlines_from_app.
    - rewrite app_nil_r. unfold newline. rewrite string_app_cons, string_app_nil_l.
      cbn [splitlines_from].
      change (is_linebreak (ascii_of_nat 10)) with true. cbv iota.
      rewrite rev_involutive, string_of_list_ascii_of_string.
      f_equal.
    - rewrite !string_app_cons, string_app_nil_l. cbn [list_ascii_of_string forallb].
      rewrite list_ascii_app, forallb_app, Hline. reflexivity. }
  rewrite Hlines.
  assert (Hfirst : str_strip ("{" +:+ body +:+ "}") = "{" +:+ body +:+ "}").
  { replace ("{" +:+ body +:+ "}") with (String "{" (body +:+ String "}" ""))
      by (rewrite !string_app_cons, string_app_nil_l; reflexivity).
    apply str_strip_fixed; reflexivity. }
  rewrite Hfirst.
  assert (Hbrace : String.prefix "{" ("{" +:+ body +:+ "}") = true).
  { apply prefix_spec. eexists. rewrite !string_app_cons, string_app_nil_l.
    reflexivity. }
  rewrite Hbrace.
  unfold load_json_payload. rewrite Hloads.
  destruct (fallback_people_valid strptime prompt) as [Hvalid Hnorm].
  rewrite Hnorm. cbn [bind]. rewrite Hvalid. cbn [bind negb].
  rewrite <- Hassoc. reflexivity.
Qed.

Lemma X27_offline_message_returns_fallback_witness :
  process_user_message (fun _ => false) offline_loads offline_dumps
    (fun _ => "") (fun _ => None) [] "hello" =
    Ok {| pedigree :=
            JDict [("people", JList [fallback_person 1 "Proband" "O"]);
                   ("relationships", JList [])];
          follow_up_question := Some "Who else in your family should be included?";
          raw_text := "{" +:+ proband_only_body +:+ "}" +:+ newline
                      +:+ "Who else in your family should be included?" |}.
Proof.
  apply (X27_offline_message_returns_fallback (fun _ => false) offline_loads
           offline_dumps (fun _ => "") (fun _ => None) [] "hello"
           (PROMPT_HEAD +:+ "No prior history" +:+ PROMPT_MIDDLE +:+ "hello"
            +:+ PROMPT_TAIL)
           proband_only_body);
    vm_compute; reflexivity.
Defined.

Lemma drop_spaces_snoc_eq (c : ascii) (m : list ascii) :
  is_space c = false -> drop_spaces (m ++ [c]) = drop_spaces m ++ [c].
Proof.
  intros Hc. induction m as [|x m IH]; cbn [app drop_spaces].
  - rewrite Hc. reflexivity.
  - destruct (is_space x); [exact IH|reflexivity].
Qed.

(** Stripping a text that starts with a character other than white space
    strips its end only. *)
Lemma strip_list_cons (c : ascii) (l : list ascii) :
  is_space c = false -> strip_list (c :: l) = c :: rev (drop_spaces (rev l)).
Proof.
  intros Hc. unfold strip_list. cbn [drop_spaces]. rewrite Hc.
  cbn [rev]. rewrite drop_spaces_snoc_eq by exact Hc.
  rewrite rev_app_distr. reflexivity.
Qed.

Lemma drop_spaces_spaces (sp l : list ascii) :
  forallb is_space sp = true -> drop_spaces (sp ++ l) = drop_spaces l.
Proof.
  induction sp as [|x sp IH]; [reflexivity|]. cbn [forallb app drop_spaces].
  intros H. apply andb_true_iff in H as [-> H]. exact (IH H).
Qed.

Lemma drop_spaces_not_all (a b : list ascii) :
  drop_spaces a <> [] -> drop_spaces (a ++ b) = drop_spaces a ++ b.
Proof.
  induction a as [|x a IH]; cbn [app drop_spaces]; [congruence|].
  destruct (is_space x); [exact IH|reflexivity].
Qed.

Lemma drop_spaces_all (a : list ascii) :
  drop_spaces a = [] -> forallb is_space a = true.
Proof.
  induction a as [|x a IH]; cbn [forallb drop_spaces]; [reflexivity|].
  destruct (is_space x); [exact IH|discriminate].
Qed.

Lemma drop_spaces_In (x : ascii) (l : list ascii) :
  In x (drop_spaces l) -> In x l.
Proof.
  induction l as [|y l IH]; cbn [drop_spaces]; [tauto|].
  destruct (is_space y); [right; auto|tauto].
Qed.

Lemma rstrip_keeps (P : ascii -> bool) (l : list ascii) :
  forallb P l = true -> forallb P (rev (drop_spaces (rev l))) = true.
Proof.
  rewrite !forallb_forall. intros H x Hx. apply H.
  apply in_rev in Hx. apply drop_spaces_In in Hx. apply in_rev in Hx. exact Hx.
Qed.

Lemma splitlines_one_line (a : string) :
  a <> "" ->
  forallb (fun c => negb (is_linebreak c)) (list_ascii_of_string a) = true ->
  str_splitlines a = [a].
Proof.
  intros Ha H. unfold str_splitlines.
  rewrite <- (string_app_nil_r a) at 1. rewrite splitlines_from_app by exact H.
  cbn [splitlines_from]. rewrite app_nil_r.
  destruct (rev (list_ascii_of_string a)) as [|x xs] eqn:E.
  - destruct a as [|c a']; [congruence|]. cbn [list_ascii_of_string rev] in E.
    destruct (rev (list_ascii_of_string a')); discriminate.
  - rewrite <- E, rev_involutive, string_of_list_ascii_of_string. reflexivity.
Qed.

Lemma splitlines_first_line (a rest : string) (c : ascii) :
  forallb (fun c => negb (is_linebreak c)) (list_ascii_of_string a) = true ->
  is_linebreak c = true ->
  exists tl, str_splitlines (a +:+ String c rest) = a :: tl.
Proof.
  intros H Hc. unfold str_splitlines. rewrite splitlines_from_app by exact H.
  cbn [splitlines_from]. rewrite Hc, app_nil_r, rev_involutive,
    string_of_list_ascii_of_string.
  eexists. reflexivity.
Qed.

(** The first line of the stripped text, for a text whose first line starts
    with a brace. *)
Lemma first_line_of_braced (line rest : string) :
  forallb (fun c => negb (is_linebreak c)) (list_ascii_of_string line) = true ->
  exists first tl,
    str_splitlines (str_strip ("{" +:+ line +:+ newline +:+ rest)) = first :: tl /\
    str_strip first = str_strip ("{" +:+ line).
Proof.
  intros Hline.
  assert (Hwhole : str_strip (String "{" line) =
                   String "{" (string_of_list_ascii
                     (rev (drop_spaces (rev (list_ascii_of_string line)))))).
  { unfold str_strip. cbn [list_ascii_of_string].
    rewrite strip_list_cons by reflexivity. reflexivity. }
  unfold str_strip at 1. rewrite !string_app_cons, !string_app_nil_l.
  cbn [list_ascii_of_string]. rewrite strip_list_cons by reflexivity.
  rewrite list_ascii_app. unfold newline at 1.
  rewrite string_app_cons, string_app_nil_l. cbn [list_ascii_of_string].
  set (l := list_ascii_of_string line) in *.
  set (r := list_ascii_of_string rest).
  replace (rev (l ++ ascii_of_nat 10 :: r)) with (rev r ++ ascii_of_nat 10 :: rev l)
    by (rewrite rev_app_distr; cbn [rev]; rewrite <- app_assoc; reflexivity).
  destruct (drop_spaces (rev r)) as [|y ys] eqn:Er.
  - (* nothing but white space after the first line *)
    rewrite drop_spaces_spaces by (apply drop_spaces_all; exact Er).
    change (drop_spaces (ascii_of_nat 10 :: rev l)) with (drop_spaces (rev l)).
    cbn [string_of_list_ascii].
    exists (String "{" (string_of_list_ascii (rev (drop_spaces (rev l))))), [].
    split.
    + apply splitlines_one_line; [discriminate|].
      cbn [list_ascii_of_string forallb].
      rewrite list_ascii_of_string_of_list_ascii.
      rewrite rstrip_keeps by exact Hline. reflexivity.
    + rewrite Hwhole. unfold str_strip. cbn [list_ascii_of_string].
      rewrite list_ascii_of_string_of_list_ascii.
      rewrite strip_list_cons by reflexivity.
      rewrite rev_involutive, drop_spaces_idem. reflexivity.
  - rewrite drop_spaces_not_all by (rewrite Er; discriminate).
    rewrite Er, rev_app_distr. cbn [rev]. rewrite rev_involutive, <- app_assoc.
    cbn [app string_of_list_ascii]. rewrite string_of_list_app.
    cbn [string_of_list_ascii]. unfold l at 1.
    rewrite string_of_list_ascii_of_string.
    destruct (splitlines_first_line (String "{" line)
                (string_of_list_ascii (rev (y :: ys))) (ascii_of_nat 10))
      as [tl Htl]; [exact Hline|reflexivity|].
    rewrite string_app_cons in Htl.
    exists (String "{" line), tl. split; [exact Htl|reflexivity].
Qed.

(** X28.  When the first line of the answer starts with a brace,
    [_split_json_and_question] reads the pedigree from that line alone: a
    JSON text that continues on the lines below is never read whole, and the
    outcome is that of [load_json_payload] on the first line. *)
Theorem X28_only_first_line_is_parsed
    (strptime : string -> bool) (loads : string -> loads_failure + json)
    (line rest : string) :
  forallb (fun c => negb (is_linebreak c)) (list_ascii_of_string line) = true ->
  match load_json_payload strptime loads (str_strip ("{" +:+ line)) with
  | Ok p =>
      exists q,
        _split_json_and_question strptime loads
          ("{" +:+ line +:+ newline +:+ rest)
        = Ok {| pedigree := p; follow_up_question := q;
                raw_text := "{" +:+ line +:+ newline +:+ rest |}
  | Raise e =>
      _split_json_and_question strptime loads ("{" +:+ line +:+ newline +:+ rest)
      = Raise e
  end.
Proof.
  intros Hline. unfold _split_json_and_question.
  destruct (first_line_of_braced line rest Hline) as (first & tl & -> & ->).
  assert (Hbrace : String.prefix "{" (str_strip ("{" +:+ line)) = true).
  { unfold str_strip. rewrite string_app_cons, string_app_nil_l.
    cbn [list_ascii_of_string]. rewrite strip_list_cons by reflexivity.
    apply prefix_spec. eexists. cbn [string_of_list_ascii].
    rewrite string_app_cons, string_app_nil_l. reflexivity. }
  rewrite Hbrace.
  destruct (load_json_payload strptime loads (str_strip ("{" +:+ line))) as [p|e];
    cbn [bind]; [|reflexivity].
  eexists. reflexivity.
Qed.

Lemma X28_only_first_line_is_parsed_witness :
  _split_json_and_question strptime_ymd_ascii
    (loads_table [("{" +:+ newline +:+ "}", JDict [])])
    ("{" +:+ newline +:+ "}")
  = Raise (PedigreeValidationError (InvalidJSON "Expecting value")).
Proof.
  exact (X28_only_first_line_is_parsed strptime_ymd_ascii
           (loads_table [("{" +:+ newline +:+ "}", JDict [])]) "" "}" eq_refl).
Defined.

Lemma is_linebreak_space (c : ascii) : is_space c = false -> is_linebreak c = false.
Proof.
  unfold is_space, is_linebreak. intros H.
  apply orb_false_iff in H as [H1 H2]. apply orb_false_iff. split.
  - apply andb_false_iff in H1 as [H1|H1]; apply andb_false_iff;
      [left|right; exact H1].
    apply Nat.leb_gt in H1. apply Nat.leb_gt. lia.
  - apply andb_false_iff in H2 as [H2|H2]; apply andb_false_iff;
      [left; exact H2|right].
    apply Nat.leb_gt in H2. apply Nat.leb_gt. lia.
Qed.

(** The first line starts with the first character of the current line. *)
Lemma splitlines_from_head (s : string) : forall cur : list ascii,
  cur <> [] ->
  exists w tl, splitlines_from s cur = string_of_list_ascii (rev cur ++ w) :: tl.
Proof.
  induction s as [|x s IH]; intros cur Hcur; cbn [splitlines_from].
  - destruct cur; [congruence|]. exists [], []. rewrite app_nil_r. reflexivity.
  - destruct (is_linebreak x).
    + exists []. rewrite app_nil_r. eexists. reflexivity.
    + destruct (IH (x :: cur)) as (w & tl & ->); [discriminate|].
      exists (x :: w), tl. cbn [rev]. rewrite <- app_assoc. reflexivity.
Qed.

(** X29.  When the answer starts with other text than a brace,
    [_split_json_and_question] reads the pedigree from the first opening
    brace to the last closing brace, over all lines, and the text before and
    after, stripped, is the follow-up question. *)
Theorem X29_text_around_json_is_follow_up
    (strptime : string -> bool) (loads : string -> loads_failure + json)
    (sp : string) (c : ascii) (pre body post : string) :
  forallb is_space (list_ascii_of_string sp) = true ->
  is_space c = false ->
  str_contains "{" (sp +:+ String c pre) = false ->
  str_contains "}" post = false ->
  match load_json_payload strptime loads ("{" +:+ body +:+ "}") with
  | Ok p =>
      _split_json_and_question strptime loads
        ((sp +:+ String c pre) +:+ "{" +:+ body +:+ "}" +:+ post)
      = Ok {| pedigree := p;
              follow_up_question := Some (str_strip ((sp +:+ String c pre) +:+ post));
              raw_text := (sp +:+ String c pre) +:+ "{" +:+ body +:+ "}" +:+ post |}
  | Raise e =>
      _split_json_and_question strptime loads
        ((sp +:+ String c pre) +:+ "{" +:+ body +:+ "}" +:+ post)
      = Raise e
  end.
Proof.
  intros Hsp Hc Hpre Hpost.
  set (PRE := sp +:+ String c pre) in *.
  assert (Hne : c <> "{"%char).
  { intros ->. assert (str_contains "{" PRE = true); [|congruence].
    apply str_contains_spec. exists sp, pre. reflexivity. }
  assert (Hstrip : forall tail,
             exists R, str_strip (PRE +:+ tail) = String c R).
  { intros tail. unfold str_strip, PRE, strip_list.
    rewrite string_app_assoc, list_ascii_app, string_app_cons.
    cbn [list_ascii_of_string]. rewrite drop_spaces_spaces by exact Hsp.
    fold (strip_list (c :: list_ascii_of_string (pre +:+ tail))).
    rewrite strip_list_cons by exact Hc. eexists. reflexivity. }
  unfold _split_json_and_question.
  destruct (Hstrip ("{" +:+ body +:+ "}" +:+ post)) as [R ->].
  unfold str_splitlines. cbn [splitlines_from].
  rewrite (is_linebreak_space c Hc).
  destruct (splitlines_from_head R [c]) as (w & tl & ->); [discriminate|].
  cbn [rev app string_of_list_ascii].
  assert (Hcand : String.prefix "{"
                    (str_strip (String c (string_of_list_ascii w))) = false).
  { unfold str_strip. cbn [list_ascii_of_string].
    rewrite strip_list_cons by exact Hc. cbn [string_of_list_ascii String.prefix].
    destruct (ascii_dec "{" c); [congruence|reflexivity]. }
  rewrite Hcand.
  assert (Hstart : str_find "{" (PRE +:+ "{" +:+ body +:+ "}" +:+ post)
                   = Z.of_nat (String.length PRE))
    by (apply (str_find_first "{"%char); exact Hpre).
  assert (Hstop : str_rfind "}" (PRE +:+ "{" +:+ body +:+ "}" +:+ post)
                  = Z.of_nat (String.length (PRE +:+ "{" +:+ body))).
  { rewrite <- (str_rfind_last "}"%char (PRE +:+ "{" +:+ body) post Hpost).
    rewrite !string_app_assoc. reflexivity. }
  rewrite Hstart, Hstop.
  assert (HL : Z.of_nat (String.length (PRE +:+ "{" +:+ body))
               = Z.of_nat (String.length PRE) + 1 + Z.of_nat (String.length body))
    by (rewrite !string_app_length; cbn [String.length]; lia).
  rewrite HL.
  assert (Hguard : negb (Z.of_nat (String.length PRE) =? -1)
                   && negb (Z.of_nat (String.length PRE) + 1
                            + Z.of_nat (String.length body) =? -1)
                   && (Z.of_nat (String.length PRE)
                       <? Z.of_nat (String.length PRE) + 1
                          + Z.of_nat (String.length body)) = true).
  { apply andb_true_iff. split; [apply andb_true_iff; split|].
    - apply negb_true_iff, Z.eqb_neq. lia.
    - apply negb_true_iff, Z.eqb_neq. lia.
    - apply Z.ltb_lt. lia. }
  rewrite Hguard.
  assert (Hjson : str_slice (PRE +:+ "{" +:+ body +:+ "}" +:+ post)
                    (Z.of_nat (String.length PRE))
                    (Z.of_nat (String.length PRE) + 1
                     + Z.of_nat (String.length body) + 1)
                  = "{" +:+ body +:+ "}").
  { replace (PRE +:+ "{" +:+ body +:+ "}" +:+ post)
      with (PRE +:+ ("{" +:+ body +:+ "}") +:+ post)
      by (rewrite !string_app_assoc; reflexivity).
    replace (Z.of_nat (String.length PRE) + 1 + Z.of_nat (String.length body) + 1)
      with (Z.of_nat (String.length PRE)
            + Z.of_nat (String.length ("{" +:+ body +:+ "}")))
      by (rewrite !string_app_length; cbn [String.length]; lia).
    apply str_slice_app. }
  assert (Hbefore : str_slice (PRE +:+ "{" +:+ body +:+ "}" +:+ post) 0
                      (Z.of_nat (String.length PRE)) = PRE).
  { exact (str_slice_app "" PRE ("{" +:+ body +:+ "}" +:+ post)). }
  assert (Hafter : str_slice (PRE +:+ "{" +:+ body +:+ "}" +:+ post)
                     (Z.of_nat (String.length PRE) + 1
                      + Z.of_nat (String.length body) + 1)
                     (Z.of_nat (String.length
                                  (PRE +:+ "{" +:+ body +:+ "}" +:+ post)))
                   = post).
  { replace (PRE +:+ "{" +:+ body +:+ "}" +:+ post)
      with ((PRE +:+ "{" +:+ body +:+ "}") +:+ post +:+ "")
      by (rewrite string_app_nil_r, !string_app_assoc; reflexivity).
    replace (Z.of_nat (String.length PRE) + 1 + Z.of_nat (String.length body) + 1)
      with (Z.of_nat (String.length (PRE +:+ "{" +:+ body +:+ "}")))
      by (rewrite !string_app_length; cbn [String.length]; lia).
    replace (Z.of_nat (String.length ((PRE +:+ "{" +:+ body +:+ "}") +:+ post +:+ "")))
      with (Z.of_nat (String.length (PRE +:+ "{" +:+ body +:+ "}"))
            + Z.of_nat (String.length post))
      by (rewrite !string_app_length; cbn [String.length]; lia).
    apply str_slice_app. }
  rewrite Hjson, Hbefore, Hafter.
  destruct (Hstrip post) as [R' HR'].
  rewrite decide_False by (rewrite HR'; discriminate).
  destruct (load_json_payload strptime loads ("{" +:+ body +:+ "}")); reflexivity.
Qed.

Lemma X29_text_around_json_is_follow_up_witness :
  _split_json_and_question strptime_ymd_ascii
    (loads_table
       [("{" +:+ newline +:+ "}",
         JDict [("people", JList []); ("relationships", JList [])])])
    (" Here it is:" +:+ newline +:+ "{" +:+ newline +:+ "}" +:+ newline
     +:+ "Who else?")
  = Ok {| pedigree := JDict [("people", JList []); ("relationships", JList [])];
          follow_up_question :=
            Some ("Here it is:" +:+ newline +:+ newline +:+ "Who else?");
          raw_text := " Here it is:" +:+ newline +:+ "{" +:+ newline +:+ "}"
                      +:+ newline +:+ "Who else?" |}.
Proof.
  exact (X29_text_around_json_is_follow_up strptime_ymd_ascii
           (loads_table
              [("{" +:+ newline +:+ "}",
                JDict [("people", JList []); ("relationships", JList [])])])
           " " "H" ("ere it is:" +:+ newline) newline (newline +:+ "Who else?")
           eq_refl eq_refl eq_refl eq_refl).
Defined.

(** ** The offline answer and the history *)

Lemma str_find_sub_le (sub pre rest : string) :
  0 <= str_find sub (pre +:+ sub +:+ rest) <= Z.of_nat (String.length pre).
Proof.
  induction pre as [|a pre IH].
  - rewrite string_app_nil_l.
    assert (Hp : String.prefix sub (sub +:+ rest) = true)
      by (apply prefix_spec; eauto).
    destruct (sub +:+ rest); cbn [str_find]; rewrite Hp; simpl; lia.
  - rewrite string_app_cons. cbn [str_find String.length].
    destruct (String.prefix sub (String a (pre +:+ sub +:+ rest))); [lia|].
    destruct (Z.eqb_spec (str_find sub (pre +:+ sub +:+ rest)) (-1)); lia.
Qed.

Lemma string_app_inv_length (a b c d : string) :
  a +:+ b = c +:+ d -> String.length a = String.length c -> a = c /\ b = d.
Proof.
  intros H Hlen.
  destruct (string_app_split a c b d H) as (m & -> & ->); [lia|].
  rewrite string_app_length in Hlen.
  destruct m; [|simpl in Hlen; lia].
  rewrite string_app_nil_r. split; reflexivity.
Qed.

Section Pieces.
Variable sep : string.
Hypothesis sep_nonempty : sep <> "".

(** What [split_loop] does at an occurrence of the separator. *)
Lemma split_loop_step (fuel : nat) (s : string) :
  str_find sep s <> -1 ->
  exists p r,
    s = p +:+ sep +:+ r /\ str_find sep s = Z.of_nat (String.length p) /\
    split_loop (S fuel) sep s = p :: split_loop fuel sep r.
Proof using Type.
  intros Hf. destruct (str_find_sub_spec sep s Hf) as (p & r & Hs & Hi).
  exists p, r. split; [exact Hs|]. split; [exact Hi|].
  cbn [split_loop]. destruct (Z.eqb_spec (str_find sep s) (-1)); [congruence|].
  rewrite Hi. f_equal.
  - rewrite Hs. exact (str_slice_app "" p (sep +:+ r)).
  - f_equal. rewrite Hs.
    replace (p +:+ sep +:+ r) with ((p +:+ sep) +:+ r +:+ "")
      by (rewrite string_app_nil_r, string_app_assoc; reflexivity).
    replace (Z.of_nat (String.length p) + Z.of_nat (String.length sep))
      with (Z.of_nat (String.length (p +:+ sep)))
      by (rewrite string_app_length; lia).
    replace (Z.of_nat (String.length ((p +:+ sep) +:+ r +:+ "")))
      with (Z.of_nat (String.length (p +:+ sep)) + Z.of_nat (String.length r))
      by (rewrite !string_app_length; cbn [String.length]; lia).
    apply str_slice_app.
Qed.

(** The pieces do not depend on the fuel, once there is enough of it. *)
Lemma split_loop_fuel (n : nat) : forall fuel1 fuel2 s,
  (String.length s <= n)%nat ->
  (String.length s <= fuel1)%nat -> (String.length s <= fuel2)%nat ->
  split_loop fuel1 sep s = split_loop fuel2 sep s.
Proof using sep_nonempty.
  induction n as [|n IH]; intros fuel1 fuel2 s Hn H1 H2.
  - destruct s; [|simpl in Hn; lia].
    assert (Hf : str_find sep "" = -1) by (destruct sep; [congruence|reflexivity]).
    destruct fuel1, fuel2; cbn [split_loop]; rewrite ?Hf; reflexivity.
  - destruct (Z.eqb_spec (str_find sep s) (-1)) as [Hf|Hf].
    + destruct fuel1, fuel2; cbn [split_loop]; rewrite ?Hf; reflexivity.
    + assert (Hlen : (1 <= String.length s)%nat).
      { destruct (str_find_sub_spec sep s Hf) as (p & r & -> & _).
        rewrite !string_app_length. destruct sep; [congruence|]. simpl. lia. }
      destruct fuel1 as [|fuel1]; [lia|]. destruct fuel2 as [|fuel2]; [lia|].
      destruct (split_loop_step fuel1 s Hf) as (p & r & Hs & Hi & ->).
      destruct (split_loop_step fuel2 s Hf) as (p' & r' & Hs' & Hi' & ->).
      assert (Hlenp : String.length p' = String.length p).
      { lia. }
      rewrite Hs in Hs'.
      destruct (string_app_inv_length p' (sep +:+ r') p (sep +:+ r))
        as [-> Hr]; [congruence|exact Hlenp|].
      destruct (string_app_inv_length sep r' sep r Hr eq_refl) as [_ ->].
      f_equal. apply IH; rewrite Hs, !string_app_length in *;
        destruct sep; try congruence; simpl in *; lia.
Qed.

Hypothesis sep_no_border :
  forall m v v', sep = m +:+ v -> sep = v +:+ v' -> m = "" \/ v = "".

(** Two occurrences of the separator do not overlap. *)
Lemma occurrences_apart (p r x y : string) :
  p +:+ sep +:+ r = x +:+ sep +:+ y ->
  (String.length p < String.length x)%nat ->
  exists x', x = p +:+ sep +:+ x' /\ r = x' +:+ sep +:+ y.
Proof using sep_no_border.
  intros H Hlt.
  destruct (string_app_split p x (sep +:+ r) (sep +:+ y) H) as (m & -> & Hm); [lia|].
  destruct (le_lt_dec (String.length sep) (String.length m)) as [Hle|Hover].
  - destruct (string_app_split sep m r (sep +:+ y) Hm Hle) as (x' & -> & ->).
    exists x'. split; reflexivity.
  - exfalso. symmetry in Hm.
    destruct (string_app_split m sep (sep +:+ y) r Hm) as (v & Hsep & Hv); [lia|].
    assert (Hlv : (String.length v <= String.length sep)%nat).
    { pose proof (f_equal String.length Hsep) as Hl.
      rewrite string_app_length in Hl. lia. }
    destruct (string_app_split v sep r y) as (v' & Hsep' & _); [congruence|exact Hlv|].
    destruct (sep_no_border m v v' Hsep Hsep') as [->| ->].
    + rewrite string_app_length in Hlt. simpl in Hlt. lia.
    + rewrite string_app_nil_r in Hsep. rewrite Hsep in Hover. lia.
Qed.

(** The last piece is what [str_split] finds after the last occurrence of
    the separator: the text before an occurrence does not affect it. *)
Lemma last_piece_after_sep (n : nat) : forall fuel x y,
  (String.length (x +:+ sep +:+ y) <= n)%nat ->
  (String.length (x +:+ sep +:+ y) <= fuel)%nat ->
  last (split_loop fuel sep (x +:+ sep +:+ y)) = last (str_split sep y).
Proof using sep_nonempty sep_no_border.
  induction n as [|n IH]; intros fuel x y Hn Hfuel.
  { rewrite !string_app_length in Hn. destruct sep; [congruence|]. simpl in Hn. lia. }
  assert (Hf : str_find sep (x +:+ sep +:+ y) <> -1)
    by (pose proof (str_find_sub_le sep x y); lia).
  assert (Hpos : (1 <= String.length sep)%nat)
    by (destruct sep; [congruence|simpl; lia]).
  destruct fuel as [|fuel].
  { rewrite !string_app_length in Hfuel. lia. }
  destruct (split_loop_step fuel _ Hf) as (p & r & Hs & Hi & ->).
  assert (Hnonempty : forall f s, split_loop f sep s <> [])
    by (intros; apply split_loop_nonempty).
  assert (Hlast : last (p :: split_loop fuel sep r) = last (split_loop fuel sep r)).
  { destruct (split_loop fuel sep r) eqn:E; [destruct (Hnonempty _ _ E)|].
    apply last_cons_cons. }
  rewrite Hlast.
  assert (Hlen : String.length (x +:+ sep +:+ y)
                 = (String.length p + String.length sep + String.length r)%nat)
    by (rewrite Hs, !string_app_length; lia).
  pose proof (str_find_sub_le sep x y) as Hle. rewrite Hi in Hle.
  destruct (le_lt_dec (String.length x) (String.length p)) as [Heq|Hlt].
  - symmetry in Hs.
    destruct (string_app_inv_length p (sep +:+ r) x (sep +:+ y) Hs) as [_ Hr]; [lia|].
    destruct (string_app_inv_length sep r sep y Hr eq_refl) as [_ ->].
    unfold str_split. f_equal.
    apply (split_loop_fuel (String.length y)); lia.
  - symmetry in Hs.
    destruct (occurrences_apart p r x y Hs Hlt) as (x' & _ & ->).
    apply IH; lia.
Qed.
End Pieces.

Lemma user_marker_no_border (m v v' : string) :
  "User:" = m +:+ v -> "User:" = v +:+ v' -> m = "" \/ v = "".
Proof.
  intros Hm Hv.
  destruct m as [|a1 m]; [left; reflexivity|]. right.
  rewrite string_app_cons in Hm. injection Hm as <- Hm.
  repeat (destruct m as [|? m];
          [rewrite string_app_nil_l in Hm; subst v;
           first [reflexivity | rewrite string_app_cons in Hv; discriminate]
          |rewrite string_app_cons in Hm; first [discriminate | injection Hm as <- Hm]]).
Qed.

(** X30.  The offline answer does not depend on the history: with the same
    message, [_fallback_response] gives the same text for the prompts that
    [build_prompt] makes from any two histories, so what earlier messages
    said about the family is not in it. *)
Theorem X30_fallback_ignores_history
    (dumps repr : json -> string) (history1 history2 : list json)
    (user_input prompt1 prompt2 : string) :
  build_prompt repr history1 user_input = Ok prompt1 ->
  build_prompt repr history2 user_input = Ok prompt2 ->
  _fallback_response dumps prompt1 = _fallback_response dumps prompt2.
Proof.
  unfold build_prompt. intros H1 H2.
  inv_bind H1 as h1 Hh1. injection H1 as <-.
  inv_bind H2 as h2 Hh2. injection H2 as <-.
  assert (Hlast : forall h,
             last (str_split "User:"
                     (PROMPT_HEAD +:+ h +:+ PROMPT_MIDDLE +:+ user_input
                      +:+ PROMPT_TAIL))
             = last (str_split "User:" (" " +:+ user_input +:+ PROMPT_TAIL))).
  { intros h. unfold str_split at 1.
    replace (PROMPT_HEAD +:+ h +:+ PROMPT_MIDDLE +:+ user_input +:+ PROMPT_TAIL)
      with ((PROMPT_HEAD +:+ h +:+ newline) +:+ "User:"
            +:+ (" " +:+ user_input +:+ PROMPT_TAIL)).
    2:{ unfold PROMPT_MIDDLE. rewrite !string_app_assoc. reflexivity. }
    apply (last_piece_after_sep "User:" ltac:(discriminate) user_marker_no_border
             (String.length ((PROMPT_HEAD +:+ h +:+ newline) +:+ "User:"
                             +:+ " " +:+ user_input +:+ PROMPT_TAIL)));
      reflexivity. }
  unfold _fallback_response, _fallback_pedigree. rewrite !Hlast. reflexivity.
Qed.

Lemma X30_fallback_ignores_history_witness :
  _fallback_response offline_dumps
    (PROMPT_HEAD +:+ "No prior history" +:+ PROMPT_MIDDLE +:+ "And my father"
     +:+ PROMPT_TAIL)
  = _fallback_response offline_dumps
      (PROMPT_HEAD +:+ "user: My mother had asthma" +:+ PROMPT_MIDDLE
       +:+ "And my father" +:+ PROMPT_TAIL).
Proof.
  apply (X30_fallback_ignores_history offline_dumps (fun _ => "") []
           [JDict [("role", JStr "user"); ("content", JStr "My mother had asthma")]]
           "And my father"); reflexivity.
Defined.

(** ** The entries and the lines of the GEDCOM text *)

Lemma str_find_none (c : ascii) (s : string) :
  str_contains (String c "") s = false -> str_find (String c "") s = -1.
Proof.
  intros H. destruct (Z.eq_dec (str_find (String c "") s) (-1)) as [|Hne];
    [assumption|].
  destruct (str_find_spec c s Hne) as (pre & rest & -> & _).
  assert (Ht : str_contains (String c "") (pre +:+ String c rest) = true)
    by (apply str_contains_spec; exists pre, rest; reflexivity).
  congruence.
Qed.

Lemma str_join_cons (sep l l2 : string) (rest : list string) :
  str_join sep (l :: l2 :: rest) = l +:+ sep +:+ str_join sep (l2 :: rest).
Proof. reflexivity. Qed.

(** Splitting at the line feeds gives back the entries that were joined,
    when none of them contains a line feed. *)
Lemma split_join (items : list string) : forall fuel,
  items <> [] ->
  Forall (fun l => str_contains newline l = false) items ->
  (length items <= S fuel)%nat ->
  split_loop fuel newline (str_join newline items) = items.
Proof.
  induction items as [|l items IH]; intros fuel Hne Hall Hfuel; [congruence|].
  apply Forall_cons in Hall as [Hl Hall].
  destruct items as [|l2 rest].
  - cbn [str_join]. destruct fuel; cbn [split_loop]; [reflexivity|].
    change newline with (String (ascii_of_nat 10) "") in *.
    rewrite (str_find_none (ascii_of_nat 10) l Hl). reflexivity.
  - rewrite str_join_cons. destruct fuel as [|fuel]; [simpl in Hfuel; lia|].
    assert (Hfind : str_find newline (l +:+ newline +:+ str_join newline (l2 :: rest))
                    = Z.of_nat (String.length l))
      by (apply (str_find_first (ascii_of_nat 10)); exact Hl).
    destruct (split_loop_step newline fuel
                (l +:+ newline +:+ str_join newline (l2 :: rest)))
      as (q & r & Hs & Hi & ->); [rewrite Hfind; lia|].
    rewrite Hfind in Hi.
    destruct (string_app_inv_length l _ q _ Hs) as [<- Hr]; [lia|].
    destruct (string_app_inv_length newline _ newline _ Hr eq_refl) as [_ <-].
    f_equal. apply IH; [discriminate|exact Hall|simpl in *; lia].
Qed.

Lemma str_join_length (items : list string) :
  (length items <= S (String.length (str_join newline items)))%nat.
Proof.
  induction items as [|l items IH]; [simpl; lia|].
  destruct items as [|l2 rest]; [simpl; lia|].
  rewrite str_join_cons, !string_app_length. simpl in *. lia.
Qed.

Lemma str_split_join (items : list string) :
  items <> [] ->
  Forall (fun l => str_contains newline l = false) items ->
  str_split newline (str_join newline items) = items.
Proof.
  intros Hne Hall. unfold str_split.
  apply split_join; [exact Hne|exact Hall|apply str_join_length].
Qed.

(** X8.  [to_gedcom] returns for every pedigree that [load_json_payload]
    returns.  The text is a list of entries joined by line feeds: the
    entries [0 HEAD], [1 GEDC], [2 VERS 5.5], then five entries for each
    person and two more for each of its conditions, then three entries for
    each relationship of type spouse, parent or child, then [0 TRLR].  When
    no entry contains a line feed, the entries are the lines of the text. *)
Theorem X8_to_gedcom_of_loaded_pedigree
    (strptime : string -> bool) (loads : string -> loads_failure + json)
    (repr : json -> string) (text : string) (n : json) :
  load_json_payload strptime loads text = Ok n ->
  exists ps rs body,
    n = JDict [("people", JList ps); ("relationships", JList rs)] /\
    to_gedcom_lines repr n =
      Ok (["0 HEAD"; "1 GEDC"; "2 VERS 5.5"] ++ body ++ ["0 TRLR"]) /\
    to_gedcom repr n =
      Ok (str_join newline
            (["0 HEAD"; "1 GEDC"; "2 VERS 5.5"] ++ body ++ ["0 TRLR"])) /\
    length body = (sum_list (map person_line_count ps)
                   + 3 * length (List.filter is_family_type rs))%nat /\
    (Forall (fun l => str_contains newline l = false) body ->
     str_split newline
       (str_join newline (["0 HEAD"; "1 GEDC"; "2 VERS 5.5"] ++ body ++ ["0 TRLR"]))
     = ["0 HEAD"; "1 GEDC"; "2 VERS 5.5"] ++ body ++ ["0 TRLR"]).
Proof.
  intros H. apply load_json_payload_Ok in H as (parsed & _ & Hnorm & Hval).
  apply normalize_pedigree_Ok in Hnorm
    as (d & items & ps & rels & rs & -> & _ & _ & _ & Hrs & ->).
  destruct (valid_people_well_formed strptime _ (JList ps) ps Hval eq_refl eq_refl)
    as [ids Hwf].
  assert (Hshape : Forall (fun r => exists f t ty,
            r = JDict [("from", f); ("to", t); ("type", JStr ty)]) rs).
  { apply map_result_Ok in Hrs. clear -Hrs.
    induction Hrs as [|x y xs ys Hxy _ IH]; constructor; [|exact IH].
    apply normalize_relationship_Ok in Hxy as (f & t & ty & ->). eauto. }
  destruct (people_total repr strptime ps ids ["0 HEAD"; "1 GEDC"; "2 VERS 5.5"] Hwf)
    as [lines1 H1].
  destruct (families_total repr rs (lines1, 1) Hshape) as [st2 H2].
  assert (Hlines : to_gedcom_lines repr
                     (JDict [("people", JList ps); ("relationships", JList rs)])
                   = Ok (fst st2 ++ ["0 TRLR"])).
  { unfold to_gedcom_lines, py_get.
    change (dict_get_default "people" _ _) with (JList ps).
    change (dict_get_default "relationships" _ _) with (JList rs).
    cbn [py_iter bind]. rewrite H1. cbn [bind]. rewrite H2. reflexivity. }
  destruct (to_gedcom_lines_Ok repr _ _ Hlines)
    as (d0 & persons & rels0 & body & [= <-] & [= <-] & [= <-] & Hbody & Hlen & _).
  exists ps, rs, body. split; [reflexivity|].
  split; [rewrite Hlines, Hbody; reflexivity|].
  split; [unfold to_gedcom; rewrite Hlines, Hbody; reflexivity|].
  split; [exact Hlen|].
  intros Hnl. apply str_split_join; [discriminate|].
  repeat (apply Forall_cons; split; [reflexivity|]).
  apply Forall_app. split; [exact Hnl|]. repeat constructor.
Qed.

Lemma X8_to_gedcom_of_loaded_pedigree_witness :
  exists n,
    load_json_payload strptime_ymd_ascii
      (loads_table [("payload", sample_payload)]) "payload" = Ok n /\
    exists ps rs body,
      n = JDict [("people", JList ps); ("relationships", JList rs)] /\
      to_gedcom_lines (fun _ => "") n =
        Ok (["0 HEAD"; "1 GEDC"; "2 VERS 5.5"] ++ body ++ ["0 TRLR"]) /\
      to_gedcom (fun _ => "") n =
        Ok (str_join newline
              (["0 HEAD"; "1 GEDC"; "2 VERS 5.5"] ++ body ++ ["0 TRLR"])) /\
      length body = (sum_list (map person_line_count ps)
                     + 3 * length (List.filter is_family_type rs))%nat /\
      (Forall (fun l => str_contains newline l = false) body ->
       str_split newline
         (str_join newline
            (["0 HEAD"; "1 GEDC"; "2 VERS 5.5"] ++ body ++ ["0 TRLR"]))
       = ["0 HEAD"; "1 GEDC"; "2 VERS 5.5"] ++ body ++ ["0 TRLR"]).
Proof.
  eexists. split; [vm_compute; reflexivity|].
  apply (X8_to_gedcom_of_loaded_pedigree strptime_ymd_ascii
           (loads_table [("payload", sample_payload)]) (fun _ => "") "payload").
  vm_compute. reflexivity.
Defined.

(** X9.  Among the entries that [to_gedcom] joins into its text, those that
    open a family record are [0 @F1@ FAM], [0 @F2@ FAM], ... in this order,
    one for each relationship whose type is exactly spouse, parent or child;
    a relationship of another type gets no record and no number.  When no
    entry contains a line feed, the entries are the lines of the text. *)
Theorem X9_gedcom_families_numbered (repr : json -> string) (p : json) (text : string) :
  to_gedcom repr p = Ok text ->
  exists d rels lines,
    p = JDict d /\
    py_iter (dict_get_default "relationships" (JList []) d) = Ok rels /\
    to_gedcom_lines repr p = Ok lines /\
    text = str_join newline lines /\
    List.filter is_family_line lines =
      map family_header
        (sequential_ids (length (List.filter is_family_type rels))) /\
    (Forall (fun l => str_contains newline l = false) lines ->
     str_split newline text = lines).
Proof.
  unfold to_gedcom. intros H. inv_bind H as lines Hlines. injection H as <-.
  pose proof Hlines as Hl.
  apply to_gedcom_lines_Ok in Hlines
    as (d & persons & rels & body & -> & _ & Hrels & -> & _ & _ & HF).
  exists d, rels. eexists. split; [reflexivity|]. split; [exact Hrels|].
  split; [exact Hl|]. split; [reflexivity|]. split.
  - rewrite !List.filter_app, HF. cbn [List.filter].
    change (is_family_line "0 HEAD") with false.
    change (is_family_line "1 GEDC") with false.
    change (is_family_line "2 VERS 5.5") with false.
    change (is_family_line "0 TRLR") with false.
    rewrite app_nil_r. cbn [app]. unfold sequential_ids. rewrite map_map.
    apply map_ext. intros k. f_equal. lia.
  - intros Hnl. apply str_split_join; [discriminate|exact Hnl].
Qed.

Lemma X9_gedcom_families_numbered_witness :
  exists text,
    to_gedcom (fun _ => "") sparse_ids_payload = Ok text /\
    exists d rels lines,
      sparse_ids_payload = JDict d /\
      py_iter (dict_get_default "relationships" (JList []) d) = Ok rels /\
      to_gedcom_lines (fun _ => "") sparse_ids_payload = Ok lines /\
      text = str_join newline lines /\
      List.filter is_family_line lines =
        map family_header
          (sequential_ids (length (List.filter is_family_type rels))) /\
      (Forall (fun l => str_contains newline l = false) lines ->
       str_split newline text = lines).
Proof.
  eexists. split; [vm_compute; reflexivity|].
  apply (X9_gedcom_families_numbered (fun _ => "") sparse_ids_payload).
  vm_compute. reflexivity.
Defined.

(** X10.  Among the entries that [to_gedcom] joins into its text there is
    one [SEX] entry for each person, in the order of the people: [1 SEX M]
    or [1 SEX F] for the genders M and F, and [1 SEX U] for every other
    gender, O included, and for a person without a gender.  When no entry
    contains a line feed, the entries are the lines of the text. *)
Theorem X10_gedcom_sex_lines (repr : json -> string) (p : json) (text : string) :
  to_gedcom repr p = Ok text ->
  exists d persons lines,
    p = JDict d /\
    py_iter (dict_get_default "people" (JList []) d) = Ok persons /\
    to_gedcom_lines repr p = Ok lines /\
    text = str_join newline lines /\
    List.filter is_sex_line lines = map sex_line persons /\
    (Forall (fun l => str_contains newline l = false) lines ->
     str_split newline text = lines).
Proof.
  unfold to_gedcom. intros H. inv_bind H as lines Hlines. injection H as <-.
  pose proof Hlines as Hl.
  apply to_gedcom_lines_Ok in Hlines
    as (d & persons & rels & body & -> & Hpersons & _ & -> & _ & HS & _).
  exists d, persons. eexists. split; [reflexivity|]. split; [exact Hpersons|].
  split; [exact Hl|]. split; [reflexivity|]. split.
  - rewrite !List.filter_app, HS. cbn [List.filter].
    change (is_sex_line "0 HEAD") with false.
    change (is_sex_line "1 GEDC") with false.
    change (is_sex_line "2 VERS 5.5") with false.
    change (is_sex_line "0 TRLR") with false.
    rewrite app_nil_r. reflexivity.
  - intros Hnl. apply str_split_join; [discriminate|exact Hnl].
Qed.

Lemma X10_gedcom_sex_lines_witness :
  exists text,
    to_gedcom (fun _ => "")
      (JDict [("people", JList [fallback_person 1 "Proband" "O"])]) = Ok text /\
    exists d persons lines,
      JDict [("people", JList [fallback_person 1 "Proband" "O"])] = JDict d /\
      py_iter (dict_get_default "people" (JList []) d) = Ok persons /\
      to_gedcom_lines (fun _ => "")
        (JDict [("people", JList [fallback_person 1 "Proband" "O"])]) = Ok lines /\
      text = str_join newline lines /\
      List.filter is_sex_line lines = map sex_line persons /\
      (Forall (fun l => str_contains newline l = false) lines ->
       str_split newline text = lines).
Proof.
  eexists. split; [vm_compute; reflexivity|].
  apply (X10_gedcom_sex_lines (fun _ => "")
           (JDict [("people", JList [fallback_person 1 "Proband" "O"])])).
  vm_compute. reflexivity.
Defined.


(** ** The graph of a pedigree, in either class *)

Lemma build_graph_fallback ped :
  build_graph false ped = FallbackGraph (fallback_graph ped).
Proof.
  unfold build_graph, fallback_graph.
  generalize (mkGraph [] []) as g. intros g.
  assert (Hn : forall ps g,
             fold_left (fun g person => graph_add_node g (id person) person) ps
               (FallbackGraph g)
             = FallbackGraph (fold_left (fun g person => add_node g (id person) person)
                                ps g)).
  { induction ps as [|p ps IH]; intros g0; simpl; [reflexivity|apply IH]. }
  assert (He : forall rs g,
             fold_left (fun g r => graph_add_edge g (from_id r) (to_id r) (type r)) rs
               (FallbackGraph g)
             = FallbackGraph (fold_left (fun g r => add_edge g (from_id r) (to_id r)
                                                     (type r)) rs g)).
  { induction rs as [|r rs IH]; intros g0; simpl; [reflexivity|apply IH]. }
  rewrite Hn, He. reflexivity.
Qed.

Lemma build_graph_nx ped : build_graph true ped = NxGraph (nx_graph ped).
Proof.
  unfold build_graph, nx_graph.
  generalize nx.DiGraph_new as g. intros g.
  assert (Hn : forall ps g,
             fold_left (fun g person => graph_add_node g (id person) person) ps
               (NxGraph g)
             = NxGraph (fold_left (fun g person => nx.add_node g (id person) person)
                          ps g)).
  { induction ps as [|p ps IH]; intros g0; simpl; [reflexivity|apply IH]. }
  assert (He : forall rs g,
             fold_left (fun g r => graph_add_edge g (from_id r) (to_id r) (type r)) rs
               (NxGraph g)
             = NxGraph (fold_left (fun g r => nx.add_edge g (from_id r) (to_id r)
                                               (type r)) rs g)).
  { induction rs as [|r rs IH]; intros g0; simpl; [reflexivity|apply IH]. }
  rewrite Hn, He. reflexivity.
Qed.

Lemma dict_has_true {K V} `{EqDecision K} (k : K) (d : list (K * V)) :
  dict_has k d = true <-> k ∈ dict_keys d.
Proof.
  rewrite <- dict_get_is_Some. unfold dict_has.
  destruct (dict_get k d); split; intros H; try discriminate; eauto.
  destruct H as [? [=]].
Qed.

Lemma dict_has_false {K V} `{EqDecision K} (k : K) (d : list (K * V)) :
  dict_has k d = false <-> dict_get k d = None.
Proof.
  unfold dict_has. destruct (dict_get k d); split; intros H; congruence.
Qed.

(** ** What the methods of [nx.DiGraph] do to the successors *)

Lemma nx_touch_succ G n u :
  dict_get u (nx._succ (nx.touch G n)) =
  match dict_get u (nx._succ G) with
  | Some nbrs => Some nbrs
  | None => if decide (u = n) then Some [] else None
  end.
Proof.
  unfold nx.touch. destruct (dict_has n (nx._succ G)) eqn:E.
  - destruct (dict_get u (nx._succ G)) eqn:Eu; [reflexivity|].
    case_decide as Hu; [|reflexivity]. subst u.
    unfold dict_has in E. rewrite Eu in E. discriminate.
  - apply dict_has_false in E. cbn [nx._succ].
    destruct (decide (u = n)) as [->|Hne].
    + rewrite dict_get_set_eq, E. reflexivity.
    + rewrite dict_get_set_ne by exact Hne. destruct (dict_get u _); reflexivity.
Qed.

Lemma nx_add_node_succ G n attrs u :
  dict_get u (nx._succ (nx.add_node G n attrs)) =
  match dict_get u (nx._succ G) with
  | Some nbrs => Some nbrs
  | None => if decide (u = n) then Some [] else None
  end.
Proof.
  unfold nx.add_node. cbn [nx._succ]. destruct (dict_has n (nx._succ G)) eqn:E.
  - destruct (dict_get u (nx._succ G)) eqn:Eu; [reflexivity|].
    case_decide as Hu; [|reflexivity]. subst u.
    unfold dict_has in E. rewrite Eu in E. discriminate.
  - apply dict_has_false in E.
    destruct (decide (u = n)) as [->|Hne].
    + rewrite dict_get_set_eq, E. reflexivity.
    + rewrite dict_get_set_ne by exact Hne. destruct (dict_get u _); reflexivity.
Qed.

Lemma nx_add_edge_succ G a b t u :
  dict_get u (nx._succ (nx.add_edge G a b t)) =
  if decide (u = a)
  then Some (dict_set b t (dict_get_default a [] (nx._succ G)))
  else match dict_get u (nx._succ G) with
       | Some nbrs => Some nbrs
       | None => if decide (u = b) then Some [] else None
       end.
Proof.
  unfold nx.add_edge. cbn [nx._succ]. destruct (decide (u = a)) as [->|Hne].
  - rewrite dict_get_set_eq. do 2 f_equal.
    unfold dict_get_default. rewrite !nx_touch_succ.
    destruct (dict_get a (nx._succ G)); [reflexivity|].
    rewrite decide_True by reflexivity. reflexivity.
  - rewrite dict_get_set_ne by exact Hne. rewrite !nx_touch_succ.
    destruct (dict_get u (nx._succ G)); [reflexivity|].
    rewrite decide_False by exact Hne. reflexivity.
Qed.

Lemma nx_add_node_edge_type G n attrs u v :
  nx.edge_type (nx.add_node G n attrs) u v = nx.edge_type G u v.
Proof.
  unfold nx.edge_type. rewrite nx_add_node_succ.
  destruct (dict_get u (nx._succ G)); [reflexivity|]. case_decide; reflexivity.
Qed.

Lemma nx_add_node_succ_keys G n attrs u :
  succ_keys (nx.add_node G n attrs) u = succ_keys G u.
Proof.
  unfold succ_keys. rewrite nx_add_node_succ.
  destruct (dict_get u (nx._succ G)); [reflexivity|]. case_decide; reflexivity.
Qed.

Lemma nx_add_edge_edge_type G a b t u v :
  nx.edge_type (nx.add_edge G a b t) u v =
  if decide ((u, v) = (a, b)) then Some t else nx.edge_type G u v.
Proof.
  unfold nx.edge_type. rewrite nx_add_edge_succ.
  destruct (decide (u = a)) as [->|Hu].
  - destruct (decide (v = b)) as [->|Hv].
    + rewrite decide_True by reflexivity. apply dict_get_set_eq.
    + destruct (decide ((a, v) = (a, b))) as [[= ?]|_]; [contradiction|].
      rewrite dict_get_set_ne by exact Hv.
      unfold dict_get_default. destruct (dict_get a (nx._succ G)); reflexivity.
  - destruct (decide ((u, v) = (a, b))) as [[= ? ?]|_]; [contradiction|].
    destruct (dict_get u (nx._succ G)); [reflexivity|]. case_decide; reflexivity.
Qed.

Lemma nx_add_edge_succ_keys G a b t u :
  succ_keys (nx.add_edge G a b t) u =
  if decide (u = a) then set_add b (succ_keys G a) else succ_keys G u.
Proof.
  unfold succ_keys. rewrite nx_add_edge_succ.
  destruct (decide (u = a)) as [->|Hu].
  - rewrite dict_keys_set. unfold set_add, dict_get_default.
    destruct (dict_get a (nx._succ G)); reflexivity.
  - destruct (dict_get u (nx._succ G)); [reflexivity|]. case_decide; reflexivity.
Qed.

Lemma fallback_add_edge_successors g a b t u :
  successors (add_edge g a b t) u =
  if decide (u = a) then set_add b (successors g a) else successors g u.
Proof.
  unfold successors, add_edge, set_add. cbn [edge_data]. rewrite dict_keys_set.
  assert (Hin : (a, b) ∈ dict_keys (edge_data g) <->
                b ∈ map snd (filter (fun uv => fst uv = a) (dict_keys (edge_data g)))).
  { rewrite list_elem_of_fmap. split.
    - intros H. exists (a, b). split; [reflexivity|].
      apply list_elem_of_filter. split; [reflexivity|exact H].
    - intros ([a' b'] & -> & H). apply list_elem_of_filter in H as [Ha H].
      simpl in Ha. subst a'. exact H. }
  destruct (decide (u = a)) as [->|Hu].
  - destruct (decide ((a, b) ∈ dict_keys (edge_data g))) as [H|H].
    + rewrite decide_True by (apply Hin; exact H). reflexivity.
    + rewrite decide_False by (rewrite <- Hin; exact H).
      rewrite filter_app, map_app. f_equal.
      rewrite filter_cons, decide_True by reflexivity. reflexivity.
  - case_decide; [reflexivity|].
    rewrite filter_app, filter_cons, decide_False by (simpl; congruence).
    rewrite filter_nil, app_nil_r. reflexivity.
Qed.

Lemma same_edges_add_node G g n attrs :
  same_edges G g -> same_edges (nx.add_node G n attrs) (add_node g n attrs).
Proof.
  intros [He Hs]. split.
  - intros u v. rewrite nx_add_node_edge_type. apply He.
  - intros u. rewrite nx_add_node_succ_keys. apply Hs.
Qed.

Lemma same_edges_add_edge G g a b t :
  same_edges G g -> same_edges (nx.add_edge G a b t) (add_edge g a b t).
Proof.
  intros [He Hs]. split.
  - intros u v. rewrite nx_add_edge_edge_type. unfold add_edge. cbn [edge_data].
    case_decide as E.
    + rewrite E, dict_get_set_eq. reflexivity.
    + rewrite dict_get_set_ne by exact E. apply He.
  - intros u. rewrite nx_add_edge_succ_keys, fallback_add_edge_successors, !Hs.
    reflexivity.
Qed.

Lemma same_edges_graphs ped : same_edges (nx_graph ped) (fallback_graph ped).
Proof.
  unfold nx_graph, fallback_graph.
  assert (H0 : same_edges nx.DiGraph_new (mkGraph [] [])) by (split; reflexivity).
  revert H0. generalize nx.DiGraph_new (mkGraph [] []).
  intros G g H.
  assert (Hn : same_edges
                 (fold_left (fun g person => nx.add_node g (id person) person)
                    (people ped) G)
                 (fold_left (fun g person => add_node g (id person) person)
                    (people ped) g)).
  { revert G g H. induction (people ped) as [|p ps IH]; intros G g H; simpl;
      [exact H|]. apply IH, same_edges_add_node, H. }
  revert Hn. generalize (fold_left (fun g person => nx.add_node g (id person) person)
                           (people ped) G)
                        (fold_left (fun g person => add_node g (id person) person)
                           (people ped) g).
  clear. intros G g H. revert G g H.
  induction (relationships ped) as [|r rs IH]; intros G g H; simpl; [exact H|].
  apply IH, same_edges_add_edge, H.
Qed.

(** ** The nodes of an [nx.DiGraph] *)

Lemma nx_consistent_has G n :
  nx_consistent G ->
  dict_has n (nx._succ G) = true <-> is_Some (dict_get n (nx._node G)).
Proof.
  intros [Hk _]. rewrite dict_has_true, dict_get_is_Some, Hk. reflexivity.
Qed.

Lemma nx_touch_consistent G n : nx_consistent G -> nx_consistent (nx.touch G n).
Proof.
  intros [Hk Hnd]. unfold nx.touch.
  destruct (dict_has n (nx._succ G)) eqn:E; [split; assumption|].
  split; cbn [nx._node nx._succ].
  - rewrite !dict_keys_set, Hk. reflexivity.
  - apply dict_set_NoDup, Hnd.
Qed.

Lemma nx_touch_node G n i :
  nx_consistent G ->
  dict_get i (nx._node (nx.touch G n)) =
  match dict_get i (nx._node G) with
  | Some x => Some x
  | None => if decide (i = n) then Some None else None
  end.
Proof.
  intros HG. unfold nx.touch. destruct (dict_has n (nx._succ G)) eqn:E.
  - apply (nx_consistent_has G n HG) in E.
    destruct (dict_get i (nx._node G)) eqn:Ei; [reflexivity|].
    case_decide as Hi; [|reflexivity]. subst i. rewrite Ei in E.
    destruct E as [? [=]].
  - assert (Hn : dict_get n (nx._node G) = None).
    { destruct (dict_get n (nx._node G)) eqn:En; [|reflexivity].
      assert (Hs : is_Some (dict_get n (nx._node G))) by (rewrite En; eauto).
      apply (nx_consistent_has G n HG) in Hs. congruence. }
    cbn [nx._node]. destruct (decide (i = n)) as [->|Hne].
    + rewrite dict_get_set_eq, Hn. reflexivity.
    + rewrite dict_get_set_ne by exact Hne. destruct (dict_get i _); reflexivity.
Qed.

Lemma nx_add_node_consistent G n attrs :
  nx_consistent G -> nx_consistent (nx.add_node G n attrs).
Proof.
  intros [Hk Hnd]. unfold nx.add_node. split; cbn [nx._node nx._succ].
  - rewrite dict_keys_set, Hk.
    destruct (dict_has n (nx._succ G)) eqn:E.
    + apply dict_has_true in E. rewrite decide_True by exact E. reflexivity.
    + rewrite dict_keys_set. reflexivity.
  - destruct (dict_has n (nx._succ G)); [exact Hnd|apply dict_set_NoDup, Hnd].
Qed.

Lemma nx_add_edge_consistent G a b t :
  nx_consistent G -> nx_consistent (nx.add_edge G a b t).
Proof.
  intros HG.
  pose proof (nx_touch_consistent _ b (nx_touch_consistent _ a HG)) as [Hk Hnd].
  unfold nx.add_edge. cbn zeta. split; cbn [nx._node nx._succ].
  - rewrite dict_keys_set, Hk. case_decide as E; [reflexivity|].
    exfalso. apply E. apply dict_get_is_Some. rewrite !nx_touch_succ.
    destruct (dict_get a (nx._succ G)); [eauto|].
    rewrite decide_True by reflexivity. eauto.
  - apply dict_set_NoDup, Hnd.
Qed.

Lemma nx_add_edge_node G a b t i :
  nx_consistent G ->
  dict_get i (nx._node (nx.add_edge G a b t)) =
  match dict_get i (nx._node G) with
  | Some x => Some x
  | None => if decide (i ∈ [a; b]) then Some None else None
  end.
Proof.
  intros HG. unfold nx.add_edge. cbn [nx._node].
  rewrite nx_touch_node by (apply nx_touch_consistent, HG).
  rewrite nx_touch_node by exact HG.
  destruct (dict_get i (nx._node G)); [reflexivity|].
  destruct (decide (i = a)) as [->|Ha].
  - rewrite decide_True by left. reflexivity.
  - destruct (decide (i = b)) as [->|Hb].
    + rewrite decide_True by (right; left). reflexivity.
    + rewrite decide_False; [reflexivity|].
      intros H. apply elem_of_cons in H as [?|H]; [contradiction|].
      apply list_elem_of_singleton in H. contradiction.
Qed.

Lemma nx_fold_add_node ps : forall G,
  nx_consistent G ->
  nx_consistent (fold_left (fun g person => nx.add_node g (id person) person) ps G) /\
  nx._node (fold_left (fun g person => nx.add_node g (id person) person) ps G) =
  fold_left (fun n person => dict_set (id person) (Some person) n) ps (nx._node G).
Proof.
  induction ps as [|p ps IH]; intros G HG; simpl; [split; [exact HG|reflexivity]|].
  destruct (IH _ (nx_add_node_consistent G (id p) p HG)) as [H1 H2].
  split; [exact H1|]. rewrite H2. reflexivity.
Qed.

Lemma nx_fold_add_edge rs i : forall G,
  nx_consistent G ->
  nx_consistent (fold_left (fun g r => nx.add_edge g (from_id r) (to_id r) (type r))
                   rs G) /\
  dict_get i (nx._node (fold_left (fun g r => nx.add_edge g (from_id r) (to_id r)
                                              (type r)) rs G)) =
  match dict_get i (nx._node G) with
  | Some x => Some x
  | None => if decide (i ∈ flat_map (fun r => [from_id r; to_id r]) rs)
            then Some None else None
  end.
Proof.
  induction rs as [|r rs IH]; intros G HG; simpl.
  - split; [exact HG|]. destruct (dict_get i _); reflexivity.
  - destruct (IH _ (nx_add_edge_consistent G (from_id r) (to_id r) (type r) HG))
      as [H1 H2].
    split; [exact H1|]. rewrite H2, nx_add_edge_node by exact HG.
    destruct (dict_get i (nx._node G)); [reflexivity|].
    destruct (decide (i ∈ [from_id r; to_id r])) as [Hi|Hi].
    + rewrite decide_True; [reflexivity|].
      apply elem_of_cons in Hi as [->|Hi]; [left|].
      apply list_elem_of_singleton in Hi as ->. right. left.
    + destruct (decide (i ∈ flat_map _ rs)) as [Hr|Hr].
      * rewrite decide_True; [reflexivity|]. do 2 right. exact Hr.
      * rewrite decide_False; [reflexivity|]. intros H. apply Hi.
        apply elem_of_cons in H as [->|H]; [left|].
        apply elem_of_cons in H as [->|H]; [right; left|contradiction].
Qed.

Lemma nx_new_consistent : nx_consistent nx.DiGraph_new.
Proof. split; [reflexivity|constructor]. Qed.

Lemma nx_graph_consistent ped : nx_consistent (nx_graph ped).
Proof.
  unfold nx_graph. apply (nx_fold_add_edge _ 0).
  apply nx_fold_add_node, nx_new_consistent.
Qed.

Lemma nx_graph_node ped i :
  dict_get i (nx._node (nx_graph ped)) =
  match last_person ped i with
  | Some p => Some (Some p)
  | None => if decide (i ∈ endpoints ped) then Some None else None
  end.
Proof.
  unfold nx_graph, last_person, endpoints.
  destruct (nx_fold_add_node (people ped) _ nx_new_consistent) as [HG Hn].
  destruct (nx_fold_add_edge (relationships ped) i _ HG) as [_ ->].
  rewrite Hn. rewrite (fold_dict_set_get id (fun p : Person => Some p)).
  destruct (last _); reflexivity.
Qed.

Lemma last_is_Some {A} (l : list A) : is_Some (last l) <-> l <> [].
Proof.
  split.
  - intros [x Hx] ->. discriminate.
  - intros H. destruct l as [|x l] using rev_ind; [contradiction|].
    rewrite last_snoc. eauto.
Qed.

Lemma last_person_is_Some ped i :
  is_Some (last_person ped i) <-> i ∈ map id (people ped).
Proof.
  unfold last_person. rewrite last_is_Some, list_elem_of_fmap. split.
  - intros H. destruct (filter _ (people ped)) as [|p l] eqn:E; [contradiction|].
    assert (Hp : p ∈ filter (fun p => id p = i) (people ped)) by (rewrite E; left).
    apply list_elem_of_filter in Hp as [Hi Hp]. eauto.
  - intros (p & -> & Hp) E.
    assert (Hin : p ∈ filter (fun q => id q = id p) (people ped))
      by (apply list_elem_of_filter; auto).
    rewrite E in Hin. inversion Hin.
Qed.

Lemma nx_graph_is_node ped i :
  is_Some (dict_get i (nx._succ (nx_graph ped))) <->
  i ∈ map id (people ped) \/ i ∈ endpoints ped.
Proof.
  rewrite dict_get_is_Some.
  destruct (nx_graph_consistent ped) as [<- _].
  rewrite <- dict_get_is_Some, nx_graph_node, <- last_person_is_Some.
  destruct (last_person ped i) as [p|].
  - split; [left|]; eauto.
  - case_decide as E; split.
    + eauto.
    + eauto.
    + intros [? [=]].
    + intros [[? [=]]|H]; contradiction.
Qed.

Lemma nx_number_of_nodes ped :
  nx.number_of_nodes (nx_graph ped) =
  size (list_to_set (map id (people ped) ++ endpoints ped) : gset Z).
Proof.
  unfold nx.number_of_nodes.
  rewrite <- (length_map fst). fold (dict_keys (nx._node (nx_graph ped))).
  destruct (nx_graph_consistent ped) as [Hk Hnd]. rewrite Hk.
  rewrite <- (size_list_to_set (C := gset Z)) by exact Hnd.
  f_equal. apply set_eq. intros k.
  rewrite !elem_of_list_to_set, elem_of_app, <- nx_graph_is_node, dict_get_is_Some.
  reflexivity.
Qed.

(** ** The inference on either class *)

Lemma has_edge_with_type_nx G g u v t :
  same_edges G g -> _has_edge_with_type_nx G u v t = _has_edge_with_type g u v t.
Proof.
  intros [He _]. unfold _has_edge_with_type_nx, _has_edge_with_type, nx.has_edge.
  rewrite <- He. unfold nx.edge_type, dict_has.
  destruct (dict_get u (nx._succ G)) as [nbrs|]; [|reflexivity].
  destruct (dict_get v nbrs) as [t'|]; [|reflexivity]. simpl.
  destruct (decide (t' = t)).
  - rewrite !bool_decide_eq_true_2; congruence.
  - rewrite !bool_decide_eq_false_2; congruence.
Qed.

Lemma successors_nx_node G u :
  _successors_nx G u =
  if dict_has u (nx._succ G) then Ok (succ_keys G u) else Raise NetworkXError.
Proof.
  unfold _successors_nx, nx.successors, succ_keys, dict_has.
  destruct (dict_get u (nx._succ G)); reflexivity.
Qed.

Lemma successors_nx G g u :
  same_edges G g -> is_Some (dict_get u (nx._succ G)) ->
  _successors_nx G u = Ok (_successors g u).
Proof.
  intros [_ Hs] [nbrs H]. rewrite successors_nx_node. unfold dict_has, _successors.
  rewrite H, Hs. reflexivity.
Qed.

Lemma map_result_map {A B} (f : A -> result B) (h : A -> B) xs :
  (forall x, x ∈ xs -> f x = Ok (h x)) -> map_result f xs = Ok (map h xs).
Proof.
  induction xs as [|x xs IH]; intros H; simpl; [reflexivity|].
  rewrite (H x) by left. simpl. rewrite IH; [reflexivity|].
  intros y Hy. apply H. right. exact Hy.
Qed.

Lemma for_each_Ok {A S} (body : S -> A -> result S) (h : S -> A -> S) xs :
  (forall s x, x ∈ xs -> body s x = Ok (h s x)) ->
  forall s, for_each body xs s = Ok (fold_left h xs s).
Proof.
  induction xs as [|x xs IH]; intros H s; simpl; [reflexivity|].
  rewrite (H s x) by left. simpl. apply IH.
  intros s' y Hy. apply H. right. exact Hy.
Qed.

Lemma concat_pairs (k : Z -> list Z) (A : list Z) :
  concat (map (fun a => map (fun nbr => (a, nbr)) (k a)) A) =
  (a ← A; nbr ← k a; [(a, nbr)]).
Proof.
  induction A as [|a A IH]; simpl; [reflexivity|].
  rewrite IH. f_equal.
Qed.

Lemma sibling_pairs_agree G g A :
  same_edges G g -> sibling_pairs_nx G A = sibling_pairs g A.
Proof.
  intros H. unfold sibling_pairs_nx, sibling_pairs. f_equal.
  apply list_filter_iff. intros [i j]. simpl.
  rewrite (has_edge_with_type_nx G g) by exact H. reflexivity.
Qed.

Lemma parent_child_hits_agree G g A :
  same_edges G g ->
  (forall a, a ∈ A -> is_Some (dict_get a (nx._succ G))) ->
  parent_child_hits_nx G A = Ok (parent_child_hits g A).
Proof.
  intros H Hnodes. unfold parent_child_hits_nx, parent_child_hits.
  rewrite (map_result_map _ (fun a => map (fun nbr => (a, nbr)) (_successors g a))).
  - simpl. rewrite concat_pairs. do 2 f_equal.
    apply list_filter_iff. intros [a n]. simpl.
    rewrite !(has_edge_with_type_nx G g) by exact H. reflexivity.
  - intros a Ha. rewrite (successors_nx G g) by auto. reflexivity.
Qed.

Lemma condition_flags_agree G g flags item :
  same_edges G g ->
  (forall a, a ∈ item.2 -> is_Some (dict_get a (nx._succ G))) ->
  condition_flags_nx G flags item = Ok (condition_flags g flags item).
Proof.
  intros H Hnodes. destruct item as [c A]. unfold condition_flags_nx, condition_flags.
  rewrite (parent_child_hits_agree G g) by assumption. simpl.
  rewrite (sibling_pairs_agree G g) by exact H. reflexivity.
Qed.

Lemma affected_fold ps c : forall mapping,
  dict_get_default c []
    (fold_left (fun mapping person =>
                  fold_left (fun mapping condition =>
                               dict_append (str_lower condition) (id person) mapping)
                    (conditions person) mapping) ps mapping) =
  dict_get_default c [] mapping ++
  flat_map (fun p => flat_map (fun cond => if decide (str_lower cond = c)
                                          then [id p] else []) (conditions p)) ps.
Proof.
  induction ps as [|p ps IH]; intros mapping; simpl.
  - rewrite app_nil_r. reflexivity.
  - rewrite IH, fold_conditions_get, <- app_assoc. reflexivity.
Qed.

Lemma affected_are_people ped c a :
  a ∈ affected ped c -> a ∈ map id (people ped).
Proof.
  unfold affected, _condition_to_people. rewrite affected_fold. simpl.
  intros H. apply list_elem_of_In, in_flat_map in H as (p & Hp & H).
  apply in_flat_map in H as (cond & _ & H).
  destruct (decide (str_lower cond = c)); [|destruct H].
  destruct H as [<-|[]]. apply list_elem_of_fmap. exists p.
  split; [reflexivity|apply list_elem_of_In; exact Hp].
Qed.

Lemma condition_item_people ped item a :
  item ∈ _condition_to_people ped -> a ∈ item.2 -> a ∈ map id (people ped).
Proof.
  destruct item as [c A]. intros Hin Ha. apply (affected_are_people ped c).
  apply dict_get_elem_of in Hin; [|apply condition_map_NoDup].
  unfold affected, dict_get_default. rewrite Hin. exact Ha.
Qed.

Lemma infer_agree G g ped :
  same_edges G g ->
  (forall i, i ∈ map id (people ped) -> is_Some (dict_get i (nx._succ G))) ->
  infer_inheritance_patterns_nx G ped = Ok (infer_inheritance_patterns g ped).
Proof.
  intros H Hnodes. unfold infer_inheritance_patterns_nx, infer_inheritance_patterns.
  rewrite (for_each_Ok _ (condition_flags g)); [reflexivity|].
  intros flags item Hitem. apply condition_flags_agree; [exact H|].
  intros a Ha. apply Hnodes. exact (condition_item_people ped item a Hitem Ha).
Qed.

Lemma infer_graphs_agree ped :
  infer_inheritance_patterns_nx (nx_graph ped) ped =
  Ok (infer_inheritance_patterns (fallback_graph ped) ped).
Proof.
  apply infer_agree; [apply same_edges_graphs|].
  intros i Hi. apply nx_graph_is_node. left. exact Hi.
Qed.

(** ** Identity fields do not reach the analysis *)

Lemma dict_has_same_keys {K V W} `{EqDecision K} (k : K) (d1 : list (K * V))
    (d2 : list (K * W)) :
  dict_keys d1 = dict_keys d2 -> dict_has k d1 = dict_has k d2.
Proof.
  intros Hk. destruct (dict_has k d2) eqn:E.
  - apply dict_has_true. rewrite Hk. apply dict_has_true. exact E.
  - destruct (dict_has k d1) eqn:E1; [|reflexivity].
    apply dict_has_true in E1. rewrite Hk in E1. apply dict_has_true in E1.
    congruence.
Qed.

Lemma dict_keys_set_same {K V W} `{EqDecision K} (k : K) (v : V) (w : W) d1 d2 :
  dict_keys d1 = dict_keys d2 ->
  dict_keys (dict_set k v d1) = dict_keys (dict_set k w d2).
Proof. intros Hk. rewrite !dict_keys_set, Hk. reflexivity. Qed.

Lemma nx_add_node_sim G1 G2 n a1 a2 :
  nx._succ G1 = nx._succ G2 /\ dict_keys (nx._node G1) = dict_keys (nx._node G2) ->
  nx._succ (nx.add_node G1 n a1) = nx._succ (nx.add_node G2 n a2) /\
  dict_keys (nx._node (nx.add_node G1 n a1)) =
  dict_keys (nx._node (nx.add_node G2 n a2)).
Proof.
  intros [Hs Hk]. unfold nx.add_node. cbn [nx._succ nx._node]. rewrite Hs.
  split; [reflexivity|]. apply dict_keys_set_same, Hk.
Qed.

Lemma nx_touch_sim G1 G2 n :
  nx._succ G1 = nx._succ G2 /\ dict_keys (nx._node G1) = dict_keys (nx._node G2) ->
  nx._succ (nx.touch G1 n) = nx._succ (nx.touch G2 n) /\
  dict_keys (nx._node (nx.touch G1 n)) = dict_keys (nx._node (nx.touch G2 n)).
Proof.
  intros [Hs Hk]. unfold nx.touch. rewrite Hs.
  destruct (dict_has n (nx._succ G2)); [split; assumption|].
  cbn [nx._succ nx._node].
  split; [reflexivity|]. apply dict_keys_set_same, Hk.
Qed.

Lemma nx_add_edge_sim G1 G2 a b t :
  nx._succ G1 = nx._succ G2 /\ dict_keys (nx._node G1) = dict_keys (nx._node G2) ->
  nx._succ (nx.add_edge G1 a b t) = nx._succ (nx.add_edge G2 a b t) /\
  dict_keys (nx._node (nx.add_edge G1 a b t)) =
  dict_keys (nx._node (nx.add_edge G2 a b t)).
Proof.
  intros H. destruct (nx_touch_sim _ _ b (nx_touch_sim _ _ a H)) as [Hs Hk].
  unfold nx.add_edge. cbn [nx._succ nx._node]. rewrite Hs.
  split; [reflexivity|exact Hk].
Qed.

Lemma nx_fold_add_node_sim ps1 ps2 :
  Forall2 (fun a b => id a = id b /\ conditions a = conditions b) ps1 ps2 ->
  forall G1 G2,
  nx._succ G1 = nx._succ G2 /\ dict_keys (nx._node G1) = dict_keys (nx._node G2) ->
  nx._succ (fold_left (fun g person => nx.add_node g (id person) person) ps1 G1)
  = nx._succ (fold_left (fun g person => nx.add_node g (id person) person) ps2 G2) /\
  dict_keys (nx._node (fold_left (fun g person => nx.add_node g (id person) person)
                         ps1 G1))
  = dict_keys (nx._node (fold_left (fun g person => nx.add_node g (id person) person)
                           ps2 G2)).
Proof.
  induction 1 as [|a b ps1 ps2 [Hid _] _ IH]; intros G1 G2 H; simpl; [exact H|].
  apply IH. rewrite Hid. apply nx_add_node_sim, H.
Qed.

Lemma nx_fold_add_edge_sim rs : forall G1 G2,
  nx._succ G1 = nx._succ G2 /\ dict_keys (nx._node G1) = dict_keys (nx._node G2) ->
  nx._succ (fold_left (fun g r => nx.add_edge g (from_id r) (to_id r) (type r)) rs G1)
  = nx._succ (fold_left (fun g r => nx.add_edge g (from_id r) (to_id r) (type r))
                rs G2) /\
  dict_keys (nx._node (fold_left (fun g r => nx.add_edge g (from_id r) (to_id r)
                                            (type r)) rs G1))
  = dict_keys (nx._node (fold_left (fun g r => nx.add_edge g (from_id r) (to_id r)
                                              (type r)) rs G2)).
Proof.
  induction rs as [|r rs IH]; intros G1 G2 H; simpl; [exact H|].
  apply IH, nx_add_edge_sim, H.
Qed.

Lemma nx_graph_sim p1 p2 :
  same_analysis_input p1 p2 ->
  nx._succ (nx_graph p1) = nx._succ (nx_graph p2) /\
  dict_keys (nx._node (nx_graph p1)) = dict_keys (nx._node (nx_graph p2)).
Proof.
  intros [Hr Hp]. unfold nx_graph. rewrite <- Hr.
  apply nx_fold_add_edge_sim, nx_fold_add_node_sim; [exact Hp|].
  split; reflexivity.
Qed.

Lemma graph_touch_sim U1 U2 n :
  dict_keys (nx.node U1) = dict_keys (nx.node U2) /\ nx.adj U1 = nx.adj U2 ->
  dict_keys (nx.node (nx.graph_touch U1 n)) = dict_keys (nx.node (nx.graph_touch U2 n)) /\
  nx.adj (nx.graph_touch U1 n) = nx.adj (nx.graph_touch U2 n).
Proof.
  intros [Hk Ha]. unfold nx.graph_touch.
  rewrite (dict_has_same_keys n (nx.node U1) (nx.node U2) Hk).
  destruct (dict_has n (nx.node U2)); [split; assumption|].
  cbn [nx.node nx.adj]. rewrite Ha.
  split; [apply dict_keys_set_same, Hk|reflexivity].
Qed.

Lemma graph_add_edge_sim U1 U2 e :
  dict_keys (nx.node U1) = dict_keys (nx.node U2) /\ nx.adj U1 = nx.adj U2 ->
  dict_keys (nx.node (nx.graph_add_edge U1 e)) =
  dict_keys (nx.node (nx.graph_add_edge U2 e)) /\
  nx.adj (nx.graph_add_edge U1 e) = nx.adj (nx.graph_add_edge U2 e).
Proof.
  intros H. destruct e as [[u v] t].
  destruct (graph_touch_sim _ _ v (graph_touch_sim _ _ u H)) as [Hk Ha].
  unfold nx.graph_add_edge. cbn [nx.node nx.adj]. rewrite Ha.
  split; [exact Hk|reflexivity].
Qed.

Lemma to_undirected_sim G1 G2 :
  nx._succ G1 = nx._succ G2 /\ dict_keys (nx._node G1) = dict_keys (nx._node G2) ->
  dict_keys (nx.node (nx.to_undirected G1)) = dict_keys (nx.node (nx.to_undirected G2)) /\
  nx.adj (nx.to_undirected G1) = nx.adj (nx.to_undirected G2).
Proof.
  intros [Hs Hk]. unfold nx.to_undirected, nx.edges. rewrite Hs.
  assert (H0 : dict_keys (nx.node (nx.mkUndirected (nx._node G1)
                                     (map (fun na => (na.1, [])) (nx._node G1))))
               = dict_keys (nx.node (nx.mkUndirected (nx._node G2)
                                       (map (fun na => (na.1, [])) (nx._node G2)))) /\
               nx.adj (nx.mkUndirected (nx._node G1)
                         (map (fun na => (na.1, [])) (nx._node G1)))
               = nx.adj (nx.mkUndirected (nx._node G2)
                           (map (fun na => (na.1, [])) (nx._node G2)))).
  { cbn [nx.node nx.adj]. split; [exact Hk|].
    unfold dict_keys in Hk.
    rewrite <- (map_map fst (fun k : Z => (k, ([] : list (Z * string)))) (nx._node G1)).
    rewrite <- (map_map fst (fun k : Z => (k, ([] : list (Z * string)))) (nx._node G2)).
    rewrite Hk. reflexivity. }
  revert H0.
  generalize (nx.mkUndirected (nx._node G1) (map (fun na => (na.1, [])) (nx._node G1)))
             (nx.mkUndirected (nx._node G2) (map (fun na => (na.1, [])) (nx._node G2))).
  induction (flat_map _ (nx._succ G2)) as [|e es IH]; intros U1 U2 H; simpl;
    [exact H|].
  apply IH, graph_add_edge_sim, H.
Qed.

Lemma estimate_inbreeding_same order basis nx p1 p2 :
  cycle_basis_structural basis ->
  same_analysis_input p1 p2 ->
  estimate_inbreeding order basis (build_graph nx p1) =
  estimate_inbreeding order basis (build_graph nx p2).
Proof.
  intros Hb Hsame. destruct nx.
  - rewrite !build_graph_nx. unfold estimate_inbreeding.
    pose proof (nx_graph_sim p1 p2 Hsame) as Hsim.
    destruct (to_undirected_sim _ _ Hsim) as [Hk Ha].
    rewrite (Hb _ _ Hk Ha).
    unfold nx.number_of_nodes.
    rewrite <- (length_map fst (nx._node (nx_graph p1))).
    rewrite <- (length_map fst (nx._node (nx_graph p2))).
    destruct Hsim as [_ Hn]. unfold dict_keys in Hn. rewrite Hn. reflexivity.
  - rewrite !build_graph_fallback. destruct Hsame as [Hr Hp].
    pose proof (node_keys_same _ _ [] [] Hp eq_refl) as Hk.
    unfold estimate_inbreeding, _build_cycle_basis_fallback, build_adj,
      number_of_nodes.
    rewrite !fallback_graph_unfold. cbn [nodes_data edge_data].
    rewrite Hr.
    rewrite <- (length_map fst (fold_left _ (people p1) [])).
    rewrite <- (length_map fst (fold_left _ (people p2) [])).
    fold (dict_keys (fold_left (fun n person => dict_set (id person) person n)
                       (people p1) [])).
    fold (dict_keys (fold_left (fun n person => dict_set (id person) person n)
                       (people p2) [])).
    rewrite Hk. reflexivity.
Qed.

Lemma infer_same p1 p2 :
  same_analysis_input p1 p2 ->
  infer_inheritance_patterns (fallback_graph p1) p1 =
  infer_inheritance_patterns (fallback_graph p2) p2.
Proof.
  intros [Hr Hp].
  assert (Hc : _condition_to_people p1 = _condition_to_people p2)
    by (apply condition_map_same; exact Hp).
  rewrite !fallback_graph_unfold, Hr.
  unfold infer_inheritance_patterns. rewrite Hc. reflexivity.
Qed.

(** The result of [analyze_pedigree], from the score. *)
Lemma analyze_pedigree_Ok order basis nx ped s :
  estimate_inbreeding order basis (build_graph nx ped) = Ok s ->
  let flags := infer_inheritance_patterns (fallback_graph ped) ped in
  let risk := _risk_bucket s flags in
  analyze_pedigree order basis nx ped =
  Ok {| inbreeding_coefficient := s;
        inheritance_flags := flags;
        risk_level := risk;
        recommendations :=
          ["This tool is not medical advice; review with a licensed genetic counselor.";
           "Consider confirmatory genetic testing if there are multiple affected relatives."]
          ++ (if decide (risk = "High")
              then ["Recommend expedited specialist referral and targeted screening."]
              else if decide (risk = "Moderate")
              then ["Recommend non-urgent genetics referral and family-wide history validation."]
              else []) |}.
Proof.
  intros Hs flags risk. unfold analyze_pedigree. rewrite Hs. cbn [bind].
  assert (Hf : match build_graph nx ped with
               | NxGraph G => infer_inheritance_patterns_nx G ped
               | FallbackGraph g => Ok (infer_inheritance_patterns g ped)
               end = Ok flags).
  { destruct nx.
    - rewrite build_graph_nx. apply infer_graphs_agree.
    - rewrite build_graph_fallback. reflexivity. }
  rewrite Hf. cbn [bind]. fold risk.
  do 2 f_equal. repeat case_decide; reflexivity.
Qed.

Lemma estimate_inbreeding_total order basis g :
  (forall u l, order u l ≡ₚ l) ->
  exists s, estimate_inbreeding order basis g = Ok s.
Proof.
  intros Hp. destruct g as [G|g].
  - destruct (estimate_inbreeding_nx order basis G) as (s & Hs & _). eauto.
  - destruct (build_cycle_basis_total order g Hp) as [cycles Hc].
    destruct (estimate_inbreeding_fallback order basis g cycles Hc) as (s & Hs & _).
    eauto.
Qed.

(** C10.  The analysis does not depend on identity fields, whichever class
    the graph is of: two pedigrees with the same ids and conditions per
    person, in the same order, and the same relationships get a result, and
    the same one, whatever the names, genders and dates of birth --
    provided, on an [nx.DiGraph], that [nx.cycle_basis] reads the nodes and
    the adjacency of the graph and not the attributes of the nodes. *)
Theorem C10_identity_noninterference
    (order : Z -> list Z -> list Z) (basis : nx.Graph -> list (list Z))
    (nx_imported : bool) (p1 p2 : Pedigree) :
  (forall u l, order u l ≡ₚ l) ->
  cycle_basis_structural basis ->
  same_analysis_input p1 p2 ->
  exists r, analyze_pedigree order basis nx_imported p1 = Ok r /\
            analyze_pedigree order basis nx_imported p2 = Ok r.
Proof.
  intros Hp Hb Hsame.
  destruct (estimate_inbreeding_total order basis (build_graph nx_imported p1) Hp)
    as [s Hs].
  pose proof Hs as Hs2.
  rewrite (estimate_inbreeding_same order basis nx_imported p1 p2 Hb Hsame) in Hs2.
  eexists. split.
  - apply analyze_pedigree_Ok. exact Hs.
  - rewrite (analyze_pedigree_Ok order basis nx_imported p2 s Hs2).
    cbv zeta. rewrite (infer_same p1 p2 Hsame). reflexivity.
Qed.

Lemma C10_identity_noninterference_witness :
  (forall (u : Z) (l : list Z), l ≡ₚ l) /\
  cycle_basis_structural triangle_basis /\
  same_analysis_input ped_sibling ped_sibling_anonymous /\
  exists r, analyze_pedigree (fun _ l => l) triangle_basis true ped_sibling = Ok r /\
            analyze_pedigree (fun _ l => l) triangle_basis true ped_sibling_anonymous
            = Ok r.
Proof.
  assert (Hs : same_analysis_input ped_sibling ped_sibling_anonymous).
  { split; [reflexivity|]. repeat constructor. }
  split; [reflexivity|]. split; [exact triangle_basis_structural|].
  split; [exact Hs|].
  apply (C10_identity_noninterference (fun _ l => l) triangle_basis true ped_sibling
           ped_sibling_anonymous);
    [reflexivity|exact triangle_basis_structural|exact Hs].
Defined.

Example sibling_analysis (nx_imported : bool) :
  analyze_pedigree (fun _ l => l) triangle_basis nx_imported ped_sibling =
  Ok {| inbreeding_coefficient := 0;
        inheritance_flags := ["Autosomal recessive pattern possible for diabetes"];
        risk_level := "Moderate";
        recommendations :=
          ["This tool is not medical advice; review with a licensed genetic counselor.";
           "Consider confirmatory genetic testing if there are multiple affected relatives.";
           "Recommend non-urgent genetics referral and family-wide history validation."] |}.
Proof. destruct nx_imported; vm_compute; reflexivity. Qed.

(** ** Edges and nodes of the graph *)

Lemma fallback_last_relationship ped u v t :
  _has_edge_with_type (fallback_graph ped) u v t
    = bool_decide (type <$> last_relationship ped u v = Some t) /\
  (v ∈ _successors (fallback_graph ped) u <->
     exists r, r ∈ relationships ped /\ from_id r = u /\ to_id r = v) /\
  NoDup (_successors (fallback_graph ped) u).
Proof.
  rewrite fallback_graph_unfold.
  unfold _has_edge_with_type, _successors, successors, last_relationship.
  cbn [edge_data].
  pose proof (fold_dict_set_get (fun r => (from_id r, to_id r)) type
                (relationships ped) (u, v) []) as Hget.
  destruct (fold_dict_set_keys (fun r => (from_id r, to_id r)) type
              (relationships ped) [] (NoDup_nil_2)) as [Hnd Hkeys].
  set (edges := fold_left _ (relationships ped) []) in *.
  split; [|split].
  - assert (Hfilter : filter (fun r => (from_id r, to_id r) = (u, v)) (relationships ped)
                      = filter (fun r => from_id r = u /\ to_id r = v) (relationships ped)).
    { apply list_filter_iff. intros r. split; [intros [= -> ->]; auto|intros [-> ->]; reflexivity]. }
    assert (Hg : dict_get (u, v) edges
                 = type <$> last (filter (fun r => from_id r = u /\ to_id r = v)
                                    (relationships ped))).
    { rewrite Hget, Hfilter. destruct (last _); reflexivity. }
    rewrite Hg. clear Hget Hg Hfilter.
    destruct (last _) as [r|]; simpl.
    + destruct (decide (type r = t)) as [Heq|Hne].
      * rewrite !bool_decide_eq_true_2; [reflexivity|congruence|exact Heq].
      * rewrite !bool_decide_eq_false_2; [reflexivity|congruence|exact Hne].
    + reflexivity.
  - rewrite list_elem_of_fmap. split.
    + intros ([a b] & -> & Hin). apply list_elem_of_filter in Hin as [Ha Hin].
      simpl in Ha. subst a. apply Hkeys in Hin as [Hin|Hin]; [inversion Hin|].
      apply list_elem_of_fmap in Hin as (r & [= -> ->] & Hr). eauto.
    + intros (r & Hr & <- & <-). exists (from_id r, to_id r). split; [reflexivity|].
      apply list_elem_of_filter. split; [reflexivity|].
      apply Hkeys. right. apply list_elem_of_fmap. eauto.
  - apply NoDup_fmap_2_strong; [|apply NoDup_filter; exact Hnd].
    intros [a b] [a' b'] Hin Hin' Heq.
    apply list_elem_of_filter in Hin as [Ha _], Hin' as [Ha' _]. simpl in *. congruence.
Qed.

(** X14.  [build_graph] keeps one edge for each ordered pair of endpoints,
    typed by the last relationship between them, in either class:
    [_has_edge_with_type] tests the type of that last relationship, and the
    successors of a node are the targets of its relationships, each listed
    once.  The classes differ on an id that is neither the id of a person nor
    an endpoint of a relationship: [_successors] raises [NetworkXError] on
    an [nx.DiGraph], and on these ids only, where the class of the module
    returns the empty list. *)
Theorem X14_last_relationship_wins (nx_imported : bool) (ped : Pedigree)
    (u v : Z) (t : string) :
  match build_graph nx_imported ped with
  | FallbackGraph g =>
      _has_edge_with_type g u v t
        = bool_decide (type <$> last_relationship ped u v = Some t) /\
      (v ∈ _successors g u <->
         exists r, r ∈ relationships ped /\ from_id r = u /\ to_id r = v) /\
      NoDup (_successors g u)
  | NxGraph G =>
      _has_edge_with_type_nx G u v t
        = bool_decide (type <$> last_relationship ped u v = Some t) /\
      match _successors_nx G u with
      | Ok l =>
          (u ∈ map id (people ped) \/ u ∈ endpoints ped) /\
          (v ∈ l <->
             exists r, r ∈ relationships ped /\ from_id r = u /\ to_id r = v) /\
          NoDup l
      | Raise e =>
          e = NetworkXError /\ u ∉ map id (people ped) /\ u ∉ endpoints ped
      end
  end.
Proof.
  pose proof (fallback_last_relationship ped u v t) as (He & Hs & Hnd).
  destruct nx_imported.
  - rewrite build_graph_nx.
    pose proof (same_edges_graphs ped) as Hsame.
    rewrite (has_edge_with_type_nx _ _ u v t Hsame). split; [exact He|].
    rewrite successors_nx_node.
    pose proof (nx_graph_is_node ped u) as Hnode.
    destruct Hsame as [_ Hk]. rewrite Hk.
    unfold dict_has. destruct (dict_get u (nx._succ (nx_graph ped))) as [nbrs|].
    + split; [apply Hnode; eauto|]. split; [exact Hs|exact Hnd].
    + split; [reflexivity|].
      split; intros Hin; destruct Hnode as [_ Hn];
        (destruct Hn as [? [=]]; auto).
  - rewrite build_graph_fallback. auto.
Qed.

Example stranger_successors :
  _successors (fallback_graph ped_stranger) 7 = [] /\
  _successors_nx (nx_graph ped_stranger) 7 = Raise NetworkXError /\
  _successors_nx (nx_graph ped_stranger) 5 = Ok [] /\
  _successors_nx (nx_graph ped_stranger) 1 = Ok [5].
Proof. repeat split. Qed.

Lemma fallback_nodes ped i :
  number_of_nodes (fallback_graph ped)
    = size (list_to_set (map id (people ped)) : gset Z) /\
  dict_get i (nodes_data (fallback_graph ped)) = last_person ped i.
Proof.
  rewrite fallback_graph_unfold. unfold number_of_nodes, last_person. cbn [nodes_data].
  split.
  - destruct (fold_dict_set_keys id (fun p : Person => p) (people ped) []
                (NoDup_nil_2)) as [Hnd Hkeys].
    set (nodes := fold_left _ (people ped) []) in *.
    rewrite <- (length_map fst nodes). fold (dict_keys nodes).
    rewrite <- (size_list_to_set (C := gset Z)) by exact Hnd.
    f_equal. apply set_eq. intros k. rewrite !elem_of_list_to_set, Hkeys.
    rewrite elem_of_nil. tauto.
  - rewrite (fold_dict_set_get id (fun p : Person => p)).
    destruct (last _); reflexivity.
Qed.

(** X15.  The nodes of the graph that [build_graph] returns.  In the class
    of the module they are the distinct ids of the people, and relationships
    add none: [number_of_nodes] is the number of distinct ids, and the
    attributes of a node are the last person with that id.  In an
    [nx.DiGraph] they are the distinct ids of the people and endpoints of the
    relationships: an endpoint that is not the id of a person is a node
    without attributes. *)
Theorem X15_nodes_are_distinct_ids (nx_imported : bool) (ped : Pedigree) (i : Z) :
  match build_graph nx_imported ped with
  | FallbackGraph g =>
      number_of_nodes g = size (list_to_set (map id (people ped)) : gset Z) /\
      dict_get i (nodes_data g) = last_person ped i
  | NxGraph G =>
      nx.number_of_nodes G
        = size (list_to_set (map id (people ped) ++ endpoints ped) : gset Z) /\
      dict_get i (nx._node G)
        = match last_person ped i with
          | Some p => Some (Some p)
          | None => if decide (i ∈ endpoints ped) then Some None else None
          end
  end.
Proof.
  destruct nx_imported.
  - rewrite build_graph_nx. split; [apply nx_number_of_nodes|apply nx_graph_node].
  - rewrite build_graph_fallback. apply fallback_nodes.
Qed.

Example stranger_nodes :
  number_of_nodes (fallback_graph ped_stranger) = 1%nat /\
  nx.number_of_nodes (nx_graph ped_stranger) = 2%nat /\
  dict_get 5 (nx._node (nx_graph ped_stranger)) = Some None.
Proof. repeat split. Qed.

(** ** The result of the analysis *)

(** X17.  Two people affected by the same condition, the last relationship
    from the first to the second being of type [parent] or [child]:
    [analyze_pedigree] returns, whichever class the graph is of and whatever
    the score, a result with the dominant flag of the condition, the level
    High and the recommendation of an expedited referral. *)
Theorem X17_affected_parent_child_is_high
    (order : Z -> list Z -> list Z) (basis : nx.Graph -> list (list Z))
    (nx_imported : bool) (ped : Pedigree) (c : string) (a b : Z) :
  (forall u l, order u l ≡ₚ l) ->
  a ∈ affected ped c -> b ∈ affected ped c ->
  (exists rel, last_relationship ped a b = Some rel /\
               (type rel = "parent" \/ type rel = "child")) ->
  exists r,
    analyze_pedigree order basis nx_imported ped = Ok r /\
    dominant_flag c ∈ inheritance_flags r /\
    risk_level r = "High" /\
    recommendations r =
      ["This tool is not medical advice; review with a licensed genetic counselor.";
       "Consider confirmatory genetic testing if there are multiple affected relatives.";
       "Recommend expedited specialist referral and targeted screening."].
Proof.
  intros Hp Ha Hb (rel & Hlast & Htype).
  destruct (estimate_inbreeding_total order basis (build_graph nx_imported ped) Hp)
    as [s Hs].
  eexists. split; [apply analyze_pedigree_Ok; exact Hs|]. cbv zeta.
  cbn [inheritance_flags risk_level recommendations].
  set (flags := infer_inheritance_patterns (fallback_graph ped) ped).
  assert (Hdom : dominant_flag c ∈ flags).
  { apply dominant_flag_emitted, parent_child_hits_spec. exists a, b.
    split; [exact Ha|]. split; [exact Hb|].
    destruct Htype as [Ht|Ht]; [left|right];
      rewrite (proj1 (fallback_last_relationship ped a b _));
      apply bool_decide_eq_true_2; rewrite Hlast; simpl; congruence. }
  assert (Hhigh : _risk_bucket s flags = "High").
  { unfold _risk_bucket.
    assert (Hany : any_flag_contains "dominant" flags = true).
    { apply any_flag_contains_spec. exists (dominant_flag c).
      split; [apply list_elem_of_In; exact Hdom|apply dominant_flag_contains]. }
    rewrite Hany, orb_true_r. reflexivity. }
  split; [exact Hdom|]. split; [exact Hhigh|].
  rewrite Hhigh. reflexivity.
Qed.

Lemma X17_affected_parent_child_is_high_witness :
  exists r,
    analyze_pedigree (fun _ l => l) triangle_basis true ped_test_analysis = Ok r /\
    dominant_flag "condition_a" ∈ inheritance_flags r /\
    risk_level r = "High" /\
    recommendations r =
      ["This tool is not medical advice; review with a licensed genetic counselor.";
       "Consider confirmatory genetic testing if there are multiple affected relatives.";
       "Recommend expedited specialist referral and targeted screening."].
Proof.
  apply (X17_affected_parent_child_is_high (fun _ l => l) triangle_basis true
           ped_test_analysis "condition_a" 1 3).
  - reflexivity.
  - vm_compute. repeat constructor.
  - vm_compute. repeat constructor.
  - exists (mkRelationship 1 3 "parent"). split; [reflexivity|left; reflexivity].
Defined.

Lemma estimate_inbreeding_acyclic order basis g :
  (forall u l, order u l ≡ₚ l) ->
  cycle_basis_sound basis -> acyclic_graph g ->
  estimate_inbreeding order basis g = Ok 0%Q.
Proof.
  intros Hp Hsound Hacyc. destruct g as [G|g].
  - destruct (estimate_inbreeding_nx order basis G) as (s & Hs & _ & _ & Hz).
    rewrite Hs, Hz; [reflexivity|]. exact (sound_basis_of_forest _ _ Hsound Hacyc).
  - destruct (build_cycle_basis_total order g Hp) as [cycles Hc].
    destruct (estimate_inbreeding_fallback order basis g cycles Hc)
      as (s & Hs & _ & _ & Hz).
    rewrite Hs, Hz; [reflexivity|]. unfold _build_cycle_basis_fallback in Hc.
    exact (roots_loop_no_cycle (uedge g) (uedge_sym g) (acyclic_all_bridges g Hacyc)
             order Hp (build_adj g) (build_adj_ok g) _ _ _ _ Hc).
Qed.

(** X18.  For a pedigree in which nobody has a condition and whose graph has
    no self-loop and no cycle, [analyze_pedigree] returns the score 0, the
    sentinel flag alone, the level Low and the two standing recommendations
    only -- whichever class the graph is of, provided, on an [nx.DiGraph],
    that [nx.cycle_basis] lists cycles of the graph only. *)
Theorem X18_no_condition_no_cycle_is_low
    (order : Z -> list Z -> list Z) (basis : nx.Graph -> list (list Z))
    (nx_imported : bool) (ped : Pedigree) :
  (forall u l, order u l ≡ₚ l) ->
  cycle_basis_sound basis ->
  (forall p, p ∈ people ped -> conditions p = []) ->
  acyclic_graph (build_graph nx_imported ped) ->
  analyze_pedigree order basis nx_imported ped =
    Ok {| inbreeding_coefficient := 0;
          inheritance_flags := [no_pattern_flag];
          risk_level := "Low";
          recommendations :=
            ["This tool is not medical advice; review with a licensed genetic counselor.";
             "Consider confirmatory genetic testing if there are multiple affected relatives."] |}.
Proof.
  intros Hp Hsound Hnone Hacyc.
  rewrite (analyze_pedigree_Ok order basis nx_imported ped 0%Q
             (estimate_inbreeding_acyclic order basis _ Hp Hsound Hacyc)).
  cbv zeta.
  assert (Hf : infer_inheritance_patterns (fallback_graph ped) ped = [no_pattern_flag]).
  { unfold infer_inheritance_patterns, _condition_to_people.
    rewrite (no_conditions_map _ _ Hnone). reflexivity. }
  rewrite Hf. reflexivity.
Qed.

Lemma nx_couple_acyclic : acyclic_graph (build_graph true ped_couple).
Proof.
  rewrite build_graph_nx. unfold acyclic_graph.
  assert (Hedge : forall x y,
            nx_adjacent (nx.to_undirected (nx_graph ped_couple)) x y ->
            (x = 1 /\ y = 2) \/ (x = 2 /\ y = 1)).
  { intros x y. unfold nx_adjacent.
    change (nx.adj (nx.to_undirected (nx_graph ped_couple)))
      with [(1, [(2, "spouse")]); (2, [(1, "spouse")])].
    unfold dict_get_default. cbn [dict_get].
    destruct (decide (x = 1)) as [->|H1].
    - intros H. apply list_elem_of_singleton in H. auto.
    - destruct (decide (x = 2)) as [->|H2].
      + intros H. apply list_elem_of_singleton in H. auto.
      + intros H. inversion H. }
  split.
  - intros u Hu. destruct (Hedge _ _ Hu) as [[-> [=]]|[-> [=]]].
  - intros c (Hlen & Hnd & Hch & _).
    destruct c as [|x [|y [|z c]]]; simpl in Hlen; try lia.
    destruct Hch as (Hxy & Hyz & _).
    apply NoDup_cons in Hnd as [Hx _].
    assert (Hzx : z = x).
    { destruct (Hedge _ _ Hxy) as [[-> ->]|[-> ->]],
               (Hedge _ _ Hyz) as [[? ->]|[? ->]]; congruence. }
    subst z. apply Hx. right. left.
Qed.

Lemma X18_no_condition_no_cycle_is_low_witness :
  analyze_pedigree (fun _ l => l) triangle_basis true ped_couple =
    Ok {| inbreeding_coefficient := 0;
          inheritance_flags := [no_pattern_flag];
          risk_level := "Low";
          recommendations :=
            ["This tool is not medical advice; review with a licensed genetic counselor.";
             "Consider confirmatory genetic testing if there are multiple affected relatives."] |}.
Proof.
  apply (X18_no_condition_no_cycle_is_low (fun _ l => l) triangle_basis true
           ped_couple).
  - reflexivity.
  - exact triangle_basis_sound.
  - intros p Hp. apply list_elem_of_In in Hp. simpl in Hp.
    destruct Hp as [<-|[<-|[]]]; reflexivity.
  - exact nx_couple_acyclic.
Defined.
